(** * opnsense-filterlog: log stream, line index and filter compiler

    A shallow embedding of the Go sources of the repository
    (package [stream]: [internal/stream/stream.go]; package [filter]:
    [filter.go], of which the tree holds two revisions) together with the
    properties its specification states about them.

    Conventions.
    - A Go [string] is a sequence of bytes: [string] of the Standard Library.
    - Go's [int] and [int64] are [Z]; where the program adds to a counter that
      is not bounded by a string length the 64-bit wrap-around is written out
      ([wrap64]).  [uint8] and [uint16] hold what [strconv.ParseUint] returned
      for that bit size, so they are [Z] in range by construction.
    - Indexing or slicing out of range panics in Go: [Go.slice] and
      [Go.slice_from] return an [outcome], whose [Panic] is that case.
    - Functions of the Go standard library are modelled in [Module Go] from
      their documentation; what [bufio.Scanner] does when [Scan] is called
      again after it has failed is not documented and follows the code of the
      library.  Two functions rest on tables that are not modelled and are
      parameters instead: [time.Parse] for the RFC 3339 layout, and the
      Unicode branch of [strings.ToLower] (strings with a byte above 127). *)

From Stdlib Require Import ZArith List String Ascii Bool Lia DecimalString.
From Stdlib Require Import Sorted.
Import ListNotations.

Set Implicit Arguments.

Open Scope string_scope.
Open Scope Z_scope.

(* ================================================================== *)
(** * The Go standard library, as far as the program uses it           *)
(* ================================================================== *)

Module Go.

(** A computation that may end in a run-time panic. *)
Inductive outcome (A : Type) : Type :=
| Done (a : A)
| Panic.
Arguments Panic {A}.

Definition bind {A B : Type} (m : outcome A) (k : A -> outcome B) : outcome B :=
  match m with
  | Done a => k a
  | Panic => Panic
  end.

(** [len(s)] *)
Definition len (s : string) : Z := Z.of_nat (String.length s).

Fixpoint drop (n : nat) (s : string) : string :=
  match n, s with
  | O, _ => s
  | S n', String _ s' => drop n' s'
  | S _, EmptyString => EmptyString
  end.

Fixpoint take (n : nat) (s : string) : string :=
  match n, s with
  | O, _ => EmptyString
  | S n', String c s' => String c (take n' s')
  | S _, EmptyString => EmptyString
  end.

(** [s[i:]] *)
Definition slice_from (s : string) (i : Z) : outcome string :=
  if (0 <=? i) && (i <=? len s) then Done (drop (Z.to_nat i) s) else Panic.

(** [s[i:j]] *)
Definition slice (s : string) (i j : Z) : outcome string :=
  if (0 <=? i) && (i <=? j) && (j <=? len s)
  then Done (take (Z.to_nat (j - i)) (drop (Z.to_nat i) s))
  else Panic.

(** [strings.IndexByte(s, c)]: index of the first [c] in [s], or -1. *)
Fixpoint IndexByte (s : string) (c : ascii) : Z :=
  match s with
  | EmptyString => -1
  | String a s' =>
      if Ascii.eqb a c then 0
      else let i := IndexByte s' c in if i <? 0 then -1 else i + 1
  end.

(** [strings.HasPrefix(s, prefix)] *)
Fixpoint HasPrefix (s p : string) {struct p} : bool :=
  match p, s with
  | EmptyString, _ => true
  | String _ _, EmptyString => false
  | String b p', String a s' => Ascii.eqb a b && HasPrefix s' p'
  end.

(** [strings.Index(s, substr)]: index of the first occurrence, or -1. *)
Fixpoint Index (s sub : string) : Z :=
  if HasPrefix s sub then 0
  else match s with
       | EmptyString => -1
       | String _ s' => let i := Index s' sub in if i <? 0 then -1 else i + 1
       end.

(** [strings.Contains(s, substr)] is [Index(s, substr) >= 0]. *)
Definition Contains (s sub : string) : bool := 0 <=? Index s sub.

Definition byte_of (c : ascii) : Z := Z.of_nat (nat_of_ascii c).

Definition isASCII (s : string) : bool :=
  forallb (fun c => byte_of c <? 128) (list_ascii_of_string s).

Definition lower_byte (c : ascii) : ascii :=
  if (65 <=? byte_of c) && (byte_of c <=? 90)
  then ascii_of_nat (nat_of_ascii c + 32)
  else c.

Fixpoint map_bytes (f : ascii -> ascii) (s : string) : string :=
  match s with
  | EmptyString => EmptyString
  | String c s' => String (f c) (map_bytes f s')
  end.

(** [strings.ToLower(s)].  The library has a fast path for a string of ASCII
    bytes (letters [A]-[Z] are moved to [a]-[z]); any other string goes
    through [unicode.ToLower] rune by rune, which [unicodeLower] stands for. *)
Definition ToLower (unicodeLower : string -> string) (s : string) : string :=
  if isASCII s then map_bytes lower_byte s else unicodeLower s.

(** The byte sequences [unicode.IsSpace] accepts, in UTF-8: the six ASCII
    spaces, U+0085, U+00A0, U+1680, U+2000..U+200A, U+2028, U+2029, U+202F,
    U+205F and U+3000. *)
Definition bytes (l : list nat) : string :=
  string_of_list_ascii (map ascii_of_nat l).

Definition space_runes : list string :=
  map bytes
    [ [9]; [10]; [11]; [12]; [13]; [32];
      [194; 133]; [194; 160]; [225; 154; 128];
      [226; 128; 128]; [226; 128; 129]; [226; 128; 130]; [226; 128; 131];
      [226; 128; 132]; [226; 128; 133]; [226; 128; 134]; [226; 128; 135];
      [226; 128; 136]; [226; 128; 137]; [226; 128; 138];
      [226; 128; 168]; [226; 128; 169]; [226; 128; 175];
      [226; 129; 159]; [227; 128; 128] ]%nat.

(** The space rune [s] starts with, if any. *)
Definition leading_space (s : string) : option string :=
  find (HasPrefix s) space_runes.

Fixpoint trim_left (fuel : nat) (s : string) : string :=
  match fuel with
  | O => s
  | S fuel' =>
      match leading_space s with
      | Some r => trim_left fuel' (drop (String.length r) s)
      | None => s
      end
  end.

Fixpoint rev_string (s acc : string) : string :=
  match s with
  | EmptyString => acc
  | String c s' => rev_string s' (String c acc)
  end.

Definition reverse (s : string) : string := rev_string s EmptyString.

Definition trailing_space (s : string) : option string :=
  find (fun r => HasPrefix (reverse s) (reverse r)) space_runes.

Fixpoint trim_right (fuel : nat) (s : string) : string :=
  match fuel with
  | O => s
  | S fuel' =>
      match trailing_space s with
      | Some r => trim_right fuel' (take (String.length s - String.length r) s)
      | None => s
      end
  end.

(** [strings.TrimSpace(s)]: [s] without its leading and trailing white space.
    Every rune removed is at least one byte, so [length s] rounds are enough. *)
Definition TrimSpace (s : string) : string :=
  let t := trim_left (String.length s) s in
  trim_right (String.length t) t.

Definition is_digit (c : ascii) : bool :=
  (48 <=? byte_of c) && (byte_of c <=? 57).

Fixpoint digits_value (acc : Z) (s : string) : option Z :=
  match s with
  | EmptyString => Some acc
  | String c s' =>
      if is_digit c then digits_value (10 * acc + (byte_of c - 48)) s'
      else None
  end.

(** [strconv.ParseUint(s, 10, bitSize)]: the value of a non-empty string of
    decimal digits that fits [bitSize] bits; an error ([None]) otherwise
    (empty string, a sign, any other byte, or a value out of range). *)
Definition ParseUint (s : string) (bitSize : Z) : option Z :=
  match s with
  | EmptyString => None
  | _ =>
      match digits_value 0 s with
      | Some v => if v <? 2 ^ bitSize then Some v else None
      | None => None
      end
  end.

(** [fmt.Sprintf("%d", i)] *)
Definition FormatInt (i : Z) : string := NilZero.string_of_int (Z.to_int i).

(** Two's complement wrap-around of [int] and [int64] arithmetic. *)
Definition wrap64 (z : Z) : Z := (z + 2 ^ 63) mod 2 ^ 64 - 2 ^ 63.

(** ** [bufio.Scanner] with the default split function [bufio.ScanLines]

    [raw_lines data] are the physical lines of [data]: the bytes between
    newlines, the newline left out, a last line with no newline included when
    it is not empty. *)
Definition newline : ascii := ascii_of_nat 10.
Definition cr : ascii := ascii_of_nat 13.

Fixpoint raw_lines (data : string) : list string :=
  match data with
  | EmptyString => []
  | String c data' =>
      if Ascii.eqb c newline then EmptyString :: raw_lines data'
      else match raw_lines data' with
           | [] => [String c EmptyString]
           | l :: ls => String c l :: ls
           end
  end.

(** [dropCR]: ScanLines leaves out one carriage return that ends the line. *)
Fixpoint dropCR (l : string) : string :=
  match l with
  | EmptyString => EmptyString
  | String c EmptyString => if Ascii.eqb c cr then EmptyString else l
  | String c l' => String c (dropCR l')
  end.

(** [bufio.MaxScanTokenSize]: a line whose bytes do not fit the buffer with
    room for its newline stops the scanner with [bufio.ErrTooLong]. *)
Definition MaxScanTokenSize : Z := 64 * 1024.

Inductive scanError : Type := ErrTooLong.

(** A scanner is what it will still deliver: [pending] are the tokens the next
    calls of [Scan] return, in order, and [failure] is what [Err()] reports
    once they are used up ([None] at the end of the file).  A scanner that
    stops at a line too long keeps its buffer, full with the first
    [MaxScanTokenSize] bytes of that line: the call of [Scan] that reports the
    failure returns false, and the call after it runs the split function on
    the buffer as at the end of the input and returns it as a token; from then
    on [Scan] returns false.  [held] are the tokens [Scan] delivers after it
    has returned false once: that buffer, or none. *)
Record Scanner : Type := mkScanner {
  pending : list string;
  failure : option scanError;
  held : list string
}.

Fixpoint scan_tokens (ls : list string) : list string * option scanError :=
  match ls with
  | [] => ([], None)
  | l :: ls' =>
      if len l <? MaxScanTokenSize
      then let (ts, e) := scan_tokens ls' in (dropCR l :: ts, e)
      else ([], Some ErrTooLong)
  end.

(** The buffer a scanner of the lines [ls] holds when it stops at a line too
    long, as the token [ScanLines] makes of it. *)
Fixpoint scan_held (ls : list string) : list string :=
  match ls with
  | [] => []
  | l :: ls' =>
      if len l <? MaxScanTokenSize then scan_held ls'
      else [dropCR (take (Z.to_nat MaxScanTokenSize) l)]
  end.

(** The bytes a scanner of the lines [ls] has read from its reader when it
    stops at a line too long: the lines before it with their newlines, and
    the buffer. *)
Fixpoint scan_read (ls : list string) : Z :=
  match ls with
  | [] => 0
  | l :: ls' =>
      if len l <? MaxScanTokenSize then len l + 1 + scan_read ls'
      else MaxScanTokenSize
  end.

(** [bufio.NewScanner(r)] for a reader [r] that delivers [data]. *)
Definition NewScanner (data : string) : Scanner :=
  let (ts, e) := scan_tokens (raw_lines data) in
  mkScanner ts e (scan_held (raw_lines data)).

(** [sc.Scan()] followed by [sc.Text()]: the next token, [None] when [Scan]
    returns false, and the scanner after the call. *)
Definition Scan (sc : Scanner) : option string * Scanner :=
  match pending sc with
  | [] => (None, mkScanner (held sc) (failure sc) [])
  | t :: ts => (Some t, mkScanner ts (failure sc) (held sc))
  end.

End Go.

(* ================================================================== *)
(** * Package [stream]: [internal/stream/stream.go]                    *)
(* ================================================================== *)

Module Stream.
Import Go.

Definition MaxErrorsInMemory : Z := 1000.

Definition actionBinat := "binat".
Definition ActionBlock := "block".
Definition actionNat := "nat".
Definition ActionPass := "pass".
Definition actionRdr := "rdr".
Definition actionScrub := "scrub".
Definition actionSynproxyDrop := "synproxy-drop".

Definition directionIn := "in".
Definition directionInOut := "in/out".
Definition directionOut := "out".

Definition protoICMP := "icmp".
Definition protoICMPv6 := "ipv6-icmp".
Definition protoTCP := "tcp".
Definition protoUDP := "udp".

Definition reasonBadOffset := "bad-offset".
Definition reasonBadTimestamp := "bad-timestamp".
Definition reasonCongestion := "congestion".
Definition reasonFragment := "fragment".
Definition reasonIpOption := "ip-option".
Definition reasonMatch := "match".
Definition reasonMemory := "memory".
Definition reasonNormalize := "normalize".
Definition reasonProtoChecksum := "proto-cksum".
Definition reasonShort := "short".
Definition reasonSrcLimit := "src-limit".
Definition reasonStateInsert := "state-insert".
Definition reasonStateLimit := "state-limit".
Definition reasonStateMismatch := "state-mismatch".
Definition reasonSynproxy := "synproxy".

(** [type LogEntry struct].  [T] is the type of the [Time] field:
    [time.Time] in package [stream]; the filter never looks inside it. *)
Record LogEntry (T : Type) : Type := mkLogEntry {
  Action : string;
  Direction : string;
  Interface : string;
  Label : string;
  Reason : string;
  Time : T;
  Dst : string;
  IPVersion : Z;
  ProtoName : string;
  Src : string;
  DstPort : Z;
  SrcPort : Z
}.

(** [type fileOffset struct]: a line's position in the file. *)
Record fileOffset : Type := mkFileOffset {
  line : Z;
  offset : Z
}.

(** The errors the operations of a stream return.  Opening the file and
    reading it do not fail in this model: the file named by [path] holds the
    bytes [data] for as long as the stream lives. *)
Inductive streamError : Type :=
| ErrScanner (e : scanError)
| ErrMissingIndex
| ErrOutOfRange (lineNum n : Z)
| ErrSeek (lineNum : Z).

(** [extractCSVField]: the start index of field number [field], the loop
    [for range field] unrolled over its count. *)
Fixpoint field_start (csv : string) (n : nat) (start : Z) : outcome (option Z) :=
  match n with
  | O => Done (Some start)
  | S n' =>
      bind (slice_from csv start) (fun rest =>
      let idx := IndexByte rest ","%char in
      if idx =? -1 then Done None
      else field_start csv n' (start + (idx + 1)))
  end.

Definition extractCSVField (csv : string) (field : Z) : outcome (string * bool) :=
  bind (field_start csv (Z.to_nat field) 0) (fun st =>
  match st with
  | None => Done (EmptyString, false)
  | Some start =>
      bind (slice_from csv start) (fun rest =>
      let end_ := IndexByte rest ","%char in
      if end_ =? -1 then Done (rest, true)
      else bind (slice csv start (start + end_)) (fun f => Done (f, true)))
  end).

(** The body of [parseLine] runs in this monad: [Done (inr v)] goes on with
    [v]; [Done (inl msg)] is the pair of statements
    [s.addError(msg); return nil]; [Panic] is a run-time panic. *)
Definition parsing (A : Type) : Type := outcome (string + A).

Definition ret {A : Type} (a : A) : parsing A := Done (inr a).

Definition fail {A : Type} (msg : string) : parsing A := Done (inl msg).

Definition pbind {A B : Type} (m : parsing A) (k : A -> parsing B) : parsing B :=
  match m with
  | Done (inr a) => k a
  | Done (inl msg) => Done (inl msg)
  | Panic => Panic
  end.

(** A slice that must not panic. *)
Definition sliced {A : Type} (m : outcome A) : parsing A :=
  match m with
  | Done a => ret a
  | Panic => Panic
  end.

(** [v, ok := extractCSVField(csv, n); if !ok { s.addError(msg); return nil }] *)
Definition csvField (csv : string) (n : Z) (msg : string) : parsing string :=
  match extractCSVField csv n with
  | Done (v, true) => ret v
  | Done (_, false) => fail msg
  | Panic => Panic
  end.

(** [v, err := strconv.ParseUint(str, 10, bits); if err != nil { ... }] *)
Definition parseUint (str : string) (bits : Z) (msg : string) : parsing Z :=
  match ParseUint str bits with
  | Some v => ret v
  | None => fail msg
  end.

Notation "x <- m ; k" := (pbind m (fun x => k))
  (at level 61, m at next level, right associativity).

(** [fmt.Sprintf("invalid <what> on line %d", lineNum)] *)
Definition on_line (what : string) (lineNum : Z) : string :=
  "invalid " ++ what ++ " on line " ++ FormatInt lineNum.

(** A [switch] over string constants that stores the constant it matched, and
    the value itself in the [default] case. *)
Fixpoint switch_const (v : string) (cases : list string) : string :=
  match cases with
  | [] => v
  | c :: cases' => if String.eqb v c then c else switch_const v cases'
  end.

(** Source and destination port of a [tcp] or [udp] record: fields [i] and
    [i + 1]; [tag] is [udp4], [tcp4], [udp6] or [tcp6]. *)
Definition parsePorts (csv : string) (i : Z) (tag : string) (lineNum : Z)
  : parsing (Z * Z) :=
  srcPortStr <- csvField csv i (on_line (tag ++ "/srcPortStr") lineNum);
  srcPort <- parseUint srcPortStr 16 (on_line (tag ++ "/srcPort") lineNum);
  dstPortStr <- csvField csv (i + 1) (on_line (tag ++ "/dstPortStr") lineNum);
  dstPort <- parseUint dstPortStr 16 (on_line (tag ++ "/dstPort") lineNum);
  ret (srcPort, dstPort).

Section Parsing.

(** [time.Time], and [time.Parse(time.RFC3339, value)] with the text of its
    error. *)
Variable TimeT : Type.
Variable time_Parse : string -> TimeT + string.

(** The part of [parseLine] that depends on the IP version: protocol name,
    addresses and, for [tcp] and [udp], ports. *)
Definition parseIP (csv : string) (lineNum : Z) (v : string)
  (iProto iSrc iDst iPort : Z) (other : string)
  : parsing (string * string * string * Z * Z) :=
  protoName <- csvField csv iProto (on_line (v ++ "/protoName") lineNum);
  src <- csvField csv iSrc (on_line (v ++ "/src") lineNum);
  dst <- csvField csv iDst (on_line (v ++ "/dst") lineNum);
  let proto := switch_const protoName [protoTCP; protoUDP; other] in
  if String.eqb proto protoUDP then
    ports <- parsePorts csv iPort
               (if String.eqb v "v4" then "udp4" else "udp6") lineNum;
    ret (proto, src, dst, fst ports, snd ports)
  else if String.eqb proto protoTCP then
    ports <- parsePorts csv iPort
               (if String.eqb v "v4" then "tcp4" else "tcp6") lineNum;
    ret (proto, src, dst, fst ports, snd ports)
  else ret (proto, src, dst, 0, 0).

(** [parseLine], up to what it does to the stream. *)
Definition parseLine_body (line : string) (lineNum : Z)
  : parsing (LogEntry TimeT) :=
  let tsStartIdx := IndexByte line " "%char in
  rest <- sliced (slice_from line (tsStartIdx + 1));
  let tsEndIdx := IndexByte rest " "%char in
  if (tsStartIdx =? -1) || (tsEndIdx =? -1)
  then fail (on_line "timestamp" lineNum)
  else
  let tsEndIdx := tsEndIdx + (tsStartIdx + 1) in
  ts <- sliced (slice line (tsStartIdx + 1) tsEndIdx);
  match time_Parse ts with
  | inr err => fail (on_line "timestamp" lineNum ++ ": " ++ err)
  | inl timestamp =>
  let csvStart := Index line "] " in
  if csvStart =? -1 then fail (on_line "csv" lineNum) else
  csv <- sliced (slice_from line (csvStart + 2));
  label <- csvField csv 3 (on_line "label" lineNum);
  iface <- csvField csv 4 (on_line "iface" lineNum);
  reason <- csvField csv 5 (on_line "reason" lineNum);
  action <- csvField csv 6 (on_line "action" lineNum);
  direction <- csvField csv 7 (on_line "direction" lineNum);
  ipVersionStr <- csvField csv 8 (on_line "ipVersionStr" lineNum);
  ipVersion <- parseUint ipVersionStr 8 (on_line "ipVersion" lineNum);
  let reason' :=
    switch_const reason
      [reasonMatch; reasonBadOffset; reasonFragment; reasonShort;
       reasonNormalize; reasonMemory; reasonBadTimestamp; reasonCongestion;
       reasonIpOption; reasonProtoChecksum; reasonStateMismatch;
       reasonStateInsert; reasonStateLimit; reasonSrcLimit; reasonSynproxy] in
  let action' :=
    switch_const action
      [ActionPass; ActionBlock; actionScrub; actionNat; actionBinat;
       actionRdr; actionSynproxyDrop] in
  let direction' :=
    switch_const direction [directionIn; directionOut; directionInOut] in
  let entry (ip : string * string * string * Z * Z) :=
    let '(proto, src, dst, srcPort, dstPort) := ip in
    mkLogEntry action' direction' iface label reason' timestamp
      dst ipVersion proto src dstPort srcPort in
  if ipVersion =? 4 then
    ip <- parseIP csv lineNum "v4" 16 18 19 20 protoICMP;
    ret (entry ip)
  else if ipVersion =? 6 then
    ip <- parseIP csv lineNum "v6" 12 15 16 17 protoICMPv6;
    ret (entry ip)
  else
    fail ("invalid IPVersion '" ++ FormatInt ipVersion ++ "' on line "
          ++ FormatInt lineNum)
  end.

(** [type Stream struct].  [data] is the content of the file [path] names;
    the file handle is not kept, a scanner holds what it has left to read. *)
Record Stream : Type := mkStream {
  errors : list string;
  index : list fileOffset;
  lineNum : Z;
  data : string;
  scanner : Scanner;
  validLines : Z
}.

Definition set_errors (s : Stream) (es : list string) : Stream :=
  mkStream es (index s) (lineNum s) (data s) (scanner s) (validLines s).

Definition set_index (s : Stream) (ix : list fileOffset) : Stream :=
  mkStream (errors s) ix (lineNum s) (data s) (scanner s) (validLines s).

Definition set_lineNum (s : Stream) (n : Z) : Stream :=
  mkStream (errors s) (index s) n (data s) (scanner s) (validLines s).

Definition set_scanner (s : Stream) (sc : Scanner) : Stream :=
  mkStream (errors s) (index s) (lineNum s) (data s) sc (validLines s).

Definition set_validLines (s : Stream) (n : Z) : Stream :=
  mkStream (errors s) (index s) (lineNum s) (data s) (scanner s) n.

(** [reset]: reopen the file and scan it from its start. *)
Definition reset (s : Stream) : Stream :=
  set_lineNum (set_scanner s (NewScanner (data s))) 0.

Definition hasIndex (s : Stream) : bool :=
  0 <? Z.of_nat (List.length (index s)).

Definition TotalLines (s : Stream) : Z :=
  if negb (hasIndex s) then -1 else validLines s.

(** [TotalLines] as the other revision of [stream.go] in the tree has it, a
    stream without the field [validLines]:
    [if i := len(s.index); i > 0 { return i }; return -1]. *)
Definition TotalLines_len (s : Stream) : Z :=
  let i := Z.of_nat (List.length (index s)) in
  if 0 <? i then i else -1.

Definition addError (s : Stream) (msg : string) : Stream :=
  if Z.of_nat (List.length (errors s)) <? MaxErrorsInMemory
  then set_errors s (errors s ++ [msg])
  else s.

Definition parseLine (s : Stream) (line : string) (lineNum : Z)
  : outcome (option (LogEntry TimeT) * Stream) :=
  match parseLine_body line lineNum with
  | Done (inr entry) => Done (Some entry, s)
  | Done (inl msg) => Done (None, addError s msg)
  | Panic => Panic
  end.

Definition GetErrors (s : Stream) : list string := errors s.

Definition NewStream (file : string) : Stream :=
  mkStream [] [] 0 file (NewScanner file) 0.

(** The loop of [BuildIndex] over the tokens of its scanner. *)
Fixpoint index_loop (toks : list string) (s : Stream)
  (lineNum offset validLines : Z) : outcome (Stream * Z) :=
  match toks with
  | [] => Done (s, validLines)
  | line :: toks' =>
      bind (parseLine s line lineNum) (fun r =>
      let (entry, s1) := r in
      let next := wrap64 (offset + wrap64 (len line + 1)) in
      match entry with
      | Some _ =>
          index_loop toks'
            (set_index s1 (index s1 ++ [mkFileOffset validLines offset]))
            (wrap64 (lineNum + 1)) next (wrap64 (validLines + 1))
      | None => index_loop toks' s1 (wrap64 (lineNum + 1)) next validLines
      end)
  end.

(** [BuildIndex] reads the file with a scanner of its own, over the file the
    first [reset] opened.  When that scanner fails there is no second
    [reset]: the scanner of the stream, which has read nothing yet, is left
    on the file at the position where the other one stopped. *)
Definition BuildIndex (s : Stream) : outcome (Stream * option streamError) :=
  let s := reset s in
  let s := set_index s [] in
  let sc := NewScanner (data s) in
  bind (index_loop (pending sc) s 0 0 0) (fun r =>
  let (s, validLines) := r in
  let s := set_validLines s validLines in
  match failure sc with
  | Some e =>
      let rest := drop (Z.to_nat (scan_read (raw_lines (data s)))) (data s) in
      Done (set_scanner s (NewScanner rest), Some (ErrScanner e))
  | None => Done (reset s, None)
  end).

(** The loop of [Next] over the tokens its scanner has left: every round is
    one [s.scanner.Scan()], and the round at the end of the tokens is the
    call that returns false. *)
Fixpoint next_loop (toks : list string) (fl : option scanError)
  (kept : list string) (s : Stream)
  : outcome (option (LogEntry TimeT) * Stream) :=
  match toks with
  | [] => Done (None, set_scanner s (mkScanner kept fl []))
  | line :: toks' =>
      let s := set_scanner s (mkScanner toks' fl kept) in
      let s := set_lineNum s (wrap64 (lineNum s + 1)) in
      bind (parseLine s line (lineNum s)) (fun r =>
      match r with
      | (Some entry, s) => Done (Some entry, s)
      | (None, s) => next_loop toks' fl kept s
      end)
  end.

Definition Next (s : Stream) : outcome (option (LogEntry TimeT) * Stream) :=
  next_loop (pending (scanner s)) (failure (scanner s)) (held (scanner s)) s.

Definition SeekToLine (s : Stream) (lineNum : Z)
  : outcome (Stream * option streamError) :=
  if negb (hasIndex s) then Done (s, Some ErrMissingIndex)
  else if (lineNum <? 0) || (Z.of_nat (List.length (index s)) <=? lineNum)
  then Done (s, Some (ErrOutOfRange lineNum (Z.of_nat (List.length (index s)))))
  else
    match nth_error (index s) (Z.to_nat lineNum) with
    | None => Panic
    | Some fo =>
        if offset fo <? 0 then Done (s, Some (ErrSeek lineNum))
        else
          let file := drop (Z.to_nat (offset fo)) (data s) in
          Done (set_lineNum (set_scanner s (NewScanner file)) lineNum, None)
    end.

End Parsing.

End Stream.

(* ================================================================== *)
(** * Package [filter]: [internal/filter/filter.go]                    *)
(* ================================================================== *)

(** The tree holds two revisions of [filter.go].  Their lexers and parsers
    are the same code up to three points, which are the parameters of
    [Section Grammar]:
    - the text an operator token keeps ([word] in one revision, [wordLower]
      in the other);
    - what [parsePrimary] stores as the field of a [fieldFilter] (the keyword
      itself, or the [fieldTyp] the map [fields] gives for it);
    - the test for a field keyword (a [case] list, or a lookup in [fields]).
    The evaluators differ and are embedded one by one: [Module Str] is the
    revision whose [fieldFilter] holds the keyword as a string, [Module Typ]
    the one whose [fieldFilter] holds a [fieldTyp]. *)

Module Filter.
Import Go.
Import Stream.

Inductive tokenType : Type :=
| tokenField   (* field name like src, dst, action, etc. *)
| tokenValue   (* a value to match against *)
| tokenAnd     (* AND operator (and, &&) *)
| tokenOr      (* OR operator (or, ||) *)
| tokenNot     (* NOT operator (not, !) *)
| tokenLParen  (* left parenthesis *)
| tokenRParen  (* right parenthesis *)
| tokenEOF.    (* end of input *)

Definition tokenType_eqb (a b : tokenType) : bool :=
  match a, b with
  | tokenField, tokenField | tokenValue, tokenValue | tokenAnd, tokenAnd
  | tokenOr, tokenOr | tokenNot, tokenNot | tokenLParen, tokenLParen
  | tokenRParen, tokenRParen | tokenEOF, tokenEOF => true
  | _, _ => false
  end.

(** [type token struct] *)
Record token : Type := mkToken {
  typ : tokenType;
  value : string
}.

(** [type lexer struct]; [pos] stays within [0 .. len(input)]. *)
Record lexer : Type := mkLexer {
  input : string;
  pos : nat
}.

(** [type parser struct] *)
Record parser : Type := mkParser {
  lex : lexer;
  current : token
}.

(** [type FilterNode interface] with the five structs that implement it. *)
Inductive FilterNode (field : Type) : Type :=
| fieldFilter (f : field) (v : string)
| anyFilter (v : string)
| andFilter (left_ right_ : FilterNode field)
| orFilter (left_ right_ : FilterNode field)
| notFilter (child : FilterNode field).
Arguments anyFilter {field}.

(** What the three [fmt.Errorf] calls of [parsePrimary] report: the token the
    parser stopped at and, for a field with no value, the field keyword. *)
Inductive compileError : Type :=
| ErrExpectedRParen (got : token)
| ErrExpectedValue (field : string) (got : token)
| ErrUnexpectedToken (got : token).

(** The input from [pos] on. *)
Definition rest (l : lexer) : string := drop (pos l) (input l).

Definition space : ascii := " "%char.
Definition lparen : ascii := "("%char.
Definition rparen : ascii := ")"%char.

(** The number of leading bytes of [s] that satisfy [p]. *)
Fixpoint count_while (p : ascii -> bool) (s : string) : nat :=
  match s with
  | String c s' => if p c then S (count_while p s') else O
  | EmptyString => O
  end.

Definition newLexer (input : string) : lexer := mkLexer (TrimSpace input) 0.

Definition peek (l : lexer) : ascii :=
  match rest l with
  | String c _ => c
  | EmptyString => zero
  end.

Definition advance_lexer (l : lexer) : lexer :=
  if (pos l <? String.length (input l))%nat
  then mkLexer (input l) (S (pos l))
  else l.

(** [for l.pos < len(l.input) && l.input[l.pos] == ' ' { l.pos++ }] *)
Definition skipSpace (l : lexer) : lexer :=
  mkLexer (input l) (pos l + count_while (Ascii.eqb space) (rest l)).

Definition word_byte (ch : ascii) : bool :=
  negb (Ascii.eqb ch space || Ascii.eqb ch lparen || Ascii.eqb ch rparen).

(** [readWord]: the bytes up to a space or a parenthesis. *)
Definition readWord (l : lexer) : string * lexer :=
  let n := count_while word_byte (rest l) in
  (take n (rest l), mkLexer (input l) (pos l + n)).

(** The [case] list of field keywords. *)
Definition fieldKeywords : list string :=
  [ "action"; "dir"; "direction"; "dst"; "dest"; "destination";
    "iface"; "interface"; "ip"; "ipver"; "ipversion"; "port";
    "sport"; "srcport"; "dport"; "dstport"; "proto"; "protocol";
    "reason"; "src"; "source" ].

Definition mem (w : string) (l : list string) : bool := existsb (String.eqb w) l.

Section Grammar.

Variable unicodeLower : string -> string.
Variable opValue : string -> string -> string.
Variable isField : string -> bool.
Variable field : Type.
Variable fieldOf : string -> field.

(** [nextToken], with the lexer after it. *)
Definition nextToken (l : lexer) : token * lexer :=
  let l := skipSpace l in
  if (String.length (input l) <=? pos l)%nat then (mkToken tokenEOF "", l)
  else
    let ch := peek l in
    if Ascii.eqb ch lparen then (mkToken tokenLParen "(", advance_lexer l)
    else if Ascii.eqb ch rparen then (mkToken tokenRParen ")", advance_lexer l)
    else
      let (word, l) := readWord l in
      if String.eqb word "" then (mkToken tokenEOF "", l)
      else
        let wordLower := ToLower unicodeLower word in
        if mem wordLower ["and"; "&&"]
        then (mkToken tokenAnd (opValue word wordLower), l)
        else if mem wordLower ["or"; "||"]
        then (mkToken tokenOr (opValue word wordLower), l)
        else if mem wordLower ["not"; "!"]
        then (mkToken tokenNot (opValue word wordLower), l)
        else if isField wordLower then (mkToken tokenField wordLower, l)
        else (mkToken tokenValue word, l).

Definition newParser (input : string) : parser :=
  let (t, l) := nextToken (newLexer input) in mkParser l t.

(** [p.advance()] *)
Definition advance (p : parser) : parser :=
  let (t, l) := nextToken (lex p) in mkParser l t.

Definition at_token (p : parser) (k : tokenType) : bool :=
  tokenType_eqb (typ (current p)) k.

(** What a parse function returns, with the parser as it leaves it.  The
    functions call each other without a measure that Rocq sees decrease, so
    they take [fuel], one unit a call; [OutOfFuel] is no result of the
    program ([Compile_total] below shows [Compile] never ends there). *)
Inductive parsed : Type :=
| Parsed (node : FilterNode field) (p : parser)
| Failed (err : compileError)
| OutOfFuel.

Fixpoint parseOr (fuel : nat) (p : parser) : parsed :=
  match fuel with
  | O => OutOfFuel
  | S fuel =>
      match parseAnd fuel p with
      | Parsed left_ p => parseOr_loop fuel left_ p
      | r => r
      end
  end
with parseOr_loop (fuel : nat) (left_ : FilterNode field) (p : parser) : parsed :=
  match fuel with
  | O => OutOfFuel
  | S fuel =>
      if at_token p tokenOr then
        let p := advance p in
        match parseAnd fuel p with
        | Parsed right_ p => parseOr_loop fuel (orFilter left_ right_) p
        | r => r
        end
      else Parsed left_ p
  end
with parseAnd (fuel : nat) (p : parser) : parsed :=
  match fuel with
  | O => OutOfFuel
  | S fuel =>
      match parseNot fuel p with
      | Parsed left_ p => parseAnd_loop fuel left_ p
      | r => r
      end
  end
with parseAnd_loop (fuel : nat) (left_ : FilterNode field) (p : parser) : parsed :=
  match fuel with
  | O => OutOfFuel
  | S fuel =>
      if at_token p tokenAnd then
        let p := advance p in
        match parseNot fuel p with
        | Parsed right_ p => parseAnd_loop fuel (andFilter left_ right_) p
        | r => r
        end
      else Parsed left_ p
  end
with parseNot (fuel : nat) (p : parser) : parsed :=
  match fuel with
  | O => OutOfFuel
  | S fuel =>
      if at_token p tokenNot then
        let p := advance p in
        match parsePrimary fuel p with
        | Parsed child p => Parsed (notFilter child) p
        | r => r
        end
      else parsePrimary fuel p
  end
with parsePrimary (fuel : nat) (p : parser) : parsed :=
  match fuel with
  | O => OutOfFuel
  | S fuel =>
      if at_token p tokenLParen then
        let p := advance p in
        match parseOr fuel p with
        | Parsed node p =>
            if negb (at_token p tokenRParen)
            then Failed (ErrExpectedRParen (current p))
            else Parsed node (advance p)
        | r => r
        end
      else if at_token p tokenField then
        let field := value (current p) in
        let p := advance p in
        if negb (at_token p tokenValue)
        then Failed (ErrExpectedValue field (current p))
        else
          let value := value (current p) in
          Parsed (fieldFilter (fieldOf field) value) (advance p)
      else if at_token p tokenValue then
        let value := value (current p) in
        Parsed (anyFilter value) (advance p)
      else Failed (ErrUnexpectedToken (current p))
  end.

(** Fuel that is enough for any parser state reached from [input]. *)
Definition fuel_for (input : string) : nat := 6 * String.length input + 12.

(** What [Compile] returns: Go's pair [(FilterNode, error)], a [nil] being
    [None]. *)
Definition compiled : Type := option (FilterNode field) * option compileError.

(** [p.parse()] *)
Definition parse (fuel : nat) (p : parser) : option compiled :=
  if at_token p tokenEOF then Some (None, None)
  else
    match parseOr fuel p with
    | Parsed node _ => Some (Some node, None)
    | Failed err => Some (None, Some err)
    | OutOfFuel => None
    end.

(** [Compile]; the outer [None] is fuel that ran out. *)
Definition Compile (expression : string) : option compiled :=
  if String.eqb expression "" then Some (None, None)
  else parse (fuel_for expression) (newParser expression).

End Grammar.

Arguments Failed {field} err.
Arguments OutOfFuel {field}.

Section Evaluation.

Variable field : Type.
Variable entry : Type.
Variable fieldMatches : field -> string -> entry -> bool.
Variable anyMatches : string -> entry -> bool.

(** The five [Matches] methods. *)
Fixpoint Matches (f : FilterNode field) (e : entry) : bool :=
  match f with
  | fieldFilter fld v => fieldMatches fld v e
  | anyFilter v => anyMatches v e
  | andFilter l r => Matches l e && Matches r e
  | orFilter l r => Matches l e || Matches r e
  | notFilter c => negb (Matches c e)
  end.

End Evaluation.

(** ** The revision whose [fieldFilter] holds the field keyword *)
Module Str.

Section Str.
Variable unicodeLower : string -> string.
Variable T : Type.

Definition fieldFilter_Matches (f v : string) (entry : LogEntry T) : bool :=
  let valueLower := ToLower unicodeLower v in
  let lower := ToLower unicodeLower in
  if mem f ["action"] then HasPrefix (lower (Action entry)) valueLower
  else if mem f ["dir"; "direction"]
  then HasPrefix (lower (Direction entry)) valueLower
  else if mem f ["dst"; "dest"; "destination"]
  then HasPrefix (lower (Dst entry)) valueLower
  else if mem f ["iface"; "interface"]
  then HasPrefix (lower (Interface entry)) valueLower
  else if mem f ["ip"; "ipver"; "ipversion"]
  then String.eqb (FormatInt (IPVersion entry)) v
  else if mem f ["port"] then
    let portStr := v in
    if (0 <? SrcPort entry) && String.eqb (FormatInt (SrcPort entry)) portStr
    then true
    else if (0 <? DstPort entry) && String.eqb (FormatInt (DstPort entry)) portStr
    then true
    else false
  else if mem f ["sport"; "srcport"]
  then (0 <? SrcPort entry) && String.eqb (FormatInt (SrcPort entry)) v
  else if mem f ["dport"; "dstport"]
  then (0 <? DstPort entry) && String.eqb (FormatInt (DstPort entry)) v
  else if mem f ["proto"; "protocol"]
  then HasPrefix (lower (ProtoName entry)) valueLower
  else if mem f ["reason"] then HasPrefix (lower (Reason entry)) valueLower
  else if mem f ["src"; "source"] then HasPrefix (lower (Src entry)) valueLower
  else false.

Definition anyFilter_Matches (v : string) (entry : LogEntry T) : bool :=
  let valueLower := ToLower unicodeLower v in
  let lower := ToLower unicodeLower in
  Contains (lower (Action entry)) valueLower
  || Contains (lower (Src entry)) valueLower
  || Contains (lower (Dst entry)) valueLower
  || Contains (lower (Interface entry)) valueLower
  || Contains (lower (ProtoName entry)) valueLower
  || Contains (lower (Reason entry)) valueLower
  || Contains (lower (Direction entry)) valueLower.

Definition Matches : FilterNode string -> LogEntry T -> bool :=
  Filter.Matches fieldFilter_Matches anyFilter_Matches.

(** An operator token keeps the word as it was typed. *)
Definition Compile : string -> option (compiled string) :=
  Filter.Compile unicodeLower (fun word _ => word)
    (fun w => mem w fieldKeywords) (fun f => f).

End Str.
End Str.

(** ** The revision whose [fieldFilter] holds a [fieldTyp] *)
Module Typ.

Inductive fieldTyp : Type :=
| fieldAction       (* action taken *)
| fieldDestination  (* destination ip address *)
| fieldDirection    (* traffic direction *)
| fieldDstPort      (* destination port *)
| fieldIPVersion    (* ip version *)
| fieldInterface    (* network interface *)
| fieldPort         (* source or destination port *)
| fieldProtocol     (* protocol *)
| fieldReason       (* reason for action *)
| fieldSource       (* source IP address *)
| fieldSrcPort.     (* source port *)

(** The map [fields]: field names and their aliases. *)
Definition fields : list (string * fieldTyp) :=
  [ ("action", fieldAction);
    ("direction", fieldDirection); ("dir", fieldDirection);
    ("destination", fieldDestination); ("dest", fieldDestination);
    ("dst", fieldDestination);
    ("dstport", fieldDstPort); ("dport", fieldDstPort);
    ("ipversion", fieldIPVersion); ("ip", fieldIPVersion);
    ("ipver", fieldIPVersion);
    ("interface", fieldInterface); ("iface", fieldInterface);
    ("port", fieldPort);
    ("protocol", fieldProtocol); ("proto", fieldProtocol);
    ("reason", fieldReason);
    ("source", fieldSource); ("src", fieldSource);
    ("srcport", fieldSrcPort); ("sport", fieldSrcPort) ].

Fixpoint lookup {V : Type} (m : list (string * V)) (k : string) : option V :=
  match m with
  | [] => None
  | (k', v) :: m' => if String.eqb k k' then Some v else lookup m' k
  end.

(** [fields[field]]: the zero value [fieldAction] for a key not in the map. *)
Definition fields_at (k : string) : fieldTyp :=
  match lookup fields k with
  | Some t => t
  | None => fieldAction
  end.

Definition is_key (k : string) : bool :=
  match lookup fields k with
  | Some _ => true
  | None => false
  end.

Section Typ.
Variable unicodeLower : string -> string.

(** This revision reads [entry.Time] as a string ([searchFields] is a
    [[]string]); the record it compiles against is [LogEntry string]. *)
Definition anyFilter_Matches (v : string) (entry : LogEntry string) : bool :=
  let value := ToLower unicodeLower v in
  let searchFields :=
    [ Action entry; Direction entry; Interface entry; Reason entry;
      Time entry; Dst entry; ProtoName entry; Src entry ] in
  existsb (fun field => Contains (ToLower unicodeLower field) value) searchFields.

Definition fieldFilter_Matches (f : fieldTyp) (v : string)
  (entry : LogEntry string) : bool :=
  let value := ToLower unicodeLower v in
  let matchInt (i : Z) := String.eqb (FormatInt i) v in
  let matchStr (s : string) := HasPrefix (ToLower unicodeLower s) value in
  match f with
  | fieldAction => matchStr (Action entry)
  | fieldDestination => matchStr (Dst entry)
  | fieldDirection => matchStr (Direction entry)
  | fieldDstPort => matchInt (DstPort entry)
  | fieldIPVersion => matchInt (IPVersion entry)
  | fieldInterface => matchStr (Interface entry)
  | fieldPort => matchInt (SrcPort entry) || matchInt (DstPort entry)
  | fieldProtocol => matchStr (ProtoName entry)
  | fieldReason => matchStr (Reason entry)
  | fieldSource => matchStr (Src entry)
  | fieldSrcPort => matchInt (SrcPort entry)
  end.

Definition Matches : FilterNode fieldTyp -> LogEntry string -> bool :=
  Filter.Matches fieldFilter_Matches anyFilter_Matches.

(** An operator token keeps the word in lower case. *)
Definition Compile : string -> option (compiled fieldTyp) :=
  Filter.Compile unicodeLower (fun _ wordLower => wordLower) is_key fields_at.

End Typ.
End Typ.

End Filter.

(* ================================================================== *)
(** * Package [tui]: [internal/tui/tui.go]                             *)
(* ================================================================== *)

(** The functions of the terminal viewer that compute: the two string
    helpers, the commands that read the stream, and the methods of [model]
    that move the view and decide what to load.  Rendering ([View], the
    styles, the spinner) and the text input widget are library code and are
    left out; of the text input the model keeps the value.

    The stream is a pointer every copy of the model shares, so it is not a
    field of [model] here: a command takes the stream and returns it.  The
    Bubble Tea runtime may run commands side by side; the functions below are
    one command at a time. *)

Module Tui.
Import Go.

Definition maxEntriesInMemory : Z := 1000.

Definition colWidthTime : Z := 16.
Definition colWidthAction : Z := 10.
Definition colWidthInterface : Z := 10.
Definition colWidthDir : Z := 5.
Definition colWidthSource : Z := 40.
Definition colWidthSrcPort : Z := 7.
Definition colWidthDest : Z := 40.
Definition colWidthDstPort : Z := 7.
Definition colWidthProto : Z := 10.
Definition colWidthReason : Z := 20.

Definition contentWidth : Z :=
  colWidthTime + colWidthAction + colWidthInterface + colWidthDir
  + colWidthSource + colWidthSrcPort + colWidthDest + colWidthDstPort
  + colWidthProto + colWidthReason.

(** [truncateString]: [s[:length]] panics for a negative [length]. *)
Definition truncateString (s : string) (length : Z) : outcome string :=
  if len s <=? length then Done s
  else if length <=? 3 then slice s 0 length
  else bind (slice s 0 (length - 3)) (fun p => Done (p ++ "...")).

(** [sliceString] *)
Definition sliceString (s : string) (offset width : Z) : outcome string :=
  if (offset <=? 0) && (len s <=? width) then Done s
  else if len s <=? offset then Done ""
  else slice s offset (Z.min (wrap64 (offset + width)) (len s)).

(** [make([]T, 0, n)] panics for a negative capacity. *)
Definition make_cap {A : Type} (n : Z) : outcome (list A) :=
  if n <? 0 then Panic else Done [].

(** [m[k]] of a [map[int]V] kept as the list of its assignments, the latest
    first. *)
Fixpoint map_lookup {V : Type} (m : list (Z * V)) (k : Z) : option V :=
  match m with
  | [] => None
  | (k', v) :: m' => if k =? k' then Some v else map_lookup m' k
  end.

(** [a[i]] of a slice: a panic out of range. *)
Definition at_index {A : Type} (a : list A) (i : Z) : outcome A :=
  if i <? 0 then Panic
  else match nth_error a (Z.to_nat i) with
       | Some x => Done x
       | None => Panic
       end.

Section Tui.

Variable TimeT : Type.
Variable time_Parse : string -> TimeT + string.

(** [filter.FilterNode] and its method [Matches]. *)
Variable field : Type.
Variable Matches : Filter.FilterNode field -> Stream.LogEntry TimeT -> bool.

Local Abbreviation LogEntry := (Stream.LogEntry TimeT).
Local Abbreviation FilterNode := (Filter.FilterNode field).

(** [type model struct], without the stream, the text input widget (its
    value is [filterInput]), the spinner and the styles. *)
Record model : Type := mkModel {
  indexed : bool;
  entries : list LogEntry;
  entriesStart : Z;
  entriesFiltered : list (Z * LogEntry);
  entriesTotal : Z;
  entriesAvailable : list Z;
  filterApplied : bool;
  filterCompiled : option FilterNode;
  filterError : string;
  filterInput : string;
  filterView : bool;
  errors : list string;
  errorsView : bool;
  uiHeight : Z;
  uiWidth : Z;
  uiLoading : bool;
  uiScrollH : Z;
  uiScrollV : Z;
  uiStatusMsg : string
}.

(** The messages a command returns. *)
Inductive msg : Type :=
| indexMsg (entriesTotal : Z)
| entriesMsg (entries : list LogEntry) (entriesStart : Z)
| entriesFilteredMsg (entriesFiltered : list (Z * LogEntry))
| filterMsg (entriesAvailable : list Z)
| streamErrorMsg (err : Stream.streamError).

(** The commands the handlers return: [nil], [tea.Quit], the closures of
    [loadEntries] and of [loadEntriesFiltered] (the latter batched with the
    spinner's tick), and what [filterInput.Focus()] returns. *)
Inductive cmd : Type :=
| cmdNil
| cmdQuit
| cmdLoadEntries (startLine count : Z)
| cmdLoadEntriesFiltered (lineNums : list Z)
| cmdFocus.

(** ** Commands *)

(** [index] *)
Definition index (s : Stream.Stream) : outcome (msg * Stream.Stream) :=
  bind (Stream.BuildIndex time_Parse s) (fun r =>
  match r with
  | (s, Some err) => Done (streamErrorMsg err, s)
  | (s, None) => Done (indexMsg (Stream.TotalLines s), s)
  end).

(** The loop of [loadEntries]; it runs at most [count] times. *)
Fixpoint loadEntries_loop (fuel : nat) (s : Stream.Stream)
  (i count startLine totalLines : Z) (entries : list LogEntry)
  : outcome (list LogEntry * Stream.Stream) :=
  match fuel with
  | O => Done (entries, s)
  | S fuel' =>
      if (i <? count) && (wrap64 (startLine + i) <? totalLines) then
        bind (Stream.Next time_Parse s) (fun r =>
        match r with
        | (None, s) => Done (entries, s)
        | (Some entry, s) =>
            loadEntries_loop fuel' s (i + 1) count startLine totalLines
              (entries ++ [entry])
        end)
      else Done (entries, s)
  end.

(** [loadEntries].  The program passes [maxEntriesInMemory] for [count]; a
    capacity the allocator would refuse is outside this model. *)
Definition loadEntries (s : Stream.Stream) (startLine count : Z)
  : outcome (msg * Stream.Stream) :=
  let startLine := Z.max startLine 0 in
  let totalLines := Stream.TotalLines s in
  let startLine :=
    if totalLines <=? startLine
    then Z.max (wrap64 (totalLines - count)) 0
    else startLine in
  bind (Stream.SeekToLine s startLine) (fun r =>
  match r with
  | (s, Some err) => Done (streamErrorMsg err, s)
  | (s, None) =>
      bind (make_cap count) (fun entries =>
      bind (loadEntries_loop (Z.to_nat count) s 0 count startLine totalLines
              entries) (fun r =>
      let (entries, s) := r in
      Done (entriesMsg entries startLine, s)))
  end).

(** The loop of [loadEntriesFiltered] over [lineNums]. *)
Fixpoint loadEntriesFiltered_loop (lineNums : list Z) (s : Stream.Stream)
  (entries : list (Z * LogEntry))
  : outcome (list (Z * LogEntry) * Stream.Stream) :=
  match lineNums with
  | [] => Done (entries, s)
  | lineNum :: lineNums' =>
      bind (Stream.SeekToLine s lineNum) (fun r =>
      match r with
      | (s, Some _) => loadEntriesFiltered_loop lineNums' s entries
      | (s, None) =>
          bind (Stream.Next time_Parse s) (fun r =>
          match r with
          | (Some entry, s) =>
              loadEntriesFiltered_loop lineNums' s ((lineNum, entry) :: entries)
          | (None, s) => loadEntriesFiltered_loop lineNums' s entries
          end)
      end)
  end.

Definition loadEntriesFiltered (s : Stream.Stream) (lineNums : list Z)
  : outcome (msg * Stream.Stream) :=
  bind (loadEntriesFiltered_loop lineNums s []) (fun r =>
  let (entries, s) := r in Done (entriesFilteredMsg entries, s)).

(** [m.filterCompiled.Matches(entry)]: a method call on a [nil] interface
    value panics. *)
Definition call_Matches (f : option FilterNode) (entry : LogEntry)
  : outcome bool :=
  match f with
  | Some node => Done (Matches node entry)
  | None => Panic
  end.

(** The loop of [scanAndFilter]; it runs at most [entriesTotal] times. *)
Fixpoint scanAndFilter_loop (fuel : nat) (m : model) (s : Stream.Stream)
  (i : Z) (entries : list Z) : outcome (list Z * Stream.Stream) :=
  match fuel with
  | O => Done (entries, s)
  | S fuel' =>
      if i <? entriesTotal m then
        bind (Stream.Next time_Parse s) (fun r =>
        match r with
        | (None, s) => Done (entries, s)
        | (Some entry, s) =>
            bind (call_Matches (filterCompiled m) entry) (fun b =>
            scanAndFilter_loop fuel' m s (i + 1)
              (if b then entries ++ [i] else entries))
        end)
      else Done (entries, s)
  end.

(** [scanAndFilter] *)
Definition scanAndFilter (m : model) (s : Stream.Stream)
  : outcome (msg * Stream.Stream) :=
  bind (Stream.SeekToLine s 0) (fun r =>
  match r with
  | (s, Some err) => Done (streamErrorMsg err, s)
  | (s, None) =>
      bind (scanAndFilter_loop (Z.to_nat (entriesTotal m)) m s 0 []) (fun r =>
      let (entries, s) := r in Done (filterMsg entries, s))
  end).

(** ** The methods of [model] *)

Definition set_uiScrollV (m : model) (v : Z) : model :=
  mkModel (indexed m) (entries m) (entriesStart m) (entriesFiltered m)
    (entriesTotal m) (entriesAvailable m) (filterApplied m)
    (filterCompiled m) (filterError m) (filterInput m) (filterView m)
    (errors m) (errorsView m) (uiHeight m) (uiWidth m) (uiLoading m)
    (uiScrollH m) v (uiStatusMsg m).

Definition set_uiScrollH (m : model) (h : Z) : model :=
  mkModel (indexed m) (entries m) (entriesStart m) (entriesFiltered m)
    (entriesTotal m) (entriesAvailable m) (filterApplied m)
    (filterCompiled m) (filterError m) (filterInput m) (filterView m)
    (errors m) (errorsView m) (uiHeight m) (uiWidth m) (uiLoading m)
    h (uiScrollV m) (uiStatusMsg m).

Definition set_entriesAvailable (m : model) (l : list Z) : model :=
  mkModel (indexed m) (entries m) (entriesStart m) (entriesFiltered m)
    (entriesTotal m) l (filterApplied m)
    (filterCompiled m) (filterError m) (filterInput m) (filterView m)
    (errors m) (errorsView m) (uiHeight m) (uiWidth m) (uiLoading m)
    (uiScrollH m) (uiScrollV m) (uiStatusMsg m).

Definition set_errorsView (m : model) (b : bool) : model :=
  mkModel (indexed m) (entries m) (entriesStart m) (entriesFiltered m)
    (entriesTotal m) (entriesAvailable m) (filterApplied m)
    (filterCompiled m) (filterError m) (filterInput m) (filterView m)
    (errors m) b (uiHeight m) (uiWidth m) (uiLoading m)
    (uiScrollH m) (uiScrollV m) (uiStatusMsg m).

Definition set_filterView (m : model) (b : bool) : model :=
  mkModel (indexed m) (entries m) (entriesStart m) (entriesFiltered m)
    (entriesTotal m) (entriesAvailable m) (filterApplied m)
    (filterCompiled m) (filterError m) (filterInput m) b
    (errors m) (errorsView m) (uiHeight m) (uiWidth m) (uiLoading m)
    (uiScrollH m) (uiScrollV m) (uiStatusMsg m).

(** [m.filterApplied = false; m.filterCompiled = nil;
    m.filterInput.SetValue(""); m.uiScrollH = 0; m.uiScrollV = 0;
    m.uiStatusMsg = ""] *)
Definition clear_filter (m : model) : model :=
  mkModel (indexed m) (entries m) (entriesStart m) (entriesFiltered m)
    (entriesTotal m) (entriesAvailable m) false
    None (filterError m) "" (filterView m)
    (errors m) (errorsView m) (uiHeight m) (uiWidth m) (uiLoading m)
    0 0 "".

(** The number of lines of the view that is shown. *)
Definition lines (m : model) : Z :=
  if errorsView m then Z.of_nat (List.length (errors m))
  else Z.of_nat (List.length (entriesAvailable m)).

(** [contentHeight := m.uiHeight - 3] *)
Definition contentHeight (m : model) : Z := wrap64 (uiHeight m - 3).

Definition scrollDown (m : model) (n : Z) : model :=
  let maxScroll := Z.max (wrap64 (lines m - contentHeight m)) 0 in
  set_uiScrollV m (Z.min (wrap64 (uiScrollV m + n)) maxScroll).

Definition scrollUp (m : model) (n : Z) : model :=
  set_uiScrollV m (Z.max (wrap64 (uiScrollV m - n)) 0).

(** [visibleEnd := min(visibleStart+contentHeight, len(m.entriesAvailable))] *)
Definition visibleEnd (m : model) : Z :=
  Z.min (wrap64 (uiScrollV m + contentHeight m))
        (Z.of_nat (List.length (entriesAvailable m))).

(** The loop of [checkLoadEntries] over the visible rows. *)
Fixpoint visible_range (fuel : nat) (m : model) (i minLine maxLine : Z)
  : outcome (Z * Z) :=
  match fuel with
  | O => Done (minLine, maxLine)
  | S fuel' =>
      if i <? visibleEnd m then
        bind (at_index (entriesAvailable m) i) (fun lineNum =>
        visible_range fuel' m (i + 1)
          (Z.min minLine lineNum) (Z.max maxLine lineNum))
      else Done (minLine, maxLine)
  end.

(** [checkLoadEntries]: the command it returns. *)
Definition checkLoadEntries (m : model) : outcome cmd :=
  if negb (indexed m) || uiLoading m
     || (Z.of_nat (List.length (entriesAvailable m)) =? 0)
  then Done cmdNil
  else
    let visibleStart := uiScrollV m in
    bind (visible_range (Z.to_nat (visibleEnd m - visibleStart)) m
            visibleStart (entriesTotal m) 0) (fun r =>
    let (minLine, maxLine) := r in
    if (minLine <? entriesStart m)
       || (wrap64 (entriesStart m + Z.of_nat (List.length (entries m)))
           <=? maxLine)
    then
      let centerLine := Z.quot (wrap64 (minLine + maxLine)) 2 in
      let newStart :=
        Z.max (wrap64 (centerLine - Z.quot maxEntriesInMemory 2)) 0 in
      Done (cmdLoadEntries newStart maxEntriesInMemory)
    else Done cmdNil).

(** The loop of [checkLoadEntriesFiltered] over the visible rows. *)
Fixpoint lines_to_load (fuel : nat) (m : model) (i : Z) (acc : list Z)
  : list Z :=
  match fuel with
  | O => acc
  | S fuel' =>
      if i <? visibleEnd m then
        if (i <? 0) || (Z.of_nat (List.length (entriesAvailable m)) <=? i)
        then lines_to_load fuel' m (i + 1) acc
        else
          match nth_error (entriesAvailable m) (Z.to_nat i) with
          | Some lineNum =>
              match map_lookup (entriesFiltered m) lineNum with
              | Some _ => lines_to_load fuel' m (i + 1) acc
              | None => lines_to_load fuel' m (i + 1) (acc ++ [lineNum])
              end
          | None => acc
          end
      else acc
  end.

(** [checkLoadEntriesFiltered]: the command it returns.  It sets [uiLoading]
    in its own copy of the model, which nobody reads. *)
Definition checkLoadEntriesFiltered (m : model) : outcome cmd :=
  if negb (filterApplied m)
     || (Z.of_nat (List.length (entriesAvailable m)) =? 0)
  then Done cmdNil
  else
    let visibleStart := uiScrollV m in
    bind (make_cap (wrap64 (visibleEnd m - visibleStart))) (fun linesToLoad =>
    let linesToLoad :=
      lines_to_load (Z.to_nat (visibleEnd m - visibleStart)) m visibleStart
        linesToLoad in
    if 0 <? Z.of_nat (List.length linesToLoad)
    then Done (cmdLoadEntriesFiltered linesToLoad)
    else Done cmdNil).

(** [getEntryAtLine] *)
Definition getEntryAtLine (m : model) (lineNum : Z) : option LogEntry :=
  if filterApplied m && (0 <? Z.of_nat (List.length (entriesFiltered m)))
  then map_lookup (entriesFiltered m) lineNum
  else
    let last := wrap64 (entriesStart m + Z.of_nat (List.length (entries m))) in
    if (lineNum <? entriesStart m) || (last <=? lineNum) then None
    else
      let idx := wrap64 (lineNum - entriesStart m) in
      if (idx <? 0) || (Z.of_nat (List.length (entries m)) <=? idx) then None
      else nth_error (entries m) (Z.to_nat idx).

(** The loop of [showAllLines]. *)
Fixpoint count_up (fuel : nat) (i : Z) (acc : list Z) : list Z :=
  match fuel with
  | O => acc
  | S fuel' => count_up fuel' (i + 1) (acc ++ [i])
  end.

Definition showAllLines (m : model) : model :=
  set_entriesAvailable m (count_up (Z.to_nat (entriesTotal m)) 0 []).

(** After a scroll key: [checkLoadEntriesFiltered] with a filter applied,
    [checkLoadEntries] without. *)
Definition check_load (m : model) : outcome (model * cmd) :=
  if filterApplied m
  then bind (checkLoadEntriesFiltered m) (fun c => Done (m, c))
  else bind (checkLoadEntries m) (fun c => Done (m, c)).

(** [handleNormalInput]; [key] is [msg.String()]. *)
Definition handleNormalInput (m : model) (key : string)
  : outcome (model * cmd) :=
  if negb (indexed m) then Done (m, cmdNil)
  else if Filter.mem key ["ctrl+c"; "q"] then Done (m, cmdQuit)
  else if Filter.mem key ["e"] then
    if 0 <? Z.of_nat (List.length (errors m))
    then Done (set_uiScrollV
                 (set_uiScrollH (set_errorsView m (negb (errorsView m))) 0) 0,
               cmdNil)
    else Done (m, cmdNil)
  else if Filter.mem key ["j"; "down"] then check_load (scrollDown m 1)
  else if Filter.mem key ["k"; "up"] then check_load (scrollUp m 1)
  else if Filter.mem key ["d"; "pgdown"]
  then check_load (scrollDown m (Z.quot (uiHeight m) 2))
  else if Filter.mem key ["u"; "pgup"]
  then check_load (scrollUp m (Z.quot (uiHeight m) 2))
  else if Filter.mem key ["g"; "home"] then
    let m := set_uiScrollV m 0 in
    if errorsView m then Done (m, cmdNil) else check_load m
  else if Filter.mem key ["G"; "end"] then
    let m :=
      set_uiScrollV m (Z.max (wrap64 (lines m - contentHeight m)) 0) in
    if errorsView m then Done (m, cmdNil) else check_load m
  else if Filter.mem key ["h"; "left"] then
    if uiWidth m <? contentWidth
    then Done (set_uiScrollH m (Z.max (wrap64 (uiScrollH m - 1)) 0), cmdNil)
    else Done (m, cmdNil)
  else if Filter.mem key ["l"; "right"] then
    if uiWidth m <? contentWidth
    then Done (set_uiScrollH m
                 (Z.min (wrap64 (uiScrollH m + 1))
                        (wrap64 (contentWidth - uiWidth m))),
               cmdNil)
    else Done (m, cmdNil)
  else if Filter.mem key ["0"] then Done (set_uiScrollH m 0, cmdNil)
  else if Filter.mem key ["$"] then
    if uiWidth m <? contentWidth
    then Done (set_uiScrollH m (wrap64 (contentWidth - uiWidth m)), cmdNil)
    else Done (m, cmdNil)
  else if Filter.mem key ["/"] then
    if negb (errorsView m) then Done (set_filterView m true, cmdFocus)
    else Done (m, cmdNil)
  else if Filter.mem key ["esc"] then
    if errorsView m then Done (set_errorsView m false, cmdNil)
    else if filterApplied m then
      let m := showAllLines (clear_filter m) in
      bind (checkLoadEntries m) (fun c => Done (m, c))
    else Done (m, cmdNil)
  else Done (m, cmdNil).

End Tui.
End Tui.

(* ================================================================== *)
(** * Package [stream]: the other revision of [stream.go]              *)
(* ================================================================== *)

(** The tree holds a second revision of [stream.go].  Its constants,
    [addError], [extractCSVField] and the part of the parser that depends on
    the IP version are the code of the first revision and are taken from
    [Module Stream]; its records have no label, its parser is [parse], its
    index entries are [indexEntry] and its stream has no [validLines]. *)

Module Stream2.
Import Go.
Import Stream.

Definition ipVersion4 : Z := 4.
Definition ipVersion6 : Z := 6.

(** [type LogEntry struct] *)
Record LogEntry (T : Type) : Type := mkLogEntry {
  Action : string;
  Direction : string;
  Interface : string;
  Reason : string;
  Time : T;
  Dst : string;
  IPVersion : Z;
  ProtoName : string;
  Src : string;
  DstPort : Z;
  SrcPort : Z
}.

(** [type indexEntry struct]; the field [lineNum] of the source is
    [indexNum] here, [lineNum] being a field of the stream as well. *)
Record indexEntry : Type := mkIndexEntry {
  indexNum : Z;
  lineOffset : Z
}.

(** [type Stream struct]; [data] is the content of the file [path] names. *)
Record Stream : Type := mkStream {
  errors : list string;
  index : list indexEntry;
  lineNum : Z;
  data : string;
  scanner : Scanner
}.

Definition set_errors (s : Stream) (es : list string) : Stream :=
  mkStream es (index s) (lineNum s) (data s) (scanner s).

Definition set_index (s : Stream) (ix : list indexEntry) : Stream :=
  mkStream (errors s) ix (lineNum s) (data s) (scanner s).

Definition set_lineNum (s : Stream) (n : Z) : Stream :=
  mkStream (errors s) (index s) n (data s) (scanner s).

Definition set_scanner (s : Stream) (sc : Scanner) : Stream :=
  mkStream (errors s) (index s) (lineNum s) (data s) sc.

Definition addError (s : Stream) (msg : string) : Stream :=
  if Z.of_nat (List.length (errors s)) <? MaxErrorsInMemory
  then set_errors s (errors s ++ [msg])
  else s.

Section Parsing.

Variable TimeT : Type.
Variable time_Parse : string -> TimeT + string.

(** [parse], up to what it does to the stream. *)
Definition parse_body (line : string) (lineNum : Z)
  : parsing (LogEntry TimeT) :=
  let timestampStart := IndexByte line " "%char + 1 in
  rest <- sliced (slice_from line timestampStart);
  let timestampEnd := IndexByte rest " "%char in
  if (timestampStart <=? 0) || (timestampEnd =? -1)
  then fail (on_line "timestamp" lineNum)
  else
  let timestampEnd := timestampEnd + timestampStart in
  ts <- sliced (slice line timestampStart timestampEnd);
  match time_Parse ts with
  | inr err => fail (on_line "timestamp" lineNum ++ ": " ++ err)
  | inl timestamp =>
  let csvStart := Index line "] " in
  if csvStart =? -1 then fail (on_line "csv" lineNum) else
  csv <- sliced (slice_from line (csvStart + 2));
  iface <- csvField csv 4 (on_line "iface" lineNum);
  reason <- csvField csv 5 (on_line "reason" lineNum);
  action <- csvField csv 6 (on_line "action" lineNum);
  direction <- csvField csv 7 (on_line "direction" lineNum);
  ipVersion <- csvField csv 8 (on_line "ipVersion" lineNum);
  let reason' :=
    switch_const reason
      [reasonMatch; reasonBadOffset; reasonBadTimestamp; reasonCongestion;
       reasonFragment; reasonIpOption; reasonMemory; reasonNormalize;
       reasonProtoChecksum; reasonShort; reasonSrcLimit; reasonStateInsert;
       reasonStateLimit; reasonStateMismatch; reasonSynproxy] in
  let action' :=
    switch_const action
      [ActionPass; ActionBlock; actionBinat; actionNat; actionRdr;
       actionScrub; actionSynproxyDrop] in
  let direction' :=
    switch_const direction [directionIn; directionOut; directionInOut] in
  version <-
    (if String.eqb ipVersion "4" then ret ipVersion4
     else if String.eqb ipVersion "6" then ret ipVersion6
     else parseUint ipVersion 8 (on_line "ipVersion" lineNum));
  let entry (ip : string * string * string * Z * Z) :=
    let '(proto, src, dst, srcPort, dstPort) := ip in
    mkLogEntry action' direction' iface reason' timestamp
      dst version proto src dstPort srcPort in
  if version =? ipVersion4 then
    ip <- parseIP csv lineNum "v4" 16 18 19 20 protoICMP;
    ret (entry ip)
  else if version =? ipVersion6 then
    ip <- parseIP csv lineNum "v6" 12 15 16 17 protoICMPv6;
    ret (entry ip)
  else
    fail ("invalid ipVersion '" ++ FormatInt version ++ "' on line "
          ++ FormatInt lineNum)
  end.

Definition parse (s : Stream) (line : string) (lineNum : Z)
  : outcome (option (LogEntry TimeT) * Stream) :=
  match parse_body line lineNum with
  | Done (inr entry) => Done (Some entry, s)
  | Done (inl msg) => Done (None, addError s msg)
  | Panic => Panic
  end.

(** [reset]: reopen the file and scan it from its start. *)
Definition reset (s : Stream) : Stream :=
  set_lineNum (set_scanner s (NewScanner (data s))) 0.

(** The loop of [BuildIndex] over the tokens of its scanner. *)
Fixpoint index_loop (toks : list string) (s : Stream)
  (lineIndexed lineNum lineOffset : Z) : outcome Stream :=
  match toks with
  | [] => Done s
  | line :: toks' =>
      bind (parse s line lineNum) (fun r =>
      let (entry, s1) := r in
      let next := wrap64 (lineOffset + wrap64 (len line + 1)) in
      match entry with
      | Some _ =>
          index_loop toks'
            (set_index s1
               (index s1 ++ [mkIndexEntry lineIndexed lineOffset]))
            (wrap64 (lineIndexed + 1)) (wrap64 (lineNum + 1)) next
      | None => index_loop toks' s1 lineIndexed (wrap64 (lineNum + 1)) next
      end)
  end.

(** [BuildIndex]; the errors are those of [Module Stream], whose texts for
    a seek this revision words with [could not seek:] in front.  When the
    scanner of [BuildIndex] fails, the scanner of the stream is left on the
    file at the position where it stopped, as in [Module Stream]. *)
Definition BuildIndex (s : Stream) : outcome (Stream * option streamError) :=
  let s := reset s in
  let s := set_index s [] in
  let sc := NewScanner (data s) in
  bind (index_loop (pending sc) s 0 0 0) (fun s =>
  match failure sc with
  | Some e =>
      let rest := drop (Z.to_nat (scan_read (raw_lines (data s)))) (data s) in
      Done (set_scanner s (NewScanner rest), Some (ErrScanner e))
  | None => Done (reset s, None)
  end).

Definition GetErrors (s : Stream) : list string := errors s.

Definition NewStream (file : string) : Stream :=
  mkStream [] [] 0 file (NewScanner file).

(** The loop of [Next] over the tokens its scanner has left. *)
Fixpoint next_loop (toks : list string) (fl : option scanError)
  (kept : list string) (s : Stream)
  : outcome (option (LogEntry TimeT) * Stream) :=
  match toks with
  | [] => Done (None, set_scanner s (mkScanner kept fl []))
  | line :: toks' =>
      let s := set_scanner s (mkScanner toks' fl kept) in
      let s := set_lineNum s (wrap64 (lineNum s + 1)) in
      bind (parse s line (lineNum s)) (fun r =>
      match r with
      | (Some entry, s) => Done (Some entry, s)
      | (None, s) => next_loop toks' fl kept s
      end)
  end.

Definition Next (s : Stream) : outcome (option (LogEntry TimeT) * Stream) :=
  next_loop (pending (scanner s)) (failure (scanner s)) (held (scanner s)) s.

Definition SeekToLine (s : Stream) (lineNum : Z)
  : outcome (Stream * option streamError) :=
  if Z.of_nat (List.length (index s)) <=? 0
  then Done (s, Some ErrMissingIndex)
  else if (lineNum <? 0) || (Z.of_nat (List.length (index s)) <=? lineNum)
  then Done (s, Some (ErrOutOfRange lineNum (Z.of_nat (List.length (index s)))))
  else
    match nth_error (index s) (Z.to_nat lineNum) with
    | None => Panic
    | Some ie =>
        if lineOffset ie <? 0 then Done (s, Some (ErrSeek lineNum))
        else
          let file := drop (Z.to_nat (lineOffset ie)) (data s) in
          Done (set_lineNum (set_scanner s (NewScanner file)) lineNum, None)
    end.

(** [TotalLines] *)
Definition TotalLines (s : Stream) : Z :=
  let i := Z.of_nat (List.length (index s)) in
  if 0 <? i then i else -1.

End Parsing.

End Stream2.

(* ================================================================== *)
(** * Package [cli]: [internal/cli/json.go]                            *)
(* ================================================================== *)

(** [displayJSON] writes the records of a stream that match a filter to
    standard output as one JSON object.  What it calls outside the program
    stands as a variable of the section: [json.Marshal] on a record and on
    the meta object, and [filepath.Abs] on the path of the stream, which the
    model of a stream does not hold.  [Compile] and [Matches] are those of
    the package [filter], in either revision; as there, the outer [None] of
    [Compile] is fuel that ran out, and [displayJSON] hands it on. *)

Module Cli.
Import Go.
Import Stream.
Import Filter.

(** [type jsonObjMeta struct] *)
Record jsonObjMeta : Type := mkMeta {
  Entries : Z;
  Errors : Z;
  Filter : string;
  Source : string
}.

(** Standard output and standard error, as the bytes written so far. *)
Record console : Type := mkConsole {
  stdout : string;
  stderr : string
}.

(** The errors [displayJSON] returns: the error of [Compile], the two
    [could not encode] errors with the text of the cause, and
    [could not process all entries: %d parse errors]. *)
Inductive jsonError : Type :=
| ErrCompile (err : compileError)
| ErrEncodeEntry (cause : string)
| ErrEncodeMeta (cause : string)
| ErrParseErrors (n : Z).

Definition LF : string := String newline "".

(** The double quote, and the two pieces of text around the entries. *)
Definition quote : string := String (ascii_of_nat 34) "".

Definition open_entries : string := "{" ++ quote ++ "entries" ++ quote ++ ":[".

Definition open_meta : string := "]," ++ quote ++ "meta" ++ quote ++ ":".

Section Json.

Variable TimeT : Type.
Variable time_Parse : string -> TimeT + string.
Variable field : Type.
Variable Compile : string -> option (compiled field).
Variable Matches : FilterNode field -> LogEntry TimeT -> bool.
Variable Marshal_entry : LogEntry TimeT -> string + string.
Variable Marshal_meta : jsonObjMeta -> string + string.
Variable GetPathAbs : Stream -> string + string.
Variable GetPathRel : Stream -> string.

(** The loop [for entry := s.Next(); entry != nil; entry = s.Next()]: one
    round a call of [Next].  A call that returns a record has used up a
    token of the scanner, so one round more than there are tokens reaches
    the end; [fuel] counts the rounds. *)
Fixpoint entries_loop (fuel : nat) (compiled : option (FilterNode field))
  (s : Stream) (out : string) (entries : Z)
  : outcome (Stream * string * Z * option jsonError) :=
  match fuel with
  | O => Done (s, out, entries, None)
  | S fuel' =>
      bind (Next time_Parse s) (fun r =>
      let (entry, s) := r in
      match entry with
      | None => Done (s, out, entries, None)
      | Some entry =>
          if match compiled with
             | Some c => negb (Matches c entry)
             | None => false
             end
          then entries_loop fuel' compiled s out entries
          else
            match Marshal_entry entry with
            | inr cause => Done (s, out, entries, Some (ErrEncodeEntry cause))
            | inl jsonEntry =>
                let out := if 0 <? entries then out ++ "," else out in
                entries_loop fuel' compiled s (out ++ jsonEntry)
                  (wrap64 (entries + 1))
            end
      end)
  end.

(** [for _, err := range errors { fmt.Fprintln(os.Stderr, err) }] *)
Fixpoint print_errors (errors : list string) (err : string) : string :=
  match errors with
  | [] => err
  | e :: errors' => print_errors errors' (err ++ e ++ LF)
  end.

Definition displayJSON (s : Stream) (filterValue : string)
  : option (outcome (Stream * console * option jsonError)) :=
  match
    if negb (String.eqb filterValue "") then Compile filterValue
    else Some (None, None)
  with
  | None => None
  | Some (_, Some err) => Some (Done (s, mkConsole "" "", Some (ErrCompile err)))
  | Some (compiled, None) =>
      let out := open_entries in
      Some (
      bind (entries_loop (S (List.length (pending (scanner s)))) compiled s
              out 0) (fun r =>
      let '(s, out, entries, err) := r in
      match err with
      | Some err => Done (s, mkConsole out "", Some err)
      | None =>
          let out := out ++ open_meta in
          let errors := GetErrors s in
          let source :=
            match GetPathAbs s with
            | inl source => source
            | inr _ => GetPathRel s
            end in
          let meta :=
            mkMeta entries (Z.of_nat (List.length errors)) filterValue
              source in
          match Marshal_meta meta with
          | inr cause => Done (s, mkConsole out "", Some (ErrEncodeMeta cause))
          | inl jsonMeta =>
              let out := out ++ (jsonMeta ++ "}") ++ LF in
              if 0 <? Z.of_nat (List.length errors)
              then Done (s, mkConsole out (print_errors errors ""),
                         Some (ErrParseErrors (Z.of_nat (List.length errors))))
              else Done (s, mkConsole out "", None)
          end
      end))
  end.

End Json.

End Cli.

(* ================================================================== *)
(** * Facts about the library functions                                *)
(* ================================================================== *)

Unset Implicit Arguments.

Module GoFacts.
Import Go.

Lemma len_nonneg (s : string) : 0 <= len s.
Proof. unfold len. lia. Qed.

Lemma len_String (c : ascii) (s : string) : len (String c s) = len s + 1.
Proof. unfold len. cbn [String.length]. lia. Qed.

Lemma len_append (a b : string) : len (a ++ b) = len a + len b.
Proof.
  induction a as [|c a IH].
  - change ("" ++ b) with b. unfold len at 2. simpl. lia.
  - change (String c a ++ b) with (String c (a ++ b)).
    rewrite !len_String, IH. lia.
Qed.

Lemma length_drop (n : nat) (s : string) :
  String.length (drop n s) = (String.length s - n)%nat.
Proof.
  revert s. induction n as [|n IH]; intros [|c s]; cbn; auto.
Qed.

Lemma len_drop (n : nat) (s : string) :
  (n <= String.length s)%nat -> len (drop n s) = len s - Z.of_nat n.
Proof. intros H. unfold len. rewrite length_drop. lia. Qed.

Lemma drop_drop (n m : nat) (s : string) : drop n (drop m s) = drop (m + n) s.
Proof.
  revert s. induction m as [|m IH]; intros s; cbn; auto.
  destruct s as [|c s]; cbn; auto. destruct n; reflexivity.
Qed.

Lemma drop_append (a b : string) : drop (String.length a) (a ++ b) = b.
Proof. induction a as [|c a IH]; cbn; auto. Qed.

Lemma drop_all (s : string) : drop (String.length s) s = EmptyString.
Proof. induction s as [|c s IH]; cbn; auto. Qed.

Lemma drop_ge (n : nat) (s : string) :
  (String.length s <= n)%nat -> drop n s = EmptyString.
Proof.
  revert s. induction n as [|n IH]; intros [|c s] H; cbn in *; auto; try lia.
  apply IH. lia.
Qed.

(** [IndexByte] is -1 or an index into the string. *)
Lemma IndexByte_range (s : string) (c : ascii) :
  IndexByte s c = -1 \/ (0 <= IndexByte s c < len s).
Proof.
  induction s as [|a s IH]; cbn [IndexByte]; auto.
  rewrite len_String. destruct (Ascii.eqb a c).
  - right. pose proof (len_nonneg s). lia.
  - destruct IH as [E1 | H].
    + rewrite E1. left. reflexivity.
    + destruct (IndexByte s c <? 0) eqn:E; [lia|]. right. lia.
Qed.

Lemma HasPrefix_len (s p : string) : HasPrefix s p = true -> len p <= len s.
Proof.
  revert s. induction p as [|b p IH]; intros s H.
  - pose proof (len_nonneg s). unfold len at 1. cbn. lia.
  - destruct s as [|a s]; cbn in H; [discriminate|].
    apply andb_true_iff in H. destruct H as [_ H]. apply IH in H.
    rewrite !len_String. lia.
Qed.

(** [Index] is -1 or the start of an occurrence that lies within the string. *)
Lemma Index_range (s sub : string) :
  Index s sub = -1 \/ (0 <= Index s sub /\ Index s sub + len sub <= len s).
Proof.
  induction s as [|a s IH]; cbn [Index].
  - destruct (HasPrefix "" sub) eqn:E; auto.
    right. apply HasPrefix_len in E. lia.
  - destruct (HasPrefix (String a s) sub) eqn:E.
    + right. apply HasPrefix_len in E. lia.
    + rewrite len_String. destruct IH as [E1 | H].
      * rewrite E1. left. reflexivity.
      * destruct (Index s sub <? 0) eqn:E'; [lia|]. right. lia.
Qed.

Lemma slice_from_ok (s : string) (i : Z) :
  0 <= i <= len s -> slice_from s i = Done (drop (Z.to_nat i) s).
Proof.
  intros H. unfold slice_from.
  destruct (0 <=? i) eqn:E1; [|lia]. destruct (i <=? len s) eqn:E2; [|lia].
  reflexivity.
Qed.

Lemma slice_ok (s : string) (i j : Z) :
  0 <= i <= j -> j <= len s ->
  slice s i j = Done (take (Z.to_nat (j - i)) (drop (Z.to_nat i) s)).
Proof.
  intros H1 H2. unfold slice.
  destruct (0 <=? i) eqn:E1; [|lia]. destruct (i <=? j) eqn:E2; [|lia].
  destruct (j <=? len s) eqn:E3; [|lia]. reflexivity.
Qed.

Lemma wrap64_small (z : Z) : - 2 ^ 63 <= z < 2 ^ 63 -> wrap64 z = z.
Proof.
  intros H. unfold wrap64.
  rewrite Z.mod_small; lia.
Qed.

(** ** Physical lines *)

Lemma raw_lines_cons (c : ascii) (data : string) :
  Ascii.eqb c newline = false ->
  raw_lines (String c data) =
    match raw_lines data with
    | [] => [String c EmptyString]
    | l :: ls => String c l :: ls
    end.
Proof. intros H. cbn [raw_lines]. rewrite H. reflexivity. Qed.

Lemma len_dropCR (l : string) : len (dropCR l) <= len l.
Proof.
  induction l as [|c l IH]; cbn [dropCR]; [lia|].
  destruct l as [|c' l'].
  - destruct (Ascii.eqb c cr); unfold len; cbn; lia.
  - rewrite !(len_String c). lia.
Qed.

End GoFacts.

(* ================================================================== *)
(** * Facts about the record parser                                    *)
(* ================================================================== *)

Module ParseFacts.
Import Go GoFacts Stream.

(** A computation of [parseLine] that does not panic. *)
Definition safe {A : Type} (m : parsing A) : Prop := m <> Panic.

(** Two computations that end the same way, up to the text of the
    diagnostic. *)
Definition agree {A : Type} (m1 m2 : parsing A) : Prop :=
  match m1, m2 with
  | Done (inr a), Done (inr b) => a = b
  | Done (inl _), Done (inl _) => True
  | Panic, Panic => True
  | _, _ => False
  end.

Lemma safe_pbind {A B : Type} (m : parsing A) (k : A -> parsing B) :
  safe m -> (forall a, m = Done (inr a) -> safe (k a)) -> safe (pbind m k).
Proof.
  unfold safe, pbind. intros Hm Hk.
  destruct m as [[msg|a]|]; try congruence. apply Hk. reflexivity.
Qed.

Lemma agree_refl {A : Type} (m : parsing A) : agree m m.
Proof. destruct m as [[msg|a]|]; cbn; auto. Qed.

Lemma agree_pbind {A B : Type} (m1 m2 : parsing A) (k1 k2 : A -> parsing B) :
  agree m1 m2 -> (forall a, agree (k1 a) (k2 a)) ->
  agree (pbind m1 k1) (pbind m2 k2).
Proof.
  intros Hm Hk. destruct m1 as [[?|a]|], m2 as [[?|b]|]; cbn in *;
    try contradiction; auto.
  subst. apply Hk.
Qed.

Lemma agree_fail {A : Type} (msg1 msg2 : string) :
  agree (@fail A msg1) (@fail A msg2).
Proof. exact I. Qed.

Lemma field_start_ok (csv : string) (n : nat) (start : Z) :
  0 <= start <= len csv ->
  field_start csv n start = Done None \/
  exists st, field_start csv n start = Done (Some st) /\ 0 <= st <= len csv.
Proof.
  revert start. induction n as [|n IH]; intros start H; cbn [field_start].
  - right. exists start. auto.
  - rewrite slice_from_ok by exact H. cbn [bind].
    pose proof (IndexByte_range (drop (Z.to_nat start) csv) ","%char) as R.
    rewrite len_drop in R by (unfold len in H; lia).
    destruct (IndexByte (drop (Z.to_nat start) csv) "," =? -1) eqn:E.
    + left. reflexivity.
    + apply IH. lia.
Qed.

Lemma extractCSVField_ok (csv : string) (field : Z) :
  exists v ok, extractCSVField csv field = Done (v, ok).
Proof.
  unfold extractCSVField.
  destruct (field_start_ok csv (Z.to_nat field) 0) as [E | [st [E H]]].
  - pose proof (len_nonneg csv). lia.
  - rewrite E. cbn [bind]. eauto.
  - rewrite E. cbn [bind]. rewrite slice_from_ok by exact H. cbn [bind].
    pose proof (IndexByte_range (drop (Z.to_nat st) csv) ","%char) as R.
    rewrite len_drop in R by (unfold len in H; lia).
    destruct (IndexByte (drop (Z.to_nat st) csv) "," =? -1) eqn:E'; eauto.
    rewrite slice_ok by lia. cbn [bind]. eauto.
Qed.

Lemma safe_csvField (csv : string) (n : Z) (msg : string) :
  safe (csvField csv n msg).
Proof.
  unfold safe, csvField.
  destruct (extractCSVField_ok csv n) as [v [ok E]]. rewrite E.
  destruct ok; discriminate.
Qed.

Lemma agree_csvField (csv : string) (n : Z) (msg1 msg2 : string) :
  agree (csvField csv n msg1) (csvField csv n msg2).
Proof.
  unfold csvField.
  destruct (extractCSVField csv n) as [[v [|]]|]; cbn; auto.
Qed.

Lemma safe_parseUint (str : string) (bits : Z) (msg : string) :
  safe (parseUint str bits msg).
Proof. unfold safe, parseUint. destruct (ParseUint str bits); discriminate. Qed.

Lemma agree_parseUint (str : string) (bits : Z) (msg1 msg2 : string) :
  agree (parseUint str bits msg1) (parseUint str bits msg2).
Proof. unfold parseUint. destruct (ParseUint str bits); cbn; auto. Qed.

Lemma safe_ret {A : Type} (a : A) : safe (ret a).
Proof. discriminate. Qed.

Lemma safe_fail {A : Type} (msg : string) : safe (@fail A msg).
Proof. discriminate. Qed.

Create HintDb parse.

#[local] Hint Resolve safe_csvField safe_parseUint safe_ret safe_fail
  agree_csvField agree_parseUint agree_fail agree_refl : parse.

Lemma safe_parsePorts (csv : string) (i : Z) (tag : string) (lineNum : Z) :
  safe (parsePorts csv i tag lineNum).
Proof.
  unfold parsePorts.
  repeat (apply safe_pbind; [auto with parse | intros ? _]).
  auto with parse.
Qed.

Lemma agree_parsePorts (csv : string) (i : Z) (tag : string) (n m : Z) :
  agree (parsePorts csv i tag n) (parsePorts csv i tag m).
Proof.
  unfold parsePorts.
  repeat (apply agree_pbind; [auto with parse | intros ?]).
  auto with parse.
Qed.

Section WithTime.
Variable TimeT : Type.
Variable time_Parse : string -> TimeT + string.

Lemma safe_parseIP (csv : string) (lineNum : Z) (v : string)
  (iProto iSrc iDst iPort : Z) (other : string) :
  safe (parseIP csv lineNum v iProto iSrc iDst iPort other).
Proof.
  unfold parseIP.
  repeat (apply safe_pbind; [auto with parse | intros ? _]).
  repeat match goal with
         | |- safe (if ?b then _ else _) => destruct b
         | |- safe (pbind _ _) =>
             apply safe_pbind; [apply safe_parsePorts | intros ? _]
         end; auto with parse.
Qed.

Lemma agree_parseIP (csv : string) (n m : Z) (v : string)
  (iProto iSrc iDst iPort : Z) (other : string) :
  agree (parseIP csv n v iProto iSrc iDst iPort other)
        (parseIP csv m v iProto iSrc iDst iPort other).
Proof.
  unfold parseIP.
  repeat (apply agree_pbind; [auto with parse | intros ?]).
  repeat match goal with
         | |- agree (if ?b then _ else _) (if ?b then _ else _) => destruct b
         | |- agree (pbind _ _) (pbind _ _) =>
             apply agree_pbind; [apply agree_parsePorts | intros ?]
         end; auto with parse.
Qed.

(** [parseLine] never slices out of range. *)
Lemma safe_parseLine_body (line : string) (lineNum : Z) :
  safe (parseLine_body time_Parse line lineNum).
Proof.
  unfold parseLine_body.
  pose proof (IndexByte_range line " "%char) as R1.
  pose proof (len_nonneg line) as L0.
  set (i := IndexByte line " ") in *.
  rewrite slice_from_ok by lia. cbn [sliced ret pbind].
  pose proof (IndexByte_range (drop (Z.to_nat (i + 1)) line) " "%char) as R2.
  rewrite len_drop in R2 by (unfold len in R1; lia).
  set (j := IndexByte (drop (Z.to_nat (i + 1)) line) " ") in *.
  destruct (i =? -1) eqn:Ei; cbn [orb]; [auto with parse|].
  destruct (j =? -1) eqn:Ej; [auto with parse|].
  rewrite slice_ok by lia. cbn [sliced ret pbind].
  destruct (time_Parse _) as [timestamp | err]; [|auto with parse].
  pose proof (Index_range line "] ") as R3.
  destruct (Index line "] " =? -1) eqn:Ec; [auto with parse|].
  change (len "] ") with 2 in R3.
  rewrite slice_from_ok by lia. cbn [sliced ret pbind].
  repeat (apply safe_pbind; [auto with parse | intros ? _]).
  repeat match goal with
         | |- safe (if ?b then _ else _) => destruct b
         | |- safe (pbind _ _) =>
             apply safe_pbind; [apply safe_parseIP | intros ? _]
         end; auto with parse.
Qed.

(** The line number only shows in the text of a diagnostic. *)
Lemma agree_parseLine_body (line : string) (n m : Z) :
  agree (parseLine_body time_Parse line n) (parseLine_body time_Parse line m).
Proof.
  unfold parseLine_body.
  apply agree_pbind; [apply agree_refl | intros rest].
  destruct (_ || _); [auto with parse|].
  apply agree_pbind; [apply agree_refl | intros ts].
  destruct (time_Parse ts) as [timestamp | err]; [|auto with parse].
  destruct (Index line "] " =? -1); [auto with parse|].
  apply agree_pbind; [apply agree_refl | intros csv].
  repeat (apply agree_pbind; [auto with parse | intros ?]).
  repeat match goal with
         | |- agree (if ?b then _ else _) (if ?b then _ else _) => destruct b
         | |- agree (pbind _ _) (pbind _ _) =>
             apply agree_pbind; [apply agree_parseIP | intros ?]
         end; auto with parse.
Qed.

End WithTime.
End ParseFacts.

(* ================================================================== *)
(** * The stream: what its operations compute                          *)
(* ================================================================== *)

Module StreamFacts.
Import Go GoFacts Stream ParseFacts.

(** [addError] on the list of diagnostics alone. *)
Definition add1 (es : list string) (msg : string) : list string :=
  if Z.of_nat (List.length es) <? MaxErrorsInMemory then es ++ [msg] else es.

(** The sum of [len l + 1] over the lines [ls]: the bytes [BuildIndex] counts
    for them. *)
Fixpoint span (ls : list string) : Z :=
  match ls with
  | [] => 0
  | l :: ls' => len l + 1 + span ls'
  end.

(** A file whose size and size plus one are values of [int64]. *)
Definition fits_int64 (file : string) : Prop := len file + 1 < 2 ^ 63.

(** No physical line of the file ends in a carriage return. *)
Definition lf_only (file : string) : bool :=
  forallb (fun l => String.eqb (dropCR l) l) (raw_lines file).

Section WithTime.
Variable TimeT : Type.
Variable time_Parse : string -> TimeT + string.

Local Abbreviation LogEntry := (LogEntry TimeT).
Local Abbreviation parseLine_body := (parseLine_body time_Parse).
Local Abbreviation parseLine := (parseLine time_Parse).
Local Abbreviation index_loop := (index_loop time_Parse).
Local Abbreviation BuildIndex := (BuildIndex time_Parse).
Local Abbreviation next_loop := (next_loop time_Parse).
Local Abbreviation Next := (Next time_Parse).

(** The record a line holds, when it is a valid one. *)
Definition record_of (line : string) : option LogEntry :=
  match parseLine_body line 0 with
  | Done (inr e) => Some e
  | _ => None
  end.

Definition valid (line : string) : bool :=
  match record_of line with
  | Some _ => true
  | None => false
  end.

(** The records of the valid lines among [toks], in order. *)
Fixpoint records (toks : list string) : list LogEntry :=
  match toks with
  | [] => []
  | l :: toks' =>
      match record_of l with
      | Some e => e :: records toks'
      | None => records toks'
      end
  end.

(** The diagnostic of a line that is not valid, as [parseLine] words it for
    line number [n]. *)
Definition diagnostic (line : string) (n : Z) : list string :=
  match parseLine_body line n with
  | Done (inl msg) => [msg]
  | _ => []
  end.

(** The diagnostics [BuildIndex] reports for [toks], counting lines from
    [n]. *)
Fixpoint index_diagnostics (toks : list string) (n : Z) : list string :=
  match toks with
  | [] => []
  | l :: toks' => diagnostic l n ++ index_diagnostics toks' (wrap64 (n + 1))
  end.

(** The diagnostics one call of [Next] reports: those of the lines it skips. *)
Fixpoint next_diagnostics (toks : list string) (n : Z) : list string :=
  match toks with
  | [] => []
  | l :: toks' =>
      if valid l then []
      else diagnostic l (wrap64 (n + 1))
             ++ next_diagnostics toks' (wrap64 (n + 1))
  end.

(** The index entries of the valid lines among [toks]: ordinals from [k],
    offsets from [off]. *)
Fixpoint index_entries (toks : list string) (k off : Z) : list fileOffset :=
  match toks with
  | [] => []
  | l :: toks' =>
      if valid l
      then mkFileOffset k off :: index_entries toks' (k + 1) (off + (len l + 1))
      else index_entries toks' k (off + (len l + 1))
  end.

(** Reading a stream to its end: [Next] until it returns [nil], at most
    [fuel] times. *)
Fixpoint drain (fuel : nat) (s : Stream) : list LogEntry :=
  match fuel with
  | O => []
  | S fuel' =>
      match Next s with
      | Done (Some e, s') => e :: drain fuel' s'
      | _ => []
      end
  end.

(** The records of a file in the order a fresh stream delivers them.  Every
    call of [Next] that returns a record uses up a token, so one more call
    than there are tokens reaches the end ([drain_fuel]). *)
Definition sequential (file : string) : list LogEntry :=
  let s := NewStream file in
  drain (S (List.length (pending (scanner s)))) s.

(** ** [addError] *)

Lemma errors_addError (s : Stream) (msg : string) :
  errors (addError s msg) = add1 (errors s) msg.
Proof.
  unfold addError, add1.
  destruct (Z.of_nat (List.length (errors s)) <? MaxErrorsInMemory); reflexivity.
Qed.

Lemma addError_frame (s : Stream) (msg : string) :
  index (addError s msg) = index s /\ lineNum (addError s msg) = lineNum s
  /\ data (addError s msg) = data s /\ scanner (addError s msg) = scanner s
  /\ validLines (addError s msg) = validLines s.
Proof.
  unfold addError.
  destruct (Z.of_nat (List.length (errors s)) <? MaxErrorsInMemory); cbn; auto.
Qed.

Lemma add1_length (es : list string) (msg : string) :
  Z.of_nat (List.length es) <= MaxErrorsInMemory ->
  Z.of_nat (List.length (add1 es msg)) <= MaxErrorsInMemory.
Proof.
  unfold add1, MaxErrorsInMemory. intros H.
  destruct (Z.of_nat (List.length es) <? 1000) eqn:E; auto.
  rewrite length_app. cbn [List.length]. lia.
Qed.

Lemma add1_firstn (es : list string) (msg : string) :
  Z.of_nat (List.length es) <= MaxErrorsInMemory ->
  add1 es msg = firstn (Z.to_nat MaxErrorsInMemory) (es ++ [msg]).
Proof.
  unfold add1, MaxErrorsInMemory. intros H.
  destruct (Z.of_nat (List.length es) <? 1000) eqn:E.
  - apply Z.ltb_lt in E.
    rewrite firstn_all2; auto. rewrite length_app. cbn [List.length]. lia.
  - apply Z.ltb_ge in E. rewrite firstn_app.
    replace (Z.to_nat 1000 - List.length es)%nat with O by lia.
    cbn [firstn]. rewrite app_nil_r. rewrite firstn_all2; auto. lia.
Qed.

(** A run of [addError] keeps the first [MaxErrorsInMemory] messages. *)
Lemma fold_add1_firstn (msgs es : list string) :
  Z.of_nat (List.length es) <= MaxErrorsInMemory ->
  fold_left add1 msgs es = firstn (Z.to_nat MaxErrorsInMemory) (es ++ msgs).
Proof.
  revert es. induction msgs as [|m msgs IH]; intros es H; cbn [fold_left].
  - rewrite app_nil_r, firstn_all2; auto. unfold MaxErrorsInMemory in *. lia.
  - rewrite IH by (apply add1_length; exact H).
    rewrite add1_firstn by exact H.
    replace (es ++ m :: msgs)%list with ((es ++ [m]) ++ msgs)%list
      by (rewrite <- app_assoc; reflexivity).
    set (l := (es ++ [m])%list). set (n := Z.to_nat MaxErrorsInMemory).
    rewrite !firstn_app, firstn_firstn, Nat.min_id.
    rewrite length_firstn.
    destruct (Nat.le_gt_cases n (List.length l)) as [Hl | Hl].
    + rewrite Nat.min_l by exact Hl.
      replace (n - n)%nat with O by lia.
      replace (n - List.length l)%nat with O by lia. reflexivity.
    + rewrite (Nat.min_r n) by lia. reflexivity.
Qed.

Lemma fold_add1_app (a b es : list string) :
  fold_left add1 (a ++ b) es = fold_left add1 b (fold_left add1 a es).
Proof. apply fold_left_app. Qed.

Lemma fold_add1_length (msgs es : list string) :
  Z.of_nat (List.length es) <= MaxErrorsInMemory ->
  Z.of_nat (List.length (fold_left add1 msgs es)) <= MaxErrorsInMemory.
Proof.
  revert es. induction msgs as [|m msgs IH]; intros es H; cbn [fold_left]; auto.
  apply IH, add1_length, H.
Qed.

(** ** [parseLine] *)

Lemma record_of_any (line : string) (n : Z) :
  match record_of line with
  | Some e => parseLine_body line n = Done (inr e)
  | None => exists msg, parseLine_body line n = Done (inl msg)
  end.
Proof.
  unfold record_of.
  pose proof (agree_parseLine_body _ time_Parse line 0 n) as A.
  pose proof (safe_parseLine_body _ time_Parse line n) as S.
  unfold agree, safe in *.
  destruct (parseLine_body line 0) as [[m0|e0]|],
           (parseLine_body line n) as [[m|e]|];
    try contradiction; try congruence; eauto.
Qed.

(** [parseLine] returns the record of a valid line and leaves the stream as it
    is; for any other line it returns [nil] and calls [addError] once. *)
Lemma parseLine_spec (s : Stream) (line : string) (n : Z) :
  match record_of line with
  | Some e => parseLine s line n = Done (Some e, s)
  | None =>
      exists msg, diagnostic line n = [msg]
                  /\ parseLine s line n = Done (None, addError s msg)
  end.
Proof.
  pose proof (record_of_any line n) as H. unfold parseLine, diagnostic.
  destruct (record_of line) as [e|].
  - rewrite H. reflexivity.
  - destruct H as [msg H]. rewrite H. eauto.
Qed.

Lemma diagnostic_valid (line : string) (n : Z) :
  valid line = true -> diagnostic line n = [].
Proof.
  unfold valid, diagnostic. pose proof (record_of_any line n) as H.
  destruct (record_of line); [|discriminate]. rewrite H. reflexivity.
Qed.


(** ** The loop of [BuildIndex] *)

(** The loop does not panic; what it reports goes through [addError]; it
    touches neither the file, nor the stream's scanner and line number. *)
Lemma index_loop_errors (toks : list string) :
  forall (s : Stream) (n off k : Z),
  exists s' k',
    index_loop toks s n off k = Done (s', k')
    /\ errors s' = fold_left add1 (index_diagnostics toks n) (errors s)
    /\ data s' = data s /\ scanner s' = scanner s /\ lineNum s' = lineNum s
    /\ validLines s' = validLines s.
Proof.
  induction toks as [|l toks IH]; intros s n off k; cbn [index_loop].
  - exists s, k. cbn. repeat split.
  - pose proof (parseLine_spec s l n) as P. cbn [index_diagnostics].
    rewrite fold_add1_app.
    destruct (record_of l) as [e|] eqn:R.
    + rewrite P. cbn [bind].
      rewrite diagnostic_valid by (unfold valid; rewrite R; reflexivity).
      cbn [fold_left].
      match goal with
      | |- context [index_loop toks ?s1 ?n1 ?o1 ?k1] =>
          destruct (IH s1 n1 o1 k1) as [s' [k' [E H]]]
      end.
      exists s', k'. rewrite E. cbn in H. intuition auto.
    + destruct P as [msg [D P]]. rewrite P, D. cbn [bind fold_left].
      match goal with
      | |- context [index_loop toks ?s1 ?n1 ?o1 ?k1] =>
          destruct (IH s1 n1 o1 k1) as [s' [k' [E H]]]
      end.
      exists s', k'. rewrite E. rewrite errors_addError in H.
      destruct (addError_frame s msg) as [? [? [? [? ?]]]].
      intuition congruence.
Qed.

Lemma span_nonneg (ls : list string) : 0 <= span ls.
Proof.
  induction ls as [|l ls IH]; cbn [span]; [lia|].
  pose proof (len_nonneg l). lia.
Qed.

Lemma span_length (ls : list string) : Z.of_nat (List.length ls) <= span ls.
Proof.
  induction ls as [|l ls IH]; cbn [span List.length]; [lia|].
  pose proof (len_nonneg l). lia.
Qed.

Lemma length_index_entries (toks : list string) (k off : Z) :
  List.length (index_entries toks k off) = List.length (records toks).
Proof.
  revert k off. induction toks as [|l toks IH]; intros k off; cbn; auto.
  unfold valid. destruct (record_of l); cbn; auto.
Qed.

(** As long as the counters stay within [int64], the loop appends
    [index_entries] to the index and counts the valid lines. *)
Lemma index_loop_index (toks : list string) :
  forall (s : Stream) (n off k : Z),
  0 <= off -> off + span toks < 2 ^ 63 ->
  0 <= k -> k + Z.of_nat (List.length toks) < 2 ^ 63 ->
  exists s',
    index_loop toks s n off k
      = Done (s', k + Z.of_nat (List.length (records toks)))
    /\ index s' = (index s ++ index_entries toks k off)%list.
Proof.
  induction toks as [|l toks IH]; intros s n off k Ho Hs Hk Hn;
    cbn [index_loop index_entries records span List.length] in *.
  - exists s. rewrite Z.add_0_r, app_nil_r. auto.
  - pose proof (parseLine_spec s l n) as P.
    pose proof (len_nonneg l) as L. pose proof (span_nonneg toks) as Sp.
    rewrite (wrap64_small (len l + 1)) by lia.
    rewrite (wrap64_small (off + (len l + 1))) by lia.
    unfold valid. destruct (record_of l) as [e|] eqn:R.
    + rewrite P. cbn [bind]. rewrite (wrap64_small (k + 1)) by lia.
      match goal with
      | |- context [index_loop toks ?s1 ?n1 ?o1 ?k1] =>
          destruct (IH s1 n1 o1 k1) as [s' [E H]]; try lia
      end.
      exists s'. rewrite E. split.
      * f_equal. f_equal. cbn [List.length]. lia.
      * rewrite H. cbn [index set_index]. rewrite <- app_assoc. reflexivity.
    + destruct P as [msg [D P]]. rewrite P. cbn [bind].
      match goal with
      | |- context [index_loop toks ?s1 ?n1 ?o1 ?k1] =>
          destruct (IH s1 n1 o1 k1) as [s' [E H]]; try lia
      end.
      exists s'. rewrite E. split; auto.
      rewrite H. destruct (addError_frame s msg) as [-> _]. reflexivity.
Qed.

(** ** The scanner *)

Lemma span_raw_lines (file : string) : span (raw_lines file) <= len file + 1.
Proof.
  induction file as [|c file IH]; cbn [raw_lines span].
  - unfold len. cbn. lia.
  - rewrite len_String. destruct (Ascii.eqb c newline).
    + cbn [span]. change (len "") with 0. lia.
    + destruct (raw_lines file) as [|l ls]; cbn [span] in *.
      * change (len (String c "")) with 1. pose proof (len_nonneg file). lia.
      * rewrite len_String. lia.
Qed.

Lemma span_scan_tokens (ls : list string) :
  span (fst (scan_tokens ls)) <= span ls.
Proof.
  induction ls as [|l ls IH]; cbn [scan_tokens span fst]; [lia|].
  pose proof (len_nonneg l). pose proof (span_nonneg ls).
  destruct (len l <? MaxScanTokenSize).
  - destruct (scan_tokens ls) as [ts e]. cbn [fst span] in *.
    pose proof (len_dropCR l). lia.
  - cbn. lia.
Qed.

Lemma pending_NewScanner (file : string) :
  pending (NewScanner file) = fst (scan_tokens (raw_lines file)).
Proof.
  unfold NewScanner. destruct (scan_tokens (raw_lines file)); reflexivity.
Qed.

Lemma failure_NewScanner (file : string) :
  failure (NewScanner file) = snd (scan_tokens (raw_lines file)).
Proof.
  unfold NewScanner. destruct (scan_tokens (raw_lines file)); reflexivity.
Qed.

Lemma held_NewScanner (file : string) :
  held (NewScanner file) = scan_held (raw_lines file).
Proof.
  unfold NewScanner. destruct (scan_tokens (raw_lines file)); reflexivity.
Qed.

(** A scanner that reads its file to the end holds nothing back. *)
Lemma scan_held_none (ls : list string) :
  snd (scan_tokens ls) = None -> scan_held ls = [].
Proof.
  induction ls as [|l ls IH]; cbn [scan_tokens scan_held]; auto.
  destruct (len l <? MaxScanTokenSize); [|discriminate].
  destruct (scan_tokens ls) as [ts e]. cbn [snd] in *. exact IH.
Qed.

Lemma held_NewScanner_none (file : string) :
  failure (NewScanner file) = None -> held (NewScanner file) = [].
Proof.
  rewrite failure_NewScanner, held_NewScanner. apply scan_held_none.
Qed.

Lemma span_pending (file : string) :
  span (pending (NewScanner file)) <= len file + 1.
Proof.
  rewrite pending_NewScanner.
  pose proof (span_scan_tokens (raw_lines file)).
  pose proof (span_raw_lines file). lia.
Qed.

(** ** [BuildIndex] *)

Lemma BuildIndex_errors (s : Stream) :
  exists s',
    BuildIndex s
      = Done (s', option_map ErrScanner (failure (NewScanner (data s))))
    /\ errors s'
       = fold_left add1
           (index_diagnostics (pending (NewScanner (data s))) 0) (errors s)
    /\ data s' = data s.
Proof.
  unfold BuildIndex. cbn [data set_index reset set_lineNum set_scanner].
  match goal with
  | |- context [index_loop ?t ?s1 0 0 0] =>
      destruct (index_loop_errors t s1 0 0 0) as [s' [k' [E [He [Hd _]]]]]
  end.
  rewrite E. cbn [bind]. cbn [errors] in He. cbn [data] in Hd.
  destruct (failure (NewScanner (data s))); cbn [option_map].
  - eexists. split; [reflexivity|]. cbn. auto.
  - eexists. split; [reflexivity|]. cbn. auto.
Qed.

Lemma BuildIndex_index (s : Stream) :
  fits_int64 (data s) ->
  exists s',
    BuildIndex s
      = Done (s', option_map ErrScanner (failure (NewScanner (data s))))
    /\ index s' = index_entries (pending (NewScanner (data s))) 0 0
    /\ validLines s'
       = Z.of_nat (List.length (records (pending (NewScanner (data s)))))
    /\ data s' = data s
    /\ (failure (NewScanner (data s)) = None ->
        scanner s' = NewScanner (data s) /\ lineNum s' = 0).
Proof.
  intros F. unfold fits_int64 in F. unfold BuildIndex.
  cbn [data set_index reset set_lineNum set_scanner].
  pose proof (span_pending (data s)) as Sp.
  pose proof (span_length (pending (NewScanner (data s)))) as Sl.
  match goal with
  | |- context [index_loop ?t ?s1 0 0 0] =>
      destruct (index_loop_index t s1 0 0 0) as [s' [E Hi]]; try lia;
      destruct (index_loop_errors t s1 0 0 0) as [s'' [k' [E' [_ [Hd _]]]]]
  end.
  rewrite E in E'. injection E' as <- _.
  rewrite E. cbn [bind]. cbn [index app] in Hi. cbn [data] in Hd.
  destruct (failure (NewScanner (data s))); cbn [option_map].
  - eexists. split; [reflexivity|]. cbn. intuition discriminate.
  - eexists. split; [reflexivity|]. cbn. rewrite Hd. auto.
Qed.


(** ** [Next] *)

(** The tokens left after one call of [Next]. *)
Fixpoint after_next (toks : list string) : list string :=
  match toks with
  | [] => []
  | l :: toks' => if valid l then toks' else after_next toks'
  end.

Lemma records_after_next (toks : list string) :
  records (after_next toks) = tl (records toks).
Proof.
  induction toks as [|l toks IH]; cbn [after_next records]; auto.
  unfold valid. destruct (record_of l); auto.
Qed.

Lemma length_after_next (toks : list string) :
  (List.length (after_next toks) <= List.length toks)%nat.
Proof.
  induction toks as [|l toks IH]; cbn [after_next List.length]; auto.
  destruct (valid l); lia.
Qed.

Lemma after_next_shorter (toks : list string) (e : LogEntry) :
  hd_error (records toks) = Some e ->
  (List.length (after_next toks) < List.length toks)%nat.
Proof.
  destruct toks as [|l toks]; cbn [records after_next List.length hd_error].
  - discriminate.
  - intros _. pose proof (length_after_next toks). destruct (valid l); lia.
Qed.

(** The scanner one call of [Next] leaves: behind the first valid line, or,
    when there is none, after the call of [Scan] that returned false. *)
Definition scanner_after (toks : list string) (fl : option scanError)
  (kept : list string) : Scanner :=
  match records toks with
  | [] => mkScanner kept fl []
  | _ :: _ => mkScanner (after_next toks) fl kept
  end.

(** [Next] returns the record of the first valid line its scanner has left,
    or [nil] when there is none, and leaves the scanner behind that line. *)
Lemma next_loop_spec (toks : list string) (fl : option scanError)
  (kept : list string) :
  forall s : Stream,
  exists s',
    next_loop toks fl kept s = Done (hd_error (records toks), s')
    /\ scanner s' = scanner_after toks fl kept
    /\ errors s'
       = fold_left add1 (next_diagnostics toks (lineNum s)) (errors s)
    /\ index s' = index s /\ data s' = data s
    /\ validLines s' = validLines s.
Proof.
  unfold scanner_after.
  induction toks as [|l toks IH]; intros s;
    cbn [next_loop records after_next next_diagnostics].
  - eexists. split; [reflexivity|]. cbn. repeat split.
  - cbn [lineNum set_lineNum set_scanner].
    match goal with
    | |- context [parseLine ?s1 l ?n1] =>
        pose proof (parseLine_spec s1 l n1) as P
    end.
    unfold valid. destruct (record_of l) as [e|] eqn:R.
    + rewrite P. cbn [bind hd_error fold_left].
      eexists. split; [reflexivity|]. cbn. repeat split.
    + destruct P as [msg [D P]]. rewrite P. cbn [bind]. rewrite D.
      match goal with
      | |- context [next_loop toks fl kept ?s1] =>
          destruct (IH s1) as [s' [E H]]
      end.
      exists s'. rewrite E. split; [reflexivity|].
      match type of H with
      | context [addError ?s1 msg] =>
          destruct (addError_frame s1 msg) as [Hi [Hl [Hd [Hsc Hv]]]];
          rewrite errors_addError, Hi, Hl, Hd, Hv in H
      end.
      cbn in H. cbn [app fold_left]. exact H.
Qed.

Lemma Next_spec (s : Stream) :
  exists s',
    Next s = Done (hd_error (records (pending (scanner s))), s')
    /\ scanner s'
       = scanner_after (pending (scanner s)) (failure (scanner s))
           (held (scanner s))
    /\ errors s'
       = fold_left add1
           (next_diagnostics (pending (scanner s)) (lineNum s)) (errors s)
    /\ index s' = index s /\ data s' = data s
    /\ validLines s' = validLines s.
Proof. apply next_loop_spec. Qed.

(** After a call of [Next] that returned a record. *)
Lemma scanner_after_record (toks : list string) (fl : option scanError)
  (kept : list string) (e : LogEntry) (es : list LogEntry) :
  records toks = e :: es ->
  scanner_after toks fl kept = mkScanner (after_next toks) fl kept.
Proof. unfold scanner_after. intros ->. reflexivity. Qed.

(** After a call of [Next] that returned [nil]. *)
Lemma scanner_after_end (toks : list string) (fl : option scanError)
  (kept : list string) :
  records toks = [] -> scanner_after toks fl kept = mkScanner kept fl [].
Proof. unfold scanner_after. intros ->. reflexivity. Qed.

(** Reading to the end delivers the records of all the lines the scanner has
    left, whatever the fuel above their number. *)
Lemma drain_fuel (fuel : nat) :
  forall s : Stream,
  (List.length (pending (scanner s)) < fuel)%nat ->
  drain fuel s = records (pending (scanner s)).
Proof.
  induction fuel as [|fuel IH]; intros s H; [lia|]. cbn [drain].
  destruct (Next_spec s) as [s' [E [Hs _]]]. rewrite E.
  destruct (records (pending (scanner s))) as [|e es] eqn:R; cbn [hd_error].
  - reflexivity.
  - rewrite (scanner_after_record _ _ _ _ _ R) in Hs. rewrite IH.
    + rewrite Hs. cbn [pending]. rewrite records_after_next, R. reflexivity.
    + rewrite Hs. cbn [pending].
      pose proof (after_next_shorter (pending (scanner s)) e) as L.
      rewrite R in L. specialize (L eq_refl). lia.
Qed.

Lemma sequential_records (file : string) :
  sequential file = records (pending (NewScanner file)).
Proof. unfold sequential. rewrite drain_fuel; cbn; auto. Qed.

(** ** Offsets of physical lines *)

Lemma raw_lines_nil (file : string) : raw_lines file = [] -> file = EmptyString.
Proof.
  destruct file as [|c file]; cbn [raw_lines]; auto.
  destruct (Ascii.eqb c newline); [discriminate|].
  destruct (raw_lines file); discriminate.
Qed.

Lemma raw_lines_drop (file l : string) (ls : list string) :
  raw_lines file = l :: ls ->
  raw_lines (drop (S (String.length l)) file) = ls.
Proof.
  revert l ls. induction file as [|c file IH]; intros l ls H;
    cbn [raw_lines] in H; [discriminate|].
  destruct (Ascii.eqb c newline).
  - injection H as <- <-. reflexivity.
  - destruct (raw_lines file) as [|l' ls'] eqn:R.
    + injection H as <- <-. cbn [String.length drop].
      apply raw_lines_nil in R. subst file. reflexivity.
    + injection H as <- <-. cbn [String.length drop]. apply IH. reflexivity.
Qed.

(** Dropping the bytes of the first [j] lines leaves the other lines. *)
Lemma raw_lines_skip (j : nat) :
  forall file : string,
  (j <= List.length (raw_lines file))%nat ->
  raw_lines (drop (Z.to_nat (span (firstn j (raw_lines file)))) file)
  = skipn j (raw_lines file).
Proof.
  induction j as [|j IH]; intros file H; [reflexivity|].
  destruct (raw_lines file) as [|l ls] eqn:R; cbn [List.length] in H; [lia|].
  cbn [firstn skipn span].
  pose proof (raw_lines_drop file l ls R) as D.
  pose proof (span_nonneg (firstn j ls)) as Sp.
  replace (Z.to_nat (len l + 1 + span (firstn j ls)))
    with (S (String.length l) + Z.to_nat (span (firstn j ls)))%nat
    by (unfold len; lia).
  rewrite <- drop_drop. rewrite <- D at 2. rewrite <- D in Sp.
  rewrite <- (IH (drop (S (String.length l)) file)) by (rewrite D; lia).
  rewrite D. reflexivity.
Qed.

Lemma scan_tokens_all (ls : list string) :
  snd (scan_tokens ls) = None -> fst (scan_tokens ls) = map dropCR ls.
Proof.
  induction ls as [|l ls IH]; cbn [scan_tokens map]; auto.
  destruct (len l <? MaxScanTokenSize); [|discriminate].
  destruct (scan_tokens ls) as [ts e]. cbn [fst snd] in *.
  intros H. rewrite IH; auto.
Qed.

Lemma scan_tokens_skipn (j : nat) (ls : list string) :
  snd (scan_tokens ls) = None -> snd (scan_tokens (skipn j ls)) = None.
Proof.
  revert ls. induction j as [|j IH]; intros ls H; [exact H|].
  destruct ls as [|l ls]; [exact H|]. cbn [skipn]. apply IH.
  cbn [scan_tokens] in H. destruct (len l <? MaxScanTokenSize); [|discriminate].
  destruct (scan_tokens ls). exact H.
Qed.

Lemma lf_only_tokens (ls : list string) :
  forallb (fun l => String.eqb (dropCR l) l) ls = true -> map dropCR ls = ls.
Proof.
  induction ls as [|l ls IH]; cbn [forallb map]; auto.
  intros H. apply andb_true_iff in H. destruct H as [H1 H2].
  apply String.eqb_eq in H1. rewrite H1, IH; auto.
Qed.

(** In a file without carriage returns that the scanner reads to its end, the
    tokens are the physical lines, and a scanner placed behind the first [j]
    of them delivers the others. *)
Lemma NewScanner_skip (file : string) (j : nat) :
  failure (NewScanner file) = None -> lf_only file = true ->
  (j <= List.length (pending (NewScanner file)))%nat ->
  NewScanner
    (drop (Z.to_nat (span (firstn j (pending (NewScanner file))))) file)
  = mkScanner (skipn j (pending (NewScanner file))) None [].
Proof.
  rewrite failure_NewScanner, pending_NewScanner. intros F L J.
  rewrite scan_tokens_all in * by exact F.
  rewrite lf_only_tokens in * by exact L.
  unfold NewScanner. rewrite raw_lines_skip by exact J.
  pose proof (scan_tokens_skipn j (raw_lines file) F) as F'.
  pose proof (scan_tokens_all (skipn j (raw_lines file)) F') as A.
  rewrite (scan_held_none _ F').
  destruct (scan_tokens (skipn j (raw_lines file))) as [ts e].
  cbn [fst snd] in *. subst e. rewrite A. rewrite lf_only_tokens; auto.
  unfold lf_only in L. rewrite <- (firstn_skipn j (raw_lines file)) in L.
  rewrite forallb_app in L. apply andb_true_iff in L. apply L.
Qed.


(** ** The entries of the index *)

(** Entry number [n] is the line [j] that holds record number [n]: its
    offset is the span of the lines before it. *)
Lemma index_entries_nth (toks : list string) :
  forall (k off : Z) (n : nat) (fo : fileOffset),
  nth_error (index_entries toks k off) n = Some fo ->
  exists (j : nat) (l : string) (rest : list string) (e : LogEntry),
    skipn j toks = l :: rest
    /\ record_of l = Some e
    /\ nth_error (records toks) n = Some e
    /\ offset fo = off + span (firstn j toks)
    /\ line fo = k + Z.of_nat n.
Proof.
  induction toks as [|l toks IH]; intros k off n fo H;
    cbn [index_entries records] in *.
  - destruct n; discriminate.
  - unfold valid in H. destruct (record_of l) as [e|] eqn:R.
    + destruct n as [|n]; cbn [nth_error] in *.
      * injection H as <-. exists O, l, toks, e. cbn. repeat split; auto; lia.
      * destruct (IH _ _ _ _ H) as [j [l' [rest [e' [H1 [H2 [H3 [H4 H5]]]]]]]].
        exists (S j), l', rest, e'. cbn [skipn firstn span].
        repeat split; auto; lia.
    + destruct (IH _ _ _ _ H) as [j [l' [rest [e' [H1 [H2 [H3 [H4 H5]]]]]]]].
      exists (S j), l', rest, e'. cbn [skipn firstn span].
      repeat split; auto; lia.
Qed.

Lemma index_entries_lower (toks : list string) :
  forall (k off : Z) (fo : fileOffset),
  In fo (index_entries toks k off) -> off <= offset fo.
Proof.
  induction toks as [|l toks IH]; intros k off fo H; cbn [index_entries] in H.
  - contradiction.
  - pose proof (len_nonneg l). destruct (valid l).
    + destruct H as [<- | H]; [cbn; lia|]. apply IH in H. lia.
    + apply IH in H. lia.
Qed.

Lemma index_entries_increase (toks : list string) :
  forall (k off : Z) (i j : nat) (fi fj : fileOffset),
  (i < j)%nat ->
  nth_error (index_entries toks k off) i = Some fi ->
  nth_error (index_entries toks k off) j = Some fj ->
  offset fi < offset fj.
Proof.
  induction toks as [|l toks IH]; intros k off i j fi fj Hij Hi Hj;
    cbn [index_entries] in *.
  - destruct i; discriminate.
  - pose proof (len_nonneg l). destruct (valid l).
    + destruct j as [|j]; [lia|]. destruct i as [|i]; cbn [nth_error] in *.
      * injection Hi as <-. apply nth_error_In, index_entries_lower in Hj.
        cbn [offset]. lia.
      * eapply (IH _ _ i j); eauto. lia.
    + eapply (IH _ _ i j); eauto.
Qed.

Lemma length_records_filter (toks : list string) :
  List.length (records toks) = List.length (filter valid toks).
Proof.
  induction toks as [|l toks IH]; cbn [records filter]; auto.
  unfold valid at 1. destruct (record_of l); cbn [List.length]; auto.
Qed.

(** ** [SeekToLine] *)

Lemma SeekToLine_spec (s : Stream) (n : Z) (fo : fileOffset) :
  0 <= n -> nth_error (index s) (Z.to_nat n) = Some fo -> 0 <= offset fo ->
  SeekToLine s n
  = Done (set_lineNum
            (set_scanner s
               (NewScanner (drop (Z.to_nat (offset fo)) (data s)))) n,
          None).
Proof.
  intros Hn Hnth Ho. unfold SeekToLine, hasIndex.
  assert (Z.to_nat n < List.length (index s))%nat as Hlen
    by (apply nth_error_Some; congruence).
  destruct (0 <? Z.of_nat (List.length (index s))) eqn:E1;
    [|apply Z.ltb_ge in E1; lia]. cbn [negb].
  destruct (n <? 0) eqn:E2; [apply Z.ltb_lt in E2; lia|]. cbn [orb].
  destruct (Z.of_nat (List.length (index s)) <=? n) eqn:E3;
    [apply Z.leb_le in E3; lia|].
  rewrite Hnth. destruct (offset fo <? 0) eqn:E4;
    [apply Z.ltb_lt in E4; lia|]. reflexivity.
Qed.

(** [SeekToLine] fails without an index and for an ordinal out of range, and
    then leaves the stream as it is. *)
Lemma SeekToLine_errors (s : Stream) (n : Z) :
  (index s = [] -> SeekToLine s n = Done (s, Some ErrMissingIndex))
  /\ (index s <> [] -> n < 0 \/ Z.of_nat (List.length (index s)) <= n ->
      SeekToLine s n
      = Done (s, Some (ErrOutOfRange n (Z.of_nat (List.length (index s)))))).
Proof.
  unfold SeekToLine, hasIndex. split.
  - intros ->. reflexivity.
  - intros Hne Hr.
    assert (0 < Z.of_nat (List.length (index s))) as Hpos
      by (destruct (index s); [congruence | cbn [List.length]; lia]).
    destruct (0 <? Z.of_nat (List.length (index s))) eqn:E1;
      [|apply Z.ltb_ge in E1; lia]. cbn [negb].
    destruct (n <? 0) eqn:E2; [reflexivity|]. cbn [orb].
    apply Z.ltb_ge in E2.
    destruct (Z.of_nat (List.length (index s)) <=? n) eqn:E3; [reflexivity|].
    apply Z.leb_gt in E3. lia.
Qed.

(** ** Seeking in a file without carriage returns

    After [BuildIndex] on a file none of whose lines ends in a carriage
    return, [SeekToLine n] followed by [Next] delivers record number [n] of
    the sequential reading. *)
Lemma seek_lands_on_record_lf (file : string) (s1 : Stream) (n : Z) :
  fits_int64 file -> lf_only file = true ->
  BuildIndex (NewStream file) = Done (s1, None) ->
  0 <= n < TotalLines s1 ->
  exists (s2 s3 : Stream) (e : LogEntry),
    SeekToLine s1 n = Done (s2, None)
    /\ Next s2 = Done (Some e, s3)
    /\ nth_error (sequential file) (Z.to_nat n) = Some e.
Proof.
  intros F L B Hn.
  destruct (BuildIndex_index (NewStream file) F)
    as [s' [B' [Hix [Hv [Hd Hsc]]]]].
  cbn [data NewStream] in *. rewrite B in B'.
  injection B' as <- Hf.
  assert (failure (NewScanner file) = None) as Hfail
    by (destruct (failure (NewScanner file)); [discriminate | reflexivity]).
  set (toks := pending (NewScanner file)) in *.
  unfold TotalLines, hasIndex in Hn. rewrite Hix, Hv in Hn.
  rewrite length_index_entries in Hn.
  destruct (0 <? Z.of_nat (List.length (records toks))) eqn:E;
    cbn [negb] in Hn; [|lia].
  destruct (nth_error (index s1) (Z.to_nat n)) as [fo|] eqn:Hnth.
  2:{ apply nth_error_None in Hnth.
      rewrite Hix, length_index_entries in Hnth. lia. }
  rewrite Hix in Hnth.
  destruct (index_entries_nth toks 0 0 _ _ Hnth)
    as [j [l [rest [e [Hj [Hr [He [Ho _]]]]]]]].
  rewrite <- Hix in Hnth.
  pose proof (span_nonneg (firstn j toks)) as Sp.
  rewrite (SeekToLine_spec s1 n fo) by (auto; lia).
  eexists. 
  match goal with
  | |- context [Done (?s2, None) = _] => destruct (Next_spec s2) as [s3 [N _]]
  end.
  exists s3, e. split; [reflexivity|]. split.
  - rewrite N. cbn [scanner set_lineNum set_scanner]. rewrite Hd, Ho.
    rewrite Z.add_0_l.
    assert (j <= List.length toks)%nat as Hjl.
    { destruct (Nat.le_gt_cases j (List.length toks)); auto.
      rewrite skipn_all2 in Hj by lia. discriminate. }
    unfold toks. rewrite NewScanner_skip by auto. cbn [pending].
    fold toks. rewrite Hj. cbn [records]. rewrite Hr. reflexivity.
  - rewrite sequential_records. exact He.
Qed.

(** [SeekToLine n] followed by one [Next]: the error of the seek, or the
    record [Next] returns. *)
Definition seek_then_next (s : Stream) (n : Z)
  : outcome (option streamError * option LogEntry) :=
  bind (SeekToLine s n) (fun r =>
  match r with
  | (_, Some err) => Done (Some err, None)
  | (s2, None) => bind (Next s2) (fun r' => Done (None, fst r'))
  end).

Lemma seek_then_next_lf (file : string) (s1 : Stream) (n : Z) :
  fits_int64 file -> lf_only file = true ->
  BuildIndex (NewStream file) = Done (s1, None) ->
  0 <= n < TotalLines s1 ->
  exists e : LogEntry,
    seek_then_next s1 n = Done (None, Some e)
    /\ nth_error (sequential file) (Z.to_nat n) = Some e.
Proof.
  intros F L B Hn.
  destruct (seek_lands_on_record_lf file s1 n F L B Hn)
    as [s2 [s3 [e [H1 [H2 H3]]]]].
  exists e. split; [|exact H3].
  unfold seek_then_next. rewrite H1. cbn [bind]. rewrite H2. reflexivity.
Qed.


(** ** What a valid line holds

    [fields_of csv iProto iSrc iDst iPort e]: the fields of [csv] at these
    positions are the protocol name, the addresses and, for [tcp] and [udp],
    the ports of [e]; other protocols leave the ports at 0. *)
Definition fields_of (csv : string) (iProto iSrc iDst iPort : Z)
  (e : LogEntry) : Prop :=
  extractCSVField csv iProto = Done (ProtoName e, true)
  /\ extractCSVField csv iSrc = Done (Src e, true)
  /\ extractCSVField csv iDst = Done (Dst e, true)
  /\ if String.eqb (ProtoName e) protoUDP || String.eqb (ProtoName e) protoTCP
     then exists a b,
            extractCSVField csv iPort = Done (a, true)
            /\ ParseUint a 16 = Some (SrcPort e)
            /\ extractCSVField csv (iPort + 1) = Done (b, true)
            /\ ParseUint b 16 = Some (DstPort e)
     else SrcPort e = 0 /\ DstPort e = 0.

(** [parsed_from line e]: the line has a timestamp between its first two
    spaces that [time.Parse] accepts, the delimiter ["] "], and behind it
    every field the format requires, the numeric ones in decimal digits. *)
Definition parsed_from (line : string) (e : LogEntry) : Prop :=
  let i := IndexByte line " "%char in
  let j := IndexByte (drop (Z.to_nat (i + 1)) line) " "%char in
  let csv := drop (Z.to_nat (Index line "] " + 2)) line in
  0 <= i /\ 0 <= j
  /\ time_Parse (take (Z.to_nat j) (drop (Z.to_nat (i + 1)) line))
     = inl (Time e)
  /\ 0 <= Index line "] "
  /\ extractCSVField csv 3 = Done (Label e, true)
  /\ extractCSVField csv 4 = Done (Interface e, true)
  /\ extractCSVField csv 5 = Done (Reason e, true)
  /\ extractCSVField csv 6 = Done (Action e, true)
  /\ extractCSVField csv 7 = Done (Direction e, true)
  /\ (exists v, extractCSVField csv 8 = Done (v, true)
                /\ ParseUint v 8 = Some (IPVersion e))
  /\ ((IPVersion e = 4 /\ fields_of csv 16 18 19 20 e)
      \/ (IPVersion e = 6 /\ fields_of csv 12 15 16 17 e)).

Lemma pbind_inv {A B : Type} (m : parsing A) (k : A -> parsing B) (b : B) :
  pbind m k = Done (inr b) -> exists a, m = Done (inr a) /\ k a = Done (inr b).
Proof.
  unfold pbind. destruct m as [[msg|a]|]; try discriminate. eauto.
Qed.

Lemma csvField_inv (csv : string) (n : Z) (msg v : string) :
  csvField csv n msg = Done (inr v) -> extractCSVField csv n = Done (v, true).
Proof.
  unfold csvField. destruct (extractCSVField csv n) as [[w [|]]|];
    unfold ret, fail; congruence.
Qed.

Lemma parseUint_inv (str : string) (bits : Z) (msg : string) (v : Z) :
  parseUint str bits msg = Done (inr v) -> ParseUint str bits = Some v.
Proof.
  unfold parseUint. destruct (ParseUint str bits); unfold ret, fail; congruence.
Qed.

Lemma switch_const_id (v : string) (cases : list string) :
  switch_const v cases = v.
Proof.
  induction cases as [|c cases IH]; cbn [switch_const]; auto.
  destruct (String.eqb v c) eqn:E; auto. apply String.eqb_eq in E. auto.
Qed.

Ltac invert_bind H :=
  let a := fresh "a" in
  let Ha := fresh "Ha" in
  apply pbind_inv in H; destruct H as [a [Ha H]];
  first [apply csvField_inv in Ha | apply parseUint_inv in Ha | idtac].

Lemma parsePorts_inv (csv : string) (i : Z) (tag : string) (n sp dp : Z) :
  parsePorts csv i tag n = Done (inr (sp, dp)) ->
  exists a b,
    extractCSVField csv i = Done (a, true) /\ ParseUint a 16 = Some sp
    /\ extractCSVField csv (i + 1) = Done (b, true) /\ ParseUint b 16 = Some dp.
Proof.
  unfold parsePorts. intros H. do 4 invert_bind H.
  unfold ret in H. injection H as <- <-. eauto 10.
Qed.

Lemma parseIP_inv (csv : string) (n : Z) (v : string)
  (iProto iSrc iDst iPort : Z) (other : string)
  (proto src dst : string) (sp dp : Z) (e : LogEntry) :
  parseIP csv n v iProto iSrc iDst iPort other
  = Done (inr (proto, src, dst, sp, dp)) ->
  ProtoName e = proto -> Src e = src -> Dst e = dst ->
  SrcPort e = sp -> DstPort e = dp ->
  fields_of csv iProto iSrc iDst iPort e.
Proof.
  unfold parseIP, fields_of. intros H -> -> -> -> ->. do 3 invert_bind H.
  rewrite switch_const_id in H.
  destruct (String.eqb a protoUDP) eqn:E1.
  - invert_bind H. unfold ret in H. injection H as <- <- <- <- <-.
    rewrite E1. cbn [orb]. destruct a2 as [p q]. apply parsePorts_inv in Ha2.
    repeat split; auto.
  - destruct (String.eqb a protoTCP) eqn:E2.
    + invert_bind H. unfold ret in H. injection H as <- <- <- <- <-.
      rewrite E1, E2. cbn [orb]. destruct a2 as [p q].
      apply parsePorts_inv in Ha2. repeat split; auto.
    + unfold ret in H. injection H as <- <- <- <- <-.
      rewrite E1, E2. cbn [orb]. repeat split; auto.
Qed.

(** A line [parseLine] accepts has every field the format requires: a line
    that lacks one, or whose timestamp, IP version or port does not parse,
    yields no record. *)
Lemma parseLine_body_inv (line : string) (n : Z) (e : LogEntry) :
  parseLine_body line n = Done (inr e) -> parsed_from line e.
Proof.
  unfold Stream.parseLine_body, parsed_from.
  pose proof (IndexByte_range line " "%char) as R1.
  pose proof (len_nonneg line) as L0.
  set (i := IndexByte line " ") in *.
  rewrite slice_from_ok by lia. cbn [sliced ret pbind].
  pose proof (IndexByte_range (drop (Z.to_nat (i + 1)) line) " "%char) as R2.
  rewrite len_drop in R2 by (unfold len in R1; lia).
  set (j := IndexByte (drop (Z.to_nat (i + 1)) line) " ") in *.
  destruct (i =? -1) eqn:Ei; cbn [orb]; [discriminate|].
  destruct (j =? -1) eqn:Ej; [discriminate|].
  apply Z.eqb_neq in Ei, Ej.
  rewrite slice_ok by lia. cbn [sliced ret pbind].
  replace (j + (i + 1) - (i + 1)) with j by lia.
  destruct (time_Parse _) as [timestamp | err] eqn:T; [|discriminate].
  pose proof (Index_range line "] ") as R3.
  destruct (Index line "] " =? -1) eqn:Ec; [discriminate|].
  apply Z.eqb_neq in Ec. change (len "] ") with 2 in R3.
  rewrite slice_from_ok by lia. cbn [sliced ret pbind].
  set (csv := drop (Z.to_nat (Index line "] " + 2)) line).
  intros H. do 7 invert_bind H. rewrite !switch_const_id in H.
  destruct (a5 =? 4) eqn:E4.
  - apply Z.eqb_eq in E4. invert_bind H.
    destruct a6 as [[[[proto src] dst] sp] dp].
    unfold ret in H. injection H as <-. cbn.
    repeat (split; [first [lia | assumption | eauto] |]).
    left. split; [exact E4|]. eapply parseIP_inv; eauto.
  - destruct (a5 =? 6) eqn:E6; [|discriminate].
    apply Z.eqb_eq in E6. invert_bind H.
    destruct a6 as [[[[proto src] dst] sp] dp].
    unfold ret in H. injection H as <-. cbn.
    repeat (split; [first [lia | assumption | eauto] |]).
    right. split; [exact E6|]. eapply parseIP_inv; eauto.
Qed.


(** ** Sequences of operations on a stream *)

Inductive operation : Type :=
| opBuildIndex
| opNext
| opSeekToLine (n : Z).

(** The stream an operation leaves behind. *)
Definition perform (s : Stream) (o : operation) : Stream :=
  match o with
  | opBuildIndex =>
      match BuildIndex s with Done (s', _) => s' | Panic => s end
  | opNext =>
      match Next s with Done (_, s') => s' | Panic => s end
  | opSeekToLine n =>
      match SeekToLine s n with Done (s', _) => s' | Panic => s end
  end.

Definition run (ops : list operation) (s : Stream) : Stream :=
  fold_left perform ops s.

(** The diagnostics an operation passes to [addError], in order. *)
Definition reports (s : Stream) (o : operation) : list string :=
  match o with
  | opBuildIndex => index_diagnostics (pending (NewScanner (data s))) 0
  | opNext => next_diagnostics (pending (scanner s)) (lineNum s)
  | opSeekToLine _ => []
  end.

Fixpoint reported (ops : list operation) (s : Stream) : list string :=
  match ops with
  | [] => []
  | o :: ops' => reports s o ++ reported ops' (perform s o)
  end.

Lemma SeekToLine_errors_kept (s s' : Stream) (n : Z) (e : option streamError) :
  SeekToLine s n = Done (s', e) -> errors s' = errors s.
Proof.
  unfold SeekToLine.
  destruct (negb (hasIndex s)); [congruence|].
  destruct ((n <? 0) || _); [congruence|].
  destruct (nth_error _ _) as [fo|]; [|discriminate].
  destruct (offset fo <? 0); intros H; injection H as <- _; reflexivity.
Qed.

Lemma perform_errors (s : Stream) (o : operation) :
  errors (perform s o) = fold_left add1 (reports s o) (errors s).
Proof.
  destruct o as [| |n]; cbn [perform reports].
  - destruct (BuildIndex_errors s) as [s' [E [H _]]]. rewrite E. exact H.
  - destruct (Next_spec s) as [s' [E [_ [H _]]]]. rewrite E. exact H.
  - destruct (SeekToLine s n) as [[s' e]|] eqn:E; auto.
    apply SeekToLine_errors_kept in E. exact E.
Qed.

Lemma run_errors (ops : list operation) :
  forall s : Stream,
  errors (run ops s) = fold_left add1 (reported ops s) (errors s).
Proof.
  induction ops as [|o ops IH]; intros s; cbn [run fold_left reported]; auto.
  rewrite fold_add1_app, <- perform_errors. apply IH.
Qed.

Lemma reported_app (ops ops' : list operation) :
  forall s : Stream,
  reported (ops ++ ops') s = (reported ops s ++ reported ops' (run ops s))%list.
Proof.
  induction ops as [|o ops IH]; intros s; cbn [app reported run fold_left]; auto.
  rewrite IH, app_assoc. reflexivity.
Qed.

Lemma fold_addError_errors (msgs : list string) :
  forall s : Stream,
  errors (fold_left addError msgs s) = fold_left add1 msgs (errors s).
Proof.
  induction msgs as [|m msgs IH]; intros s; cbn [fold_left]; auto.
  rewrite IH, errors_addError. reflexivity.
Qed.

(** C5.  The diagnostics of a stream never number more than
    [MaxErrorsInMemory] = 1000.  Any run of [addError] on a new stream stores
    the first 1000 messages it is given, in order, and drops the others; and
    after any sequence of [BuildIndex], [Next] and [SeekToLine] on any file
    the stream holds the first 1000 of the diagnostics these operations
    reported, in order, so that a later operation only appends to what an
    earlier one left. *)
Theorem diagnostics_capped (file : string) (ops : list operation) :
  (forall msgs : list string,
     errors (fold_left addError msgs (NewStream file))
     = firstn (Z.to_nat MaxErrorsInMemory) msgs)
  /\ Z.of_nat (List.length (errors (run ops (NewStream file))))
     <= MaxErrorsInMemory
  /\ errors (run ops (NewStream file))
     = firstn (Z.to_nat MaxErrorsInMemory) (reported ops (NewStream file))
  /\ (forall ops' : list operation,
        exists more : list string,
          errors (run (ops ++ ops') (NewStream file))
          = (errors (run ops (NewStream file)) ++ more)%list).
Proof.
  assert (Z.of_nat (List.length (errors (NewStream file))) <= MaxErrorsInMemory)
    as H0 by (cbn; unfold MaxErrorsInMemory; lia).
  repeat split.
  - intros msgs. rewrite fold_addError_errors, fold_add1_firstn by exact H0.
    reflexivity.
  - rewrite run_errors. apply fold_add1_length, H0.
  - rewrite run_errors, fold_add1_firstn by exact H0. reflexivity.
  - intros ops'. rewrite !run_errors, !fold_add1_firstn by exact H0.
    cbn [errors NewStream app]. rewrite reported_app, firstn_app. eauto.
Qed.

(** C7.  After a successful [BuildIndex] on a stream over any file (of a size
    an [int64] holds), the offsets of the index strictly increase with the
    ordinal, entry number [i] carries the ordinal [i], and the index has as
    many entries as the file has valid lines, which is the number of records
    a sequential reading delivers. *)
Theorem index_offsets_increase (s s1 : Stream) :
  fits_int64 (data s) ->
  BuildIndex s = Done (s1, None) ->
  (forall (i j : nat) (fi fj : fileOffset),
     (i < j)%nat ->
     nth_error (index s1) i = Some fi -> nth_error (index s1) j = Some fj ->
     offset fi < offset fj)
  /\ (forall (i : nat) (fi : fileOffset),
        nth_error (index s1) i = Some fi -> line fi = Z.of_nat i)
  /\ List.length (index s1)
     = List.length (filter valid (map dropCR (raw_lines (data s))))
  /\ List.length (index s1) = List.length (sequential (data s)).
Proof.
  intros F B.
  destruct (BuildIndex_index s F) as [s' [B' [Hix [Hv [Hd Hsc]]]]].
  rewrite B in B'. injection B' as <- Hf.
  assert (failure (NewScanner (data s)) = None) as Hfail
    by (destruct (failure (NewScanner (data s)));
        [discriminate | reflexivity]).
  rewrite Hix. repeat split.
  - intros i j fi fj. apply index_entries_increase.
  - intros i fi H. apply index_entries_nth in H.
    destruct H as [j [l [rest [e [_ [_ [_ [_ H]]]]]]]]. lia.
  - rewrite length_index_entries, length_records_filter.
    rewrite pending_NewScanner, scan_tokens_all; auto.
    rewrite <- failure_NewScanner. exact Hfail.
  - rewrite length_index_entries, sequential_records. reflexivity.
Qed.

(** C2, as the code has it.  [TotalLines] is -1 on a new stream.  After a
    successful [BuildIndex] it is the number of records a sequential reading
    of the file delivers when there is at least one, and -1 when the file
    holds no valid record; the revision that returns [len(s.index)] agrees. *)
Theorem TotalLines_after_BuildIndex (file : string) (s1 : Stream) :
  fits_int64 file ->
  BuildIndex (NewStream file) = Done (s1, None) ->
  TotalLines (NewStream file) = -1
  /\ TotalLines s1
     = (if (0 <? Z.of_nat (List.length (sequential file)))
        then Z.of_nat (List.length (sequential file))
        else -1)
  /\ TotalLines_len s1 = TotalLines s1.
Proof.
  intros F B.
  destruct (BuildIndex_index (NewStream file) F)
    as [s' [B' [Hix [Hv _]]]].
  rewrite B in B'. injection B' as <- _. cbn [data NewStream] in *.
  unfold TotalLines, TotalLines_len, hasIndex.
  rewrite Hix, Hv, length_index_entries, sequential_records.
  cbn [index List.length].
  destruct (0 <? Z.of_nat (List.length (records (pending (NewScanner file)))));
    auto.
Qed.

(** [Next], one round of its loop at a time. *)
Lemma Next_unfold (s : Stream) :
  Next s
  = match Scan (scanner s) with
    | (None, sc) => Done (None, set_scanner s sc)
    | (Some l, sc) =>
        let s := set_lineNum (set_scanner s sc) (wrap64 (lineNum s + 1)) in
        bind (parseLine s l (lineNum s)) (fun r =>
        match r with
        | (Some entry, s) => Done (Some entry, s)
        | (None, s) => Next s
        end)
    end.
Proof.
  unfold Stream.Next at 1. unfold Scan.
  destruct s as [es ix n d [toks fl kept] v].
  cbn [scanner pending failure held]. destruct toks as [|l toks];
    [reflexivity|].
  cbn [Stream.next_loop]. cbn zeta.
  cbn [lineNum set_lineNum set_scanner errors index data scanner validLines].
  match goal with
  | |- context [parseLine ?s1 l ?n1] =>
      pose proof (parseLine_spec s1 l n1) as P
  end.
  destruct (record_of l) as [e|].
  - rewrite P. reflexivity.
  - destruct P as [msg [_ P]]. rewrite P. cbn [bind]. unfold Stream.Next.
    match goal with
    | |- context [addError ?s1 msg] =>
        destruct (addError_frame s1 msg) as [_ [_ [_ [Hsc _]]]]; rewrite Hsc
    end.
    reflexivity.
Qed.

(** C9.  [parseLine] is total: for every line and line number it returns a
    record and leaves the stream as it is, or it returns [nil] after one call
    of [addError]; it never panics.  It returns a record only for a line that
    has a timestamp [time.Parse] accepts and every required field, the IP
    version and the ports in decimal digits ([parsed_from]), so a line that
    lacks a field or holds one that does not parse takes the branch of the
    diagnostic.  [Next] always returns, and when the line its scanner
    delivers is not valid it goes on with the next line. *)
Theorem parseLine_total (s : Stream) (l : string) (n : Z) :
  ((exists e, parseLine s l n = Done (Some e, s) /\ parsed_from l e)
   \/ (exists msg, parseLine s l n = Done (None, addError s msg)))
  /\ (exists r s', Next s = Done (r, s'))
  /\ (forall sc : Scanner,
        Scan (scanner s) = (Some l, sc) -> record_of l = None ->
        exists msg,
          Next s
          = Next (addError
                    (set_lineNum (set_scanner s sc) (wrap64 (lineNum s + 1)))
                    msg)).
Proof.
  repeat split.
  - pose proof (parseLine_spec s l n) as P.
    pose proof (record_of_any l n) as R.
    destruct (record_of l) as [e|].
    + left. exists e. split; auto. apply (parseLine_body_inv l n e R).
    + right. destruct P as [msg [_ P]]. eauto.
  - destruct (Next_spec s) as [s' [E _]]. eauto.
  - intros sc Hs Hr. rewrite Next_unfold, Hs. cbn zeta.
    match goal with
    | |- context [parseLine ?s1 l ?n1] =>
        pose proof (parseLine_spec s1 l n1) as P
    end.
    rewrite Hr in P. destruct P as [msg [_ P]]. rewrite P. cbn [bind]. eauto.
Qed.

End WithTime.

Arguments record_of {TimeT} time_Parse line.
Arguments valid {TimeT} time_Parse line.
Arguments records {TimeT} time_Parse toks.
Arguments sequential {TimeT} time_Parse file.
Arguments perform {TimeT} time_Parse s o.
Arguments run {TimeT} time_Parse ops s.
Arguments reported {TimeT} time_Parse ops s.
Arguments parsed_from {TimeT} time_Parse line e.
Arguments seek_then_next {TimeT} time_Parse s n.

End StreamFacts.


(* ================================================================== *)
(** * The filter compiler: termination                                 *)
(* ================================================================== *)

Module FilterFacts.
Import Go GoFacts Stream Filter.

Lemma length_take (n : nat) (s : string) :
  (String.length (take n s) <= String.length s)%nat.
Proof.
  revert s. induction n as [|n IH]; intros [|c s]; cbn; auto with arith.
Qed.

Lemma length_trim_left (fuel : nat) (s : string) :
  (String.length (trim_left fuel s) <= String.length s)%nat.
Proof.
  revert s. induction fuel as [|fuel IH]; intros s; cbn [trim_left]; auto.
  destruct (leading_space s) as [r|]; auto.
  etransitivity; [apply IH|]. rewrite length_drop. lia.
Qed.

Lemma length_trim_right (fuel : nat) (s : string) :
  (String.length (trim_right fuel s) <= String.length s)%nat.
Proof.
  revert s. induction fuel as [|fuel IH]; intros s; cbn [trim_right]; auto.
  destruct (trailing_space s) as [r|]; auto.
  etransitivity; [apply IH|]. apply length_take.
Qed.

Lemma length_TrimSpace (s : string) :
  (String.length (TrimSpace s) <= String.length s)%nat.
Proof.
  unfold TrimSpace. etransitivity; [apply length_trim_right|].
  apply length_trim_left.
Qed.

Lemma take_nonempty (n : nat) (s : string) :
  take n s <> EmptyString -> (0 < n)%nat.
Proof. destruct n; cbn; [congruence | lia]. Qed.

Lemma count_while_length (p : ascii -> bool) (s : string) :
  (count_while p s <= String.length s)%nat.
Proof.
  induction s as [|c s IH]; cbn; auto. destruct (p c); lia.
Qed.

Section Grammar.
Variable unicodeLower : string -> string.
Variable opValue : string -> string -> string.
Variable isField : string -> bool.
Variable field : Type.
Variable fieldOf : string -> field.

Local Abbreviation nextToken := (nextToken unicodeLower opValue isField).
Local Abbreviation advance := (advance unicodeLower opValue isField).
Local Abbreviation newParser := (newParser unicodeLower opValue isField).
Local Abbreviation parseOr := (parseOr unicodeLower opValue isField fieldOf).
Local Abbreviation parseOr_loop :=
  (parseOr_loop unicodeLower opValue isField fieldOf).
Local Abbreviation parseAnd := (parseAnd unicodeLower opValue isField fieldOf).
Local Abbreviation parseAnd_loop :=
  (parseAnd_loop unicodeLower opValue isField fieldOf).
Local Abbreviation parseNot := (parseNot unicodeLower opValue isField fieldOf).
Local Abbreviation parsePrimary :=
  (parsePrimary unicodeLower opValue isField fieldOf).
Local Abbreviation parse := (parse unicodeLower opValue isField fieldOf).
Local Abbreviation Compile := (Compile unicodeLower opValue isField fieldOf).

(** The bytes the lexer has not read. *)
Definition unread (l : lexer) : nat := String.length (input l) - pos l.

(** What the parser has left: the unread bytes and the current token. *)
Definition remaining (p : parser) : nat :=
  unread (lex p) + (if at_token p tokenEOF then 0 else 1).

(** [nextToken] keeps the input and never moves back; a token other than
    [tokenEOF] has used up at least one byte. *)
Lemma nextToken_progress (l l' : lexer) (t : token) :
  nextToken l = (t, l') ->
  input l' = input l
  /\ (unread l' <= unread l)%nat
  /\ (typ t <> tokenEOF -> (unread l' < unread l)%nat).
Proof.
  unfold Filter.nextToken.
  assert (input (skipSpace l) = input l
          /\ (pos l <= pos (skipSpace l))%nat) as [I1 P1]
    by (unfold skipSpace; cbn [input pos]; split; auto; lia).
  set (l1 := skipSpace l) in *. unfold unread.
  destruct (String.length (input l1) <=? pos l1)%nat eqn:E.
  - intros H. injection H as <- <-. cbn [typ]. rewrite I1.
    repeat split; try lia. congruence.
  - apply Nat.leb_gt in E.
    assert (input (advance_lexer l1) = input l
            /\ (pos l1 < pos (advance_lexer l1))%nat) as [A1 A2].
    { unfold advance_lexer.
      destruct (pos l1 <? String.length (input l1))%nat eqn:E'.
      - cbn [input pos]. split; auto; lia.
      - apply Nat.ltb_ge in E'. lia. }
    rewrite I1 in E.
    destruct (Ascii.eqb (peek l1) lparen).
    { intros H. injection H as <- <-. rewrite A1. repeat split; auto; lia. }
    destruct (Ascii.eqb (peek l1) rparen).
    { intros H. injection H as <- <-. rewrite A1. repeat split; auto; lia. }
    unfold readWord.
    set (n := count_while word_byte (rest l1)).
    destruct (String.eqb (take n (rest l1)) "") eqn:W.
    { intros H. injection H as <- <-. cbn [input pos typ]. try rewrite I1.
      repeat split; try lia. congruence. }
    apply String.eqb_neq in W. apply take_nonempty in W.
    repeat match goal with
           | |- (if ?b then _ else _) = _ -> _ => destruct b
           end; intros H; injection H as <- <-; cbn [input pos];
      try rewrite I1; repeat split; auto; lia.
Qed.

(** [p.advance()] from a token other than [tokenEOF] leaves less. *)
Lemma advance_remaining (p : parser) :
  at_token p tokenEOF = false -> (remaining (advance p) < remaining p)%nat.
Proof.
  intros H. unfold remaining, Filter.advance. rewrite H.
  destruct (nextToken (lex p)) as [t l'] eqn:E.
  destruct (nextToken_progress _ _ _ E) as [_ [H1 H2]].
  unfold at_token. cbn [current lex].
  destruct (typ t); cbn [tokenType_eqb]; try (specialize (H2 ltac:(discriminate))); lia.
Qed.

Lemma at_token_not_EOF (p : parser) (k : tokenType) :
  at_token p k = true -> k <> tokenEOF -> at_token p tokenEOF = false.
Proof.
  unfold at_token. destruct (typ (current p)), k; cbn; congruence.
Qed.

(** The result of a parse function that did not run out of fuel: an error,
    or a node and a parser with at most [bound] left. *)
Definition settled (bound : nat) (r : parsed field) : Prop :=
  match r with
  | Parsed _ p' => (remaining p' <= bound)%nat
  | Failed _ => True
  | OutOfFuel => False
  end.

(** [fuel] is enough for a parse function that needs [c] units besides six
    for every byte and token left: it returns an error or a node, the node
    only after it has used up a token, and never a node at the end of the
    input. *)
Definition enough (c : nat) (parseF : nat -> parser -> parsed field)
  (fuel : nat) : Prop :=
  forall p : parser,
    (6 * remaining p + c <= fuel)%nat ->
    settled (remaining p - 1) (parseF fuel p)
    /\ (remaining p = 0%nat -> exists e, parseF fuel p = Failed e).

(** The same for the loop of a level, which may return the node it was
    given and use up nothing. *)
Definition enough_loop (c : nat)
  (loopF : nat -> FilterNode field -> parser -> parsed field)
  (fuel : nat) : Prop :=
  forall (p : parser) (n : FilterNode field),
    (6 * remaining p + c <= fuel)%nat ->
    settled (remaining p) (loopF fuel n p).

Lemma settled_weaken (b b' : nat) (r : parsed field) :
  (b <= b')%nat -> settled b r -> settled b' r.
Proof. destruct r; cbn; auto; lia. Qed.

Lemma remaining_0 (p : parser) (k : tokenType) :
  remaining p = 0%nat -> k <> tokenEOF -> at_token p k = false.
Proof.
  unfold remaining, at_token. intros H Hk.
  destruct (typ (current p)), k; cbn in *; try reflexivity; try lia;
    congruence.
Qed.

Lemma advance_at (p : parser) (k : tokenType) :
  at_token p k = true -> k <> tokenEOF ->
  (remaining (advance p) < remaining p)%nat.
Proof.
  intros H Hk. exact (advance_remaining p (at_token_not_EOF p k H Hk)).
Qed.

(** The equations of the parse functions. *)
Lemma parseOr_S (f : nat) (p : parser) :
  parseOr (S f) p
  = match parseAnd f p with
    | Parsed left_ p => parseOr_loop f left_ p
    | r => r
    end.
Proof. reflexivity. Qed.

Lemma parseOr_loop_S (f : nat) (left_ : FilterNode field) (p : parser) :
  parseOr_loop (S f) left_ p
  = if at_token p tokenOr then
      match parseAnd f (advance p) with
      | Parsed right_ p => parseOr_loop f (orFilter left_ right_) p
      | r => r
      end
    else Parsed left_ p.
Proof. reflexivity. Qed.

Lemma parseAnd_S (f : nat) (p : parser) :
  parseAnd (S f) p
  = match parseNot f p with
    | Parsed left_ p => parseAnd_loop f left_ p
    | r => r
    end.
Proof. reflexivity. Qed.

Lemma parseAnd_loop_S (f : nat) (left_ : FilterNode field) (p : parser) :
  parseAnd_loop (S f) left_ p
  = if at_token p tokenAnd then
      match parseNot f (advance p) with
      | Parsed right_ p => parseAnd_loop f (andFilter left_ right_) p
      | r => r
      end
    else Parsed left_ p.
Proof. reflexivity. Qed.

Lemma parseNot_S (f : nat) (p : parser) :
  parseNot (S f) p
  = if at_token p tokenNot then
      match parsePrimary f (advance p) with
      | Parsed child p => Parsed (notFilter child) p
      | r => r
      end
    else parsePrimary f p.
Proof. reflexivity. Qed.

Lemma parsePrimary_S (f : nat) (p : parser) :
  parsePrimary (S f) p
  = if at_token p tokenLParen then
      match parseOr f (advance p) with
      | Parsed node p =>
          if negb (at_token p tokenRParen)
          then Failed (ErrExpectedRParen (current p))
          else Parsed node (advance p)
      | r => r
      end
    else if at_token p tokenField then
      if negb (at_token (advance p) tokenValue)
      then Failed (ErrExpectedValue (value (current p)) (current (advance p)))
      else Parsed (fieldFilter (fieldOf (value (current p)))
                     (value (current (advance p))))
             (advance (advance p))
    else if at_token p tokenValue then
      Parsed (anyFilter (value (current p))) (advance p)
    else Failed (ErrUnexpectedToken (current p)).
Proof. reflexivity. Qed.

Lemma primary_fuel (f : nat) :
  enough 4 parseOr f -> enough 1 parsePrimary (S f).
Proof.
  intros IH p Hf. rewrite parsePrimary_S. split.
  - destruct (at_token p tokenLParen) eqn:E1.
    { pose proof (advance_at p _ E1 ltac:(discriminate)) as A.
      destruct (IH (advance p) ltac:(lia)) as [S1 _].
      destruct (parseOr f (advance p)) as [node p2| |]; cbn in S1 |- *; auto.
      destruct (at_token p2 tokenRParen) eqn:E2; cbn [negb settled]; auto.
      pose proof (advance_at p2 _ E2 ltac:(discriminate)). lia. }
    destruct (at_token p tokenField) eqn:E2.
    { pose proof (advance_at p _ E2 ltac:(discriminate)) as A.
      destruct (at_token (advance p) tokenValue) eqn:E3; cbn [negb settled];
        auto.
      pose proof (advance_at (advance p) _ E3 ltac:(discriminate)). lia. }
    destruct (at_token p tokenValue) eqn:E3; cbn [settled]; auto.
    pose proof (advance_at p _ E3 ltac:(discriminate)). lia.
  - intros H0.
    rewrite !(remaining_0 p) by (auto; discriminate). eauto.
Qed.

Lemma not_fuel (f : nat) :
  enough 1 parsePrimary f -> enough 2 parseNot (S f).
Proof.
  intros IH p Hf. rewrite parseNot_S. split.
  - destruct (at_token p tokenNot) eqn:E1.
    + pose proof (advance_at p _ E1 ltac:(discriminate)) as A.
      destruct (IH (advance p) ltac:(lia)) as [S1 _].
      destruct (parsePrimary f (advance p)); cbn in S1 |- *; auto. lia.
    + apply IH. lia.
  - intros H0. rewrite (remaining_0 p) by (auto; discriminate).
    apply IH; auto. lia.
Qed.

Lemma and_loop_fuel (f : nat) :
  enough 2 parseNot f -> enough_loop 2 parseAnd_loop f ->
  enough_loop 2 parseAnd_loop (S f).
Proof.
  intros IH IHl p n Hf. rewrite parseAnd_loop_S.
  destruct (at_token p tokenAnd) eqn:E1; cbn [settled]; auto.
  pose proof (advance_at p _ E1 ltac:(discriminate)) as A.
  destruct (IH (advance p) ltac:(lia)) as [S1 _].
  destruct (parseNot f (advance p)) as [right_ p2| |]; cbn in S1 |- *; auto.
  eapply settled_weaken; [|apply IHl]; lia.
Qed.

Lemma and_fuel (f : nat) :
  enough 2 parseNot f -> enough_loop 2 parseAnd_loop f ->
  enough 3 parseAnd (S f).
Proof.
  intros IH IHl p Hf. rewrite parseAnd_S.
  destruct (IH p ltac:(lia)) as [S1 F1]. split.
  - destruct (parseNot f p) as [left_ p1| |]; cbn in S1 |- *; auto.
    eapply settled_weaken; [|apply IHl]; lia.
  - intros H0. destruct (F1 H0) as [e ->]. eauto.
Qed.

Lemma or_loop_fuel (f : nat) :
  enough 3 parseAnd f -> enough_loop 3 parseOr_loop f ->
  enough_loop 3 parseOr_loop (S f).
Proof.
  intros IH IHl p n Hf. rewrite parseOr_loop_S.
  destruct (at_token p tokenOr) eqn:E1; cbn [settled]; auto.
  pose proof (advance_at p _ E1 ltac:(discriminate)) as A.
  destruct (IH (advance p) ltac:(lia)) as [S1 _].
  destruct (parseAnd f (advance p)) as [right_ p2| |]; cbn in S1 |- *; auto.
  eapply settled_weaken; [|apply IHl]; lia.
Qed.

Lemma or_fuel (f : nat) :
  enough 3 parseAnd f -> enough_loop 3 parseOr_loop f ->
  enough 4 parseOr (S f).
Proof.
  intros IH IHl p Hf. rewrite parseOr_S.
  destruct (IH p ltac:(lia)) as [S1 F1]. split.
  - destruct (parseAnd f p) as [left_ p1| |]; cbn in S1 |- *; auto.
    eapply settled_weaken; [|apply IHl]; lia.
  - intros H0. destruct (F1 H0) as [e ->]. eauto.
Qed.

(** Six units of fuel for every byte and token left, and four more, are
    enough for every parse function. *)
Lemma fuel_enough (fuel : nat) :
  enough 4 parseOr fuel /\ enough_loop 3 parseOr_loop fuel
  /\ enough 3 parseAnd fuel /\ enough_loop 2 parseAnd_loop fuel
  /\ enough 2 parseNot fuel /\ enough 1 parsePrimary fuel.
Proof.
  induction fuel as [|f (IHor & IHorl & IHand & IHandl & IHnot & IHprim)].
  - unfold enough, enough_loop. repeat split; intros; lia.
  - repeat split.
    + exact (proj1 (or_fuel f IHand IHorl _ H)).
    + exact (proj2 (or_fuel f IHand IHorl _ H)).
    + apply or_loop_fuel; assumption.
    + exact (proj1 (and_fuel f IHnot IHandl _ H)).
    + exact (proj2 (and_fuel f IHnot IHandl _ H)).
    + apply and_loop_fuel; assumption.
    + exact (proj1 (not_fuel f IHprim _ H)).
    + exact (proj2 (not_fuel f IHprim _ H)).
    + exact (proj1 (primary_fuel f IHor _ H)).
    + exact (proj2 (primary_fuel f IHor _ H)).
Qed.

Lemma remaining_newParser (expression : string) :
  (remaining (newParser expression) <= String.length expression)%nat.
Proof.
  unfold Filter.newParser.
  destruct (nextToken (newLexer expression)) as [t l] eqn:E.
  destruct (nextToken_progress _ _ _ E) as [_ [H1 H2]].
  pose proof (length_TrimSpace expression) as L.
  unfold remaining, at_token. cbn [lex current].
  assert (unread (newLexer expression) = String.length (TrimSpace expression))
    as U by (unfold unread, newLexer; cbn [input pos]; lia).
  rewrite U in H1, H2.
  destruct (typ t); cbn [tokenType_eqb];
    try (specialize (H2 ltac:(discriminate))); lia.
Qed.

(** [Compile] returns: the fuel it gives the parser never runs out. *)
Theorem Compile_total (expression : string) :
  exists r : compiled field, Compile expression = Some r.
Proof.
  unfold Filter.Compile. destruct (String.eqb expression ""); [eauto|].
  unfold Filter.parse.
  destruct (at_token (newParser expression) tokenEOF); [eauto|].
  destruct (fuel_enough (fuel_for expression)) as [H _].
  pose proof (remaining_newParser expression) as R.
  destruct (H (newParser expression)) as [S1 _];
    [unfold fuel_for; lia|].
  destruct (parseOr (fuel_for expression) (newParser expression));
    cbn in S1; [eauto | eauto | contradiction].
Qed.

(** An error leaves no node. *)
Lemma Compile_error_no_node (expression : string)
  (node : option (FilterNode field)) (err : compileError) :
  Compile expression = Some (node, Some err) -> node = None.
Proof.
  unfold Filter.Compile, Filter.parse.
  destruct (String.eqb expression ""); [congruence|].
  destruct (at_token _ tokenEOF); [congruence|].
  destruct (parseOr _ _); congruence.
Qed.


End Grammar.

(** ** Prefixes and substrings *)

Lemma HasPrefix_spec (s p : string) :
  HasPrefix s p = true <-> exists post, s = p ++ post.
Proof.
  revert s. induction p as [|b p IH]; intros s; cbn [HasPrefix].
  - split; auto. intros _. exists s. reflexivity.
  - destruct s as [|a s].
    + split; [discriminate | intros [post H]; discriminate].
    + rewrite andb_true_iff, IH, Ascii.eqb_eq. split.
      * intros [-> [post ->]]. exists post. reflexivity.
      * intros [post H]. cbn in H. injection H as -> ->. eauto.
Qed.

Lemma Contains_spec (s sub : string) :
  Contains s sub = true <-> exists pre post, s = pre ++ sub ++ post.
Proof.
  unfold Contains. rewrite Z.leb_le. split.
  - induction s as [|c s IH]; cbn [Index]; intros H.
    + destruct (HasPrefix "" sub) eqn:E; [|lia].
      apply HasPrefix_spec in E. destruct E as [post E].
      exists "", post. exact E.
    + destruct (HasPrefix (String c s) sub) eqn:E.
      * apply HasPrefix_spec in E. destruct E as [post E].
        exists "", post. exact E.
      * destruct (Index s sub <? 0) eqn:E'; [lia|]. apply Z.ltb_ge in E'.
        destruct (IH E') as [pre [post ->]].
        exists (String c pre), post. reflexivity.
  - intros [pre [post ->]]. induction pre as [|c pre IH].
    + change ("" ++ sub ++ post) with (sub ++ post).
      assert (HasPrefix (sub ++ post) sub = true) as E
        by (apply HasPrefix_spec; eauto).
      destruct (sub ++ post); cbn [Index]; rewrite E; lia.
    + change (String c pre ++ sub ++ post)
        with (String c (pre ++ sub ++ post)).
      cbn [Index]. destruct (HasPrefix _ sub); [lia|].
      destruct (Index (pre ++ sub ++ post) sub <? 0) eqn:E'; [|lia].
      apply Z.ltb_lt in E'. lia.
Qed.

(** ** What the two evaluators compare *)

Section Matching.
Variable unicodeLower : string -> string.

Local Abbreviation lower := (ToLower unicodeLower).

(** [value] is a substring of [s], letter case apart. *)
Definition contains_fold (s value : string) : Prop :=
  exists pre post, lower s = pre ++ lower value ++ post.

(** The port [p] is present and its decimal rendering is [value]. *)
Definition port_is (p : Z) (value : string) : Prop :=
  0 < p /\ FormatInt p = value.

Lemma port_is_spec (p : Z) (v : string) :
  (0 <? p) && String.eqb (FormatInt p) v = true <-> port_is p v.
Proof.
  unfold port_is. rewrite andb_true_iff, Z.ltb_lt, String.eqb_eq. tauto.
Qed.

(** In the revision that holds the field keyword, a port of 0 matches no
    value, and [port] matches when the source or the destination port
    does. *)
Lemma Str_port_matches (T : Type) (e : LogEntry T) (v : string) :
  (forall f, In f ["sport"; "srcport"] ->
     (Str.fieldFilter_Matches unicodeLower f v e = true
      <-> port_is (SrcPort e) v))
  /\ (forall f, In f ["dport"; "dstport"] ->
        (Str.fieldFilter_Matches unicodeLower f v e = true
         <-> port_is (DstPort e) v))
  /\ (Str.fieldFilter_Matches unicodeLower "port" v e = true
      <-> port_is (SrcPort e) v \/ port_is (DstPort e) v).
Proof.
  split; [|split].
  - intros f [<- | [<- | []]]; unfold Str.fieldFilter_Matches;
      cbn [mem existsb String.eqb Ascii.eqb Bool.eqb orb andb];
      apply port_is_spec.
  - intros f [<- | [<- | []]]; unfold Str.fieldFilter_Matches;
      cbn [mem existsb String.eqb Ascii.eqb Bool.eqb orb andb];
      apply port_is_spec.
  - unfold Str.fieldFilter_Matches.
    cbn [mem existsb String.eqb Ascii.eqb Bool.eqb orb andb].
    rewrite <- !port_is_spec.
    destruct ((0 <? SrcPort e) && _); [tauto|].
    destruct ((0 <? DstPort e) && _); [tauto|].
    split; [discriminate | intros [H | H]; discriminate].
Qed.

(** In the revision that holds a [fieldTyp], a port matches when its decimal
    rendering is the value, a port of 0 included. *)
Lemma Typ_port_matches (e : LogEntry string) (v : string) :
  (Typ.fieldFilter_Matches unicodeLower Typ.fieldSrcPort v e = true
   <-> FormatInt (SrcPort e) = v)
  /\ (Typ.fieldFilter_Matches unicodeLower Typ.fieldDstPort v e = true
      <-> FormatInt (DstPort e) = v)
  /\ (Typ.fieldFilter_Matches unicodeLower Typ.fieldPort v e = true
      <-> FormatInt (SrcPort e) = v \/ FormatInt (DstPort e) = v).
Proof.
  cbn [Typ.fieldFilter_Matches].
  rewrite orb_true_iff, !String.eqb_eq. tauto.
Qed.

(** C4, as the code has it.  A bare value matches a record when it is a
    substring, letter case apart, of one of the fields action, direction,
    interface, reason, destination address, protocol name and source
    address; the revision whose records carry the time as text searches the
    time as well.  No other field takes part (label, IP version and ports are
    not looked at), and the value may stand anywhere in the field, not only
    at its start. *)
Theorem anyFilter_fields (v : string) :
  (forall (T : Type) (e : LogEntry T),
     Str.anyFilter_Matches unicodeLower v e = true
     <-> exists f,
           In f [Action e; Direction e; Interface e; Reason e; Dst e;
                 ProtoName e; Src e]
           /\ contains_fold f v)
  /\ (forall e : LogEntry string,
        Typ.anyFilter_Matches unicodeLower v e = true
        <-> exists f,
              In f [Action e; Direction e; Interface e; Reason e; Time e;
                    Dst e; ProtoName e; Src e]
              /\ contains_fold f v).
Proof.
  unfold contains_fold. split.
  - intros T e. unfold Str.anyFilter_Matches.
    rewrite !orb_true_iff, !Contains_spec. cbn [In]. split.
    + intros H. decompose [or] H; eauto 12.
    + intros [f [H C]]. decompose [or] H; subst; tauto.
  - intros e. unfold Typ.anyFilter_Matches. rewrite existsb_exists.
    split; intros [f [H C]]; exists f; split; auto; apply Contains_spec; auto.
Qed.

End Matching.

(** [handleFilterInput] of package [tui] and [displayJSON] of package [cli]
    take a filter for applied when its text is not empty, and compile it. *)
Definition filterApplied (filterValue : string) : bool := 0 <? len filterValue.

Fixpoint only_spaces (s : string) : bool :=
  match s with
  | EmptyString => true
  | String c s' => Ascii.eqb c space && only_spaces s'
  end.

Lemma trim_left_spaces (s : string) (fuel : nat) :
  only_spaces s = true -> (String.length s <= fuel)%nat ->
  trim_left fuel s = EmptyString.
Proof.
  revert s. induction fuel as [|fuel IH]; intros [|c s] H L; cbn in L;
    try reflexivity; try lia.
  cbn [only_spaces] in H. apply andb_true_iff in H. destruct H as [H1 H2].
  apply Ascii.eqb_eq in H1. subst c. cbn [trim_left].
  change (leading_space (String space s)) with (Some (String space "")).
  cbn [String.length drop]. apply IH; auto. lia.
Qed.

Lemma TrimSpace_spaces (s : string) :
  only_spaces s = true -> TrimSpace s = EmptyString.
Proof.
  intros H. unfold TrimSpace. rewrite trim_left_spaces; auto.
Qed.

Section Compiling.
Variable unicodeLower : string -> string.

(** C10.  For every expression that is not empty and holds nothing but
    spaces, [Compile] returns a [nil] node and a [nil] error, as it does for
    the empty expression, in both revisions; the callers take such a filter
    for applied. *)
Theorem Compile_spaces_only (expression : string) :
  expression <> EmptyString -> only_spaces expression = true ->
  Str.Compile unicodeLower expression = Some (None, None)
  /\ Typ.Compile unicodeLower expression = Some (None, None)
  /\ Str.Compile unicodeLower "" = Some (None, None)
  /\ Typ.Compile unicodeLower "" = Some (None, None)
  /\ filterApplied expression = true.
Proof.
  intros Hne Hsp.
  assert (forall (opValue : string -> string -> string)
                 (isField : string -> bool) (field : Type)
                 (fieldOf : string -> field),
            Compile unicodeLower opValue isField fieldOf expression
            = Some (None, None)) as H.
  { intros. unfold Compile.
    destruct (String.eqb expression ""); [reflexivity|].
    unfold newParser, newLexer. rewrite TrimSpace_spaces by exact Hsp.
    reflexivity. }
  repeat split; try apply H.
  unfold filterApplied. destruct expression; [congruence|].
  rewrite len_String. pose proof (len_nonneg expression).
  apply Z.ltb_lt. lia.
Qed.

(** [value] stands at the start of [s], letter case apart. *)
Definition prefix_fold (s value : string) : bool :=
  HasPrefix (ToLower unicodeLower s) (ToLower unicodeLower value).

(** An expression with [and] before [or].  In both revisions
    ["src 192.168 and proto tcp or proto udp"] compiles to the node
    [or (and src proto-tcp) proto-udp], which matches a record exactly
    when the source address starts with 192.168 and the protocol with tcp,
    or the protocol starts with udp.  A UDP packet from 10.0.0.1 tells it
    from the reading grouped to the right, which does not match it. *)
Lemma and_before_or :
  let expression := "src 192.168 and proto tcp or proto udp" in
  let reading (T : Type) (e : LogEntry T) :=
    (prefix_fold (Src e) "192.168" && prefix_fold (ProtoName e) "tcp")
    || prefix_fold (ProtoName e) "udp" in
  let grouped_right (T : Type) (e : LogEntry T) :=
    prefix_fold (Src e) "192.168"
    && (prefix_fold (ProtoName e) "tcp" || prefix_fold (ProtoName e) "udp") in
  exists (n1 : FilterNode string) (n2 : FilterNode Typ.fieldTyp),
    Str.Compile unicodeLower expression = Some (Some n1, None)
    /\ Typ.Compile unicodeLower expression = Some (Some n2, None)
    /\ n1 = orFilter (andFilter (fieldFilter "src" "192.168")
                                (fieldFilter "proto" "tcp"))
                     (fieldFilter "proto" "udp")
    /\ n2 = orFilter (andFilter (fieldFilter Typ.fieldSource "192.168")
                                (fieldFilter Typ.fieldProtocol "tcp"))
                     (fieldFilter Typ.fieldProtocol "udp")
    /\ (forall (T : Type) (e : LogEntry T),
          Str.Matches unicodeLower n1 e = reading T e)
    /\ (forall e : LogEntry string,
          Typ.Matches unicodeLower n2 e = reading string e)
    /\ (exists e : LogEntry string,
          Str.Matches unicodeLower n1 e = true
          /\ Typ.Matches unicodeLower n2 e = true
          /\ grouped_right string e = false).
Proof.
  cbv zeta. eexists. eexists.
  split; [vm_compute; reflexivity|]. split; [vm_compute; reflexivity|].
  split; [reflexivity|]. split; [reflexivity|].
  split; [reflexivity|]. split; [reflexivity|].
  exists (mkLogEntry "pass" "in" "em0" "" "match" "" "10.0.0.2" 4 "udp"
            "10.0.0.1" 53 4000).
  repeat split; vm_compute; reflexivity.
Qed.

(** What [Compile] answers to the empty expression and to expressions that
    break off or open with what cannot start an operand. *)
Lemma Compile_errors :
  Str.Compile unicodeLower "" = Some (None, None)
  /\ Str.Compile unicodeLower "src and"
     = Some (None, Some (ErrExpectedValue "src" (mkToken tokenAnd "and")))
  /\ Str.Compile unicodeLower "src"
     = Some (None, Some (ErrExpectedValue "src" (mkToken tokenEOF "")))
  /\ Str.Compile unicodeLower "(src 192.168"
     = Some (None, Some (ErrExpectedRParen (mkToken tokenEOF "")))
  /\ Str.Compile unicodeLower "()"
     = Some (None, Some (ErrUnexpectedToken (mkToken tokenRParen ")")))
  /\ Str.Compile unicodeLower ")"
     = Some (None, Some (ErrUnexpectedToken (mkToken tokenRParen ")")))
  /\ Str.Compile unicodeLower "src 192.168 and"
     = Some (None, Some (ErrUnexpectedToken (mkToken tokenEOF "")))
  /\ Str.Compile unicodeLower "not"
     = Some (None, Some (ErrUnexpectedToken (mkToken tokenEOF "")))
  /\ Typ.Compile unicodeLower "src and"
     = Some (None, Some (ErrExpectedValue "src" (mkToken tokenAnd "and")))
  /\ Typ.Compile unicodeLower "(src 192.168"
     = Some (None, Some (ErrExpectedRParen (mkToken tokenEOF "")))
  /\ Typ.Compile unicodeLower "()"
     = Some (None, Some (ErrUnexpectedToken (mkToken tokenRParen ")"))).
Proof. repeat split; vm_compute; reflexivity. Qed.

End Compiling.

End FilterFacts.

(* ================================================================== *)
(** * The stream: reading on from a position                           *)
(* ================================================================== *)

Module SeekFacts.
Import Go GoFacts Stream ParseFacts StreamFacts.

Section WithTime.
Variable TimeT : Type.
Variable time_Parse : string -> TimeT + string.

Local Abbreviation LogEntry := (LogEntry TimeT).
Local Abbreviation records := (records time_Parse).
Local Abbreviation record_of := (record_of time_Parse).
Local Abbreviation index_entries := (index_entries TimeT time_Parse).
Local Abbreviation Next := (Next time_Parse).
Local Abbreviation BuildIndex := (BuildIndex time_Parse).

(** The lines of a file as its scanner delivers them. *)
Definition tokens (file : string) : list string := pending (NewScanner file).

(** A stream that carries the index of [file]: what [BuildIndex] leaves and
    what [Next] and [SeekToLine] keep. *)
Definition indexed_over (file : string) (s : Stream) : Prop :=
  data s = file
  /\ index s = index_entries (tokens file) 0 0
  /\ validLines s = Z.of_nat (List.length (records (tokens file))).

(** Entry number [n] of the index stands for a line [j] from which on the
    records are those from number [n] on. *)
Lemma index_entries_skip (toks : list string) :
  forall (k off : Z) (n : nat) (fo : fileOffset),
  nth_error (index_entries toks k off) n = Some fo ->
  exists j : nat,
    (j <= List.length toks)%nat
    /\ records (skipn j toks) = skipn n (records toks)
    /\ offset fo = off + span (firstn j toks).
Proof.
  induction toks as [|l toks IH]; intros k off n fo H;
    cbn [StreamFacts.index_entries StreamFacts.records] in *.
  - destruct n; discriminate.
  - unfold valid in H. destruct (record_of l) as [e|] eqn:R.
    + destruct n as [|n]; cbn [nth_error] in *.
      * injection H as <-. exists O. cbn [skipn firstn span List.length offset].
        cbn [StreamFacts.records]. rewrite R. repeat split; lia.
      * destruct (IH _ _ _ _ H) as [j [H0 [H1 H2]]].
        exists (S j). cbn [skipn firstn span List.length].
        repeat split; auto; lia.
    + destruct (IH _ _ _ _ H) as [j [H0 [H1 H2]]].
      exists (S j). cbn [skipn firstn span List.length].
      repeat split; auto; lia.
Qed.

Lemma indexed_over_BuildIndex (s s1 : Stream) :
  fits_int64 (data s) -> BuildIndex s = Done (s1, None) ->
  indexed_over (data s) s1
  /\ scanner s1 = NewScanner (data s) /\ lineNum s1 = 0
  /\ failure (NewScanner (data s)) = None.
Proof.
  intros F B.
  destruct (BuildIndex_index _ time_Parse s F) as [s' [B' [Hix [Hv [Hd Hsc]]]]].
  rewrite B in B'. injection B' as <- Hf.
  assert (failure (NewScanner (data s)) = None) as Hfail
    by (destruct (failure (NewScanner (data s))); [discriminate | reflexivity]).
  destruct (Hsc Hfail) as [H1 H2].
  unfold indexed_over, tokens. repeat split; auto.
Qed.

Lemma indexed_over_Next (file : string) (s s' : Stream)
  (r : option LogEntry) :
  indexed_over file s -> Next s = Done (r, s') -> indexed_over file s'.
Proof.
  intros [H1 [H2 H3]] N.
  destruct (Next_spec _ time_Parse s) as [s2 [E [_ [_ [Hi [Hd Hv]]]]]].
  rewrite N in E. injection E as _ <-.
  unfold indexed_over. rewrite Hi, Hd, Hv. auto.
Qed.

Lemma indexed_over_SeekToLine (file : string) (s s' : Stream) (n : Z)
  (e : option streamError) :
  indexed_over file s -> SeekToLine s n = Done (s', e) -> indexed_over file s'.
Proof.
  intros [H1 [H2 H3]]. unfold SeekToLine.
  destruct (negb (hasIndex s)); [intros E; injection E as <- _; split; auto|].
  destruct ((n <? 0) || _); [intros E; injection E as <- _; split; auto|].
  destruct (nth_error _ _) as [fo|]; [|discriminate].
  destruct (offset fo <? 0); intros E; injection E as <- _; split; auto.
Qed.

Lemma TotalLines_indexed_over (file : string) (s : Stream) :
  indexed_over file s ->
  TotalLines s
  = (if 0 <? Z.of_nat (List.length (records (tokens file)))
     then Z.of_nat (List.length (records (tokens file)))
     else -1).
Proof.
  intros [H1 [H2 H3]]. unfold TotalLines, hasIndex.
  rewrite H2, H3, length_index_entries.
  destruct (0 <? _); reflexivity.
Qed.

(** In a file without carriage returns, [SeekToLine n] leaves a scanner
    whose lines hold the records from number [n] on. *)
Lemma SeekToLine_lf (file : string) (s : Stream) (n : Z) :
  fits_int64 file -> lf_only file = true -> failure (NewScanner file) = None ->
  indexed_over file s ->
  0 <= n < Z.of_nat (List.length (records (tokens file))) ->
  exists s2 : Stream,
    SeekToLine s n = Done (s2, None)
    /\ records (pending (scanner s2)) = skipn (Z.to_nat n) (records (tokens file))
    /\ indexed_over file s2
    /\ Stream.errors s2 = Stream.errors s.
Proof.
  intros F L Hfail I Hn. pose proof I as [Hd [Hix Hv]].
  destruct (nth_error (index s) (Z.to_nat n)) as [fo|] eqn:Hnth.
  2:{ apply nth_error_None in Hnth.
      rewrite Hix, length_index_entries in Hnth. lia. }
  pose proof Hnth as Hnth'. rewrite Hix in Hnth'.
  destruct (index_entries_skip _ _ _ _ _ Hnth') as [j [Hj [Hr Ho]]].
  pose proof (span_nonneg (firstn j (tokens file))) as Sp.
  pose proof (SeekToLine_spec s n fo) as E.
  rewrite E by (auto; lia).
  eexists. split; [reflexivity|]. split; [|split].
  - cbn [scanner set_lineNum set_scanner]. rewrite Hd, Ho, Z.add_0_l.
    unfold tokens in *. rewrite NewScanner_skip by auto. cbn [pending].
    exact Hr.
  - unfold indexed_over. cbn. auto.
  - reflexivity.
Qed.

End WithTime.
End SeekFacts.

Module CsvFacts.
Import Go GoFacts Stream.

(** The fields of a CSV text, joined by commas. *)
Fixpoint join (fields : list string) : string :=
  match fields with
  | [] => ""
  | [f] => f
  | f :: fs => f ++ "," ++ join fs
  end.

Fixpoint no_comma (f : string) : bool :=
  match f with
  | EmptyString => true
  | String c f' => negb (Ascii.eqb c ","%char) && no_comma f'
  end.

Lemma join_cons (f g : string) (gs : list string) :
  join (f :: g :: gs) = f ++ "," ++ join (g :: gs).
Proof. reflexivity. Qed.

Lemma IndexByte_no_comma (f : string) :
  no_comma f = true -> IndexByte f ","%char = -1.
Proof.
  induction f as [|c f IH]; cbn [no_comma IndexByte]; auto.
  intros H. apply andb_true_iff in H. destruct H as [H1 H2].
  apply negb_true_iff in H1. rewrite H1, IH by exact H2. reflexivity.
Qed.

Lemma IndexByte_comma (f rest : string) :
  no_comma f = true -> IndexByte (f ++ "," ++ rest) ","%char = len f.
Proof.
  induction f as [|c f IH]; intros H.
  - reflexivity.
  - cbn [no_comma] in H. apply andb_true_iff in H. destruct H as [H1 H2].
    apply negb_true_iff in H1.
    change (String c f ++ "," ++ rest) with (String c (f ++ "," ++ rest)).
    cbn [IndexByte]. rewrite H1, IH by exact H2. rewrite len_String.
    pose proof (len_nonneg f).
    destruct (len f <? 0) eqn:E; [apply Z.ltb_lt in E; lia | reflexivity].
Qed.

Lemma take_append (a b : string) : take (String.length a) (a ++ b) = a.
Proof. induction a as [|c a IH]; cbn; [destruct b|]; congruence. Qed.

Lemma drop_length_le (n : nat) (s : string) :
  drop n s <> "" -> (n < String.length s)%nat.
Proof.
  intros H. destruct (Nat.lt_ge_cases n (String.length s)); auto.
  rewrite drop_ge in H by exact H0. congruence.
Qed.

(** The start of field number [n], counted from a position [start] at which
    the fields [f :: fs] begin. *)
Lemma field_start_join (csv : string) (n : nat) :
  forall (start : Z) (f : string) (fs : list string),
  0 <= start <= len csv ->
  drop (Z.to_nat start) csv = join (f :: fs) ->
  Forall (fun g => no_comma g = true) (f :: fs) ->
  match skipn n (f :: fs) with
  | [] => field_start csv n start = Done None
  | g :: gs =>
      exists st : Z,
        field_start csv n start = Done (Some st)
        /\ 0 <= st <= len csv
        /\ drop (Z.to_nat st) csv = join (g :: gs)
  end.
Proof.
  induction n as [|n IH]; intros start f fs Hs Hd Hc.
  - cbn [skipn field_start]. eauto.
  - cbn [skipn field_start]. rewrite slice_from_ok by exact Hs. cbn [bind].
    rewrite Hd. inversion Hc as [|? ? Hf Hfs]; subst.
    destruct fs as [|g gs].
    + cbn [join]. rewrite IndexByte_no_comma by exact Hf.
      destruct n; reflexivity.
    + rewrite join_cons, IndexByte_comma by exact Hf.
      pose proof (len_nonneg f) as Lf.
      destruct (len f =? -1) eqn:E; [apply Z.eqb_eq in E; lia|].
      assert (len (drop (Z.to_nat start) csv) = len csv - start) as Ld
        by (rewrite len_drop; unfold len in *; lia).
      rewrite Hd, join_cons, !len_append in Ld.
      change (len ",") with 1 in Ld.
      pose proof (len_nonneg (join (g :: gs))) as Lj.
      apply IH; auto; try lia.
      replace (Z.to_nat (start + (len f + 1)))
        with (Z.to_nat start + S (String.length f))%nat by (unfold len; lia).
      rewrite <- drop_drop, Hd, join_cons.
      replace (S (String.length f)) with (String.length f + 1)%nat by lia.
      rewrite <- drop_drop, drop_append. reflexivity.
Qed.

(** The field that begins at [st]: up to the next comma, or to the end. *)
Lemma field_end (csv : string) (st : Z) (g : string) (gs : list string) :
  0 <= st <= len csv ->
  drop (Z.to_nat st) csv = join (g :: gs) ->
  no_comma g = true ->
  bind (slice_from csv st) (fun rest =>
    let end_ := IndexByte rest ","%char in
    if end_ =? -1 then Done (rest, true)
    else bind (slice csv st (st + end_)) (fun f => Done (f, true)))
  = Done (g, true).
Proof.
  intros Hs Hd Hg. rewrite slice_from_ok by exact Hs. cbn [bind]. rewrite Hd.
  destruct gs as [|h hs].
  - cbn [join]. rewrite IndexByte_no_comma by exact Hg. reflexivity.
  - rewrite join_cons, IndexByte_comma by exact Hg.
    pose proof (len_nonneg g) as Lg.
    destruct (len g =? -1) eqn:E'; [apply Z.eqb_eq in E'; lia|].
    assert (len (drop (Z.to_nat st) csv) = len csv - st) as Ld
      by (rewrite len_drop; unfold len in *; lia).
    rewrite Hd, join_cons, !len_append in Ld.
    pose proof (len_nonneg (join (h :: hs))) as Lj.
    change (len ",") with 1 in Ld.
    rewrite slice_ok by lia. cbn [bind]. rewrite Hd, join_cons.
    replace (Z.to_nat (st + len g - st)) with (String.length g)
      by (unfold len; lia).
    rewrite take_append. reflexivity.
Qed.

Lemma nth_error_skipn (A : Type) (n : nat) (l : list A) :
  nth_error l n = hd_error (skipn n l).
Proof. revert l. induction n; intros [|a l]; cbn; auto. Qed.

Lemma Forall_skipn (A : Type) (P : A -> Prop) (n : nat) (l : list A) :
  Forall P l -> Forall P (skipn n l).
Proof.
  intros H. apply Forall_forall. intros g Hg. rewrite Forall_forall in H.
  apply H. rewrite <- (firstn_skipn n). apply in_or_app. auto.
Qed.

(** X1.  [extractCSVField] on the text of fields joined by commas returns
    field number [field], counted from 0, and [true]; past the last field it
    returns the empty string and [false].  A negative number reads as 0.
    Every text is such a join (of one empty field when it is empty), so the
    function never panics. *)
Theorem extractCSVField_nth (fields : list string) (field : Z) :
  fields <> [] -> Forall (fun f => no_comma f = true) fields ->
  extractCSVField (join fields) field
  = Done (match nth_error fields (Z.to_nat field) with
          | Some f => (f, true)
          | None => ("", false)
          end).
Proof.
  intros Hne Hc. destruct fields as [|f fs]; [congruence|].
  set (csv := join (f :: fs)). unfold extractCSVField.
  pose proof (len_nonneg csv) as L.
  pose proof (field_start_join csv (Z.to_nat field) 0 f fs
                ltac:(lia) eq_refl Hc) as H.
  rewrite nth_error_skipn.
  pose proof (Forall_skipn _ _ (Z.to_nat field) _ Hc) as Hc'.
  destruct (skipn (Z.to_nat field) (f :: fs)) as [|g gs]; cbn [hd_error].
  - rewrite H. reflexivity.
  - destruct H as [st [E [Hs Hd]]]. rewrite E. cbn [bind].
    inversion Hc' as [|? ? Hg Hgs]; subst.
    apply (field_end csv st g gs Hs Hd Hg).
Qed.

(** [csvField] on the text of fields joined by commas: the field, or the
    message when the text has no such field. *)
Lemma csvField_join (fields : list string) (n : Z) (msg : string) :
  fields <> [] -> Forall (fun f => no_comma f = true) fields ->
  csvField (join fields) n msg
  = match nth_error fields (Z.to_nat n) with
    | Some f => ret f
    | None => fail msg
    end.
Proof.
  intros Hne Hc. destruct fields as [|f fs]; [congruence|].
  set (csv := join (f :: fs)). unfold csvField, extractCSVField.
  pose proof (len_nonneg csv) as L.
  pose proof (field_start_join csv (Z.to_nat n) 0 f fs
                ltac:(lia) eq_refl Hc) as H.
  rewrite nth_error_skipn.
  pose proof (Forall_skipn _ _ (Z.to_nat n) _ Hc) as Hc'.
  destruct (skipn (Z.to_nat n) (f :: fs)) as [|g gs]; cbn [hd_error].
  - rewrite H. reflexivity.
  - destruct H as [st [E [Hs Hd]]]. rewrite E. cbn [bind].
    inversion Hc' as [|? ? Hg Hgs]; subst.
    pose proof (field_end csv st g gs Hs Hd Hg) as F. cbv zeta in F.
    rewrite F. reflexivity.
Qed.

End CsvFacts.

Module ReadFacts.
Import Go GoFacts Stream ParseFacts StreamFacts SeekFacts.

Section WithTime.
Variable TimeT : Type.
Variable time_Parse : string -> TimeT + string.

Local Abbreviation LogEntry := (LogEntry TimeT).
Local Abbreviation records := (records time_Parse).
Local Abbreviation record_of := (record_of time_Parse).
Local Abbreviation valid := (valid time_Parse).
Local Abbreviation Next := (Next time_Parse).
Local Abbreviation BuildIndex := (BuildIndex time_Parse).
Local Abbreviation drain := (drain TimeT time_Parse).
Local Abbreviation indexed_over := (indexed_over TimeT time_Parse).
Local Abbreviation index_diagnostics := (index_diagnostics TimeT time_Parse).
Local Abbreviation next_diagnostics := (next_diagnostics TimeT time_Parse).
Local Abbreviation diagnostic := (diagnostic TimeT time_Parse).
Local Abbreviation after_next := (after_next TimeT time_Parse).

(** X2.  [BuildIndex] rewinds: after it has succeeded, whatever the stream
    had read before, reading to the end delivers every record of the file;
    and building the index once more gives the same index. *)
Theorem BuildIndex_rewinds (s s1 : Stream) :
  fits_int64 (data s) ->
  BuildIndex s = Done (s1, None) ->
  drain (S (List.length (tokens (data s)))) s1 = sequential time_Parse (data s)
  /\ exists s2 : Stream,
       BuildIndex s1 = Done (s2, None)
       /\ index s2 = index s1 /\ TotalLines s2 = TotalLines s1.
Proof.
  intros F B.
  destruct (indexed_over_BuildIndex _ time_Parse s s1 F B)
    as [[Hd [Hi Hv]] [Hsc [_ Hfail]]].
  split.
  - rewrite drain_fuel by (rewrite Hsc; unfold tokens; lia).
    rewrite Hsc, sequential_records. reflexivity.
  - rewrite <- Hd in F, Hfail.
    destruct (BuildIndex_index _ time_Parse s1 F) as [s2 [B2 [Hi2 [Hv2 _]]]].
    rewrite Hfail in B2. cbn [option_map] in B2.
    exists s2. split; [exact B2|]. rewrite Hd in Hi2, Hv2.
    fold (tokens (data s)) in Hi2, Hv2.
    assert (index s2 = index s1) as Hix by congruence.
    split; [exact Hix|]. unfold TotalLines, hasIndex. rewrite Hix.
    destruct (negb _); congruence.
Qed.

(** ** The end of the file *)

(** No line is too long for the scanner. *)
Definition short_lines (ls : list string) : bool :=
  forallb (fun l => len l <? MaxScanTokenSize) ls.

Lemma scan_tokens_short (ls : list string) :
  snd (scan_tokens ls) = None <-> short_lines ls = true.
Proof.
  induction ls as [|l ls IH]; cbn [scan_tokens short_lines forallb].
  - split; reflexivity.
  - destruct (len l <? MaxScanTokenSize); cbn [andb].
    + destruct (scan_tokens ls) as [ts e]. cbn [snd] in *. exact IH.
    + split; discriminate.
Qed.

Lemma short_lines_tail (c : ascii) (file : string) :
  short_lines (raw_lines (String c file)) = true ->
  short_lines (raw_lines file) = true.
Proof.
  cbn [raw_lines]. destruct (Ascii.eqb c newline).
  - cbn [short_lines forallb]. intros H. apply andb_true_iff in H. apply H.
  - destruct (raw_lines file) as [|l ls]; [reflexivity|].
    cbn [short_lines forallb]. intros H. apply andb_true_iff in H.
    destruct H as [H1 H2]. apply andb_true_iff. split; [|exact H2].
    apply Z.ltb_lt in H1. apply Z.ltb_lt. unfold len in *.
    cbn [String.length] in H1. lia.
Qed.

Lemma short_lines_drop (k : nat) :
  forall file : string,
  short_lines (raw_lines file) = true ->
  short_lines (raw_lines (drop k file)) = true.
Proof.
  induction k as [|k IH]; intros file H; [exact H|].
  destruct file as [|c file]; [exact H|]. cbn [drop].
  apply IH. exact (short_lines_tail c file H).
Qed.

(** A scanner placed anywhere in a file without a line too long reads to the
    end of the file and holds nothing back. *)
Lemma held_drop (file : string) (k : nat) :
  failure (NewScanner file) = None -> held (NewScanner (drop k file)) = [].
Proof.
  intros F. apply held_NewScanner_none.
  rewrite failure_NewScanner in *. apply scan_tokens_short.
  apply short_lines_drop. apply scan_tokens_short. exact F.
Qed.

(** What the operations keep of a stream over such a file. *)
Definition at_ease (file : string) (s : Stream) : Prop :=
  data s = file /\ held (scanner s) = [].

Lemma at_ease_perform (file : string) (s : Stream) (o : operation) :
  failure (NewScanner file) = None ->
  at_ease file s -> at_ease file (perform time_Parse s o).
Proof.
  intros F [Hd Hh]. unfold at_ease.
  destruct o as [| |n]; cbn [perform].
  - unfold Stream.BuildIndex.
    cbn [data set_index reset set_lineNum set_scanner].
    match goal with
    | |- context [index_loop ?tp ?t ?s1 0 0 0] =>
        destruct (index_loop_errors _ time_Parse t s1 0 0 0)
          as [s' [k' [E [_ [Hd' _]]]]]
    end.
    rewrite E. cbn [bind]. cbn in Hd'.
    destruct (failure (NewScanner (data s))); cbn; rewrite Hd', Hd.
    + split; [reflexivity|]. apply held_drop. exact F.
    + split; [reflexivity|]. apply (held_drop file 0). exact F.
  - destruct (Next_spec _ time_Parse s) as [s' [E [Hs [_ [_ [Hd' _]]]]]].
    rewrite E. split; [congruence|]. rewrite Hs.
    unfold scanner_after. destruct (StreamFacts.records _ _); cbn [held]; auto.
  - unfold SeekToLine.
    destruct (negb (hasIndex s)); [split; assumption|].
    destruct ((n <? 0) || _); [split; assumption|].
    destruct (nth_error _ _) as [fo|]; [|split; assumption].
    destruct (offset fo <? 0); [split; assumption|].
    cbn. split; [exact Hd|]. rewrite Hd. apply held_drop. exact F.
Qed.

Lemma at_ease_run (file : string) (ops : list operation) :
  failure (NewScanner file) = None ->
  forall s : Stream, at_ease file s -> at_ease file (run time_Parse ops s).
Proof.
  intros F. induction ops as [|o ops IH]; intros s H; [exact H|].
  cbn [run fold_left]. apply IH. apply at_ease_perform; assumption.
Qed.

Lemma Next_nil_again (s s' : Stream) :
  held (scanner s) = [] ->
  Next s = Done (None, s') -> Next s' = Done (None, s').
Proof.
  intros Hh N. destruct (Next_spec _ time_Parse s) as [s2 [E [Hs _]]].
  rewrite N in E. injection E as Hr <-.
  rewrite scanner_after_end in Hs
    by (destruct (records (pending (scanner s))); [reflexivity|discriminate]).
  rewrite Hh in Hs.
  unfold Stream.Next. rewrite Hs. cbn [pending failure held next_loop].
  rewrite <- Hs. destruct s'; reflexivity.
Qed.

(** X3.  In a file without a line of [MaxScanTokenSize] bytes or more, the
    end is final: wherever a sequence of [BuildIndex], [Next] and
    [SeekToLine] has left the stream, once [Next] has returned [nil] it
    returns [nil] again and leaves the stream as it is, with no new
    diagnostic. *)
Theorem Next_at_end (file : string) (ops : list operation) (s' : Stream) :
  failure (NewScanner file) = None ->
  Next (run time_Parse ops (NewStream file)) = Done (None, s') ->
  Next s' = Done (None, s').
Proof.
  intros F N.
  apply (Next_nil_again (run time_Parse ops (NewStream file))); [|exact N].
  apply (at_ease_run file ops F). split; [reflexivity|].
  apply (held_drop file 0 F).
Qed.

(** X4.  In a file without carriage returns, [SeekToLine n] followed by
    reading to the end delivers the records from number [n] on, in order. *)
Theorem SeekToLine_reads_on (file : string) (s : Stream) (n : Z) :
  fits_int64 file -> lf_only file = true -> failure (NewScanner file) = None ->
  indexed_over file s ->
  0 <= n < Z.of_nat (List.length (sequential time_Parse file)) ->
  exists s2 : Stream,
    SeekToLine s n = Done (s2, None)
    /\ drain (S (List.length (pending (scanner s2)))) s2
       = skipn (Z.to_nat n) (sequential time_Parse file).
Proof.
  intros F L Hfail I Hn. rewrite sequential_records in *.
  destruct (SeekToLine_lf _ time_Parse file s n F L Hfail I Hn)
    as [s2 [E [R _]]].
  exists s2. split; [exact E|]. rewrite drain_fuel by lia. exact R.
Qed.

(** ** The numbers in the diagnostics *)

(** The stream after reading to its end. *)
Fixpoint read_all (fuel : nat) (s : Stream) : Stream :=
  match fuel with
  | O => s
  | S fuel' =>
      match Next s with
      | Done (Some _, s') => read_all fuel' s'
      | Done (None, s') => s'
      | Panic => s
      end
  end.

Lemma next_loop_numbers (fl : option scanError) (kept : list string)
  (toks : list string) :
  forall s : Stream,
  exists s' : Stream,
    next_loop time_Parse toks fl kept s = Done (hd_error (records toks), s')
    /\ scanner s' = scanner_after _ time_Parse toks fl kept
    /\ Stream.errors s'
       = fold_left add1
           (index_diagnostics
              (firstn (List.length toks - List.length (after_next toks)) toks)
              (wrap64 (lineNum s + 1)))
           (Stream.errors s)
    /\ index_diagnostics (after_next toks) (wrap64 (lineNum s' + 1))
       = index_diagnostics
           (skipn (List.length toks - List.length (after_next toks)) toks)
           (Nat.iter (List.length toks - List.length (after_next toks))
              (fun n => wrap64 (n + 1)) (wrap64 (lineNum s + 1))).
Proof.
  unfold scanner_after.
  induction toks as [|l toks IH]; intros s;
    cbn [next_loop StreamFacts.records StreamFacts.after_next List.length].
  - eexists. split; [reflexivity|]. cbn. auto.
  - cbn [lineNum set_lineNum set_scanner].
    match goal with
    | |- context [parseLine ?tp ?s1 l ?n1] =>
        pose proof (parseLine_spec _ time_Parse s1 l n1) as P
    end.
    pose proof (length_after_next _ time_Parse toks) as La.
    unfold StreamFacts.valid. destruct (record_of l) as [e|] eqn:R.
    + rewrite P. cbn [bind hd_error].
      eexists. split; [reflexivity|]. split; [reflexivity|].
      replace (S (List.length toks) - List.length toks)%nat with 1%nat by lia.
      cbn [firstn skipn StreamFacts.index_diagnostics Nat.iter lineNum
           set_lineNum set_scanner Stream.errors].
      rewrite diagnostic_valid
        by (unfold StreamFacts.valid; rewrite R; reflexivity).
      split; reflexivity.
    + destruct P as [msg [D P]]. rewrite P. cbn [bind].
      match goal with
      | |- context [next_loop _ toks fl kept ?s1] =>
          destruct (IH s1) as [s' [E [Hs [He Hn]]]]
      end.
      exists s'. rewrite E. split; [reflexivity|]. split; [exact Hs|].
      match type of He with
      | context [addError ?s1 msg] =>
          destruct (addError_frame s1 msg) as [_ [Hl _]];
          rewrite errors_addError, Hl in He; rewrite Hl in Hn
      end.
      cbn [lineNum Stream.errors] in He, Hn.
      replace (S (List.length toks) - List.length (after_next toks))%nat
        with (S (List.length toks - List.length (after_next toks))) by lia.
      cbn [firstn skipn StreamFacts.index_diagnostics].
      rewrite D. cbn [app fold_left]. split; [exact He|].
      rewrite Hn, Nat.iter_succ_r. reflexivity.
Qed.

Lemma index_diagnostics_app (a b : list string) :
  forall n : Z,
  index_diagnostics (a ++ b) n
  = (index_diagnostics a n
     ++ index_diagnostics b
          (Nat.iter (List.length a) (fun n => wrap64 (n + 1)) n))%list.
Proof.
  induction a as [|l a IH]; intros n;
    cbn [app StreamFacts.index_diagnostics List.length]; auto.
  rewrite IH, <- app_assoc, Nat.iter_succ_r. reflexivity.
Qed.

Lemma read_all_errors (fuel : nat) :
  forall s : Stream,
  (List.length (pending (scanner s)) < fuel)%nat ->
  Stream.errors (read_all fuel s)
  = fold_left add1
      (index_diagnostics (pending (scanner s)) (wrap64 (lineNum s + 1)))
      (Stream.errors s).
Proof.
  induction fuel as [|fuel IH]; intros s H; [lia|]. cbn [read_all].
  unfold Stream.Next.
  destruct (next_loop_numbers (failure (scanner s)) (held (scanner s))
              (pending (scanner s)) s)
    as [s' [E [Hs [He Hn]]]].
  rewrite E. set (toks := pending (scanner s)) in *.
  pose proof (length_after_next _ time_Parse toks) as La.
  set (k := (List.length toks - List.length (after_next toks))%nat) in *.
  rewrite <- (firstn_skipn k toks) at 2.
  rewrite index_diagnostics_app, fold_add1_app, <- He.
  assert (List.length (firstn k toks) = k) as Lk
    by (rewrite length_firstn; lia).
  rewrite Lk, <- Hn.
  destruct (hd_error (records toks)) as [e|] eqn:Hr.
  - assert (scanner s' = mkScanner (after_next toks) (failure (scanner s))
                           (held (scanner s))) as Hs'.
    { rewrite Hs. unfold scanner_after.
      destruct (records toks); [discriminate | reflexivity]. }
    rewrite IH.
    + rewrite Hs'. reflexivity.
    + rewrite Hs'. cbn [pending].
      pose proof (after_next_shorter _ time_Parse toks e Hr). lia.
  - assert (after_next toks = []) as ->.
    { clear - Hr. induction toks as [|l toks IH];
        cbn [StreamFacts.records StreamFacts.after_next] in *; auto.
      unfold StreamFacts.valid.
      destruct (record_of l); [discriminate | auto]. }
    reflexivity.
Qed.

(** X5.  [BuildIndex] and sequential reading report the same lines, under
    different numbers: [BuildIndex] counts the lines of the file from 0,
    [Next] on a new stream counts them from 1.  Either way the stream keeps
    the first [MaxErrorsInMemory] diagnostics, in the order of the lines. *)
Theorem diagnostics_numbering (file : string) :
  (forall (s1 : Stream) (e : option streamError),
     BuildIndex (NewStream file) = Done (s1, e) ->
     GetErrors s1
     = firstn (Z.to_nat MaxErrorsInMemory) (index_diagnostics (tokens file) 0))
  /\ GetErrors (read_all (S (List.length (tokens file))) (NewStream file))
     = firstn (Z.to_nat MaxErrorsInMemory) (index_diagnostics (tokens file) 1).
Proof.
  assert (Z.of_nat (List.length (Stream.errors (NewStream file)))
          <= MaxErrorsInMemory) as H0
    by (cbn; unfold MaxErrorsInMemory; lia).
  split.
  - intros s1 e B.
    destruct (BuildIndex_errors _ time_Parse (NewStream file))
      as [s' [B' [He _]]].
    rewrite B in B'. injection B' as <- _. unfold GetErrors. rewrite He.
    rewrite fold_add1_firstn by exact H0. reflexivity.
  - unfold GetErrors. rewrite read_all_errors by (cbn; unfold tokens; lia).
    rewrite fold_add1_firstn by exact H0. reflexivity.
Qed.

End WithTime.
End ReadFacts.

Module TuiFacts.
Import Go GoFacts Stream ParseFacts StreamFacts SeekFacts.

Section WithTime.
Variable TimeT : Type.
Variable time_Parse : string -> TimeT + string.
Variable field : Type.
Variable Matches : Filter.FilterNode field -> LogEntry TimeT -> bool.

Local Abbreviation LogEntry := (LogEntry TimeT).
Local Abbreviation records := (records time_Parse).
Local Abbreviation Next := (Next time_Parse).
Local Abbreviation indexed_over := (indexed_over TimeT time_Parse).
Local Abbreviation model := (Tui.model TimeT field).

(** A file the index addresses with room to spare, without carriage returns,
    that the scanner reads to its end. *)
Definition plain_file (file : string) : Prop :=
  len file < 2 ^ 62 /\ lf_only file = true /\ failure (NewScanner file) = None.

Lemma plain_file_fits (file : string) : plain_file file -> fits_int64 file.
Proof. intros [H _]. unfold fits_int64. lia. Qed.

Lemma length_records_le (toks : list string) :
  (List.length (records toks) <= List.length toks)%nat.
Proof.
  induction toks as [|l toks IH]; cbn [StreamFacts.records List.length]; auto.
  destruct (record_of time_Parse l); cbn [List.length]; lia.
Qed.

Lemma total_bound (file : string) :
  len file < 2 ^ 62 ->
  Z.of_nat (List.length (records (tokens file))) < 2 ^ 62 + 1.
Proof.
  intros H. pose proof (length_records_le (tokens file)).
  pose proof (span_length (tokens file)).
  pose proof (span_pending file). unfold tokens in *. lia.
Qed.

(** One call of [Next] on the records its scanner has left. *)
Lemma Next_records (s : Stream) :
  exists s' : Stream,
    Next s = Done (hd_error (records (pending (scanner s))), s')
    /\ (forall (e : LogEntry) (es : list LogEntry),
          records (pending (scanner s)) = e :: es ->
          records (pending (scanner s')) = es)
    /\ (forall file, indexed_over file s -> indexed_over file s').
Proof.
  destruct (Next_spec _ time_Parse s) as [s' [E [Hs [_ [Hi [Hd Hv]]]]]].
  exists s'. split; [exact E|]. split.
  - intros e es R. rewrite Hs, (scanner_after_record _ _ _ _ _ _ _ R).
    cbn [pending]. rewrite records_after_next, R. reflexivity.
  - intros file [H1 [H2 H3]]. unfold SeekFacts.indexed_over.
    rewrite Hi, Hd, Hv. auto.
Qed.

(** ** [loadEntries] *)

Lemma loadEntries_loop_spec (count startLine totalLines : Z) (fuel : nat) :
  forall (s : Stream) (i : Z) (entries : list LogEntry),
  0 <= i -> count - i <= Z.of_nat fuel ->
  0 <= startLine -> startLine + count < 2 ^ 63 ->
  exists s' : Stream,
    Tui.loadEntries_loop time_Parse fuel s i count startLine totalLines entries
    = Done ((entries
             ++ firstn (Z.to_nat (Z.min (count - i) (totalLines - startLine - i)))
                  (records (pending (scanner s))))%list, s')
    /\ (forall file, indexed_over file s -> indexed_over file s').
Proof.
  induction fuel as [|fuel IH]; intros s i entries Hi Hf Hs Hc;
    cbn [Tui.loadEntries_loop].
  - exists s. replace (Z.to_nat _) with O by lia.
    cbn [firstn]. rewrite app_nil_r. auto.
  - destruct (i <? count) eqn:E1; cbn [andb].
    2:{ apply Z.ltb_ge in E1. exists s. replace (Z.to_nat _) with O by lia.
        cbn [firstn]. rewrite app_nil_r. auto. }
    apply Z.ltb_lt in E1. rewrite wrap64_small by lia.
    destruct (startLine + i <? totalLines) eqn:E2.
    2:{ apply Z.ltb_ge in E2. exists s. replace (Z.to_nat _) with O by lia.
        cbn [firstn]. rewrite app_nil_r. auto. }
    apply Z.ltb_lt in E2.
    destruct (Next_records s) as [s1 [N [R I]]]. rewrite N. cbn [bind].
    destruct (records (pending (scanner s))) as [|e es] eqn:Rs; cbn [hd_error].
    + exists s1. rewrite firstn_nil, app_nil_r. auto.
    + specialize (R e es eq_refl).
      destruct (IH s1 (i + 1) (entries ++ [e])%list) as [s' [E I']]; try lia.
      exists s'. rewrite E. split; [|auto].
      rewrite R. f_equal. rewrite <- app_assoc. f_equal. cbn [app].
      replace (Z.to_nat (Z.min (count - i) (totalLines - startLine - i)))
        with (S (Z.to_nat (Z.min (count - (i + 1))
                                 (totalLines - startLine - (i + 1))))) by lia.
      reflexivity.
Qed.

(** The line [loadEntries] starts from. *)
Definition block_start (total startLine count : Z) : Z :=
  if total <=? Z.max startLine 0
  then Z.max (total - count) 0
  else Z.max startLine 0.

(** X6.  [loadEntries] on an indexed file without carriage returns: the
    block of at most [count] records from [block_start] on, in file order,
    and that start; with no valid record in the file, the error of
    [SeekToLine]. *)
Theorem loadEntries_block (file : string) (s : Stream) (startLine count : Z) :
  plain_file file -> indexed_over file s ->
  0 < count < 2 ^ 62 ->
  let recs := sequential time_Parse file in
  let total := Z.of_nat (List.length recs) in
  let start := block_start total startLine count in
  (total = 0 ->
   Tui.loadEntries time_Parse s startLine count
   = Done (Tui.streamErrorMsg TimeT ErrMissingIndex, s))
  /\ (0 < total ->
      0 <= start < total
      /\ exists s' : Stream,
           Tui.loadEntries time_Parse s startLine count
           = Done (Tui.entriesMsg
                     (firstn (Z.to_nat count) (skipn (Z.to_nat start) recs))
                     start, s')
           /\ indexed_over file s').
Proof.
  intros P I Hc. cbv zeta. pose proof P as [Hlen [L Hfail]].
  pose proof (total_bound file Hlen) as Tb.
  pose proof (TotalLines_indexed_over _ time_Parse file s I) as T.
  rewrite sequential_records. fold (tokens file).
  set (n := Z.of_nat (List.length (records (tokens file)))) in *.
  set (start := block_start n startLine count).
  split.
  - intros H0. rewrite H0 in T. cbn in T. unfold Tui.loadEntries.
    rewrite T.
    assert (index s = []) as Hix.
    { destruct I as [_ [Hix _]]. rewrite Hix.
      apply length_zero_iff_nil. rewrite length_index_entries.
      unfold n in H0. lia. }
    destruct (SeekToLine_errors s
                (if -1 <=? Z.max startLine 0
                 then Z.max (wrap64 (-1 - count)) 0 else Z.max startLine 0))
      as [E _].
    rewrite (E Hix). reflexivity.
  - intros Hpos.
    destruct (0 <? n) eqn:E0; [|apply Z.ltb_ge in E0; lia].
    assert (0 <= start < n) as Hs.
    { unfold start, block_start. destruct (n <=? Z.max startLine 0) eqn:E.
      - apply Z.leb_le in E. lia.
      - apply Z.leb_gt in E. lia. }
    split; [exact Hs|].
    unfold Tui.loadEntries. rewrite T.
    rewrite (wrap64_small (n - count)) by lia.
    fold (block_start n startLine count). fold start.
    destruct (SeekToLine_lf _ time_Parse file s start
                (plain_file_fits file P) L Hfail I Hs)
      as [s2 [E [R [I2 _]]]].
    rewrite E. cbn [bind]. unfold Tui.make_cap.
    destruct (count <? 0) eqn:Ec; [apply Z.ltb_lt in Ec; lia|]. cbn [bind].
    destruct (loadEntries_loop_spec count start n (Z.to_nat count) s2 0 [])
      as [s' [El I']]; try lia.
    rewrite El. cbn [bind app]. exists s'. split; [|auto].
    rewrite R. do 2 f_equal. rewrite !Z.sub_0_r.
    set (l := skipn (Z.to_nat start) (records (tokens file))).
    assert (Z.of_nat (List.length l) = n - start) as Hl
      by (unfold l; rewrite length_skipn; unfold n; lia).
    f_equal.
    destruct (Z.min_spec count (n - start)) as [[H1 ->] | [H1 ->]]; auto.
    rewrite !firstn_all2; auto; lia.
Qed.

(** ** [scanAndFilter] *)

(** The ordinals, counted from [i], of the records among [recs] that [node]
    matches. *)
Fixpoint matching (node : Filter.FilterNode field) (recs : list LogEntry)
  (i : Z) : list Z :=
  match recs with
  | [] => []
  | e :: es =>
      if Matches node e then i :: matching node es (i + 1)
      else matching node es (i + 1)
  end.

Lemma In_matching (node : Filter.FilterNode field) (recs : list LogEntry) :
  forall k i : Z,
  In i (matching node recs k)
  <-> k <= i /\ exists e, nth_error recs (Z.to_nat (i - k)) = Some e
                          /\ Matches node e = true.
Proof.
  induction recs as [|e es IH]; intros k i; cbn [matching].
  - split; [contradiction|]. intros [_ [e [H _]]].
    destruct (Z.to_nat (i - k)); discriminate.
  - assert (forall j, In j (matching node es (k + 1))
                      <-> k < j /\ exists e', nth_error (e :: es) (Z.to_nat (j - k)) = Some e'
                                             /\ Matches node e' = true) as IH'.
    { intros j. rewrite IH. split.
      - intros [H1 [e' [H2 H3]]]. split; [lia|]. exists e'. split; auto.
        replace (Z.to_nat (j - k)) with (S (Z.to_nat (j - (k + 1)))) by lia.
        exact H2.
      - intros [H1 [e' [H2 H3]]]. split; [lia|]. exists e'. split; auto.
        replace (Z.to_nat (j - k)) with (S (Z.to_nat (j - (k + 1)))) in H2
          by lia.
        exact H2. }
    destruct (Matches node e) eqn:M.
    + cbn [In]. rewrite IH'. split.
      * intros [<- | [H1 H2]].
        -- split; [lia|]. exists e. rewrite Z.sub_diag. auto.
        -- split; [lia | exact H2].
      * intros [H1 [e' [H2 H3]]].
        destruct (Z.eq_dec k i) as [-> | Hne]; [left; reflexivity|].
        right. split; [lia|]. eauto.
    + rewrite IH'. split.
      * intros [H1 H2]. split; [lia | exact H2].
      * intros [H1 [e' [H2 H3]]]. split; [|eauto].
        destruct (Z.eq_dec k i) as [-> | Hne]; [|lia].
        rewrite Z.sub_diag in H2. cbn in H2. congruence.
Qed.

Lemma matching_sorted (node : Filter.FilterNode field) (recs : list LogEntry) :
  forall k : Z, StronglySorted Z.lt (matching node recs k).
Proof.
  induction recs as [|e es IH]; intros k; cbn [matching].
  - constructor.
  - destruct (Matches node e); [|apply IH].
    constructor; [apply IH|]. apply Forall_forall. intros j Hj.
    apply In_matching in Hj. lia.
Qed.

Lemma scanAndFilter_loop_spec (m : model) (node : Filter.FilterNode field)
  (fuel : nat) :
  Tui.filterCompiled m = Some node ->
  forall (s : Stream) (i : Z) (entries : list Z),
  0 <= i -> Tui.entriesTotal m - i <= Z.of_nat fuel ->
  exists s' : Stream,
    Tui.scanAndFilter_loop time_Parse Matches fuel m s i entries
    = Done ((entries
             ++ matching node
                  (firstn (Z.to_nat (Tui.entriesTotal m - i))
                     (records (pending (scanner s)))) i)%list, s')
    /\ (forall file, indexed_over file s -> indexed_over file s').
Proof.
  intros Hf. induction fuel as [|fuel IH]; intros s i entries Hi Hfu;
    cbn [Tui.scanAndFilter_loop].
  - exists s. replace (Z.to_nat _) with O by lia.
    cbn [firstn matching]. rewrite app_nil_r. auto.
  - destruct (i <? Tui.entriesTotal m) eqn:E1.
    2:{ apply Z.ltb_ge in E1. exists s. replace (Z.to_nat _) with O by lia.
        cbn [firstn matching]. rewrite app_nil_r. auto. }
    apply Z.ltb_lt in E1.
    destruct (Next_records s) as [s1 [N [R I]]]. rewrite N. cbn [bind].
    destruct (records (pending (scanner s))) as [|e es] eqn:Rs; cbn [hd_error].
    + exists s1. rewrite firstn_nil. cbn [matching]. rewrite app_nil_r. auto.
    + specialize (R e es eq_refl). rewrite Hf. cbn [Tui.call_Matches bind].
      destruct (IH s1 (i + 1)
                  (if Matches node e then (entries ++ [i])%list else entries))
        as [s' [E I']]; try lia.
      exists s'. rewrite E. split; [|auto]. rewrite R. f_equal.
      replace (Z.to_nat (Tui.entriesTotal m - i))
        with (S (Z.to_nat (Tui.entriesTotal m - (i + 1)))) by lia.
      cbn [firstn matching].
      destruct (Matches node e); [|reflexivity].
      rewrite <- app_assoc. reflexivity.
Qed.

(** X7.  [scanAndFilter] on an indexed file, with the total [index] reported:
    it returns the ordinals of the records the compiled filter matches, all
    of them and in ascending order.  When the model holds no compiled filter
    ([Compile] returns a [nil] node for an expression of spaces), the call
    of [Matches] on the first record panics. *)
Theorem scanAndFilter_matches (file : string) (s : Stream) (m : model) :
  plain_file file -> indexed_over file s ->
  Tui.entriesTotal m = TotalLines s ->
  sequential time_Parse file <> [] ->
  (forall node : Filter.FilterNode field,
     Tui.filterCompiled m = Some node ->
     exists (l : list Z) (s' : Stream),
       Tui.scanAndFilter time_Parse Matches m s = Done (Tui.filterMsg TimeT l, s')
       /\ (forall i : Z,
             In i l
             <-> 0 <= i
                 /\ exists e, nth_error (sequential time_Parse file) (Z.to_nat i)
                              = Some e
                              /\ Matches node e = true)
       /\ StronglySorted Z.lt l)
  /\ (Tui.filterCompiled m = None ->
      Tui.scanAndFilter time_Parse Matches m s = Panic).
Proof.
  intros P I Ht Hne. pose proof P as [Hlen [L Hfail]].
  pose proof (total_bound file Hlen) as Tb.
  pose proof (TotalLines_indexed_over _ time_Parse file s I) as T.
  rewrite sequential_records in *. fold (tokens file) in *.
  set (recs := records (tokens file)) in *.
  assert (0 < Z.of_nat (List.length recs)) as Hpos
    by (destruct recs; [congruence | cbn [List.length]; lia]).
  destruct (0 <? Z.of_nat (List.length recs)) eqn:E0;
    [|apply Z.ltb_ge in E0; lia].
  rewrite T in Ht.
  destruct (SeekToLine_lf _ time_Parse file s 0
              (plain_file_fits file P) L Hfail I ltac:(fold recs; lia))
    as [s2 [E [R [I2 _]]]].
  cbn [Z.to_nat skipn] in R. fold recs in R.
  split.
  - intros node Hf.
    destruct (scanAndFilter_loop_spec m node
                (Z.to_nat (Tui.entriesTotal m)) Hf s2 0 [])
      as [s' [El I']]; try lia.
    exists (matching node recs 0), s'. split; [|split].
    + unfold Tui.scanAndFilter. rewrite E. cbn [bind]. rewrite El.
      cbn [bind app]. rewrite R, Z.sub_0_r, Ht.
      rewrite firstn_all2 by lia. reflexivity.
    + intros i. rewrite In_matching, Z.sub_0_r. reflexivity.
    + apply matching_sorted.
  - intros Hf. unfold Tui.scanAndFilter. rewrite E. cbn [bind].
    destruct (Z.to_nat (Tui.entriesTotal m)) as [|fuel] eqn:Ef; [lia|].
    cbn [Tui.scanAndFilter_loop].
    destruct (0 <? Tui.entriesTotal m) eqn:E1; [|apply Z.ltb_ge in E1; lia].
    destruct (Next_records s2) as [s3 [N _]]. rewrite N, R. cbn [bind].
    destruct recs as [|e es]; [congruence|]. cbn [hd_error].
    rewrite Hf. reflexivity.
Qed.

(** ** [loadEntriesFiltered] *)

Definition nth_record (recs : list LogEntry) (n : Z) : option LogEntry :=
  if n <? 0 then None else nth_error recs (Z.to_nat n).

Lemma hd_error_skipn (A : Type) (n : nat) :
  forall l : list A, hd_error (skipn n l) = nth_error l n.
Proof. induction n as [|n IH]; intros [|a l]; cbn; auto. Qed.

Lemma map_lookup_app (V : Type) (a b : list (Z * V)) (k : Z) :
  Tui.map_lookup (a ++ b) k
  = match Tui.map_lookup a k with
    | Some v => Some v
    | None => Tui.map_lookup b k
    end.
Proof.
  induction a as [|[k' v] a IH]; cbn [app Tui.map_lookup]; auto.
  destruct (k =? k'); auto.
Qed.

Lemma loadEntriesFiltered_loop_spec (file : string) :
  plain_file file ->
  forall (lineNums : list Z) (s : Stream) (entries : list (Z * LogEntry)),
  indexed_over file s ->
  exists (added : list (Z * LogEntry)) (s' : Stream),
    Tui.loadEntriesFiltered_loop time_Parse lineNums s entries
    = Done ((added ++ entries)%list, s')
    /\ indexed_over file s'
    /\ forall n : Z,
         Tui.map_lookup added n
         = if existsb (Z.eqb n) lineNums
           then nth_record (records (tokens file)) n
           else None.
Proof.
  intros P. pose proof P as [Hlen [L Hfail]].
  set (recs := records (tokens file)).
  induction lineNums as [|l ls IH]; intros s entries I;
    cbn [Tui.loadEntriesFiltered_loop].
  - exists [], s. cbn. auto.
  - assert (0 <= l < Z.of_nat (List.length recs)
            \/ nth_record recs l = None) as [Hin | Hout].
    { unfold nth_record. destruct (l <? 0) eqn:E; [auto|].
      apply Z.ltb_ge in E.
      destruct (nth_error recs (Z.to_nat l)) eqn:Hn; [|auto].
      left. assert (Z.to_nat l < List.length recs)%nat
        by (apply nth_error_Some; congruence). lia. }
    + destruct (SeekToLine_lf _ time_Parse file s l
                  (plain_file_fits file P) L Hfail I Hin)
        as [s2 [E [R [I2 _]]]].
      rewrite E. cbn [bind].
      destruct (Next_records s2) as [s3 [N [_ I3]]]. rewrite N, R. cbn [bind].
      fold recs.
      destruct (nth_error recs (Z.to_nat l)) as [e|] eqn:Hn.
      2:{ apply nth_error_None in Hn. lia. }
      assert (hd_error (skipn (Z.to_nat l) recs) = Some e) as ->.
      { rewrite <- Hn. apply hd_error_skipn. }
      destruct (IH s3 ((l, e) :: entries) (I3 _ I2)) as [added [s' [El [I' Hl]]]].
      exists (added ++ [(l, e)])%list, s'. rewrite El. split; [|split; auto].
      * rewrite <- app_assoc. reflexivity.
      * intros n. rewrite map_lookup_app, Hl. cbn [existsb Tui.map_lookup].
        destruct (n =? l) eqn:En; cbn [orb].
        -- apply Z.eqb_eq in En. subst n.
           assert (nth_record recs l = Some e) as ->
             by (unfold nth_record; destruct (l <? 0) eqn:E';
                 [apply Z.ltb_lt in E'; lia | exact Hn]).
           destruct (existsb (Z.eqb l) ls); reflexivity.
        -- destruct (existsb (Z.eqb n) ls); [|reflexivity].
           destruct (nth_record _ n); reflexivity.
    + assert (exists err, SeekToLine s l = Done (s, Some err)) as [err E].
      { destruct (SeekToLine_errors s l) as [E1 E2].
        destruct (index s) as [|fo ix] eqn:Hix.
        - rewrite E1 by reflexivity. eauto.
        - rewrite <- Hix in *. rewrite E2; [eauto | congruence |].
          destruct I as [_ [Hi _]]. rewrite Hi, length_index_entries.
          fold recs. unfold nth_record in Hout.
          destruct (l <? 0) eqn:E'; [apply Z.ltb_lt in E'; lia|].
          apply nth_error_None in Hout. lia. }
      rewrite E. cbn [bind].
      destruct (IH s entries I) as [added [s' [El [I' Hl]]]].
      exists added, s'. rewrite El. split; [reflexivity|]. split; [auto|].
      intros n. rewrite Hl. cbn [existsb].
      destruct (n =? l) eqn:En; cbn [orb]; [|reflexivity].
      apply Z.eqb_eq in En. subst n. fold recs. rewrite Hout.
      destruct (existsb (Z.eqb l) ls); reflexivity.
Qed.

(** X8.  [loadEntriesFiltered] on an indexed file returns a map that holds,
    for every ordinal of [lineNums] the index has, the record of that
    ordinal, and nothing else; ordinals out of range are passed over. *)
Theorem loadEntriesFiltered_map (file : string) (s : Stream)
  (lineNums : list Z) :
  plain_file file -> indexed_over file s ->
  exists (entries : list (Z * LogEntry)) (s' : Stream),
    Tui.loadEntriesFiltered time_Parse s lineNums
    = Done (Tui.entriesFilteredMsg entries, s')
    /\ indexed_over file s'
    /\ forall n : Z,
         Tui.map_lookup entries n
         = if existsb (Z.eqb n) lineNums
           then nth_record (sequential time_Parse file) n
           else None.
Proof.
  intros P I.
  destruct (loadEntriesFiltered_loop_spec file P lineNums s [] I)
    as [added [s' [E [I' H]]]].
  exists added, s'. unfold Tui.loadEntriesFiltered. rewrite E. cbn [bind].
  rewrite app_nil_r. split; [reflexivity|]. split; [auto|].
  intros n. rewrite sequential_records. apply H.
Qed.

End WithTime.
End TuiFacts.

Module ViewFacts.
Import Go GoFacts.

(** ** The string helpers *)

Lemma len_take (n : nat) (s : string) :
  len (take n s) = Z.min (Z.of_nat n) (len s).
Proof.
  revert s. induction n as [|n IH]; intros [|c s]; cbn [take];
    rewrite ?len_String; unfold len in *; cbn [String.length]; try lia.
  specialize (IH s). lia.
Qed.

Lemma take_all (n : nat) (s : string) :
  (String.length s <= n)%nat -> take n s = s.
Proof.
  revert s. induction n as [|n IH]; intros [|c s] H; cbn in *; auto; try lia.
  f_equal. apply IH. lia.
Qed.

Lemma take_take_ge (n m : nat) (s : string) :
  (String.length s <= n)%nat -> (String.length s <= m)%nat ->
  take n s = take m s.
Proof. intros H1 H2. rewrite !take_all; auto. Qed.

Lemma substring_take_drop (n m : nat) (s : string) :
  substring n m s = take m (drop n s).
Proof.
  revert m s. induction n as [|n IH]; intros m s.
  - cbn [drop]. revert s. induction m as [|m IHm]; intros [|c s]; cbn; auto.
    f_equal. apply IHm.
  - destruct s as [|c s]; cbn [substring drop].
    + destruct m; reflexivity.
    + apply IH.
Qed.

(** X9.  [truncateString] never returns more than [length] bytes: a string
    that fits is returned as it is, a longer one is cut to [length] bytes,
    the last three of them dots when [length] is above 3.  A negative
    [length] panics. *)
Theorem truncateString_width (s : string) (length : Z) :
  (length < 0 -> Tui.truncateString s length = Panic)
  /\ (0 <= length ->
      exists r : string,
        Tui.truncateString s length = Done r
        /\ len r = Z.min (len s) length
        /\ (len s <= length -> r = s)
        /\ (length < len s -> length <= 3 -> r = take (Z.to_nat length) s)
        /\ (length < len s -> 3 < length ->
            r = take (Z.to_nat (length - 3)) s ++ "...")).
Proof.
  pose proof (len_nonneg s) as L. unfold Tui.truncateString. split.
  - intros H. destruct (len s <=? length) eqn:E1; [apply Z.leb_le in E1; lia|].
    destruct (length <=? 3) eqn:E2; [|apply Z.leb_gt in E2; lia].
    unfold slice. destruct (0 <=? length) eqn:E3; [apply Z.leb_le in E3; lia|].
    reflexivity.
  - intros H. destruct (len s <=? length) eqn:E1.
    + apply Z.leb_le in E1. exists s. repeat split; auto; lia.
    + apply Z.leb_gt in E1. destruct (length <=? 3) eqn:E2.
      * apply Z.leb_le in E2. rewrite slice_ok by lia.
        rewrite Z.sub_0_r. cbn [Z.to_nat drop].
        eexists. split; [reflexivity|]. rewrite len_take.
        repeat split; auto; lia.
      * apply Z.leb_gt in E2. rewrite slice_ok by lia. cbn [bind].
        rewrite Z.sub_0_r. cbn [Z.to_nat drop].
        eexists. split; [reflexivity|]. rewrite len_append, len_take.
        change (len "...") with 3. repeat split; auto; lia.
Qed.

(** X10.  [sliceString] is the window of [width] bytes of [s] from [offset]
    on, cut at the end of [s], for an offset and a width that are not
    negative.  A negative offset panics unless the whole string fits the
    width, and a negative width panics for an offset inside the string. *)
Theorem sliceString_window (s : string) (offset width : Z) :
  - 2 ^ 63 <= offset + width < 2 ^ 63 ->
  Tui.sliceString s offset width
  = if offset <? 0 then (if len s <=? width then Done s else Panic)
    else if (width <? 0) && (offset <? len s) then Panic
    else Done (substring (Z.to_nat offset) (Z.to_nat width) s).
Proof.
  intros Hw. pose proof (len_nonneg s) as L. unfold Tui.sliceString.
  rewrite wrap64_small by lia. rewrite substring_take_drop.
  destruct (offset <? 0) eqn:E0.
  - apply Z.ltb_lt in E0.
    destruct (offset <=? 0) eqn:E1; [|apply Z.leb_gt in E1; lia]. cbn [andb].
    destruct (len s <=? width) eqn:E2; [reflexivity|].
    destruct (len s <=? offset) eqn:E3; [apply Z.leb_le in E3; lia|].
    unfold slice. destruct (0 <=? offset) eqn:E4; [apply Z.leb_le in E4; lia|].
    reflexivity.
  - apply Z.ltb_ge in E0.
    destruct (len s <=? offset) eqn:E3.
    + apply Z.leb_le in E3.
      destruct (offset <? len s) eqn:E5; [apply Z.ltb_lt in E5; lia|].
      rewrite andb_false_r.
      assert (drop (Z.to_nat offset) s = "") as ->
        by (apply drop_ge; unfold len in *; lia).
      assert (take (Z.to_nat width) "" = "") as ->
        by (destruct (Z.to_nat width); reflexivity).
      destruct ((offset <=? 0) && (len s <=? width)) eqn:E1; [|reflexivity].
      apply andb_true_iff in E1. destruct E1 as [E1 _]. apply Z.leb_le in E1.
      destruct s as [|c s]; [reflexivity|].
      pose proof (len_nonneg s). rewrite len_String in *. lia.
    + apply Z.leb_gt in E3.
      destruct (offset <? len s) eqn:E5; [|apply Z.ltb_ge in E5; lia].
      rewrite andb_true_r.
      destruct (width <? 0) eqn:E6.
      * apply Z.ltb_lt in E6.
        destruct (len s <=? width) eqn:E2; [apply Z.leb_le in E2; lia|].
        rewrite andb_false_r. unfold slice.
        destruct (offset <=? Z.min (offset + width) (len s)) eqn:E7;
          [apply Z.leb_le in E7; lia|].
        rewrite andb_false_r. reflexivity.
      * apply Z.ltb_ge in E6.
        destruct ((offset <=? 0) && (len s <=? width)) eqn:E1.
        -- apply andb_true_iff in E1. destruct E1 as [E1 E2].
           apply Z.leb_le in E1, E2. replace offset with 0 by lia.
           cbn [Z.to_nat drop]. rewrite take_all; auto. unfold len in *. lia.
        -- rewrite slice_ok by lia. f_equal.
           destruct (Z.min_spec (offset + width) (len s)) as [[H1 ->] | [H1 ->]].
           ++ f_equal. lia.
           ++ apply take_take_ge; rewrite length_drop; unfold len in *; lia.
Qed.

End ViewFacts.

Module KeyFacts.
Import Go GoFacts.

Section Handlers.
Variable TimeT : Type.
Variable field : Type.

Local Abbreviation model := (Tui.model TimeT field).

Definition lenA (m : model) : Z :=
  Z.of_nat (List.length (Tui.entriesAvailable m)).

Definition lenE (m : model) : Z := Z.of_nat (List.length (Tui.errors m)).

(** A terminal of a size the runtime reports and lists a machine holds. *)
Definition sane (m : model) : Prop :=
  0 <= Tui.uiHeight m < 2 ^ 31 /\ 0 <= Tui.uiWidth m < 2 ^ 31
  /\ lenA m < 2 ^ 62 /\ lenE m < 2 ^ 62
  /\ - 2 ^ 63 <= Tui.entriesTotal m < 2 ^ 62.

(** The bounds the keys keep the scroll positions in: the vertical one from
    0 to three rows past the longer of the two lists, the horizontal one from
    0 to the width the terminal lacks. *)
Definition scroll_bounds (m : model) : Prop :=
  0 <= Tui.uiScrollV m <= Z.max (lenA m) (lenE m) + 3
  /\ 0 <= Tui.uiScrollH m <= Z.max (Tui.contentWidth - Tui.uiWidth m) 0.

Ltac proj :=
  cbn [Tui.indexed Tui.entries Tui.entriesStart Tui.entriesFiltered
       Tui.entriesTotal Tui.entriesAvailable Tui.filterApplied
       Tui.filterCompiled Tui.filterError Tui.filterInput Tui.filterView
       Tui.errors Tui.errorsView Tui.uiHeight Tui.uiWidth Tui.uiLoading
       Tui.uiScrollH Tui.uiScrollV Tui.uiStatusMsg
       Tui.set_uiScrollV Tui.set_uiScrollH Tui.set_entriesAvailable
       Tui.set_errorsView Tui.set_filterView Tui.clear_filter] in *.

(** From [Done (a, b) = Done (m', c)], [m'] is [a]. *)
Ltac got E :=
  match type of E with
  | Done (?a, _) = Done (?m, _) =>
      let H := fresh in
      assert (H : m = a) by congruence; clear E; subst m
  end.

Lemma contentHeight_sane (m : model) :
  sane m -> Tui.contentHeight m = Tui.uiHeight m - 3.
Proof. intros [H _]. unfold Tui.contentHeight. apply wrap64_small. lia. Qed.

Lemma lines_bound (m : model) :
  0 <= Tui.lines m <= Z.max (lenA m) (lenE m).
Proof. unfold Tui.lines, lenA, lenE. destruct (Tui.errorsView m); lia. Qed.

Lemma visibleEnd_sane (m : model) :
  sane m -> 0 <= Tui.uiScrollV m <= 2 ^ 62 + 3 ->
  Tui.visibleEnd m = Z.min (Tui.uiScrollV m + (Tui.uiHeight m - 3)) (lenA m).
Proof.
  intros S V. unfold Tui.visibleEnd. rewrite contentHeight_sane by exact S.
  destruct S as [H _]. rewrite wrap64_small by lia. reflexivity.
Qed.

Lemma checkLoadEntriesFiltered_cases (m : model) :
  sane m -> 0 <= Tui.uiScrollV m <= 2 ^ 62 + 3 ->
  (Tui.checkLoadEntriesFiltered m = Panic
   <-> Tui.filterApplied m = true /\ Tui.entriesAvailable m <> []
       /\ (Tui.uiHeight m < 3 \/ lenA m < Tui.uiScrollV m))
  /\ (Tui.checkLoadEntriesFiltered m <> Panic ->
      exists c : Tui.cmd, Tui.checkLoadEntriesFiltered m = Done c).
Proof.
  intros S V. pose proof S as [Hh [Hw [Ha _]]].
  unfold Tui.checkLoadEntriesFiltered.
  rewrite visibleEnd_sane by assumption. fold (lenA m).
  assert (0 <= lenA m) as Ha0 by (unfold lenA; lia).
  destruct (Tui.filterApplied m); cbn [negb orb].
  2:{ split; [|eauto]. split; [discriminate | intros [H _]; discriminate]. }
  destruct (lenA m =? 0) eqn:E0.
  { apply Z.eqb_eq in E0. split; [|eauto].
    split; [discriminate|]. intros [_ [H _]]. exfalso. apply H.
    apply length_zero_iff_nil. unfold lenA in E0. lia. }
  apply Z.eqb_neq in E0.
  assert (Tui.entriesAvailable m <> []) as Hne
    by (intros H; unfold lenA in E0; rewrite H in E0; cbn in E0; lia).
  set (d := Z.min (Tui.uiScrollV m + (Tui.uiHeight m - 3)) (lenA m)
            - Tui.uiScrollV m).
  rewrite (wrap64_small d) by (unfold d; lia).
  unfold Tui.make_cap. destruct (d <? 0) eqn:Ed; cbn [bind].
  - apply Z.ltb_lt in Ed. split; [|congruence].
    split; [|reflexivity]. intros _. repeat split; auto. unfold d in Ed. lia.
  - apply Z.ltb_ge in Ed.
    match goal with
    | |- context [if ?b then _ else _] => destruct b
    end.
    + split; [|eauto]. split; [discriminate|].
      intros [_ [_ H]]. unfold d in Ed. lia.
    + split; [|eauto]. split; [discriminate|].
      intros [_ [_ H]]. unfold d in Ed. lia.
Qed.

(** X11.  [checkLoadEntriesFiltered] panics exactly when a filter is applied,
    it has matches, and the scroll position lies behind the last match or the
    terminal has fewer than three rows: the capacity it asks [make] for is
    then negative.  In every other case it returns a command. *)
Theorem checkLoadEntriesFiltered_panics (m : model) :
  sane m -> 0 <= Tui.uiScrollV m <= 2 ^ 62 + 3 ->
  (Tui.checkLoadEntriesFiltered m = Panic
   <-> Tui.filterApplied m = true /\ Tui.entriesAvailable m <> []
       /\ (Tui.uiHeight m < 3 \/ lenA m < Tui.uiScrollV m))
  /\ (Tui.checkLoadEntriesFiltered m <> Panic ->
      exists c : Tui.cmd, Tui.checkLoadEntriesFiltered m = Done c).
Proof. apply checkLoadEntriesFiltered_cases. Qed.

(** ** Keys *)

Lemma check_load_model (m m' : model) (c : Tui.cmd) :
  Tui.check_load m = Done (m', c) -> m' = m.
Proof.
  unfold Tui.check_load. destruct (Tui.filterApplied m).
  - destruct (Tui.checkLoadEntriesFiltered m); cbn [bind]; congruence.
  - destruct (Tui.checkLoadEntries m); cbn [bind]; congruence.
Qed.

Lemma scrollDown_scroll_bounds (m : model) (n : Z) :
  sane m -> scroll_bounds m -> 0 <= n < 2 ^ 31 ->
  sane (Tui.scrollDown m n) /\ scroll_bounds (Tui.scrollDown m n).
Proof.
  intros S [V H] Hn. pose proof (contentHeight_sane m S) as C.
  pose proof (lines_bound m) as Lb. pose proof S as [Hh [Hw [Ha [He Ht]]]].
  unfold Tui.scrollDown. rewrite C.
  rewrite (wrap64_small (Tui.lines m - _)) by lia.
  rewrite (wrap64_small (Tui.uiScrollV m + n)) by lia.
  unfold sane, scroll_bounds, lenA, lenE in *. proj. repeat split; try lia.
Qed.

Lemma scrollUp_scroll_bounds (m : model) (n : Z) :
  sane m -> scroll_bounds m -> 0 <= n < 2 ^ 31 ->
  sane (Tui.scrollUp m n) /\ scroll_bounds (Tui.scrollUp m n).
Proof.
  intros S [V H] Hn. pose proof S as [Hh [Hw [Ha [He Ht]]]].
  unfold Tui.scrollUp. rewrite (wrap64_small (Tui.uiScrollV m - n)) by lia.
  unfold sane, scroll_bounds, lenA, lenE in *. proj. repeat split; try lia.
Qed.

Lemma length_count_up (fuel : nat) :
  forall (i : Z) (acc : list Z),
  List.length (Tui.count_up fuel i acc) = (List.length acc + fuel)%nat.
Proof.
  induction fuel as [|fuel IH]; intros i acc; cbn [Tui.count_up]; [lia|].
  rewrite IH, length_app. cbn [List.length]. lia.
Qed.

Lemma half_height (m : model) :
  sane m -> 0 <= Z.quot (Tui.uiHeight m) 2 < 2 ^ 31.
Proof.
  intros [H _]. pose proof (Z.quot_pos (Tui.uiHeight m) 2).
  pose proof (Z.quot_le_upper_bound (Tui.uiHeight m) 2 (Tui.uiHeight m)).
  lia.
Qed.

(** X12.  The keys keep the scroll positions in bounds: whenever
    [handleNormalInput] returns, for any key, the vertical position is not
    negative and at most three rows past the longer of the two lists (the
    entries available and the errors), and the horizontal position lies
    between 0 and the width the terminal lacks.  The vertical bound is by
    the longer list, not by the list on show: nothing here says that the
    position is a row of the list on show. *)
Theorem handleNormalInput_scroll_bounds (m m' : model) (key : string) (c : Tui.cmd) :
  sane m -> scroll_bounds m ->
  Tui.handleNormalInput m key = Done (m', c) ->
  sane m' /\ scroll_bounds m'.
Proof.
  intros S I. pose proof S as [Hh [Hw [Ha [He Ht]]]]. pose proof I as [V H].
  pose proof (contentHeight_sane m S) as C.
  pose proof (lines_bound m) as Lb. pose proof (half_height m S) as Hq.
  assert (Tui.contentWidth = 165) as CW by reflexivity.
  unfold Tui.handleNormalInput. rewrite CW in *.
  destruct (negb (Tui.indexed m)); [intros E; got E; auto|].
  repeat match goal with
         | |- (if Filter.mem key ?l then _ else _) = _ -> _ =>
             destruct (Filter.mem key l)
         end;
    try (intros E; apply check_load_model in E; subst m';
         first [apply scrollDown_scroll_bounds | apply scrollUp_scroll_bounds];
         auto; lia);
    try (intros E; got E; auto).
  - destruct (0 <? _); intros E; got E; auto.
    unfold sane, scroll_bounds, lenA, lenE in *. proj. rewrite ?CW in *.
    repeat split; lia.
  - proj.
    assert (sane (Tui.set_uiScrollV m 0) /\ scroll_bounds (Tui.set_uiScrollV m 0))
      as R by (unfold sane, scroll_bounds, lenA, lenE in *; proj;
               repeat split; lia).
    destruct (Tui.errorsView m); intros E;
      [got E | apply check_load_model in E; subst m']; exact R.
  - proj. rewrite C. rewrite (wrap64_small (Tui.lines m - _)) by lia.
    set (m1 := Tui.set_uiScrollV m _).
    assert (sane m1 /\ scroll_bounds m1) as R
      by (unfold m1, sane, scroll_bounds, lenA, lenE in *; proj;
          repeat split; lia).
    destruct (Tui.errorsView m); intros E;
      [got E | apply check_load_model in E; subst m']; exact R.
  - rewrite !wrap64_small by lia.
    destruct (Tui.uiWidth m <? _) eqn:Ew;
      intros E; got E; auto.
    apply Z.ltb_lt in Ew.
    unfold sane, scroll_bounds, lenA, lenE in *. proj. rewrite ?CW in *.
    repeat split; lia.
  - rewrite !wrap64_small by lia.
    destruct (Tui.uiWidth m <? _) eqn:Ew;
      intros E; got E; auto.
    apply Z.ltb_lt in Ew.
    unfold sane, scroll_bounds, lenA, lenE in *. proj. rewrite ?CW in *.
    repeat split; lia.
  - unfold sane, scroll_bounds, lenA, lenE in *. proj. rewrite ?CW in *.
    repeat split; lia.
  - rewrite !wrap64_small by lia.
    destruct (Tui.uiWidth m <? _) eqn:Ew;
      intros E; got E; auto.
    apply Z.ltb_lt in Ew.
    unfold sane, scroll_bounds, lenA, lenE in *. proj. rewrite ?CW in *.
    repeat split; lia.
  - destruct (negb (Tui.errorsView m)); intros E; got E; auto.
  - destruct (Tui.errorsView m).
    + intros E; got E.
      unfold sane, scroll_bounds, lenA, lenE in *. proj. rewrite ?CW in *.
    repeat split; lia.
    + destruct (Tui.filterApplied m); [|intros E; got E; auto].
      destruct (Tui.checkLoadEntries _); cbn [bind]; [|discriminate].
      intros E; got E.
      unfold Tui.showAllLines, sane, scroll_bounds, lenA, lenE in *. proj.
      rewrite length_count_up. cbn [List.length].
      rewrite ?CW in *. repeat split; lia.
Qed.

(** The keys [keys] pressed one after the other outside the filter input. *)
Fixpoint press (keys : list string) (m : model) : outcome model :=
  match keys with
  | [] => Done m
  | key :: keys' =>
      bind (Tui.handleNormalInput m key) (fun r => press keys' (fst r))
  end.

Lemma key_e (m : model) :
  Tui.indexed m = true ->
  Tui.handleNormalInput m "e"
  = if 0 <? lenE m
    then Done (Tui.set_uiScrollV
                 (Tui.set_uiScrollH
                    (Tui.set_errorsView m (negb (Tui.errorsView m))) 0) 0,
               Tui.cmdNil)
    else Done (m, Tui.cmdNil).
Proof. intros H. unfold Tui.handleNormalInput. rewrite H. reflexivity. Qed.

Lemma key_j (m : model) :
  Tui.indexed m = true ->
  Tui.handleNormalInput m "j" = Tui.check_load (Tui.scrollDown m 1).
Proof. intros H. unfold Tui.handleNormalInput. rewrite H. reflexivity. Qed.

(** In the error view with a filter applied, [j] pressed from row [v] on
    panics when the row behind the last match is reached. *)
Lemma press_j_panics (n : nat) :
  forall m : model,
  sane m -> Tui.indexed m = true -> Tui.filterApplied m = true ->
  Tui.errorsView m = true -> Tui.entriesAvailable m <> [] ->
  3 <= Tui.uiHeight m -> lenA m + (Tui.uiHeight m - 3) < lenE m ->
  0 <= Tui.uiScrollV m <= lenA m ->
  Tui.uiScrollV m + Z.of_nat n = lenA m + 1 ->
  press (repeat "j" n) m = Panic.
Proof.
  induction n as [|n IH]; intros m S Hi Hf He Hne Hh Hl Hv Hn; [lia|].
  cbn [repeat press]. rewrite key_j by exact Hi.
  pose proof S as [Sh [Sw [Sa [Se St]]]].
  pose proof (contentHeight_sane m S) as C.
  set (m1 := Tui.scrollDown m 1).
  assert (Tui.uiScrollV m1 = Tui.uiScrollV m + 1) as V1.
  { unfold m1, Tui.scrollDown, Tui.lines. rewrite C, He. fold (lenE m).
    rewrite !wrap64_small by lia. proj. lia. }
  assert (sane m1 /\ Tui.indexed m1 = true /\ Tui.filterApplied m1 = true
          /\ Tui.errorsView m1 = true
          /\ Tui.entriesAvailable m1 = Tui.entriesAvailable m
          /\ Tui.uiHeight m1 = Tui.uiHeight m /\ lenE m1 = lenE m)
    as [S1 [Hi1 [Hf1 [He1 [Ha1 [Hh1 Hl1]]]]]]
    by (unfold m1, Tui.scrollDown, sane, lenA, lenE in *; proj; auto 10).
  assert (lenA m1 = lenA m) as La1 by (unfold lenA; rewrite Ha1; reflexivity).
  destruct (checkLoadEntriesFiltered_cases m1 S1 ltac:(lia)) as [[_ P] D].
  unfold Tui.check_load. rewrite Hf1.
  destruct n as [|n].
  - rewrite P; [reflexivity|]. rewrite Ha1, La1. repeat split; auto. lia.
  - assert (Tui.checkLoadEntriesFiltered m1 <> Panic) as NP.
    { intros E.
      destruct (checkLoadEntriesFiltered_cases m1 S1 ltac:(lia)) as [[Q _] _].
      destruct (Q E) as [_ [_ [E' | E']]]; lia. }
    destruct (D NP) as [c Dc].
    rewrite Dc. cbn [bind fst]. apply IH; auto; try congruence; lia.
Qed.

(** X13.  With a filter applied that has matches, and more errors than the
    matches and the rows of the terminal together, the error view cannot be
    scrolled through: [e] followed by [j] once more than there are matches
    panics, whatever the view showed before. *)
Theorem scrolling_errors_with_filter_panics (m : model) :
  sane m -> Tui.indexed m = true -> Tui.filterApplied m = true ->
  Tui.errorsView m = false -> Tui.entriesAvailable m <> [] ->
  3 <= Tui.uiHeight m -> lenA m + (Tui.uiHeight m - 3) < lenE m ->
  press ("e" :: repeat "j" (S (List.length (Tui.entriesAvailable m)))) m
  = Panic.
Proof.
  intros S Hi Hf He Hne Hh Hl. cbn [press]. rewrite key_e by exact Hi.
  assert (0 < lenE m) as Hpos by (unfold lenA in Hl; lia).
  destruct (0 <? lenE m) eqn:E; [|apply Z.ltb_ge in E; lia].
  cbn [bind fst]. rewrite He. cbn [negb].
  apply press_j_panics;
    unfold sane, lenA, lenE in *; proj; auto; lia.
Qed.

Lemma key_G (m : model) :
  Tui.indexed m = true -> Tui.errorsView m = true ->
  Tui.handleNormalInput m "G"
  = Done (Tui.set_uiScrollV m
            (Z.max (wrap64 (Tui.lines m - Tui.contentHeight m)) 0),
          Tui.cmdNil).
Proof.
  intros H He. unfold Tui.handleNormalInput. rewrite H.
  change (Tui.errorsView (Tui.set_uiScrollV m _)) with (Tui.errorsView m).
  cbv zeta.
  change (Tui.errorsView (Tui.set_uiScrollV m _)) with (Tui.errorsView m).
  rewrite He. reflexivity.
Qed.

Lemma key_esc (m : model) :
  Tui.indexed m = true -> Tui.errorsView m = true ->
  Tui.handleNormalInput m "esc"
  = Done (Tui.set_errorsView m false, Tui.cmdNil).
Proof.
  intros H He. unfold Tui.handleNormalInput. rewrite H, He. reflexivity.
Qed.

Lemma key_k (m : model) :
  Tui.indexed m = true ->
  Tui.handleNormalInput m "k" = Tui.check_load (Tui.scrollUp m 1).
Proof. intros H. unfold Tui.handleNormalInput. rewrite H. reflexivity. Qed.

(** X22.  The position an error view was left at stays when the view is
    closed.  With a filter applied that has matches, and more errors than
    the matches, the rows of the terminal and one together: [G] in the error
    view, which goes to the end of the errors, then [esc], which closes the
    view, then [k] panics, the position being behind the last match. *)
Theorem closing_errors_at_end_panics (m : model) :
  sane m -> Tui.indexed m = true -> Tui.filterApplied m = true ->
  Tui.errorsView m = true -> Tui.entriesAvailable m <> [] ->
  3 <= Tui.uiHeight m -> lenA m + (Tui.uiHeight m - 3) + 1 < lenE m ->
  press ["G"; "esc"; "k"] m = Panic.
Proof.
  intros S Hi Hf He Hne Hh Hl. pose proof S as [Sh [Sw [Sa [Se St]]]].
  pose proof (contentHeight_sane m S) as C.
  assert (0 <= lenA m) as Ha0 by (unfold lenA; lia).
  cbn [press]. rewrite key_G by assumption. cbn [bind fst].
  set (m1 := Tui.set_uiScrollV m _).
  assert (Tui.uiScrollV m1 = lenE m - (Tui.uiHeight m - 3)) as V1.
  { unfold m1, Tui.lines. rewrite C, He. fold (lenE m).
    rewrite wrap64_small by lia. proj. lia. }
  rewrite key_esc by (unfold m1; proj; assumption). cbn [bind fst].
  set (m2 := Tui.set_errorsView m1 false).
  rewrite key_k by (unfold m2, m1; proj; assumption).
  set (m3 := Tui.scrollUp m2 1).
  assert (Tui.uiScrollV m3 = lenE m - (Tui.uiHeight m - 3) - 1) as V3.
  { unfold m3, Tui.scrollUp.
    replace (Tui.uiScrollV m2) with (Tui.uiScrollV m1)
      by (unfold m2; proj; reflexivity).
    rewrite V1, wrap64_small by lia. proj. lia. }
  assert (sane m3 /\ Tui.filterApplied m3 = true
          /\ Tui.entriesAvailable m3 = Tui.entriesAvailable m
          /\ Tui.uiHeight m3 = Tui.uiHeight m) as [S3 [Hf3 [Ha3 Hh3]]]
    by (unfold m3, m2, m1, Tui.scrollUp, sane, lenA, lenE in *; proj;
        auto 10).
  assert (lenA m3 = lenA m) as La3 by (unfold lenA; rewrite Ha3; reflexivity).
  destruct (checkLoadEntriesFiltered_cases m3 S3 ltac:(lia)) as [[_ P] _].
  unfold Tui.check_load. rewrite Hf3, P; [reflexivity|].
  rewrite Ha3, La3. repeat split; auto. lia.
Qed.

End Handlers.
End KeyFacts.

(* ================================================================== *)
(** * The columns of a log line                                        *)
(* ================================================================== *)

Module LineFacts.
Import Go GoFacts Stream ParseFacts StreamFacts CsvFacts.

(** No byte of [s] is [c]. *)
Fixpoint without (c : ascii) (s : string) : bool :=
  match s with
  | EmptyString => true
  | String a s' => negb (Ascii.eqb a c) && without c s'
  end.

(** A line of the log: the syslog priority and version [pre], the timestamp
    [ts], the rest of the syslog header [mid] up to the bracket that closes
    it, and the fields of the packet filter joined by commas. *)
Definition log_line (pre ts mid : string) (fields : list string) : string :=
  pre ++ " " ++ ts ++ " " ++ mid ++ "] " ++ join fields.

(** A header in which the first two spaces enclose the timestamp and no
    bracket closes before the one in front of the fields. *)
Definition header (pre ts mid : string) : Prop :=
  without " " pre = true /\ without " " ts = true
  /\ without "]" pre = true /\ without "]" ts = true
  /\ without "]" mid = true.

Definition number (fields : list string) (n : nat) (bits : Z) : option Z :=
  match nth_error fields n with
  | Some f => ParseUint f bits
  | None => None
  end.

(** Protocol, addresses and ports in the columns [iProto], [iSrc], [iDst],
    [iPort] and [iPort + 1]. *)
Definition addresses (fields : list string) (iProto iSrc iDst iPort : nat)
  : option (string * string * string * Z * Z) :=
  match nth_error fields iProto, nth_error fields iSrc,
        nth_error fields iDst with
  | Some proto, Some src, Some dst =>
      if String.eqb proto "udp" || String.eqb proto "tcp" then
        match number fields iPort 16, number fields (S iPort) 16 with
        | Some sp, Some dp => Some (proto, src, dst, sp, dp)
        | _, _ => None
        end
      else Some (proto, src, dst, 0, 0)
  | _, _, _ => None
  end.

Section Columns.
Variable TimeT : Type.
Variable time_Parse : string -> TimeT + string.

Local Abbreviation LogEntry := (LogEntry TimeT).
Local Abbreviation parseLine_body := (parseLine_body time_Parse).
Local Abbreviation parseLine := (parseLine time_Parse).
Local Abbreviation Next := (Next time_Parse).

(** The record in the columns of a line with the time [t]: label, interface,
    reason, action and direction in columns 3 to 7, the IP version in column
    8, and by it the protocol, the addresses and the ports. *)
Definition record_columns (t : TimeT) (fields : list string)
  : option LogEntry :=
  match nth_error fields 3, nth_error fields 4, nth_error fields 5,
        nth_error fields 6, nth_error fields 7, number fields 8 8 with
  | Some label, Some iface, Some reason, Some action, Some direction,
    Some v =>
      match (if v =? 4 then addresses fields 16 18 19 20
             else if v =? 6 then addresses fields 12 15 16 17
             else None) with
      | Some (proto, src, dst, sp, dp) =>
          Some (mkLogEntry action direction iface label reason t
                  dst v proto src dp sp)
      | None => None
      end
  | _, _, _, _, _, _ => None
  end.

(** A record as [parseLine] builds it. *)
Definition well_formed (e : LogEntry) : Prop :=
  (IPVersion e = 4 \/ IPVersion e = 6)
  /\ 0 <= SrcPort e < 65536 /\ 0 <= DstPort e < 65536
  /\ (ProtoName e <> "tcp" -> ProtoName e <> "udp" ->
      SrcPort e = 0 /\ DstPort e = 0).

Lemma IndexByte_without (c : ascii) (s : string) :
  without c s = true -> IndexByte s c = -1.
Proof.
  induction s as [|a s IH]; cbn [without IndexByte]; auto.
  intros H. apply andb_true_iff in H. destruct H as [H1 H2].
  apply negb_true_iff in H1. rewrite H1, IH by exact H2. reflexivity.
Qed.

Lemma IndexByte_first (c : ascii) (a rest : string) :
  without c a = true -> IndexByte (a ++ String c rest) c = len a.
Proof.
  induction a as [|b a IH]; intros H.
  - cbn [append IndexByte]. rewrite Ascii.eqb_refl. reflexivity.
  - cbn [without] in H. apply andb_true_iff in H. destruct H as [H1 H2].
    apply negb_true_iff in H1.
    cbn [append IndexByte]. rewrite H1, IH by exact H2. rewrite len_String.
    pose proof (len_nonneg a).
    destruct (len a <? 0) eqn:E; [apply Z.ltb_lt in E; lia | reflexivity].
Qed.

Lemma Index_first (a rest : string) :
  without "]" a = true -> Index (a ++ "] " ++ rest) "] " = len a.
Proof.
  induction a as [|b a IH]; intros H.
  - destruct rest; reflexivity.
  - cbn [without] in H. apply andb_true_iff in H. destruct H as [H1 H2].
    apply negb_true_iff in H1.
    change (String b a ++ "] " ++ rest) with (String b (a ++ "] " ++ rest)).
    cbn [Index]. cbn [HasPrefix]. rewrite H1. cbn [andb].
    rewrite IH by exact H2. rewrite len_String. pose proof (len_nonneg a).
    destruct (len a <? 0) eqn:E; [apply Z.ltb_lt in E; lia | reflexivity].
Qed.

Lemma without_append (c : ascii) (a b : string) :
  without c (a ++ b) = without c a && without c b.
Proof.
  induction a as [|x a IH]; cbn [append without]; auto.
  rewrite IH. apply andb_assoc.
Qed.

Lemma append_assoc (a b c : string) : (a ++ b) ++ c = a ++ b ++ c.
Proof. induction a as [|x a IH]; cbn [append]; congruence. Qed.

Lemma drop_app_length (a b : string) : drop (String.length a) (a ++ b) = b.
Proof. apply drop_append. Qed.

Lemma ParseUint_range (s : string) (bits v : Z) :
  ParseUint s bits = Some v -> 0 <= v < 2 ^ bits.
Proof.
  assert (forall (s : string) (acc v : Z),
            0 <= acc -> digits_value acc s = Some v -> 0 <= v) as D.
  { clear. induction s as [|c s IH]; cbn [digits_value]; intros acc v Ha H.
    - injection H as <-. exact Ha.
    - destruct (is_digit c) eqn:E; [|discriminate].
      apply IH in H; auto. unfold is_digit in E.
      apply andb_true_iff in E. destruct E as [E _].
      apply Z.leb_le in E. lia. }
  unfold ParseUint. destruct s as [|c s]; [discriminate|].
  destruct (digits_value 0 (String c s)) as [w|] eqn:E; [|discriminate].
  destruct (w <? 2 ^ bits) eqn:B; [|discriminate].
  intros H. injection H as <-. apply Z.ltb_lt in B.
  apply D in E; lia.
Qed.

(** The header of a line, as [parseLine] reads it. *)
Lemma header_parts (pre ts mid : string) (fields : list string) :
  header pre ts mid ->
  let line := log_line pre ts mid fields in
  IndexByte line " "%char = len pre
  /\ drop (Z.to_nat (len pre + 1)) line
     = ts ++ " " ++ mid ++ "] " ++ join fields
  /\ IndexByte (ts ++ " " ++ mid ++ "] " ++ join fields) " "%char = len ts
  /\ Index line "] " = len (pre ++ " " ++ ts ++ " " ++ mid)
  /\ drop (Z.to_nat (len (pre ++ " " ++ ts ++ " " ++ mid) + 2)) line
     = join fields.
Proof.
  intros [P1 [T1 [P2 [T2 M2]]]] line. unfold line, log_line.
  repeat split.
  - apply (IndexByte_first " "%char pre _ P1).
  - replace (Z.to_nat (len pre + 1))
      with (String.length (pre ++ " ")).
    + rewrite <- (append_assoc pre " "). apply drop_app_length.
    + rewrite <- (Nat2Z.id (String.length (pre ++ " "))). f_equal.
      apply len_append.
  - apply (IndexByte_first " "%char ts _ T1).
  - replace (pre ++ " " ++ ts ++ " " ++ mid ++ "] " ++ join fields)
      with ((pre ++ " " ++ ts ++ " " ++ mid) ++ "] " ++ join fields)
      by (rewrite !append_assoc; reflexivity).
    apply Index_first. rewrite !without_append, P2, T2, M2. reflexivity.
  - replace (pre ++ " " ++ ts ++ " " ++ mid ++ "] " ++ join fields)
      with (((pre ++ " " ++ ts ++ " " ++ mid) ++ "] ") ++ join fields)
      by (rewrite !append_assoc; reflexivity).
    replace (Z.to_nat (len (pre ++ " " ++ ts ++ " " ++ mid) + 2))
      with (String.length ((pre ++ " " ++ ts ++ " " ++ mid) ++ "] ")).
    + apply drop_app_length.
    + rewrite <- (Nat2Z.id (String.length (_ ++ "] "))). f_equal.
      apply len_append.
Qed.

Lemma parsePorts_join (fields : list string) (i : Z) (tag : string) (n : Z) :
  fields <> [] -> Forall (fun f => no_comma f = true) fields -> 0 <= i ->
  match number fields (Z.to_nat i) 16, number fields (S (Z.to_nat i)) 16 with
  | Some sp, Some dp => parsePorts (join fields) i tag n = ret (sp, dp)
  | _, _ => exists msg, parsePorts (join fields) i tag n = fail msg
  end.
Proof.
  intros Hne Hc Hi. unfold parsePorts, number.
  rewrite !csvField_join by assumption.
  replace (Z.to_nat (i + 1)) with (S (Z.to_nat i)) by lia.
  unfold parseUint, pbind, ret, fail.
  destruct (nth_error fields (Z.to_nat i)) as [a|];
    [destruct (ParseUint a 16) as [sp|]|];
    (destruct (nth_error fields (S (Z.to_nat i))) as [b|];
     [destruct (ParseUint b 16) as [dp|]|]); eauto.
Qed.

Lemma parseIP_join (fields : list string) (n : Z) (v : string)
  (iProto iSrc iDst iPort : Z) (other : string) :
  fields <> [] -> Forall (fun f => no_comma f = true) fields -> 0 <= iPort ->
  match addresses fields (Z.to_nat iProto) (Z.to_nat iSrc) (Z.to_nat iDst)
          (Z.to_nat iPort) with
  | Some ip => parseIP (join fields) n v iProto iSrc iDst iPort other = ret ip
  | None =>
      exists msg,
        parseIP (join fields) n v iProto iSrc iDst iPort other = fail msg
  end.
Proof.
  intros Hne Hc Hi. unfold parseIP, addresses.
  rewrite !csvField_join by assumption.
  destruct (nth_error fields (Z.to_nat iProto)) as [proto|];
    [|unfold pbind, ret, fail; eauto].
  destruct (nth_error fields (Z.to_nat iSrc)) as [src|];
    [|unfold pbind, ret, fail; eauto].
  destruct (nth_error fields (Z.to_nat iDst)) as [dst|];
    [|unfold pbind, ret, fail; eauto].
  cbn [pbind ret]. rewrite switch_const_id.
  change protoUDP with "udp". change protoTCP with "tcp".
  destruct (String.eqb proto "udp") eqn:U; cbn [orb].
  - pose proof (parsePorts_join fields iPort
                  (if String.eqb v "v4" then "udp4" else "udp6") n
                  Hne Hc Hi) as P.
    destruct (number fields (Z.to_nat iPort) 16) as [sp|];
      [destruct (number fields (S (Z.to_nat iPort)) 16) as [dp|]|].
    + rewrite P. reflexivity.
    + destruct P as [msg P]. rewrite P. exists msg. reflexivity.
    + destruct P as [msg P]. rewrite P. exists msg. reflexivity.
  - destruct (String.eqb proto "tcp") eqn:T.
    + pose proof (parsePorts_join fields iPort
                    (if String.eqb v "v4" then "tcp4" else "tcp6") n
                    Hne Hc Hi) as P.
      destruct (number fields (Z.to_nat iPort) 16) as [sp|];
        [destruct (number fields (S (Z.to_nat iPort)) 16) as [dp|]|].
      * rewrite P. reflexivity.
      * destruct P as [msg P]. rewrite P. exists msg. reflexivity.
      * destruct P as [msg P]. rewrite P. exists msg. reflexivity.
    + reflexivity.
Qed.

(** The body of [parseLine] on a line built from its columns. *)
Lemma parseLine_body_columns (pre ts mid : string) (t : TimeT)
  (fields : list string) (n : Z) :
  header pre ts mid -> time_Parse ts = inl t ->
  fields <> [] -> Forall (fun f => no_comma f = true) fields ->
  match record_columns t fields with
  | Some e => parseLine_body (log_line pre ts mid fields) n = ret e
  | None =>
      exists msg, parseLine_body (log_line pre ts mid fields) n = fail msg
  end.
Proof.
  intros Hh Ht Hne Hc.
  destruct (header_parts pre ts mid fields Hh) as [I1 [D1 [I2 [I3 D3]]]].
  set (line := log_line pre ts mid fields) in *.
  assert (len line
          = len (pre ++ " " ++ ts ++ " " ++ mid) + 2 + len (join fields))
    as Ll.
  { unfold line, log_line.
    replace (pre ++ " " ++ ts ++ " " ++ mid ++ "] " ++ join fields)
      with ((pre ++ " " ++ ts ++ " " ++ mid) ++ "] " ++ join fields)
      by (rewrite !append_assoc; reflexivity).
    rewrite !len_append. change (len "] ") with 2. lia. }
  assert (len (pre ++ " " ++ ts ++ " " ++ mid)
          = len pre + 1 + len ts + 1 + len mid) as Lh
    by (rewrite !len_append; change (len " ") with 1; lia).
  pose proof (len_nonneg pre) as L1. pose proof (len_nonneg ts) as L2.
  pose proof (len_nonneg mid) as L3.
  pose proof (len_nonneg (join fields)) as L4.
  unfold Stream.parseLine_body. rewrite I1.
  rewrite slice_from_ok by lia. cbn [sliced pbind ret]. rewrite D1, I2.
  destruct (len pre =? -1) eqn:E1; [apply Z.eqb_eq in E1; lia|].
  destruct (len ts =? -1) eqn:E2; [apply Z.eqb_eq in E2; lia|].
  cbn [orb]. rewrite slice_ok by lia. cbn [sliced pbind ret]. rewrite D1.
  replace (Z.to_nat (len ts + (len pre + 1) - (len pre + 1)))
    with (String.length ts) by (unfold len; lia).
  rewrite take_append, Ht, I3.
  destruct (len (pre ++ " " ++ ts ++ " " ++ mid) =? -1) eqn:E3;
    [apply Z.eqb_eq in E3; lia|].
  rewrite slice_from_ok by lia. cbn [sliced pbind ret]. rewrite D3.
  unfold record_columns, number.
  rewrite !csvField_join by assumption.
  change (Z.to_nat 3) with 3%nat. change (Z.to_nat 4) with 4%nat.
  change (Z.to_nat 5) with 5%nat. change (Z.to_nat 6) with 6%nat.
  change (Z.to_nat 7) with 7%nat. change (Z.to_nat 8) with 8%nat.
  destruct (nth_error fields 3) as [label|]; [|unfold pbind, ret, fail; eauto].
  destruct (nth_error fields 4) as [iface|]; [|unfold pbind, ret, fail; eauto].
  destruct (nth_error fields 5) as [reason|]; [|unfold pbind, ret, fail; eauto].
  destruct (nth_error fields 6) as [action|]; [|unfold pbind, ret, fail; eauto].
  destruct (nth_error fields 7) as [direction|];
    [|unfold pbind, ret, fail; eauto].
  destruct (nth_error fields 8) as [ipv|]; [|unfold pbind, ret, fail; eauto].
  cbn [pbind ret]. unfold parseUint.
  destruct (ParseUint ipv 8) as [v|]; [|unfold pbind, ret, fail; eauto].
  cbn [pbind ret]. rewrite !switch_const_id.
  destruct (v =? 4) eqn:V4.
  - pose proof (parseIP_join fields n "v4" 16 18 19 20 protoICMP Hne Hc
                  ltac:(lia)) as P.
    change (Z.to_nat 16) with 16%nat in P. change (Z.to_nat 18) with 18%nat in P.
    change (Z.to_nat 19) with 19%nat in P. change (Z.to_nat 20) with 20%nat in P.
    destruct (addresses fields 16 18 19 20) as [[[[[proto src] dst] sp] dp]|].
    + rewrite P. reflexivity.
    + destruct P as [msg P]. rewrite P. exists msg. reflexivity.
  - destruct (v =? 6) eqn:V6; [|unfold fail; eauto].
    pose proof (parseIP_join fields n "v6" 12 15 16 17 protoICMPv6 Hne Hc
                  ltac:(lia)) as P.
    change (Z.to_nat 12) with 12%nat in P. change (Z.to_nat 15) with 15%nat in P.
    change (Z.to_nat 16) with 16%nat in P. change (Z.to_nat 17) with 17%nat in P.
    destruct (addresses fields 12 15 16 17) as [[[[[proto src] dst] sp] dp]|].
    + rewrite P. reflexivity.
    + destruct P as [msg P]. rewrite P. exists msg. reflexivity.
Qed.

(** X14.  [parseLine] on a line whose header has the timestamp between its
    first two spaces and whose fields are joined by commas: the record is
    read from columns 3 to 8 and, by the IP version, from columns 16, 18, 19,
    20 and 21 (version 4) or 12, 15, 16, 17 and 18 (version 6), the ports
    only for [tcp] and [udp]; a line that lacks one of these columns, or
    whose version or port is no number, yields no record and one
    diagnostic. *)
Theorem parseLine_columns (s : Stream) (pre ts mid : string) (t : TimeT)
  (fields : list string) (n : Z) :
  header pre ts mid -> time_Parse ts = inl t ->
  fields <> [] -> Forall (fun f => no_comma f = true) fields ->
  match record_columns t fields with
  | Some e => parseLine s (log_line pre ts mid fields) n = Done (Some e, s)
  | None =>
      exists msg,
        parseLine s (log_line pre ts mid fields) n
        = Done (None, addError s msg)
  end.
Proof.
  intros Hh Ht Hne Hc.
  pose proof (parseLine_body_columns pre ts mid t fields n Hh Ht Hne Hc) as P.
  unfold Stream.parseLine.
  destruct (record_columns t fields) as [e|].
  - rewrite P. reflexivity.
  - destruct P as [msg P]. rewrite P. exists msg. reflexivity.
Qed.

Lemma In_records (toks : list string) (e : LogEntry) :
  In e (records time_Parse toks) ->
  exists l, In l toks /\ record_of time_Parse l = Some e.
Proof.
  induction toks as [|l toks IH]; cbn [records]; [contradiction|].
  destruct (record_of time_Parse l) as [e'|] eqn:R.
  - intros [<-|H]; [exists l; cbn; auto|].
    destruct (IH H) as [l' [H1 H2]]. exists l'. cbn. auto.
  - intros H. destruct (IH H) as [l' [H1 H2]]. exists l'. cbn. auto.
Qed.

Lemma record_well_formed (l : string) (e : LogEntry) :
  record_of time_Parse l = Some e -> well_formed e.
Proof.
  intros R. pose proof (record_of_any _ time_Parse l 0) as P.
  rewrite R in P. apply parseLine_body_inv in P.
  destruct P as [_ [_ [_ [_ [_ [_ [_ [_ [_ [_ P]]]]]]]]]].
  assert (forall (csv : string) (a b c d : Z),
            fields_of TimeT csv a b c d e ->
            0 <= SrcPort e < 65536 /\ 0 <= DstPort e < 65536
            /\ (ProtoName e <> "tcp" -> ProtoName e <> "udp" ->
                SrcPort e = 0 /\ DstPort e = 0)) as F.
  { intros csv a b c d [_ [_ [_ H]]].
    change protoUDP with "udp" in H. change protoTCP with "tcp" in H.
    destruct (String.eqb (ProtoName e) "udp") eqn:U;
      [|destruct (String.eqb (ProtoName e) "tcp") eqn:T]; cbn [orb] in H.
    - destruct H as [x [y [_ [H1 [_ H2]]]]].
      apply ParseUint_range in H1, H2. apply String.eqb_eq in U.
      change (2 ^ 16) with 65536 in *. repeat split; try lia; congruence.
    - destruct H as [x [y [_ [H1 [_ H2]]]]].
      apply ParseUint_range in H1, H2. apply String.eqb_eq in T.
      change (2 ^ 16) with 65536 in *. repeat split; try lia; congruence.
    - destruct H as [-> ->]. repeat split; lia. }
  unfold well_formed.
  destruct P as [[V P]|[V P]]; (split; [auto|]); exact (F _ _ _ _ _ P).
Qed.

(** X15.  Every record [Next] returns has IP version 4 or 6 and ports between
    0 and 65535; a record whose protocol is neither [tcp] nor [udp] has both
    ports 0. *)
Theorem Next_well_formed (s s' : Stream) (e : LogEntry) :
  Next s = Done (Some e, s') -> well_formed e.
Proof.
  intros H. destruct (Next_spec _ time_Parse s) as [s1 [E _]].
  rewrite E in H. injection H as H _.
  destruct (records time_Parse (pending (scanner s))) as [|e' es] eqn:R;
    [discriminate|].
  injection H as ->.
  destruct (In_records (pending (scanner s)) e) as [l [_ Hl]].
  - rewrite R. cbn. auto.
  - exact (record_well_formed l e Hl).
Qed.

End Columns.

End LineFacts.

(* ================================================================== *)
(** * The two revisions of [stream.go]                                 *)
(* ================================================================== *)

Module RevisionFacts.
Import Go GoFacts Stream ParseFacts StreamFacts.

Lemma field_start_none (csv : string) (n : nat) :
  forall start : Z,
  field_start csv n start = Done None ->
  field_start csv (S n) start = Done None.
Proof.
  induction n as [|n IH]; intros start H; [discriminate|].
  cbn [field_start] in H.
  change (field_start csv (S (S n)) start)
    with (bind (slice_from csv start) (fun rest =>
          let idx := IndexByte rest ","%char in
          if idx =? -1 then Done None
          else field_start csv (S n) (start + (idx + 1)))).
  destruct (slice_from csv start) as [rest|]; [|discriminate].
  cbn [bind] in *. cbv zeta in *.
  destruct (IndexByte rest "," =? -1); [reflexivity|]. apply IH. exact H.
Qed.

Lemma extract_false (csv : string) (n : Z) (v : string) :
  extractCSVField csv n = Done (v, false) ->
  field_start csv (Z.to_nat n) 0 = Done None.
Proof.
  unfold extractCSVField.
  destruct (field_start_ok csv (Z.to_nat n) 0) as [E | [st [E H]]].
  - pose proof (len_nonneg csv). lia.
  - auto.
  - rewrite E. cbn [bind]. rewrite slice_from_ok by exact H. cbn [bind].
    pose proof (IndexByte_range (drop (Z.to_nat st) csv) ","%char) as R.
    rewrite len_drop in R by (unfold len in H; lia).
    destruct (IndexByte (drop (Z.to_nat st) csv) "," =? -1) eqn:E';
      [discriminate|].
    apply Z.eqb_neq in E'. rewrite slice_ok by lia. cbn [bind]. discriminate.
Qed.

(** A text that lacks field [n] lacks field [n + 1]. *)
Lemma csvField_missing (csv : string) (n : Z) (msg1 msg msg2 : string) :
  0 <= n -> csvField csv n msg1 = Done (inl msg) ->
  csvField csv (n + 1) msg2 = fail msg2.
Proof.
  intros Hn. unfold csvField.
  destruct (extractCSVField csv n) as [[v [|]]|] eqn:E; try discriminate.
  intros _. apply extract_false in E. apply field_start_none in E.
  unfold extractCSVField.
  replace (Z.to_nat (n + 1)) with (S (Z.to_nat n)) by lia.
  rewrite E. reflexivity.
Qed.

Section WithTime.
Variable TimeT : Type.
Variable time_Parse : string -> TimeT + string.

Local Abbreviation parseLine_body := (Stream.parseLine_body time_Parse).
Local Abbreviation parse_body := (Stream2.parse_body time_Parse).

(** A record without its label. *)
Definition forget (e : Stream.LogEntry TimeT) : Stream2.LogEntry TimeT :=
  Stream2.mkLogEntry (Action e) (Direction e) (Interface e) (Reason e)
    (Time e) (Dst e) (IPVersion e) (ProtoName e) (Src e) (DstPort e)
    (SrcPort e).

(** Both parsers return a record, the same up to the label, or both a
    diagnostic. *)
Definition same_parse (r1 : parsing (Stream.LogEntry TimeT))
  (r2 : parsing (Stream2.LogEntry TimeT)) : Prop :=
  match r1, r2 with
  | Done (inr e1), Done (inr e2) => e2 = forget e1
  | Done (inl _), Done (inl _) => True
  | _, _ => False
  end.

Lemma same_parseIP (csv : string) (n : Z) (v : string)
  (iProto iSrc iDst iPort : Z) (other : string)
  (k1 : string * string * string * Z * Z -> Stream.LogEntry TimeT)
  (k2 : string * string * string * Z * Z -> Stream2.LogEntry TimeT) :
  (forall ip, k2 ip = forget (k1 ip)) ->
  same_parse
    (ip <- parseIP csv n v iProto iSrc iDst iPort other; ret (k1 ip))
    (ip <- parseIP csv n v iProto iSrc iDst iPort other; ret (k2 ip)).
Proof.
  intros K.
  pose proof (safe_parseIP csv n v iProto iSrc iDst iPort other) as S.
  destruct (parseIP csv n v iProto iSrc iDst iPort other) as [[msg|ip]|];
    cbn; auto.
Qed.

(** The two parsers on a line. *)
Lemma parse_body_agrees (line : string) (n : Z) :
  same_parse (parseLine_body line n) (parse_body line n).
Proof.
  unfold Stream.parseLine_body, Stream2.parse_body.
  pose proof (IndexByte_range line " "%char) as R1.
  pose proof (len_nonneg line) as L0.
  set (i := IndexByte line " ") in *.
  rewrite !slice_from_ok by lia. cbn [sliced ret pbind].
  pose proof (IndexByte_range (drop (Z.to_nat (i + 1)) line) " "%char) as R2.
  rewrite len_drop in R2 by (unfold len in R1; lia).
  set (j := IndexByte (drop (Z.to_nat (i + 1)) line) " ") in *.
  replace (i + 1 <=? 0) with (i =? -1)
    by (destruct (i =? -1) eqn:E;
        [apply Z.eqb_eq in E | apply Z.eqb_neq in E]; symmetry;
        [apply Z.leb_le | apply Z.leb_gt]; lia).
  destruct (i =? -1) eqn:Ei; cbn [orb]; [exact I|].
  destruct (j =? -1) eqn:Ej; [exact I|].
  apply Z.eqb_neq in Ei, Ej.
  rewrite !slice_ok by lia. cbn [sliced ret pbind].
  destruct (time_Parse _) as [timestamp | err]; [|exact I].
  pose proof (Index_range line "] ") as R3.
  destruct (Index line "] " =? -1) eqn:Ec; [exact I|].
  apply Z.eqb_neq in Ec. change (len "] ") with 2 in R3.
  rewrite !slice_from_ok by lia. cbn [sliced ret pbind].
  set (csv := drop (Z.to_nat (Index line "] " + 2)) line).
  (* the label, which one revision reads and the other does not *)
  pose proof (safe_csvField csv 3 (on_line "label" n)) as S3.
  destruct (csvField csv 3 (on_line "label" n)) as [[msg|label]|] eqn:E3;
    [|cbn [pbind]|exfalso; apply S3; reflexivity].
  { pose proof (csvField_missing csv 3 _ _ (on_line "iface" n)
                  ltac:(lia) E3) as M.
    change (3 + 1) with 4 in M. rewrite M. exact I. }
  (* interface, reason, action and direction *)
  pose proof (safe_csvField csv 4 (on_line "iface" n)) as S4.
  destruct (csvField csv 4 (on_line "iface" n)) as [[?|iface]|];
    [exact I|cbn [pbind]|exfalso; apply S4; reflexivity].
  pose proof (safe_csvField csv 5 (on_line "reason" n)) as S5.
  destruct (csvField csv 5 (on_line "reason" n)) as [[?|reason]|];
    [exact I|cbn [pbind]|exfalso; apply S5; reflexivity].
  pose proof (safe_csvField csv 6 (on_line "action" n)) as S6.
  destruct (csvField csv 6 (on_line "action" n)) as [[?|action]|];
    [exact I|cbn [pbind]|exfalso; apply S6; reflexivity].
  pose proof (safe_csvField csv 7 (on_line "direction" n)) as S7.
  destruct (csvField csv 7 (on_line "direction" n)) as [[?|direction]|];
    [exact I|cbn [pbind]|exfalso; apply S7; reflexivity].
  (* the IP version *)
  unfold csvField at 1 2.
  destruct (extractCSVField_ok csv 8) as [v [ok E8]]. rewrite E8.
  destruct ok; [|exact I]. cbn [pbind ret].
  assert (match parseUint v 8 (on_line "ipVersion" n) with
          | Done (inr a) =>
              (if String.eqb v "4" then ret Stream2.ipVersion4
               else if String.eqb v "6" then ret Stream2.ipVersion6
               else parseUint v 8 (on_line "ipVersion" n)) = Done (inr a)
          | Done (inl _) =>
              exists msg,
                (if String.eqb v "4" then ret Stream2.ipVersion4
                 else if String.eqb v "6" then ret Stream2.ipVersion6
                 else parseUint v 8 (on_line "ipVersion" n)) = Done (inl msg)
          | Panic => False
          end) as V.
  { destruct (String.eqb v "4") eqn:V4;
      [apply String.eqb_eq in V4; subst v; reflexivity|].
    destruct (String.eqb v "6") eqn:V6;
      [apply String.eqb_eq in V6; subst v; reflexivity|].
    unfold parseUint. destruct (ParseUint v 8); unfold ret, fail; eauto. }
  destruct (parseUint v 8 (on_line "ipVersion" n)) as [[?|version]|];
    [destruct V as [msg ->]; exact I | rewrite V | contradiction].
  cbn [pbind]. rewrite !switch_const_id.
  change Stream2.ipVersion4 with 4. change Stream2.ipVersion6 with 6.
  destruct (version =? 4).
  { apply same_parseIP. intros [[[[proto src] dst] sp] dp]. reflexivity. }
  destruct (version =? 6); [|exact I].
  apply same_parseIP. intros [[[[proto src] dst] sp] dp]. reflexivity.
Qed.

(** ** Streams of the two revisions over one file *)

Definition as_entry (fo : fileOffset) : Stream2.indexEntry :=
  Stream2.mkIndexEntry (line fo) (offset fo).

(** Streams that are at the same place of the same file, with the same
    index and as many diagnostics. *)
Definition alike (s1 : Stream.Stream) (s2 : Stream2.Stream) : Prop :=
  data s1 = Stream2.data s2 /\ scanner s1 = Stream2.scanner s2
  /\ lineNum s1 = Stream2.lineNum s2
  /\ map as_entry (index s1) = Stream2.index s2
  /\ List.length (errors s1) = List.length (Stream2.errors s2).

Lemma alike_addError (s1 : Stream.Stream) (s2 : Stream2.Stream)
  (m1 m2 : string) :
  alike s1 s2 -> alike (addError s1 m1) (Stream2.addError s2 m2).
Proof.
  intros (D & Sc & L & Ix & E). unfold addError, Stream2.addError.
  rewrite <- E.
  destruct (Z.of_nat (List.length (errors s1)) <? MaxErrorsInMemory);
    unfold alike; cbn; repeat split; auto.
  rewrite !length_app, E. reflexivity.
Qed.

(** What [parseLine] and [parse] return for alike streams. *)
Definition same_read
  (r1 : outcome (option (Stream.LogEntry TimeT) * Stream.Stream))
  (r2 : outcome (option (Stream2.LogEntry TimeT) * Stream2.Stream))
  : Prop :=
  match r1, r2 with
  | Done (e1, s1), Done (e2, s2) => e2 = option_map forget e1 /\ alike s1 s2
  | _, _ => False
  end.

Lemma parse_alike (s1 : Stream.Stream) (s2 : Stream2.Stream)
  (l : string) (n : Z) :
  alike s1 s2 ->
  same_read (Stream.parseLine time_Parse s1 l n)
    (Stream2.parse time_Parse s2 l n).
Proof.
  intros A. unfold Stream.parseLine, Stream2.parse.
  pose proof (parse_body_agrees l n) as P.
  destruct (parseLine_body l n) as [[m1|e1]|],
           (parse_body l n) as [[m2|e2]|]; unfold same_parse in P;
    unfold same_read; try contradiction.
  - split; [reflexivity | apply alike_addError; exact A].
  - subst e2. auto.
Qed.

Lemma next_loop_alike (toks : list string) (fl : option scanError)
  (kept : list string) :
  forall (s1 : Stream.Stream) (s2 : Stream2.Stream),
  alike s1 s2 ->
  same_read (Stream.next_loop time_Parse toks fl kept s1)
    (Stream2.next_loop time_Parse toks fl kept s2).
Proof.
  induction toks as [|l toks IH]; intros s1 s2 A;
    cbn [Stream.next_loop Stream2.next_loop].
  - destruct A as (D & Sc & L & Ix & E). cbn. unfold alike. cbn.
    repeat split; auto.
  - cbv zeta.
    set (t1 := set_lineNum (set_scanner s1 (mkScanner toks fl kept)) _).
    set (t2 := Stream2.set_lineNum
                 (Stream2.set_scanner s2 (mkScanner toks fl kept)) _).
    assert (alike t1 t2) as A'.
    { destruct A as (D & Sc & L & Ix & E). unfold alike, t1, t2. cbn.
      rewrite L. auto. }
    assert (lineNum t1 = Stream2.lineNum t2) as Ln by apply A'.
    rewrite <- Ln. pose proof (parse_alike t1 t2 l (lineNum t1) A') as P.
    destruct (Stream.parseLine time_Parse t1 l (lineNum t1))
      as [[[e1|] u1]|],
      (Stream2.parse time_Parse t2 l (lineNum t1)) as [[[e2|] u2]|];
      unfold same_read in P; cbn [bind]; try contradiction;
      destruct P as [P1 P2]; try discriminate.
    + unfold same_read. auto.
    + apply IH. exact P2.
Qed.

Lemma index_loop_alike (toks : list string) :
  forall (s1 : Stream.Stream) (s2 : Stream2.Stream) (n off k : Z),
  alike s1 s2 ->
  match Stream.index_loop time_Parse toks s1 n off k,
        Stream2.index_loop time_Parse toks s2 k n off with
  | Done (s1', _), Done s2' => alike s1' s2'
  | _, _ => False
  end.
Proof.
  induction toks as [|l toks IH]; intros s1 s2 n off k A;
    cbn [Stream.index_loop Stream2.index_loop]; [exact A|].
  pose proof (parse_alike s1 s2 l n A) as P.
  destruct (Stream.parseLine time_Parse s1 l n) as [[[e1|] u1]|],
           (Stream2.parse time_Parse s2 l n) as [[[e2|] u2]|];
    unfold same_read in P; cbn [bind]; try contradiction;
    destruct P as [P1 P2]; try discriminate.
  - apply IH. destruct P2 as (D & Sc & L & Ix & E). unfold alike. cbn.
    rewrite map_app, Ix. cbn. auto.
  - apply IH. exact P2.
Qed.

(** What an operation returns for alike streams: the same error, or none,
    and alike streams. *)
Definition same_step (r1 : outcome (Stream.Stream * option streamError))
  (r2 : outcome (Stream2.Stream * option streamError)) : Prop :=
  match r1, r2 with
  | Done (s1, e1), Done (s2, e2) => e1 = e2 /\ alike s1 s2
  | _, _ => False
  end.

Lemma alike_new (file : string) :
  alike (Stream.NewStream file) (Stream2.NewStream file).
Proof. unfold alike. cbn. auto. Qed.

Lemma BuildIndex_alike (s1 : Stream.Stream) (s2 : Stream2.Stream) :
  alike s1 s2 ->
  same_step (Stream.BuildIndex time_Parse s1)
    (Stream2.BuildIndex time_Parse s2).
Proof.
  intros A. unfold Stream.BuildIndex, Stream2.BuildIndex. cbv zeta.
  assert (data (set_index (reset s1) [])
          = Stream2.data (Stream2.set_index (Stream2.reset s2) [])) as D
    by (cbn; apply A).
  rewrite <- D.
  assert (alike (set_index (reset s1) [])
            (Stream2.set_index (Stream2.reset s2) [])) as A0.
  { destruct A as (D0 & Sc & L & Ix & E). unfold alike. cbn.
    rewrite D0. auto. }
  pose proof (index_loop_alike
                (pending (NewScanner (data (set_index (reset s1) []))))
                _ _ 0 0 0 A0) as P.
  destruct (Stream.index_loop _ _ _ _ _ _) as [[u1 v]|],
           (Stream2.index_loop _ _ _ _ _ _) as [u2|]; cbn in P |- *;
    try contradiction.
  destruct P as (D1 & Sc & L & Ix & E).
  destruct (failure (NewScanner _)); cbn; unfold alike; cbn;
    rewrite ?D1; auto 10.
Qed.

Lemma SeekToLine_alike (s1 : Stream.Stream) (s2 : Stream2.Stream) (n : Z) :
  alike s1 s2 ->
  same_step (Stream.SeekToLine s1 n) (Stream2.SeekToLine s2 n).
Proof.
  intros A. pose proof A as (D & Sc & L & Ix & E).
  unfold Stream.SeekToLine, Stream2.SeekToLine, hasIndex.
  rewrite <- Ix, length_map, <- D.
  replace (Z.of_nat (List.length (index s1)) <=? 0)
    with (negb (0 <? Z.of_nat (List.length (index s1))))
    by (destruct (0 <? _) eqn:H;
        [apply Z.ltb_lt in H | apply Z.ltb_ge in H]; symmetry;
        [apply Z.leb_gt | apply Z.leb_le]; lia).
  destruct (negb (0 <? Z.of_nat (List.length (index s1)))); [cbn; auto|].
  destruct ((n <? 0) || (Z.of_nat (List.length (index s1)) <=? n)) eqn:R;
    [cbn; auto|].
  apply orb_false_iff in R. destruct R as [R1 R2].
  apply Z.ltb_ge in R1. apply Z.leb_gt in R2.
  rewrite nth_error_map.
  destruct (nth_error (index s1) (Z.to_nat n)) as [fo|] eqn:N.
  - cbn [option_map as_entry Stream2.lineOffset].
    destruct (offset fo <? 0); cbn; [auto|].
    unfold alike. cbn. auto 10.
  - apply nth_error_None in N. lia.
Qed.

(** X20.  The two revisions of [stream.go] read a file alike.  On streams
    that are at the same place of the same file with the same index,
    [BuildIndex] and [SeekToLine] return the same error or none, [Next]
    returns the same record but for its label, which only one revision
    keeps, none of them panics, and the streams are alike again: the same
    index entries, the same position, as many diagnostics. *)
Theorem revisions_read_alike (s1 : Stream.Stream) (s2 : Stream2.Stream) :
  alike s1 s2 ->
  same_step (Stream.BuildIndex time_Parse s1)
    (Stream2.BuildIndex time_Parse s2)
  /\ same_read (Stream.Next time_Parse s1) (Stream2.Next time_Parse s2)
  /\ (forall n : Z,
        same_step (Stream.SeekToLine s1 n) (Stream2.SeekToLine s2 n)).
Proof.
  intros A. split; [apply BuildIndex_alike; exact A|]. split.
  - unfold Stream.Next, Stream2.Next.
    destruct A as (D & Sc & L & Ix & E). rewrite <- Sc.
    apply next_loop_alike. unfold alike. auto.
  - intros n. apply SeekToLine_alike. exact A.
Qed.

(** X19.  The parsers of the two revisions accept the same lines: on every
    line both return a record, the same but for the label, or both report
    a diagnostic; neither panics.  So a line the one revision counts as
    valid the other does too, though [parse] never looks at the label. *)
Theorem parse_agrees (line : string) (n : Z) :
  same_parse (parseLine_body line n) (parse_body line n).
Proof. exact (parse_body_agrees line n). Qed.

End WithTime.

End RevisionFacts.

(* ================================================================== *)
(** * The language of filter expressions                               *)
(* ================================================================== *)

Module LanguageFacts.
Import Go GoFacts Stream Filter FilterFacts CsvFacts LineFacts.

(** Every byte of [w] is one [readWord] reads on. *)
Fixpoint word (w : string) : bool :=
  match w with
  | EmptyString => true
  | String c w' => word_byte c && word w'
  end.

(** What a word ends at: the end of the input, a space or a parenthesis. *)
Definition ends (r : string) : bool :=
  match r with
  | EmptyString => true
  | String c _ => negb (word_byte c)
  end.

(** The words the lexer turns into operator tokens. *)
Definition operator (wordLower : string) : bool :=
  mem wordLower ["and"; "&&"; "or"; "||"; "not"; "!"].

Lemma length_app (a b : string) :
  String.length (a ++ b) = (String.length a + String.length b)%nat.
Proof. induction a as [|c a IH]; cbn; auto. Qed.

Lemma count_word (w r : string) :
  word w = true -> ends r = true ->
  count_while word_byte (w ++ r) = String.length w.
Proof.
  intros Hw Hr. induction w as [|c w IH]; cbn [word] in Hw.
  - destruct r as [|c r]; cbn in *; auto.
    apply negb_true_iff in Hr. rewrite Hr. reflexivity.
  - apply andb_true_iff in Hw. destruct Hw as [H1 H2].
    cbn [append count_while String.length]. rewrite H1, IH; auto.
Qed.

Lemma count_space (c : ascii) (s : string) :
  Ascii.eqb c space = false ->
  count_while (Ascii.eqb space) (String c s) = 0%nat.
Proof.
  intros H. cbn [count_while]. rewrite Ascii.eqb_sym, H. reflexivity.
Qed.

Lemma word_byte_inv (c : ascii) :
  word_byte c = true ->
  Ascii.eqb c space = false /\ Ascii.eqb c lparen = false
  /\ Ascii.eqb c rparen = false.
Proof.
  unfold word_byte. intros H. apply negb_true_iff in H.
  apply orb_false_iff in H. destruct H as [H H3].
  apply orb_false_iff in H. tauto.
Qed.

(** ** The lexer at a position *)

(** The lexer has [s] left to read. *)
Definition sits (l : lexer) (s : string) : Prop :=
  rest l = s /\ (pos l <= String.length (input l))%nat.

Lemma sits_length (l : lexer) (s : string) :
  sits l s -> String.length s = (String.length (input l) - pos l)%nat.
Proof. intros [<- _]. unfold rest. apply length_drop. Qed.

Lemma sits_move (l : lexer) (a r : string) :
  sits l (a ++ r) ->
  sits (mkLexer (input l) (pos l + String.length a)) r.
Proof.
  intros H. pose proof (sits_length _ _ H) as L. destruct H as [R P].
  rewrite length_app in L. unfold sits, rest in *. cbn [input pos].
  split; [|lia]. rewrite <- drop_drop, R. apply drop_append.
Qed.

Lemma lexer_eta (l : lexer) : mkLexer (input l) (pos l + 0) = l.
Proof. destruct l as [i p]. cbn. f_equal. lia. Qed.

Lemma skipSpace_none (l : lexer) (c : ascii) (s : string) :
  sits l (String c s) -> Ascii.eqb c space = false -> skipSpace l = l.
Proof.
  intros [R _] H. unfold skipSpace. rewrite R, count_space by exact H.
  apply lexer_eta.
Qed.

Lemma sits_more (l : lexer) (c : ascii) (s : string) :
  sits l (String c s) ->
  (String.length (input l) <=? pos l)%nat = false
  /\ (pos l <? String.length (input l))%nat = true
  /\ peek l = c.
Proof.
  intros H. pose proof (sits_length _ _ H) as L. destruct H as [R P].
  cbn [String.length] in L. unfold peek. rewrite R.
  repeat split; [apply Nat.leb_gt | apply Nat.ltb_lt]; lia.
Qed.

Section Grammar.
Variable unicodeLower : string -> string.
Variable opValue : string -> string -> string.
Variable isField : string -> bool.
Variable field : Type.
Variable fieldOf : string -> field.

Local Abbreviation nextToken := (nextToken unicodeLower opValue isField).
Local Abbreviation advance := (advance unicodeLower opValue isField).
Local Abbreviation newParser := (newParser unicodeLower opValue isField).
Local Abbreviation parseOr := (parseOr unicodeLower opValue isField fieldOf).
Local Abbreviation parseOr_loop :=
  (parseOr_loop unicodeLower opValue isField fieldOf).
Local Abbreviation parseAnd := (parseAnd unicodeLower opValue isField fieldOf).
Local Abbreviation parseAnd_loop :=
  (parseAnd_loop unicodeLower opValue isField fieldOf).
Local Abbreviation parseNot := (parseNot unicodeLower opValue isField fieldOf).
Local Abbreviation parsePrimary :=
  (parsePrimary unicodeLower opValue isField fieldOf).
Local Abbreviation parse := (parse unicodeLower opValue isField fieldOf).
Local Abbreviation Compile := (Compile unicodeLower opValue isField fieldOf).
Local Abbreviation lower := (ToLower unicodeLower).

(** The token of a word, as [nextToken] classifies it. *)
Definition word_token (w : string) : token :=
  let wordLower := lower w in
  if mem wordLower ["and"; "&&"] then mkToken tokenAnd (opValue w wordLower)
  else if mem wordLower ["or"; "||"]
  then mkToken tokenOr (opValue w wordLower)
  else if mem wordLower ["not"; "!"]
  then mkToken tokenNot (opValue w wordLower)
  else if isField wordLower then mkToken tokenField wordLower
  else mkToken tokenValue w.

(** A word that is an operator or a field keyword, letter case apart. *)
Definition reserved (w : string) : bool :=
  operator (lower w) || isField (lower w).

(** A word the lexer reads as a value. *)
Definition plain (v : string) : Prop :=
  v <> "" /\ word v = true /\ reserved v = false.

(** From a lexer with [s] left, [nextToken] returns [t] and leaves [r]. *)
Definition tokenizes (s : string) (t : token) (r : string) : Prop :=
  forall l : lexer,
    sits l s -> exists l', nextToken l = (t, l') /\ sits l' r.

Lemma tokenizes_eof : tokenizes "" (mkToken tokenEOF "") "".
Proof.
  intros l H. pose proof (sits_length _ _ H) as L. cbn in L.
  unfold Filter.nextToken.
  assert (skipSpace l = l) as ->
    by (unfold skipSpace; rewrite (proj1 H); apply lexer_eta).
  destruct H as [R P].
  replace (String.length (input l) <=? pos l)%nat with true
    by (symmetry; apply Nat.leb_le; lia).
  exists l. split; [reflexivity | split; assumption].
Qed.

Lemma tokenizes_space (s : string) (t : token) (r : string) :
  tokenizes s t r -> tokenizes (String " " s) t r.
Proof.
  intros T l H. pose proof (sits_move l " " s H) as H1.
  cbn [String.length] in H1.
  destruct (T _ H1) as [l' [E S']]. exists l'. split; [|exact S'].
  rewrite <- E. unfold Filter.nextToken.
  replace (skipSpace l) with (skipSpace (mkLexer (input l) (pos l + 1)));
    [reflexivity|].
  unfold skipSpace. cbn [input pos]. rewrite (proj1 H), (proj1 H1).
  cbn [count_while]. change (Ascii.eqb space " ") with true. cbv iota.
  f_equal. lia.
Qed.

Lemma tokenizes_lparen (r : string) :
  tokenizes (String "(" r) (mkToken tokenLParen "(") r.
Proof.
  intros l H. unfold Filter.nextToken.
  rewrite (skipSpace_none l _ _ H eq_refl).
  destruct (sits_more _ _ _ H) as [E1 [E2 E3]]. rewrite E1, E3.
  change (Ascii.eqb "(" lparen) with true. cbv iota.
  eexists. split; [reflexivity|]. unfold advance_lexer. rewrite E2.
  replace (S (pos l)) with (pos l + 1)%nat by lia.
  apply (sits_move l "(" r H).
Qed.

Lemma tokenizes_rparen (r : string) :
  tokenizes (String ")" r) (mkToken tokenRParen ")") r.
Proof.
  intros l H. unfold Filter.nextToken.
  rewrite (skipSpace_none l _ _ H eq_refl).
  destruct (sits_more _ _ _ H) as [E1 [E2 E3]]. rewrite E1, E3.
  change (Ascii.eqb ")" lparen) with false.
  change (Ascii.eqb ")" rparen) with true. cbv iota.
  eexists. split; [reflexivity|]. unfold advance_lexer. rewrite E2.
  replace (S (pos l)) with (pos l + 1)%nat by lia.
  apply (sits_move l ")" r H).
Qed.

Lemma tokenizes_word (w r : string) :
  w <> "" -> word w = true -> ends r = true ->
  tokenizes (w ++ r) (word_token w) r.
Proof.
  intros Hne Hw Hr l H. destruct w as [|c w]; [congruence|].
  cbn [word] in Hw. apply andb_true_iff in Hw. destruct Hw as [Hc Hw].
  destruct (word_byte_inv c Hc) as [C1 [C2 C3]].
  change (String c w ++ r) with (String c (w ++ r)) in H.
  unfold Filter.nextToken. rewrite (skipSpace_none l _ _ H C1).
  destruct (sits_more _ _ _ H) as [E1 [E2 E3]]. rewrite E1, E3, C2, C3.
  unfold readWord. rewrite (proj1 H).
  change (String c (w ++ r)) with (String c w ++ r).
  rewrite count_word by (cbn [word]; rewrite ?Hc; auto).
  rewrite take_append.
  change (String.eqb (String c w) "") with false. cbv iota.
  exists (mkLexer (input l) (pos l + String.length (String c w))).
  split; [|apply (sits_move l (String c w) r H)].
  unfold word_token.
  repeat match goal with
         | |- context [if ?b then _ else _] => destruct b
         end; reflexivity.
Qed.

Lemma word_token_plain (v : string) :
  plain v -> word_token v = mkToken tokenValue v.
Proof.
  intros [_ [_ R]]. unfold reserved, operator in R.
  apply orb_false_iff in R. destruct R as [R1 R2].
  unfold word_token. rewrite R2.
  unfold mem in *. cbn [existsb] in *.
  repeat match type of R1 with
         | (_ || _) = false =>
             apply orb_false_iff in R1; let H := fresh in
             destruct R1 as [H R1]; rewrite ?H
         end.
  reflexivity.
Qed.

(** ** The parser at a position *)

(** The parser is at the first token of [s]. *)
Definition looks (p : parser) (s : string) : Prop :=
  exists l0 : lexer, sits l0 s /\ nextToken l0 = (current p, lex p).

Lemma looks_token (p : parser) (s : string) (t : token) (r : string) :
  looks p s -> tokenizes s t r -> current p = t /\ looks (advance p) r.
Proof.
  intros [l0 [S0 E0]] T. destruct (T _ S0) as [l' [E S']].
  rewrite E in E0. injection E0 as Hc Hl. split; [symmetry; exact Hc|].
  unfold looks, Filter.advance. exists (lex p).
  split; [rewrite <- Hl; exact S'|].
  destruct (nextToken (lex p)) as [t' l2]. reflexivity.
Qed.

Lemma looks_newParser (e : string) :
  TrimSpace e = e -> looks (newParser e) e.
Proof.
  intros T. unfold looks, Filter.newParser. exists (newLexer e). split.
  - unfold sits, newLexer, rest. cbn [input pos drop]. rewrite T.
    split; [reflexivity | lia].
  - destruct (nextToken (newLexer e)) as [t l]. reflexivity.
Qed.

Lemma at_current (p : parser) (t : token) (k : tokenType) :
  current p = t -> at_token p k = tokenType_eqb (typ t) k.
Proof. intros <-. reflexivity. Qed.

(** The values of a tree: what its leaves compare a record with. *)
Fixpoint values (n : FilterNode field) : list string :=
  match n with
  | fieldFilter _ v => [v]
  | anyFilter v => [v]
  | andFilter l r => values l ++ values r
  | orFilter l r => values l ++ values r
  | notFilter c => values c
  end.

(** The fields of a tree. *)
Fixpoint fields (n : FilterNode field) : list field :=
  match n with
  | fieldFilter f _ => [f]
  | anyFilter _ => []
  | andFilter l r => fields l ++ fields r
  | orFilter l r => fields l ++ fields r
  | notFilter c => fields c
  end.

(** ** Expressions written with all their parentheses *)

Section Render.
Variable name : field -> string.

(** A tree as an expression in which every node stands in parentheses. *)
Fixpoint render (n : FilterNode field) : string :=
  "(" ++ match n with
         | fieldFilter f v => name f ++ " " ++ v
         | anyFilter v => v
         | andFilter l r => render l ++ " and " ++ render r
         | orFilter l r => render l ++ " or " ++ render r
         | notFilter c => "not " ++ render c
         end ++ ")".

(** [name f] is a keyword the lexer reads as the field [f]. *)
Definition keyword (f : field) : Prop :=
  name f <> "" /\ word (name f) = true
  /\ operator (lower (name f)) = false
  /\ isField (lower (name f)) = true
  /\ fieldOf (lower (name f)) = f.

(** A tree of keywords and plain values. *)
Fixpoint expressible (n : FilterNode field) : Prop :=
  match n with
  | fieldFilter f v => keyword f /\ plain v
  | anyFilter v => plain v
  | andFilter l r => expressible l /\ expressible r
  | orFilter l r => expressible l /\ expressible r
  | notFilter c => expressible c
  end.

(** Fuel that is enough for [parsePrimary] on [render n]. *)
Fixpoint need (n : FilterNode field) : nat :=
  match n with
  | fieldFilter _ _ => 5
  | anyFilter _ => 5
  | andFilter l r => 5 + Nat.max (need l) (need r)
  | orFilter l r => 5 + Nat.max (need l) (need r)
  | notFilter c => 5 + need c
  end.

Lemma word_token_keyword (f : field) :
  keyword f -> word_token (name f) = mkToken tokenField (lower (name f)).
Proof.
  intros [_ [_ [O [I _]]]]. unfold operator in O.
  unfold word_token. rewrite I.
  unfold mem in *. cbn [existsb] in *.
  repeat match type of O with
         | (_ || _) = false =>
             apply orb_false_iff in O; let H := fresh in
             destruct O as [H O]; rewrite ?H
         end.
  reflexivity.
Qed.

Lemma word_token_and : typ (word_token "and") = tokenAnd.
Proof. reflexivity. Qed.

Lemma word_token_or : typ (word_token "or") = tokenOr.
Proof. reflexivity. Qed.

Lemma word_token_not : typ (word_token "not") = tokenNot.
Proof. reflexivity. Qed.

Lemma render_paren (n : FilterNode field) :
  exists body, render n = String "(" (body ++ ")").
Proof. destruct n; cbn [render]; eexists; reflexivity. Qed.

(** The parser at a parenthesis, at a word, and behind a space. *)
Lemma at_lparen (p : parser) (s : string) :
  looks p (String "(" s) ->
  at_token p tokenLParen = true /\ at_token p tokenNot = false
  /\ looks (advance p) s.
Proof.
  intros H. destruct (looks_token _ _ _ _ H (tokenizes_lparen s)) as [C A].
  rewrite !(at_current p _ _ C). auto.
Qed.

Lemma at_rparen (p : parser) (s : string) :
  looks p (String ")" s) ->
  at_token p tokenRParen = true /\ at_token p tokenAnd = false
  /\ at_token p tokenOr = false /\ looks (advance p) s.
Proof.
  intros H. destruct (looks_token _ _ _ _ H (tokenizes_rparen s)) as [C A].
  rewrite !(at_current p _ _ C). auto.
Qed.

Lemma at_eof (p : parser) :
  looks p "" -> at_token p tokenAnd = false /\ at_token p tokenOr = false.
Proof.
  intros H. destruct (looks_token _ _ _ _ H tokenizes_eof) as [C A].
  rewrite !(at_current p _ _ C). auto.
Qed.

Lemma and_exit (f : nat) (n : FilterNode field) (p : parser) :
  at_token p tokenAnd = false -> parseAnd_loop (S f) n p = Parsed n p.
Proof. intros H. rewrite parseAnd_loop_S, H. reflexivity. Qed.

Lemma or_exit (f : nat) (n : FilterNode field) (p : parser) :
  at_token p tokenOr = false -> parseOr_loop (S f) n p = Parsed n p.
Proof. intros H. rewrite parseOr_loop_S, H. reflexivity. Qed.

(** A value, and a field with its value, in front of a parenthesis. *)
Lemma primary_value (f : nat) (p : parser) (v r : string) :
  plain v -> ends r = true -> looks p (v ++ r) ->
  at_token p tokenNot = false
  /\ parsePrimary (S f) p = Parsed (anyFilter v) (advance p)
  /\ looks (advance p) r.
Proof.
  intros Hv Hr H. pose proof Hv as [V1 [V2 _]].
  destruct (looks_token _ _ _ _ H (tokenizes_word v r V1 V2 Hr)) as [C A].
  rewrite (word_token_plain v Hv) in C.
  rewrite parsePrimary_S, !(at_current p _ _ C). cbn [typ tokenType_eqb].
  rewrite C. auto.
Qed.

Lemma primary_field (f : nat) (p : parser) (fl : field) (v r : string) :
  keyword fl -> plain v -> ends r = true ->
  looks p (name fl ++ " " ++ v ++ r) ->
  at_token p tokenNot = false
  /\ parsePrimary (S f) p = Parsed (fieldFilter fl v) (advance (advance p))
  /\ looks (advance (advance p)) r.
Proof.
  intros Hk Hv Hr H. pose proof Hk as [K1 [K2 [_ [_ K5]]]].
  pose proof Hv as [V1 [V2 _]].
  destruct (looks_token _ _ _ _ H
              (tokenizes_word (name fl) (" " ++ v ++ r) K1 K2 eq_refl))
    as [C A].
  rewrite (word_token_keyword fl Hk) in C.
  destruct (looks_token _ _ _ _ A
              (tokenizes_space _ _ _ (tokenizes_word v r V1 V2 Hr)))
    as [C' A'].
  rewrite (word_token_plain v Hv) in C'.
  rewrite parsePrimary_S, !(at_current p _ _ C),
    !(at_current (advance p) _ _ C').
  cbn [typ tokenType_eqb negb]. rewrite C, C'. cbn [value]. rewrite K5. auto.
Qed.

(** From a primary to the end of the expression in the parentheses. *)
Lemma or_of_not (f : nat) (p p' : parser) (n : FilterNode field) :
  parseNot (S f) p = Parsed n p' ->
  at_token p' tokenAnd = false -> at_token p' tokenOr = false ->
  parseOr (S (S (S f))) p = Parsed n p'.
Proof.
  intros E A O. rewrite parseOr_S, parseAnd_S, E, (and_exit f n p' A).
  apply or_exit. exact O.
Qed.

Lemma nextToken_space (l : lexer) (s : string) :
  sits l (String " " s) ->
  nextToken l = nextToken (mkLexer (input l) (pos l + 1)).
Proof.
  intros H. pose proof (sits_move l " " s H) as H1.
  cbn [String.length] in H1. unfold Filter.nextToken.
  replace (skipSpace l) with (skipSpace (mkLexer (input l) (pos l + 1)));
    [reflexivity|].
  unfold skipSpace. cbn [input pos]. rewrite (proj1 H), (proj1 H1).
  cbn [count_while]. change (Ascii.eqb space " ") with true. cbv iota.
  f_equal. lia.
Qed.

Lemma looks_space (p : parser) (s : string) :
  looks p (String " " s) -> looks p s.
Proof.
  intros [l0 [S0 E0]]. exists (mkLexer (input l0) (pos l0 + 1)). split.
  - apply (sits_move l0 " " s S0).
  - rewrite <- (nextToken_space l0 s S0). exact E0.
Qed.

Lemma shape (body r : string) :
  ("(" ++ body ++ ")") ++ r = String "(" (body ++ String ")" r).
Proof. cbn [append]. f_equal. apply append_assoc. Qed.

(** The parser behind a primary that a parenthesis follows. *)
Lemma closes (f : nat) (p : parser) (n : FilterNode field) (r : string) :
  at_token p tokenLParen = true ->
  (exists p2, parseOr f (advance p) = Parsed n p2
              /\ looks p2 (String ")" r)) ->
  exists p', parsePrimary (S f) p = Parsed n p' /\ looks p' r.
Proof.
  intros L [p2 [E A]]. destruct (at_rparen _ _ A) as [R [_ [_ A']]].
  rewrite parsePrimary_S, L, E, R. cbn [negb]. eauto.
Qed.

(** [parsePrimary] on the expression of a tree returns the tree. *)
Lemma primary_render (n : FilterNode field) :
  expressible n ->
  forall (f : nat) (p : parser) (r : string),
    (need n <= f)%nat -> looks p (render n ++ r) ->
    exists p', parsePrimary f p = Parsed n p' /\ looks p' r.
Proof.
  induction n as [fl v | v | l IHl r' IHr | l IHl r' IHr | c IHc];
    intros Hx f p r Hf H; cbn [need] in Hf;
    do 5 (destruct f as [|f]; [exfalso; lia|]);
    cbn [render] in H; rewrite shape, ?append_assoc in H;
    destruct (at_lparen _ _ H) as [L [_ A]];
    (apply closes; [exact L|]).
  - (* a field and its value *)
    destruct Hx as [Hk Hv].
    destruct (primary_field f (advance p) fl v (String ")" r) Hk Hv eq_refl A)
      as [N [E A']].
    destruct (at_rparen _ _ A') as [_ [An [Or _]]].
    exists (advance (advance (advance p))). split; [|exact A'].
    apply or_of_not; auto. rewrite parseNot_S, N. exact E.
  - (* a value *)
    destruct (primary_value f (advance p) v (String ")" r) Hx eq_refl A)
      as [N [E A']].
    destruct (at_rparen _ _ A') as [_ [An [Or _]]].
    exists (advance (advance p)). split; [|exact A'].
    apply or_of_not; auto. rewrite parseNot_S, N. exact E.
  - (* and *)
    destruct Hx as [Hl Hr].
    destruct (render_paren l) as [bl El]. rewrite El in A.
    destruct (at_lparen _ _ A) as [_ [N _]]. rewrite <- El in A.
    destruct (IHl Hl (S f) (advance p) _ ltac:(lia) A) as [p1 [E1 A1]].
    destruct (looks_token _ _ _ _ A1
                (tokenizes_space _ _ _
                   (tokenizes_word "and"
                      (String " " (render r' ++ String ")" r))
                      ltac:(discriminate) eq_refl eq_refl)))
      as [C1 A2].
    apply looks_space in A2.
    destruct (render_paren r') as [br Er]. rewrite Er in A2.
    destruct (at_lparen _ _ A2) as [_ [N2 _]]. rewrite <- Er in A2.
    destruct (IHr Hr f (advance p1) _ ltac:(lia) A2) as [p2 [E2 A3]].
    destruct (at_rparen _ _ A3) as [_ [An [Or _]]].
    exists p2. split; [|exact A3].
    rewrite parseOr_S, parseAnd_S, parseNot_S, N, E1.
    rewrite parseAnd_loop_S, (at_current p1 _ _ C1), word_token_and.
    cbn [tokenType_eqb]. rewrite parseNot_S, N2, E2.
    rewrite (and_exit f _ p2 An). apply or_exit. exact Or.
  - (* or *)
    destruct Hx as [Hl Hr].
    destruct (render_paren l) as [bl El]. rewrite El in A.
    destruct (at_lparen _ _ A) as [_ [N _]]. rewrite <- El in A.
    destruct (IHl Hl (S f) (advance p) _ ltac:(lia) A) as [p1 [E1 A1]].
    destruct (looks_token _ _ _ _ A1
                (tokenizes_space _ _ _
                   (tokenizes_word "or"
                      (String " " (render r' ++ String ")" r))
                      ltac:(discriminate) eq_refl eq_refl)))
      as [C1 A2].
    apply looks_space in A2.
    destruct (render_paren r') as [br Er]. rewrite Er in A2.
    destruct (at_lparen _ _ A2) as [_ [N2 _]]. rewrite <- Er in A2.
    destruct (IHr Hr f (advance p1) _ ltac:(lia) A2) as [p2 [E2 A3]].
    destruct (at_rparen _ _ A3) as [_ [An [Or _]]].
    exists p2. split; [|exact A3].
    rewrite parseOr_S, parseAnd_S, parseNot_S, N, E1.
    rewrite parseAnd_loop_S, (at_current p1 _ _ C1), word_token_or.
    cbn [tokenType_eqb]. rewrite parseOr_loop_S, (at_current p1 _ _ C1),
      word_token_or. cbn [tokenType_eqb].
    rewrite parseAnd_S, parseNot_S, N2, E2, (and_exit _ _ p2 An).
    apply or_exit. exact Or.
  - (* not *)
    destruct (looks_token _ _ _ _ A
                (tokenizes_word "not"
                   (String " " (render c ++ String ")" r))
                   ltac:(discriminate) eq_refl eq_refl))
      as [C1 A2].
    apply looks_space in A2.
    destruct (IHc Hx (S f) (advance (advance p)) _ ltac:(lia) A2)
      as [p2 [E2 A3]].
    destruct (at_rparen _ _ A3) as [_ [An [Or _]]].
    exists p2. split; [|exact A3].
    apply or_of_not; auto.
    rewrite parseNot_S, (at_current (advance p) _ _ C1), word_token_not.
    cbn [tokenType_eqb]. rewrite E2. reflexivity.
Qed.

Lemma rev_string_app (a b acc : string) :
  rev_string (a ++ b) acc = rev_string b (rev_string a acc).
Proof.
  revert acc. induction a as [|c a IH]; intros acc; cbn [append rev_string];
    auto.
Qed.

(** [TrimSpace] leaves an expression in parentheses as it is. *)
Lemma TrimSpace_paren (body : string) :
  TrimSpace (String "(" (body ++ ")")) = String "(" (body ++ ")").
Proof.
  unfold TrimSpace.
  assert (forall fuel x, trim_left fuel (String "(" x) = String "(" x) as L
    by (intros [|fuel] x; reflexivity).
  rewrite L. generalize (String.length (String "(" (body ++ ")"))).
  intros [|fuel]; [reflexivity|]. cbn [trim_right].
  replace (trailing_space (String "(" (body ++ ")"))) with (@None string);
    [reflexivity|].
  unfold trailing_space, reverse at 1. cbn [rev_string].
  rewrite rev_string_app. reflexivity.
Qed.

Lemma need_length (n : FilterNode field) :
  (need n <= 6 * String.length (render n))%nat.
Proof.
  induction n as [fl v | v | l IHl r' IHr | l IHl r' IHr | c IHc];
    cbn [need render]; rewrite !length_app; cbn [String.length]; lia.
Qed.

Lemma append_nil (s : string) : s ++ "" = s.
Proof. induction s as [|c s IH]; cbn [append]; congruence. Qed.

(** [Compile] on the expression of a tree returns the tree. *)
Lemma Compile_render_tree (n : FilterNode field) :
  expressible n -> Compile (render n) = Some (Some n, None).
Proof.
  intros Hx. destruct (render_paren n) as [body E].
  assert (looks (newParser (render n)) (render n)) as H
    by (apply looks_newParser; rewrite E; apply TrimSpace_paren).
  pose proof H as H0. rewrite E in H0 at 2.
  destruct (at_lparen _ _ H0) as [L [N _]].
  unfold Filter.Compile, Filter.parse.
  replace (String.eqb (render n) "") with false by (rewrite E; reflexivity).
  rewrite (at_token_not_EOF _ _ L ltac:(discriminate)).
  pose proof (need_length n) as F. unfold fuel_for.
  replace (6 * String.length (render n) + 12)%nat
    with (S (S (S (6 * String.length (render n) + 9)))) by lia.
  rewrite <- (append_nil (render n)) in H at 2.
  destruct (primary_render n Hx (6 * String.length (render n) + 9)
              (newParser (render n)) "" ltac:(lia) H) as [p' [E' A]].
  destruct (at_eof _ A) as [An Or].
  rewrite (or_of_not _ _ p' n); auto.
  rewrite parseNot_S, N. exact E'.
Qed.

Lemma expressible_intro (n : FilterNode field) :
  Forall keyword (fields n) -> Forall plain (values n) -> expressible n.
Proof.
  induction n as [fl v | v | l IHl r' IHr | l IHl r' IHr | c IHc];
    cbn [fields values expressible]; intros F V.
  - inversion F; inversion V; auto.
  - inversion V; auto.
  - apply Forall_app in F, V. destruct F, V. auto.
  - apply Forall_app in F, V. destruct F, V. auto.
  - auto.
Qed.

End Render.

(** ** Expressions written as the grammar reads them *)

(** The grammar, level by level.  A primary is a value, a field keyword with
    a value, or an expression in parentheses; an operand is a primary with
    or without [not] in front; a conjunction is operands joined by [and]; an
    expression is conjunctions joined by [or].  [also c o] is [c and o] and
    [either d c] is [d or c]: what follows an operator is one operand of that
    level, and what stands before it is all that was read so far. *)
Inductive prim : Type :=
| bare (v : string)
| pair (k v : string)
| paren (d : disj)
with operand : Type :=
| plainly (a : prim)
| negated (a : prim)
with conj : Type :=
| one (o : operand)
| also (c : conj) (o : operand)
with disj : Type :=
| only (c : conj)
| either (d : disj) (c : conj).

Scheme prim_mut := Induction for prim Sort Prop
  with operand_mut := Induction for operand Sort Prop
  with conj_mut := Induction for conj Sort Prop
  with disj_mut := Induction for disj Sort Prop.

Combined Scheme syntax_mut from prim_mut, operand_mut, conj_mut, disj_mut.

(** The expression as it is typed: one space between words, none inside
    the parentheses. *)
Fixpoint text_prim (a : prim) : string :=
  match a with
  | bare v => v
  | pair k v => k ++ " " ++ v
  | paren d => "(" ++ text_disj d ++ ")"
  end
with text_operand (o : operand) : string :=
  match o with
  | plainly a => text_prim a
  | negated a => "not " ++ text_prim a
  end
with text_conj (c : conj) : string :=
  match c with
  | one o => text_operand o
  | also c' o => text_conj c' ++ " and " ++ text_operand o
  end
with text_disj (d : disj) : string :=
  match d with
  | only c => text_conj c
  | either d' c => text_disj d' ++ " or " ++ text_conj c
  end.

(** The tree the grammar gives the expression: [not] holds the primary
    behind it, [and] the conjunction before it and the operand behind it,
    [or] the expression before it and the conjunction behind it. *)
Fixpoint tree_prim (a : prim) : FilterNode field :=
  match a with
  | bare v => anyFilter v
  | pair k v => fieldFilter (fieldOf (lower k)) v
  | paren d => tree_disj d
  end
with tree_operand (o : operand) : FilterNode field :=
  match o with
  | plainly a => tree_prim a
  | negated a => notFilter (tree_prim a)
  end
with tree_conj (c : conj) : FilterNode field :=
  match c with
  | one o => tree_operand o
  | also c' o => andFilter (tree_conj c') (tree_operand o)
  end
with tree_disj (d : disj) : FilterNode field :=
  match d with
  | only c => tree_conj c
  | either d' c => orFilter (tree_disj d') (tree_conj c)
  end.

(** A word the lexer reads as a field keyword. *)
Definition key (k : string) : Prop :=
  k <> "" /\ word k = true /\ operator (lower k) = false
  /\ isField (lower k) = true.

(** The words of the expression are keywords and plain values. *)
Fixpoint words_prim (a : prim) : Prop :=
  match a with
  | bare v => plain v
  | pair k v => key k /\ plain v
  | paren d => words_disj d
  end
with words_operand (o : operand) : Prop :=
  match o with
  | plainly a => words_prim a
  | negated a => words_prim a
  end
with words_conj (c : conj) : Prop :=
  match c with
  | one o => words_operand o
  | also c' o => words_conj c' /\ words_operand o
  end
with words_disj (d : disj) : Prop :=
  match d with
  | only c => words_conj c
  | either d' c => words_disj d' /\ words_conj c
  end.

(** *** More fuel changes no result *)

Definition steady (run : nat -> parsed field) : Prop :=
  forall f : nat, run f <> OutOfFuel -> run (S f) = run f.

Lemma steady_le (run : nat -> parsed field) (f g : nat) :
  steady run -> (f <= g)%nat -> run f <> OutOfFuel -> run g = run f.
Proof.
  intros St L H. induction L as [|g L IH]; [reflexivity|].
  rewrite St; [exact IH | rewrite IH; exact H].
Qed.

Lemma steady_all (f : nat) :
  (forall p, parseOr f p <> OutOfFuel -> parseOr (S f) p = parseOr f p)
  /\ (forall n p, parseOr_loop f n p <> OutOfFuel ->
                  parseOr_loop (S f) n p = parseOr_loop f n p)
  /\ (forall p, parseAnd f p <> OutOfFuel -> parseAnd (S f) p = parseAnd f p)
  /\ (forall n p, parseAnd_loop f n p <> OutOfFuel ->
                  parseAnd_loop (S f) n p = parseAnd_loop f n p)
  /\ (forall p, parseNot f p <> OutOfFuel -> parseNot (S f) p = parseNot f p)
  /\ (forall p, parsePrimary f p <> OutOfFuel ->
                parsePrimary (S f) p = parsePrimary f p).
Proof.
  induction f as [|f (IHor & IHorl & IHand & IHandl & IHnot & IHprim)].
  - repeat split; intros; exfalso; auto.
  - repeat split.
    + intros p H. rewrite (parseOr_S _ _ _ _ _ (S f)). rewrite parseOr_S in H |- *.
      destruct (parseAnd f p) as [l p1| |] eqn:E; [| |congruence].
      * rewrite IHand, E by (rewrite E; discriminate). apply IHorl. exact H.
      * rewrite IHand, E by (rewrite E; discriminate). reflexivity.
    + intros n p H. rewrite (parseOr_loop_S _ _ _ _ _ (S f)).
      rewrite parseOr_loop_S in H |- *.
      destruct (at_token p tokenOr); [|reflexivity].
      destruct (parseAnd f (advance p)) as [l p1| |] eqn:E; [| |congruence].
      * rewrite IHand, E by (rewrite E; discriminate). apply IHorl. exact H.
      * rewrite IHand, E by (rewrite E; discriminate). reflexivity.
    + intros p H. rewrite (parseAnd_S _ _ _ _ _ (S f)). rewrite parseAnd_S in H |- *.
      destruct (parseNot f p) as [l p1| |] eqn:E; [| |congruence].
      * rewrite IHnot, E by (rewrite E; discriminate). apply IHandl. exact H.
      * rewrite IHnot, E by (rewrite E; discriminate). reflexivity.
    + intros n p H. rewrite (parseAnd_loop_S _ _ _ _ _ (S f)).
      rewrite parseAnd_loop_S in H |- *.
      destruct (at_token p tokenAnd); [|reflexivity].
      destruct (parseNot f (advance p)) as [l p1| |] eqn:E; [| |congruence].
      * rewrite IHnot, E by (rewrite E; discriminate). apply IHandl. exact H.
      * rewrite IHnot, E by (rewrite E; discriminate). reflexivity.
    + intros p H. rewrite (parseNot_S _ _ _ _ _ (S f)). rewrite parseNot_S in H |- *.
      destruct (at_token p tokenNot); [|apply IHprim; exact H].
      destruct (parsePrimary f (advance p)) as [l p1| |] eqn:E;
        [| |congruence];
        rewrite IHprim, E by (rewrite E; discriminate); reflexivity.
    + intros p H. rewrite (parsePrimary_S _ _ _ _ _ (S f)).
      rewrite parsePrimary_S in H |- *.
      destruct (at_token p tokenLParen); [|reflexivity].
      destruct (parseOr f (advance p)) as [l p1| |] eqn:E; [| |congruence];
        rewrite IHor, E by (rewrite E; discriminate); reflexivity.
Qed.

(** A parse function returns [n] and leaves the parser [p'], given fuel. *)
Definition reaches (run : nat -> parsed field) (n : FilterNode field)
  (p' : parser) : Prop :=
  exists f : nat, run f = Parsed n p'.

Lemma reaches_le (run : nat -> parsed field) (n : FilterNode field)
  (p' : parser) (f g : nat) :
  steady run -> run f = Parsed n p' -> (f <= g)%nat -> run g = Parsed n p'.
Proof.
  intros St E L. rewrite (steady_le run f g St L); [exact E|].
  rewrite E. discriminate.
Qed.

Lemma steady_or (p : parser) : steady (fun f => parseOr f p).
Proof. intros f. apply (steady_all f). Qed.

Lemma steady_or_loop (n : FilterNode field) (p : parser) :
  steady (fun f => parseOr_loop f n p).
Proof. intros f. apply (steady_all f). Qed.

Lemma steady_and (p : parser) : steady (fun f => parseAnd f p).
Proof. intros f. apply (steady_all f). Qed.

Lemma steady_and_loop (n : FilterNode field) (p : parser) :
  steady (fun f => parseAnd_loop f n p).
Proof. intros f. apply (steady_all f). Qed.

Lemma steady_not (p : parser) : steady (fun f => parseNot f p).
Proof. intros f. apply (steady_all f). Qed.

(** *** The levels of the parser *)

(** [parseAnd] is [parseNot] and the loop of [parseAnd]. *)
Lemma and_of_not (p p1 p' : parser) (l n : FilterNode field) :
  reaches (fun f => parseNot f p) l p1 ->
  reaches (fun f => parseAnd_loop f l p1) n p' ->
  reaches (fun f => parseAnd f p) n p'.
Proof.
  intros [f1 E1] [f2 E2]. exists (S (Nat.max f1 f2)). rewrite parseAnd_S.
  rewrite (reaches_le _ _ _ f1 _ (steady_not p) E1) by lia.
  apply (reaches_le _ _ _ f2 _ (steady_and_loop l p1) E2). lia.
Qed.

(** A round of the loop of [parseAnd]. *)
Lemma and_round (p p1 p' : parser) (l r n : FilterNode field) :
  at_token p tokenAnd = true ->
  reaches (fun f => parseNot f (advance p)) r p1 ->
  reaches (fun f => parseAnd_loop f (andFilter l r) p1) n p' ->
  reaches (fun f => parseAnd_loop f l p) n p'.
Proof.
  intros A [f1 E1] [f2 E2]. exists (S (Nat.max f1 f2)).
  rewrite parseAnd_loop_S, A.
  rewrite (reaches_le _ _ _ f1 _ (steady_not (advance p)) E1) by lia.
  apply (reaches_le _ _ _ f2 _ (steady_and_loop (andFilter l r) p1) E2). lia.
Qed.

(** [parseOr] is [parseAnd] and the loop of [parseOr]. *)
Lemma or_of_and (p p1 p' : parser) (l n : FilterNode field) :
  reaches (fun f => parseAnd f p) l p1 ->
  reaches (fun f => parseOr_loop f l p1) n p' ->
  reaches (fun f => parseOr f p) n p'.
Proof.
  intros [f1 E1] [f2 E2]. exists (S (Nat.max f1 f2)). rewrite parseOr_S.
  rewrite (reaches_le _ _ _ f1 _ (steady_and p) E1) by lia.
  apply (reaches_le _ _ _ f2 _ (steady_or_loop l p1) E2). lia.
Qed.

(** A round of the loop of [parseOr]. *)
Lemma or_round (p p1 p' : parser) (l r n : FilterNode field) :
  at_token p tokenOr = true ->
  reaches (fun f => parseAnd f (advance p)) r p1 ->
  reaches (fun f => parseOr_loop f (orFilter l r) p1) n p' ->
  reaches (fun f => parseOr_loop f l p) n p'.
Proof.
  intros A [f1 E1] [f2 E2]. exists (S (Nat.max f1 f2)).
  rewrite parseOr_loop_S, A.
  rewrite (reaches_le _ _ _ f1 _ (steady_and (advance p)) E1) by lia.
  apply (reaches_le _ _ _ f2 _ (steady_or_loop (orFilter l r) p1) E2). lia.
Qed.

(** What may follow a conjunction: no [and]. *)
Definition stops (r : string) : Prop :=
  forall p : parser, looks p r -> at_token p tokenAnd = false.

Lemma stops_eof : stops "".
Proof. intros p H. apply (at_eof p H). Qed.

Lemma stops_rparen (r : string) : stops (String ")" r).
Proof. intros p H. apply (at_rparen p r H). Qed.

(** The parser at an operator that stands between spaces. *)
Lemma at_operator (p : parser) (w r : string) :
  w <> "" -> word w = true ->
  looks p (" " ++ w ++ " " ++ r) ->
  current p = word_token w /\ looks (advance p) r.
Proof.
  intros Hne Hw H.
  destruct (looks_token _ _ _ _ H
              (tokenizes_space _ _ _
                 (tokenizes_word w (String " " r) Hne Hw eq_refl)))
    as [C A].
  split; [exact C|]. apply looks_space. exact A.
Qed.

Lemma stops_or (r : string) : stops (" or " ++ r).
Proof.
  intros p H.
  destruct (at_operator p "or" r ltac:(discriminate) eq_refl H) as [C _].
  rewrite (at_current p _ _ C), word_token_or. reflexivity.
Qed.

(** What the parser does at each level of an expression that [r] follows:
    it returns the tree of the level and stands in front of [r].  At the
    levels of [and] and [or] the loop goes on from there with the tree read
    so far. *)
Definition reads_prim (a : prim) : Prop :=
  words_prim a ->
  forall (p : parser) (r : string),
    ends r = true -> looks p (text_prim a ++ r) ->
    at_token p tokenNot = false /\ at_token p tokenEOF = false
    /\ exists p',
         reaches (fun f => parsePrimary f p) (tree_prim a) p' /\ looks p' r.

Definition reads_operand (o : operand) : Prop :=
  words_operand o ->
  forall (p : parser) (r : string),
    ends r = true -> looks p (text_operand o ++ r) ->
    at_token p tokenEOF = false
    /\ exists p',
         reaches (fun f => parseNot f p) (tree_operand o) p' /\ looks p' r.

Definition reads_conj (c : conj) : Prop :=
  words_conj c ->
  forall (p : parser) (r : string),
    ends r = true -> looks p (text_conj c ++ r) ->
    at_token p tokenEOF = false
    /\ exists p',
         looks p' r
         /\ forall (n : FilterNode field) (p'' : parser),
              reaches (fun f => parseAnd_loop f (tree_conj c) p') n p'' ->
              reaches (fun f => parseAnd f p) n p''.

Definition reads_disj (d : disj) : Prop :=
  words_disj d ->
  forall (p : parser) (r : string),
    ends r = true -> stops r -> looks p (text_disj d ++ r) ->
    at_token p tokenEOF = false
    /\ exists p',
         looks p' r
         /\ forall (n : FilterNode field) (p'' : parser),
              reaches (fun f => parseOr_loop f (tree_disj d) p') n p'' ->
              reaches (fun f => parseOr f p) n p''.

(** A conjunction that no [and] follows. *)
Lemma conj_whole (c : conj) (p : parser) (r : string) :
  reads_conj c -> words_conj c -> ends r = true -> stops r ->
  looks p (text_conj c ++ r) ->
  at_token p tokenEOF = false
  /\ exists p',
       reaches (fun f => parseAnd f p) (tree_conj c) p' /\ looks p' r.
Proof.
  intros R W E S H. destruct (R W p r E H) as [N [p' [A K]]].
  split; [exact N|]. exists p'. split; [|exact A].
  apply K. exists 1%nat. apply and_exit. apply S. exact A.
Qed.

Lemma reads_all :
  (forall a, reads_prim a) /\ (forall o, reads_operand o)
  /\ (forall c, reads_conj c) /\ (forall d, reads_disj d).
Proof.
  apply syntax_mut.
  - (* a value *)
    intros v W p r E H.
    destruct (primary_value 0 p v r W E H) as [N [P A]].
    pose proof W as [V1 [V2 _]].
    destruct (looks_token _ _ _ _ H (tokenizes_word v r V1 V2 E)) as [C _].
    rewrite (word_token_plain v W) in C.
    split; [exact N|]. split; [rewrite (at_current p _ _ C); reflexivity|].
    exists (advance p). split; [exists 1%nat; exact P | exact A].
  - (* a keyword and its value *)
    intros k v [[K1 [K2 [K3 K4]]] V] p r E H.
    cbn [text_prim] in H. rewrite !append_assoc in H.
    assert (keyword (fun _ : field => k) (fieldOf (lower k))) as Hk
      by (unfold keyword; auto).
    destruct (primary_field (fun _ => k) 0 p (fieldOf (lower k)) v r
                Hk V E H) as [N [P A]].
    destruct (looks_token _ _ _ _ H
                (tokenizes_word k (" " ++ v ++ r) K1 K2 eq_refl)) as [C _].
    rewrite (word_token_keyword (fun _ => k) (fieldOf (lower k)) Hk) in C.
    split; [exact N|]. split; [rewrite (at_current p _ _ C); reflexivity|].
    exists (advance (advance p)). split; [exists 1%nat; exact P | exact A].
  - (* an expression in parentheses *)
    intros d IH W p r E H. cbn [text_prim tree_prim] in *.
    rewrite shape in H. destruct (at_lparen _ _ H) as [L [N A]].
    split; [exact N|].
    split; [apply (at_token_not_EOF _ _ L); discriminate|].
    destruct (IH W (advance p) (String ")" r) eq_refl (stops_rparen r) A)
      as [_ [p2 [A2 K]]].
    destruct (at_rparen _ _ A2) as [_ [_ [Or _]]].
    destruct (K (tree_disj d) p2) as [f Ef];
      [exists 1%nat; apply or_exit; exact Or|].
    destruct (closes f p (tree_disj d) r L) as [p' [P A']]; [eauto|].
    exists p'. split; [exists (S f); exact P | exact A'].
  - (* an operand without not *)
    intros a IH W p r E H.
    destruct (IH W p r E H) as [N [Z [p' [[f P] A]]]].
    split; [exact Z|]. exists p'. split; [|exact A].
    exists (S f). rewrite parseNot_S, N. exact P.
  - (* not and a primary *)
    intros a IH W p r E H. cbn [text_operand tree_operand] in *.
    rewrite append_assoc in H.
    destruct (looks_token _ _ _ _ H
                (tokenizes_word "not" (String " " (text_prim a ++ r))
                   ltac:(discriminate) eq_refl eq_refl)) as [C A].
    apply looks_space in A.
    assert (at_token p tokenNot = true) as N
      by (rewrite (at_current p _ _ C), word_token_not; reflexivity).
    split; [apply (at_token_not_EOF _ _ N); discriminate|].
    destruct (IH W (advance p) r E A) as [_ [_ [p' [[f P] A']]]].
    exists p'. split; [|exact A'].
    exists (S f). rewrite parseNot_S, N, P. reflexivity.
  - (* one operand *)
    intros o IH W p r E H.
    destruct (IH W p r E H) as [Z [p' [P A]]].
    split; [exact Z|]. exists p'. split; [exact A|].
    intros n p'' L. exact (and_of_not p p' p'' _ n P L).
  - (* a conjunction, and, an operand *)
    intros c IHc o IHo [Wc Wo] p r E H. cbn [text_conj tree_conj] in *.
    rewrite !append_assoc in H.
    destruct (IHc Wc p (" and " ++ text_operand o ++ r) eq_refl H)
      as [Z [p1 [A1 K]]].
    split; [exact Z|].
    destruct (at_operator p1 "and" (text_operand o ++ r)
                ltac:(discriminate) eq_refl A1) as [C A2].
    destruct (IHo Wo (advance p1) r E A2) as [_ [p' [P A']]].
    exists p'. split; [exact A'|].
    intros n p'' L. apply K.
    apply (and_round p1 p' p'' _ (tree_operand o) n); auto.
    rewrite (at_current p1 _ _ C), word_token_and. reflexivity.
  - (* one conjunction *)
    intros c IH W p r E S H. cbn [text_disj tree_disj] in *.
    destruct (conj_whole c p r IH W E S H) as [Z [p' [P A]]].
    split; [exact Z|]. exists p'. split; [exact A|].
    intros n p'' L. exact (or_of_and p p' p'' _ n P L).
  - (* an expression, or, a conjunction *)
    intros d IHd c IHc [Wd Wc] p r E S H. cbn [text_disj tree_disj] in *.
    rewrite !append_assoc in H.
    destruct (IHd Wd p (" or " ++ text_conj c ++ r) eq_refl
                (stops_or (text_conj c ++ r)) H)
      as [Z [p1 [A1 K]]].
    split; [exact Z|].
    destruct (at_operator p1 "or" (text_conj c ++ r)
                ltac:(discriminate) eq_refl A1) as [C A2].
    destruct (conj_whole c (advance p1) r IHc Wc E S A2) as [_ [p' [P A']]].
    exists p'. split; [exact A'|].
    intros n p'' L. apply K.
    apply (or_round p1 p' p'' _ (tree_conj c) n); auto.
    rewrite (at_current p1 _ _ C), word_token_or. reflexivity.
Qed.

(** [Compile] on an expression returns the tree the grammar gives it. *)
Lemma Compile_text (d : disj) :
  words_disj d -> TrimSpace (text_disj d) = text_disj d ->
  Compile (text_disj d) = Some (Some (tree_disj d), None).
Proof.
  intros W T. set (e := text_disj d) in *.
  pose proof (looks_newParser e T) as H.
  pose proof H as H0. rewrite <- (append_nil e) in H0 at 2.
  destruct (proj2 (proj2 (proj2 reads_all)) d W (newParser e) ""
              eq_refl stops_eof H0) as [Z [p' [A K]]].
  destruct (at_eof _ A) as [_ Or].
  destruct (K (tree_disj d) p') as [f0 E0];
    [exists 1%nat; apply or_exit; exact Or|].
  unfold Filter.Compile, Filter.parse. rewrite Z.
  destruct (String.eqb e "") eqn:Ee.
  { apply String.eqb_eq in Ee. rewrite Ee in H, Z.
    destruct (looks_token _ _ _ _ H tokenizes_eof) as [C _].
    rewrite (at_current _ _ _ C) in Z. discriminate. }
  destruct (fuel_enough unicodeLower opValue isField field fieldOf
              (fuel_for e)) as [En _].
  pose proof (remaining_newParser unicodeLower opValue isField e) as Rm.
  destruct (En (newParser e)) as [S1 _]; [unfold fuel_for; lia|].
  assert (parseOr (fuel_for e) (newParser e) = Parsed (tree_disj d) p') as ->.
  { destruct (Nat.le_ge_cases f0 (fuel_for e)) as [L | L].
    - apply (reaches_le _ _ _ f0 _ (steady_or (newParser e)) E0 L).
    - rewrite <- E0. symmetry.
      apply (steady_le _ _ _ (steady_or (newParser e)) L).
      intros O. rewrite O in S1. exact S1. }
  reflexivity.
Qed.

(** ** What a compiled tree holds *)

(** A field the parser stores for a keyword. *)
Definition stored (f : field) : Prop :=
  exists k, isField k = true /\ fieldOf k = f.

Definition sound_tree (n : FilterNode field) : Prop :=
  Forall plain (values n) /\ Forall stored (fields n).

(** A value token holds a plain word, a field token a keyword. *)
Definition sound_token (t : token) : Prop :=
  (typ t = tokenValue -> plain (value t))
  /\ (typ t = tokenField -> isField (value t) = true).

Definition sound_parser (p : parser) : Prop := sound_token (current p).

Lemma word_take_count (s : string) :
  word (take (count_while word_byte s) s) = true.
Proof.
  induction s as [|c s IH]; cbn [count_while]; [reflexivity|].
  destruct (word_byte c) eqn:E; cbn [take word]; [|reflexivity].
  rewrite E, IH. reflexivity.
Qed.

Lemma nextToken_sound (l l' : lexer) (t : token) :
  nextToken l = (t, l') -> sound_token t.
Proof.
  unfold Filter.nextToken, sound_token. set (l1 := skipSpace l).
  destruct (String.length (input l1) <=? pos l1)%nat;
    [intros H; injection H as <- _; split; discriminate|].
  destruct (Ascii.eqb (peek l1) lparen);
    [intros H; injection H as <- _; split; discriminate|].
  destruct (Ascii.eqb (peek l1) rparen);
    [intros H; injection H as <- _; split; discriminate|].
  unfold readWord. set (w := take (count_while word_byte (rest l1)) (rest l1)).
  destruct (String.eqb w "") eqn:W;
    [intros H; injection H as <- _; split; discriminate|].
  destruct (mem (lower w) ["and"; "&&"]) eqn:M1;
    [intros H; injection H as <- _; split; discriminate|].
  destruct (mem (lower w) ["or"; "||"]) eqn:M2;
    [intros H; injection H as <- _; split; discriminate|].
  destruct (mem (lower w) ["not"; "!"]) eqn:M3;
    [intros H; injection H as <- _; split; discriminate|].
  destruct (isField (lower w)) eqn:F; intros H; injection H as <- _;
    cbn [typ value]; split; try discriminate; intros _; [exact F|].
  split; [apply String.eqb_neq; exact W|].
  split; [apply word_take_count|].
  unfold reserved, operator. rewrite F. unfold mem in *. cbn [existsb] in *.
  apply orb_false_iff in M1, M2, M3.
  destruct M1 as [A1 A2], M2 as [B1 B2], M3 as [C1 C2].
  apply orb_false_iff in A2, B2, C2.
  rewrite A1, (proj1 A2), B1, (proj1 B2), C1, (proj1 C2). reflexivity.
Qed.

Lemma sound_advance (p : parser) : sound_parser (advance p).
Proof.
  unfold sound_parser, Filter.advance.
  destruct (nextToken (lex p)) as [t l] eqn:E. cbn [current].
  exact (nextToken_sound _ _ _ E).
Qed.

Lemma sound_newParser (e : string) : sound_parser (newParser e).
Proof.
  unfold sound_parser, Filter.newParser.
  destruct (nextToken (newLexer e)) as [t l] eqn:E. cbn [current].
  exact (nextToken_sound _ _ _ E).
Qed.

Lemma at_token_typ (p : parser) (k : tokenType) :
  at_token p k = true -> typ (current p) = k.
Proof.
  unfold at_token. destruct (typ (current p)), k; cbn; congruence.
Qed.

Lemma sound_pair (l r : FilterNode field) :
  sound_tree l -> sound_tree r ->
  sound_tree (andFilter l r) /\ sound_tree (orFilter l r).
Proof.
  intros [V1 F1] [V2 F2]. unfold sound_tree. cbn [values fields].
  repeat split; apply Forall_app; auto.
Qed.

(** A parse function returns sound trees and leaves a sound parser. *)
Definition keeps (parseF : nat -> parser -> parsed field) (f : nat) : Prop :=
  forall (p : parser) (n : FilterNode field) (p' : parser),
    sound_parser p -> parseF f p = Parsed n p' ->
    sound_tree n /\ sound_parser p'.

Definition keeps_loop
  (loopF : nat -> FilterNode field -> parser -> parsed field) (f : nat)
  : Prop :=
  forall (p : parser) (left_ n : FilterNode field) (p' : parser),
    sound_tree left_ -> sound_parser p -> loopF f left_ p = Parsed n p' ->
    sound_tree n /\ sound_parser p'.

Lemma parse_keeps (f : nat) :
  keeps parseOr f /\ keeps_loop parseOr_loop f
  /\ keeps parseAnd f /\ keeps_loop parseAnd_loop f
  /\ keeps parseNot f /\ keeps parsePrimary f.
Proof.
  induction f as [|f (IHor & IHorl & IHand & IHandl & IHnot & IHprim)].
  - unfold keeps, keeps_loop.
    split; [|split; [|split; [|split; [|split]]]]; intros; discriminate.
  - split; [|split; [|split; [|split; [|split]]]].
    + intros p n p' G E. rewrite parseOr_S in E.
      destruct (parseAnd f p) as [l p1| |] eqn:E1; try discriminate.
      destruct (IHand _ _ _ G E1) as [O1 G1].
      exact (IHorl _ _ _ _ O1 G1 E).
    + intros p left_ n p' O G E. rewrite parseOr_loop_S in E.
      destruct (at_token p tokenOr).
      * destruct (parseAnd f (advance p)) as [r p1| |] eqn:E1;
          try discriminate.
        destruct (IHand _ _ _ (sound_advance p) E1) as [O1 G1].
        exact (IHorl _ _ _ _ (proj2 (sound_pair _ _ O O1)) G1 E).
      * injection E as <- <-. auto.
    + intros p n p' G E. rewrite parseAnd_S in E.
      destruct (parseNot f p) as [l p1| |] eqn:E1; try discriminate.
      destruct (IHnot _ _ _ G E1) as [O1 G1].
      exact (IHandl _ _ _ _ O1 G1 E).
    + intros p left_ n p' O G E. rewrite parseAnd_loop_S in E.
      destruct (at_token p tokenAnd).
      * destruct (parseNot f (advance p)) as [r p1| |] eqn:E1;
          try discriminate.
        destruct (IHnot _ _ _ (sound_advance p) E1) as [O1 G1].
        exact (IHandl _ _ _ _ (proj1 (sound_pair _ _ O O1)) G1 E).
      * injection E as <- <-. auto.
    + intros p n p' G E. rewrite parseNot_S in E.
      destruct (at_token p tokenNot).
      * destruct (parsePrimary f (advance p)) as [c p1| |] eqn:E1;
          try discriminate.
        injection E as <- <-.
        exact (IHprim _ _ _ (sound_advance p) E1).
      * exact (IHprim _ _ _ G E).
    + intros p n p' G E. rewrite parsePrimary_S in E.
      destruct (at_token p tokenLParen).
      { destruct (parseOr f (advance p)) as [c p1| |] eqn:E1;
          try discriminate.
        destruct (at_token p1 tokenRParen); cbn [negb] in E;
          try discriminate.
        injection E as <- <-.
        destruct (IHor _ _ _ (sound_advance p) E1) as [O1 _].
        split; [exact O1 | apply sound_advance]. }
      destruct (at_token p tokenField) eqn:Fd.
      { destruct (at_token (advance p) tokenValue) eqn:V; cbn [negb] in E;
          try discriminate.
        injection E as <- <-. split; [|apply sound_advance].
        apply at_token_typ in Fd, V.
        split; cbn [values fields]; (apply Forall_cons; [|apply Forall_nil]).
        - exact (proj1 (sound_advance p) V).
        - exists (value (current p)). split; [|reflexivity].
          exact (proj2 G Fd). }
      destruct (at_token p tokenValue) eqn:V; try discriminate.
      injection E as <- <-. split; [|apply sound_advance].
      apply at_token_typ in V.
      split; cbn [values fields]; [|apply Forall_nil].
      apply Forall_cons; [exact (proj1 G V) | apply Forall_nil].
Qed.

(** A tree [Compile] returns is sound. *)
Lemma Compile_sound (e : string) (n : FilterNode field)
  (err : option compileError) :
  Compile e = Some (Some n, err) -> sound_tree n.
Proof.
  unfold Filter.Compile, Filter.parse.
  destruct (String.eqb e ""); [discriminate|].
  destruct (at_token (newParser e) tokenEOF); [discriminate|].
  destruct (parseOr (fuel_for e) (newParser e)) as [m p'| |] eqn:E;
    try discriminate.
  intros H. injection H as <- _.
  destruct (parse_keeps (fuel_for e)) as [K _].
  exact (proj1 (K _ _ _ (sound_newParser e) E)).
Qed.

End Grammar.

Arguments values {field} n.
Arguments fields {field} n.
Arguments render {field} name n.

(** ** Two grammars that differ in what a token and a node keep *)

Section Agreement.
Variable unicodeLower : string -> string.
Variables opValue1 opValue2 : string -> string -> string.
Variables isField1 isField2 : string -> bool.
Variables field1 field2 : Type.
Variable fieldOf1 : string -> field1.
Variable fieldOf2 : string -> field2.
Variable h : field1 -> field2.
Hypothesis isField_same : forall w : string, isField1 w = isField2 w.
Hypothesis fieldOf_same : forall k : string, fieldOf2 k = h (fieldOf1 k).

Local Abbreviation nextToken1 := (nextToken unicodeLower opValue1 isField1).
Local Abbreviation nextToken2 := (nextToken unicodeLower opValue2 isField2).
Local Abbreviation advance1 := (advance unicodeLower opValue1 isField1).
Local Abbreviation advance2 := (advance unicodeLower opValue2 isField2).

Definition is_operator (k : tokenType) : bool :=
  match k with
  | tokenAnd | tokenOr | tokenNot => true
  | _ => false
  end.

(** Tokens of one type that hold the same text, the text of an operator
    apart. *)
Definition same_token (t1 t2 : token) : Prop :=
  typ t1 = typ t2 /\ (is_operator (typ t1) = false -> value t1 = value t2).

Definition same_parser (p1 p2 : parser) : Prop :=
  lex p1 = lex p2 /\ same_token (current p1) (current p2).

(** The tree with every field replaced by its image. *)
Fixpoint relabel (n : FilterNode field1) : FilterNode field2 :=
  match n with
  | fieldFilter f v => fieldFilter (h f) v
  | anyFilter v => anyFilter v
  | andFilter l r => andFilter (relabel l) (relabel r)
  | orFilter l r => orFilter (relabel l) (relabel r)
  | notFilter c => notFilter (relabel c)
  end.

(** Errors of one kind about tokens of one type. *)
Definition same_error (e1 e2 : compileError) : Prop :=
  match e1, e2 with
  | ErrExpectedRParen t1, ErrExpectedRParen t2 => same_token t1 t2
  | ErrExpectedValue f1 t1, ErrExpectedValue f2 t2 =>
      f1 = f2 /\ same_token t1 t2
  | ErrUnexpectedToken t1, ErrUnexpectedToken t2 => same_token t1 t2
  | _, _ => False
  end.

Definition same_parsed (r1 : parsed field1) (r2 : parsed field2) : Prop :=
  match r1, r2 with
  | Parsed n1 p1, Parsed n2 p2 => n2 = relabel n1 /\ same_parser p1 p2
  | Failed e1, Failed e2 => same_error e1 e2
  | OutOfFuel, OutOfFuel => True
  | _, _ => False
  end.

Lemma nextToken_same (l : lexer) :
  same_token (fst (nextToken1 l)) (fst (nextToken2 l))
  /\ snd (nextToken1 l) = snd (nextToken2 l).
Proof.
  unfold Filter.nextToken, same_token. set (l1 := skipSpace l).
  destruct (String.length (input l1) <=? pos l1)%nat; [cbn; auto|].
  destruct (Ascii.eqb (peek l1) lparen); [cbn; auto|].
  destruct (Ascii.eqb (peek l1) rparen); [cbn; auto|].
  destruct (readWord l1) as [w l2].
  destruct (String.eqb w ""); [cbn; auto|].
  rewrite <- isField_same.
  destruct (mem (ToLower unicodeLower w) ["and"; "&&"]);
    [cbn; repeat split; discriminate|].
  destruct (mem (ToLower unicodeLower w) ["or"; "||"]);
    [cbn; repeat split; discriminate|].
  destruct (mem (ToLower unicodeLower w) ["not"; "!"]);
    [cbn; repeat split; discriminate|].
  destruct (isField1 (ToLower unicodeLower w)); cbn; auto.
Qed.

Lemma advance_same (p1 p2 : parser) :
  same_parser p1 p2 -> same_parser (advance1 p1) (advance2 p2).
Proof.
  intros [L _]. unfold same_parser, Filter.advance. rewrite <- L.
  destruct (nextToken_same (lex p1)) as [T E].
  destruct (nextToken1 (lex p1)) as [t1 l1].
  destruct (nextToken2 (lex p1)) as [t2 l2]. cbn in *. auto.
Qed.

Lemma newParser_same (e : string) :
  same_parser (newParser unicodeLower opValue1 isField1 e)
    (newParser unicodeLower opValue2 isField2 e).
Proof.
  unfold same_parser, Filter.newParser.
  destruct (nextToken_same (newLexer e)) as [T E].
  destruct (nextToken1 (newLexer e)) as [t1 l1].
  destruct (nextToken2 (newLexer e)) as [t2 l2]. cbn in *. auto.
Qed.

Lemma at_same (p1 p2 : parser) (k : tokenType) :
  same_parser p1 p2 -> at_token p1 k = at_token p2 k.
Proof. intros [_ [T _]]. unfold at_token. rewrite T. reflexivity. Qed.

Lemma value_same (p1 p2 : parser) (k : tokenType) :
  same_parser p1 p2 -> at_token p1 k = true -> is_operator k = false ->
  value (current p1) = value (current p2).
Proof.
  intros [_ [_ V]] A K. apply at_token_typ in A. apply V. rewrite A.
  exact K.
Qed.

Definition agree (parseF1 : nat -> parser -> parsed field1)
  (parseF2 : nat -> parser -> parsed field2) (f : nat) : Prop :=
  forall p1 p2 : parser,
    same_parser p1 p2 -> same_parsed (parseF1 f p1) (parseF2 f p2).

Definition agree_loop
  (loopF1 : nat -> FilterNode field1 -> parser -> parsed field1)
  (loopF2 : nat -> FilterNode field2 -> parser -> parsed field2) (f : nat)
  : Prop :=
  forall (p1 p2 : parser) (n : FilterNode field1),
    same_parser p1 p2 ->
    same_parsed (loopF1 f n p1) (loopF2 f (relabel n) p2).

Local Abbreviation parseOr1 :=
  (parseOr unicodeLower opValue1 isField1 fieldOf1).
Local Abbreviation parseOr2 :=
  (parseOr unicodeLower opValue2 isField2 fieldOf2).
Local Abbreviation parseOr_loop1 :=
  (parseOr_loop unicodeLower opValue1 isField1 fieldOf1).
Local Abbreviation parseOr_loop2 :=
  (parseOr_loop unicodeLower opValue2 isField2 fieldOf2).
Local Abbreviation parseAnd1 :=
  (parseAnd unicodeLower opValue1 isField1 fieldOf1).
Local Abbreviation parseAnd2 :=
  (parseAnd unicodeLower opValue2 isField2 fieldOf2).
Local Abbreviation parseAnd_loop1 :=
  (parseAnd_loop unicodeLower opValue1 isField1 fieldOf1).
Local Abbreviation parseAnd_loop2 :=
  (parseAnd_loop unicodeLower opValue2 isField2 fieldOf2).
Local Abbreviation parseNot1 :=
  (parseNot unicodeLower opValue1 isField1 fieldOf1).
Local Abbreviation parseNot2 :=
  (parseNot unicodeLower opValue2 isField2 fieldOf2).
Local Abbreviation parsePrimary1 :=
  (parsePrimary unicodeLower opValue1 isField1 fieldOf1).
Local Abbreviation parsePrimary2 :=
  (parsePrimary unicodeLower opValue2 isField2 fieldOf2).

Lemma parse_agree (f : nat) :
  agree parseOr1 parseOr2 f /\ agree_loop parseOr_loop1 parseOr_loop2 f
  /\ agree parseAnd1 parseAnd2 f
  /\ agree_loop parseAnd_loop1 parseAnd_loop2 f
  /\ agree parseNot1 parseNot2 f /\ agree parsePrimary1 parsePrimary2 f.
Proof.
  induction f as [|f (IHor & IHorl & IHand & IHandl & IHnot & IHprim)].
  - unfold agree, agree_loop.
    split; [|split; [|split; [|split; [|split]]]]; intros; exact I.
  - split; [|split; [|split; [|split; [|split]]]].
    + intros p1 p2 S0. rewrite !parseOr_S.
      pose proof (IHand _ _ S0) as A.
      destruct (parseAnd1 f p1) as [l1 q1| |],
               (parseAnd2 f p2) as [l2 q2| |]; cbn in A; try contradiction;
        auto.
      destruct A as [-> S1]. exact (IHorl _ _ _ S1).
    + intros p1 p2 n S0. rewrite !parseOr_loop_S.
      rewrite <- (at_same _ _ tokenOr S0).
      destruct (at_token p1 tokenOr); [|cbn; auto].
      pose proof (IHand _ _ (advance_same _ _ S0)) as A.
      destruct (parseAnd1 f (advance1 p1)) as [l1 q1| |],
               (parseAnd2 f (advance2 p2)) as [l2 q2| |]; cbn in A;
        try contradiction; auto.
      destruct A as [-> S1]. exact (IHorl _ _ (orFilter n l1) S1).
    + intros p1 p2 S0. rewrite !parseAnd_S.
      pose proof (IHnot _ _ S0) as A.
      destruct (parseNot1 f p1) as [l1 q1| |],
               (parseNot2 f p2) as [l2 q2| |]; cbn in A; try contradiction;
        auto.
      destruct A as [-> S1]. exact (IHandl _ _ _ S1).
    + intros p1 p2 n S0. rewrite !parseAnd_loop_S.
      rewrite <- (at_same _ _ tokenAnd S0).
      destruct (at_token p1 tokenAnd); [|cbn; auto].
      pose proof (IHnot _ _ (advance_same _ _ S0)) as A.
      destruct (parseNot1 f (advance1 p1)) as [l1 q1| |],
               (parseNot2 f (advance2 p2)) as [l2 q2| |]; cbn in A;
        try contradiction; auto.
      destruct A as [-> S1]. exact (IHandl _ _ (andFilter n l1) S1).
    + intros p1 p2 S0. rewrite !parseNot_S.
      rewrite <- (at_same _ _ tokenNot S0).
      destruct (at_token p1 tokenNot); [|exact (IHprim _ _ S0)].
      pose proof (IHprim _ _ (advance_same _ _ S0)) as A.
      destruct (parsePrimary1 f (advance1 p1)) as [l1 q1| |],
               (parsePrimary2 f (advance2 p2)) as [l2 q2| |]; cbn in A;
        try contradiction; auto.
      destruct A as [-> S1]. cbn. auto.
    + intros p1 p2 S0. rewrite !parsePrimary_S.
      pose proof (advance_same _ _ S0) as S1.
      rewrite <- (at_same _ _ tokenLParen S0),
        <- (at_same _ _ tokenField S0), <- (at_same _ _ tokenValue S0),
        <- (at_same _ _ tokenValue S1).
      destruct (at_token p1 tokenLParen).
      { pose proof (IHor _ _ S1) as A.
        destruct (parseOr1 f (advance1 p1)) as [l1 q1| |],
                 (parseOr2 f (advance2 p2)) as [l2 q2| |]; cbn in A;
          try contradiction; auto.
        destruct A as [-> S2]. rewrite <- (at_same _ _ tokenRParen S2).
        destruct (at_token q1 tokenRParen); cbn [negb].
        - cbn. split; [reflexivity | apply advance_same; exact S2].
        - cbn. exact (proj2 S2). }
      destruct (at_token p1 tokenField) eqn:Fd.
      { rewrite <- (value_same _ _ _ S0 Fd eq_refl).
        destruct (at_token (advance1 p1) tokenValue) eqn:V; cbn [negb].
        - rewrite <- (value_same _ _ _ S1 V eq_refl). cbn.
          rewrite fieldOf_same.
          split; [reflexivity | apply advance_same; exact S1].
        - cbn. split; [reflexivity | exact (proj2 S1)]. }
      destruct (at_token p1 tokenValue) eqn:V.
      * rewrite <- (value_same _ _ _ S0 V eq_refl). cbn.
        split; [reflexivity | exact S1].
      * cbn. exact (proj2 S0).
Qed.

(** What [Compile] returns in the two grammars. *)
Definition same_compiled (r1 : option (compiled field1))
  (r2 : option (compiled field2)) : Prop :=
  match r1, r2 with
  | Some (Some n1, None), Some (Some n2, None) => n2 = relabel n1
  | Some (None, Some e1), Some (None, Some e2) => same_error e1 e2
  | Some (None, None), Some (None, None) => True
  | _, _ => False
  end.

Lemma Compile_agree (e : string) :
  same_compiled (Compile unicodeLower opValue1 isField1 fieldOf1 e)
    (Compile unicodeLower opValue2 isField2 fieldOf2 e).
Proof.
  unfold Filter.Compile, Filter.parse.
  destruct (String.eqb e ""); [exact I|].
  pose proof (newParser_same e) as S0.
  rewrite <- (at_same _ _ tokenEOF S0).
  destruct (at_token _ tokenEOF); [exact I|].
  destruct (parse_agree (fuel_for e)) as [A _]. specialize (A _ _ S0).
  destruct (fuel_enough unicodeLower opValue1 isField1 field1 fieldOf1
              (fuel_for e)) as [En _].
  pose proof (remaining_newParser unicodeLower opValue1 isField1 e) as R.
  destruct (En (newParser unicodeLower opValue1 isField1 e)) as [St _];
    [unfold fuel_for; lia|].
  destruct (parseOr1 (fuel_for e) _) as [n1 q1| |],
           (parseOr2 (fuel_for e) _) as [n2 q2| |]; cbn in A, St |- *;
    try contradiction; auto.
  exact (proj1 A).
Qed.

End Agreement.

Arguments relabel {field1 field2} h n.

(** ** The two revisions *)

(** The keyword [render] writes for a field of the revision that holds a
    [fieldTyp]: the first name the map [fields] has for it. *)
Definition keyword_of (f : Typ.fieldTyp) : string :=
  match f with
  | Typ.fieldAction => "action"
  | Typ.fieldDestination => "destination"
  | Typ.fieldDirection => "direction"
  | Typ.fieldDstPort => "dstport"
  | Typ.fieldIPVersion => "ipversion"
  | Typ.fieldInterface => "interface"
  | Typ.fieldPort => "port"
  | Typ.fieldProtocol => "protocol"
  | Typ.fieldReason => "reason"
  | Typ.fieldSource => "source"
  | Typ.fieldSrcPort => "srcport"
  end.

Section Revisions.
Variable unicodeLower : string -> string.

(** A word of the case list of field keywords. *)
Definition listed (w : string) : bool := mem w fieldKeywords.

Lemma listed_keyword (f : string) :
  listed f = true ->
  keyword unicodeLower listed string (fun f => f) (fun f => f) f.
Proof.
  intros H. unfold listed, mem in H. apply existsb_exists in H.
  destruct H as [k [Hin E]]. apply String.eqb_eq in E. subst k.
  unfold fieldKeywords in Hin. cbn [In] in Hin.
  repeat (destruct Hin as [<- | Hin];
          [unfold keyword; repeat split; try reflexivity; discriminate|]).
  contradiction.
Qed.

Lemma keyword_of_keyword (f : Typ.fieldTyp) :
  keyword unicodeLower Typ.is_key Typ.fieldTyp Typ.fields_at keyword_of f.
Proof.
  destruct f; unfold keyword; repeat split; try reflexivity; discriminate.
Qed.

(** X16.  Every filter tree can be written down: the expression that puts
    each node in parentheses compiles to the tree itself, with no error, in
    both revisions, when the values of the tree are plain words (not empty,
    without space and parenthesis, no operator and no field keyword in any
    letter case) and, in the revision that stores the keyword, its fields
    are keywords of the list. *)
Theorem Compile_render :
  (forall n : FilterNode string,
     Forall (fun f => listed f = true) (fields n) ->
     Forall (plain unicodeLower listed) (values n) ->
     Str.Compile unicodeLower (render (fun f => f) n) = Some (Some n, None))
  /\ (forall n : FilterNode Typ.fieldTyp,
        Forall (plain unicodeLower Typ.is_key) (values n) ->
        Typ.Compile unicodeLower (render keyword_of n)
        = Some (Some n, None)).
Proof.
  split.
  - intros n F V. unfold Str.Compile.
    apply (Compile_render_tree unicodeLower (fun word _ => word) listed
             string (fun f => f) (fun f => f)).
    apply expressible_intro; [|exact V].
    apply Forall_forall. intros f Hf. rewrite Forall_forall in F.
    apply listed_keyword. auto.
  - intros n V. unfold Typ.Compile.
    apply (Compile_render_tree unicodeLower (fun _ wordLower => wordLower)
             Typ.is_key Typ.fieldTyp Typ.fields_at keyword_of).
    apply expressible_intro; [|exact V].
    apply Forall_forall. intros f _. apply keyword_of_keyword.
Qed.

(** X17.  The values of a tree [Compile] returns are plain words: none is
    empty, none holds a space or a parenthesis, and none is an operator or a
    field keyword in any letter case; the fields of the revision that stores
    the keyword are keywords of the list.  So a text with a space in it, or
    a reserved word, cannot be searched for. *)
Theorem Compile_values :
  (forall (e : string) (n : FilterNode string) (err : option compileError),
     Str.Compile unicodeLower e = Some (Some n, err) ->
     Forall (plain unicodeLower listed) (values n)
     /\ Forall (fun f => listed f = true) (fields n))
  /\ (forall (e : string) (n : FilterNode Typ.fieldTyp)
        (err : option compileError),
        Typ.Compile unicodeLower e = Some (Some n, err) ->
        Forall (plain unicodeLower Typ.is_key) (values n)).
Proof.
  split.
  - intros e n err H. apply Compile_sound in H. destruct H as [V F].
    split; [exact V|]. apply Forall_forall. intros f Hf.
    rewrite Forall_forall in F. destruct (F f Hf) as [k [K <-]]. exact K.
  - intros e n err H. apply Compile_sound in H. exact (proj1 H).
Qed.

Lemma listed_is_key (w : string) : listed w = Typ.is_key w.
Proof.
  destruct (listed w) eqn:L.
  - unfold listed, mem in L. apply existsb_exists in L.
    destruct L as [k [Hin E]]. apply String.eqb_eq in E. subst k.
    unfold fieldKeywords in Hin. cbn [In] in Hin.
    repeat (destruct Hin as [<- | Hin]; [reflexivity|]). contradiction.
  - assert (forall k, In k fieldKeywords -> String.eqb w k = false) as N.
    { intros k Hin. destruct (String.eqb w k) eqn:E; [|reflexivity].
      unfold listed, mem in L. rewrite <- L. symmetry.
      apply existsb_exists. eauto. }
    unfold Typ.is_key.
    assert (forall m : list (string * Typ.fieldTyp),
              (forall k, In k (map fst m) -> In k fieldKeywords) ->
              Typ.lookup m w = None) as G.
    { induction m as [|[k v] m IH]; intros Hm; cbn [Typ.lookup];
        [reflexivity|].
      rewrite (N k) by (apply Hm; cbn; auto).
      apply IH. intros k' Hk'. apply Hm. cbn. auto. }
    rewrite G; [reflexivity|].
    intros k Hin. unfold Typ.fields in Hin. cbn [map fst In] in Hin.
    unfold fieldKeywords. cbn [In].
    repeat (destruct Hin as [<- | Hin]; [tauto|]). contradiction.
Qed.

(** C6.  The grammar is left-associative with the precedence [not] over
    [and] over [or], in both revisions.  For every expression [d] of the
    grammar whose words are field keywords and plain values, and which has no
    white space at its ends, [Compile] on the text of [d] returns the tree of
    [d] and no error; in that tree [not] holds just the primary behind it,
    [and] joins the conjunction read so far with the one operand behind it,
    and [or] joins the expression read so far with the one conjunction
    behind it ([tree_disj]).  So ["src 192.168 and proto tcp or proto udp"]
    compiles to the node [or (and src proto-tcp) proto-udp], which matches
    a record exactly when the source address starts with 192.168 and the
    protocol with tcp, or the protocol starts with udp; a UDP packet from
    10.0.0.1 tells it from the reading grouped to the right, which does not
    match it. *)
Theorem grammar_precedence :
  (forall d : disj,
     words_disj unicodeLower listed d ->
     TrimSpace (text_disj d) = text_disj d ->
     Str.Compile unicodeLower (text_disj d)
     = Some (Some (tree_disj unicodeLower string (fun f => f) d), None))
  /\ (forall d : disj,
        words_disj unicodeLower Typ.is_key d ->
        TrimSpace (text_disj d) = text_disj d ->
        Typ.Compile unicodeLower (text_disj d)
        = Some (Some (tree_disj unicodeLower Typ.fieldTyp Typ.fields_at d),
                None))
  /\ (let expression := "src 192.168 and proto tcp or proto udp" in
      let reading (T : Type) (e : LogEntry T) :=
        (prefix_fold unicodeLower (Src e) "192.168"
         && prefix_fold unicodeLower (ProtoName e) "tcp")
        || prefix_fold unicodeLower (ProtoName e) "udp" in
      let grouped_right (T : Type) (e : LogEntry T) :=
        prefix_fold unicodeLower (Src e) "192.168"
        && (prefix_fold unicodeLower (ProtoName e) "tcp"
            || prefix_fold unicodeLower (ProtoName e) "udp") in
      exists (n1 : FilterNode string) (n2 : FilterNode Typ.fieldTyp),
        Str.Compile unicodeLower expression = Some (Some n1, None)
        /\ Typ.Compile unicodeLower expression = Some (Some n2, None)
        /\ n1 = orFilter (andFilter (fieldFilter "src" "192.168")
                                    (fieldFilter "proto" "tcp"))
                         (fieldFilter "proto" "udp")
        /\ n2 = orFilter (andFilter (fieldFilter Typ.fieldSource "192.168")
                                    (fieldFilter Typ.fieldProtocol "tcp"))
                         (fieldFilter Typ.fieldProtocol "udp")
        /\ (forall (T : Type) (e : LogEntry T),
              Str.Matches unicodeLower n1 e = reading T e)
        /\ (forall e : LogEntry string,
              Typ.Matches unicodeLower n2 e = reading string e)
        /\ (exists e : LogEntry string,
              Str.Matches unicodeLower n1 e = true
              /\ Typ.Matches unicodeLower n2 e = true
              /\ grouped_right string e = false)).
Proof.
  split; [|split].
  - intros d W T. unfold Str.Compile.
    apply (Compile_text unicodeLower (fun word _ => word) listed
             string (fun f => f) d W T).
  - intros d W T. unfold Typ.Compile.
    apply (Compile_text unicodeLower (fun _ wordLower => wordLower)
             Typ.is_key Typ.fieldTyp Typ.fields_at d W T).
  - exact (and_before_or unicodeLower).
Qed.

(** X18.  The two revisions of the filter accept the same expressions: on
    every expression both return a tree, or both an error, or both nothing.
    The tree of the revision that stores a field type is the tree of the
    other with every keyword replaced by its type; the errors are of the
    same kind and name tokens of the same type, with the same text unless
    the token is an operator (whose text one revision keeps as typed, the
    other in lower case). *)
Theorem revisions_agree (e : string) :
  same_compiled string Typ.fieldTyp Typ.fields_at
    (Str.Compile unicodeLower e) (Typ.Compile unicodeLower e).
Proof.
  unfold Str.Compile, Typ.Compile.
  apply (Compile_agree unicodeLower (fun word _ => word)
           (fun _ wordLower => wordLower) listed Typ.is_key
           string Typ.fieldTyp (fun f => f) Typ.fields_at Typ.fields_at).
  - exact listed_is_key.
  - reflexivity.
Qed.

End Revisions.

End LanguageFacts.

(* ================================================================== *)
(** * The JSON output                                                  *)
(* ================================================================== *)

Module JsonFacts.
Import Go GoFacts Stream StreamFacts Filter.
Import SeekFacts CsvFacts ReadFacts LineFacts LanguageFacts.

(** The lines [fmt.Fprintln] writes for a list of texts. *)
Fixpoint lines (texts : list string) : string :=
  match texts with
  | [] => ""
  | t :: texts' => t ++ Cli.LF ++ lines texts'
  end.

Lemma print_errors_lines (errors : list string) :
  forall err : string, Cli.print_errors errors err = err ++ lines errors.
Proof.
  induction errors as [|e errors IH]; intros err;
    cbn [Cli.print_errors lines].
  - symmetry. apply append_nil.
  - rewrite IH, !append_assoc. reflexivity.
Qed.

Lemma join_snoc (bs : list string) (b : string) :
  join (bs ++ [b])
  = match bs with
    | [] => b
    | _ :: _ => join bs ++ "," ++ b
    end.
Proof.
  induction bs as [|a bs IH]; [reflexivity|].
  destruct bs as [|c bs]; [reflexivity|].
  cbn [List.app] in IH |- *.
  rewrite join_cons, IH, join_cons, !append_assoc. reflexivity.
Qed.

Section Json.
Variable TimeT : Type.
Variable time_Parse : string -> TimeT + string.
Variable field : Type.
Variable Compile : string -> option (compiled field).
Variable Matches : FilterNode field -> LogEntry TimeT -> bool.
Variable Marshal_entry : LogEntry TimeT -> string + string.
Variable Marshal_meta : Cli.jsonObjMeta -> string + string.
Variable GetPathAbs : Stream -> string + string.
Variable GetPathRel : Stream -> string.

Local Abbreviation records := (records time_Parse).
Local Abbreviation Next := (Next time_Parse).
Local Abbreviation read_all := (read_all TimeT time_Parse).
Local Abbreviation after_next := (after_next TimeT time_Parse).
Local Abbreviation entries_loop :=
  (Cli.entries_loop time_Parse Matches Marshal_entry).
Local Abbreviation displayJSON :=
  (Cli.displayJSON time_Parse Compile Matches Marshal_entry Marshal_meta
     GetPathAbs GetPathRel).

(** A record the output shows: every record when there is no filter. *)
Definition shown (compiled : option (FilterNode field))
  (e : LogEntry TimeT) : bool :=
  match compiled with
  | Some c => Matches c e
  | None => true
  end.

(** [json.Marshal] encodes the record, and what it encodes it to. *)
Definition encodes (e : LogEntry TimeT) : bool :=
  match Marshal_entry e with
  | inl _ => true
  | inr _ => false
  end.

Definition encoded (e : LogEntry TimeT) : string :=
  match Marshal_entry e with
  | inl b => b
  | inr _ => ""
  end.

(** What [displayJSON] compiles: nothing for the empty filter. *)
Definition compiled_filter (filterValue : string)
  : option (compiled field) :=
  if negb (String.eqb filterValue "") then Compile filterValue
  else Some (None, None).

(** The object the meta data are encoded from. *)
Definition meta_of (s : Stream) (entries : nat) (filterValue : string)
  : Cli.jsonObjMeta :=
  Cli.mkMeta (Z.of_nat entries) (Z.of_nat (List.length (GetErrors s)))
    filterValue
    match GetPathAbs s with
    | inl source => source
    | inr _ => GetPathRel s
    end.

Lemma entries_loop_spec (node : option (FilterNode field)) (P : string)
  (fuel : nat) :
  forall (s : Stream) (done : list (LogEntry TimeT)),
  (List.length (pending (scanner s)) < fuel)%nat ->
  Z.of_nat (List.length done)
  + Z.of_nat (List.length (pending (scanner s))) < 2 ^ 63 ->
  forallb encodes (filter (shown node) (records (pending (scanner s))))
  = true ->
  entries_loop fuel node s (P ++ join (map encoded done))
    (Z.of_nat (List.length done))
  = Done (read_all fuel s,
          P ++ join (map encoded
                       (done ++ filter (shown node)
                                  (records (pending (scanner s))))),
          Z.of_nat (List.length
                      (done ++ filter (shown node)
                                 (records (pending (scanner s))))),
          None).
Proof.
  induction fuel as [|fuel IH]; intros s done Hf Hb He; [lia|].
  cbn [Cli.entries_loop ReadFacts.read_all].
  destruct (Next_spec _ time_Parse s) as [s1 [N [Sc _]]]. rewrite N.
  cbn [bind].
  pose proof (records_after_next _ time_Parse (pending (scanner s))) as R.
  destruct (records (pending (scanner s))) as [|e es] eqn:Rs;
    cbn [hd_error tl] in *.
  - cbn [filter]. rewrite app_nil_r. reflexivity.
  - pose proof (after_next_shorter _ time_Parse (pending (scanner s)) e) as L.
    rewrite Rs in L. specialize (L eq_refl).
    rewrite (scanner_after_record _ _ _ _ _ _ _ Rs) in Sc.
    assert (records (pending (scanner s1)) = es) as R1
      by (rewrite Sc; exact R).
    assert (List.length (pending (scanner s1))
            < List.length (pending (scanner s)))%nat as L1
      by (rewrite Sc; exact L).
    cbn [filter] in He |- *.
    replace (match node with
             | Some c => negb (Matches c e)
             | None => false
             end) with (negb (shown node e))
      by (unfold shown; destruct node; reflexivity).
    destruct (shown node e) eqn:Sh; cbn [negb].
    + cbn [forallb] in He. apply andb_true_iff in He.
      destruct He as [He1 He2]. unfold encodes in He1.
      destruct (Marshal_entry e) as [b|] eqn:M; [|discriminate].
      assert ((if 0 <? Z.of_nat (List.length done)
               then (P ++ join (map encoded done)) ++ ","
               else P ++ join (map encoded done)) ++ b
              = P ++ join (map encoded (done ++ [e]))) as ->.
      { assert (encoded e = b) as Eb
          by (unfold encoded; rewrite M; reflexivity).
        rewrite map_app. cbn [map]. rewrite join_snoc, Eb.
        destruct done as [|d done]; cbn [List.length map].
        - change (0 <? Z.of_nat 0) with false. cbv iota. cbn [join].
          rewrite append_nil. reflexivity.
        - replace (0 <? Z.of_nat (S (List.length done))) with true
            by (symmetry; apply Z.ltb_lt; lia).
          rewrite !append_assoc. reflexivity. }
      rewrite wrap64_small by lia.
      replace (Z.of_nat (List.length done) + 1)
        with (Z.of_nat (List.length (done ++ [e])))
        by (rewrite List.length_app; cbn [List.length]; lia).
      rewrite IH.
      * rewrite R1, <- !app_assoc. reflexivity.
      * lia.
      * rewrite List.length_app. cbn [List.length]. lia.
      * rewrite R1. exact He2.
    + rewrite IH.
      * rewrite R1. reflexivity.
      * lia.
      * lia.
      * rewrite R1. exact He.
Qed.

(** X21.  [displayJSON] with a filter that compiles writes to standard
    output the records [Next] delivers that match the filter (all of them
    when the filter is empty or compiles to no tree), in the order of the
    file,
    encoded and separated by commas, between the texts that open the object
    and the meta data; the meta data count just these records and the
    diagnostics the stream holds after reading.  With no diagnostic it
    returns no error and writes nothing to standard error; with diagnostics
    it writes them there, one a line, and returns the error that tells their
    number. *)
Theorem displayJSON_output (s : Stream) (filterValue : string)
  (node : option (FilterNode field)) (jsonMeta : string) :
  compiled_filter filterValue = Some (node, None) ->
  Z.of_nat (List.length (pending (scanner s))) < 2 ^ 63 ->
  let chosen := filter (shown node) (records (pending (scanner s))) in
  let s' := read_all (S (List.length (pending (scanner s)))) s in
  forallb encodes chosen = true ->
  Marshal_meta (meta_of s' (List.length chosen) filterValue) = inl jsonMeta ->
  displayJSON s filterValue
  = Some (Done (s',
                Cli.mkConsole
                  (Cli.open_entries ++ join (map encoded chosen)
                   ++ Cli.open_meta ++ jsonMeta ++ "}" ++ Cli.LF)
                  (lines (GetErrors s')),
                if 0 <? Z.of_nat (List.length (GetErrors s'))
                then Some (Cli.ErrParseErrors
                             (Z.of_nat (List.length (GetErrors s'))))
                else None)).
Proof.
  intros C Hb chosen s' He Hm. unfold Cli.displayJSON.
  unfold compiled_filter in C. rewrite C.
  pose proof (entries_loop_spec node Cli.open_entries
                (S (List.length (pending (scanner s)))) s []
                ltac:(lia) ltac:(cbn [List.length]; lia) He) as E.
  cbn [map join List.length app] in E. rewrite append_nil in E.
  change (Z.of_nat 0) with 0 in E. rewrite E. cbn [bind].
  fold chosen. fold s'. unfold meta_of in Hm. rewrite Hm.
  rewrite print_errors_lines. rewrite !append_assoc.
  destruct (0 <? Z.of_nat (List.length (GetErrors s'))) eqn:G.
  - reflexivity.
  - apply Z.ltb_ge in G.
    destruct (GetErrors s') as [|x xs]; [reflexivity | cbn in G; lia].
Qed.

End Json.

End JsonFacts.

(* ================================================================== *)
(** * Concrete files                                                   *)
(* ================================================================== *)

(** The properties above hold for every [time.Parse].  The examples below
    need one: [rfc3339] reads the plain form of an RFC 3339 timestamp,
    [YYYY-MM-DDTHH:MM:SS] followed by [Z] or by an offset [+hh:mm] or
    [-hh:mm], which [time.Parse] accepts for the layout [time.RFC3339]; it
    returns the fields it read and the offset in minutes. *)
Module Fixture.
Import Go Stream StreamFacts FilterFacts.

Fixpoint number (n : nat) (acc : Z) (s : string) : option (Z * string) :=
  match n, s with
  | O, _ => Some (acc, s)
  | S n', String c s' =>
      if is_digit c then number n' (10 * acc + (byte_of c - 48)) s' else None
  | S _, EmptyString => None
  end.

Definition sep (c : ascii) (s : string) : option string :=
  match s with
  | String a s' => if Ascii.eqb a c then Some s' else None
  | EmptyString => None
  end.

Definition leap (y : Z) : bool :=
  (y mod 4 =? 0) && (negb (y mod 100 =? 0) || (y mod 400 =? 0)).

Definition days_in (y m : Z) : Z :=
  if m =? 2 then (if leap y then 29 else 28)
  else if (m =? 4) || (m =? 6) || (m =? 9) || (m =? 11) then 30
  else 31.

Definition zone (s : string) : option Z :=
  match s with
  | String c s' =>
      if Ascii.eqb c "Z"%char then
        (if String.eqb s' "" then Some 0 else None)
      else
        let sign :=
          if Ascii.eqb c "+"%char then Some 1
          else if Ascii.eqb c "-"%char then Some (-1)
          else None in
        match sign, number 2 0 s' with
        | Some sg, Some (hh, s1) =>
            match sep ":"%char s1 with
            | Some s2 =>
                match number 2 0 s2 with
                | Some (mm, s3) =>
                    if String.eqb s3 "" && (hh <? 24) && (mm <? 60)
                    then Some (sg * (60 * hh + mm))
                    else None
                | None => None
                end
            | None => None
            end
        | _, _ => None
        end
  | EmptyString => None
  end.

Definition after {A : Type} (o : option (Z * string)) (c : ascii)
  (k : Z -> string -> option A) : option A :=
  match o with
  | Some (v, s) =>
      match sep c s with
      | Some s' => k v s'
      | None => None
      end
  | None => None
  end.

Definition timestamp (s : string) : option (list Z) :=
  after (number 4 0 s) "-"%char (fun y s =>
  after (number 2 0 s) "-"%char (fun m s =>
  after (number 2 0 s) "T"%char (fun d s =>
  after (number 2 0 s) ":"%char (fun h s =>
  after (number 2 0 s) ":"%char (fun mi s =>
  match number 2 0 s with
  | Some (sec, s) =>
      match zone s with
      | Some z =>
          if (1 <=? m) && (m <=? 12) && (1 <=? d) && (d <=? days_in y m)
             && (h <? 24) && (mi <? 60) && (sec <? 60)
          then Some [y; m; d; h; mi; sec; z]
          else None
      | None => None
      end
  | None => None
  end))))).

Definition rfc3339 (s : string) : list Z + string :=
  match timestamp s with
  | Some t => inl t
  | None => inr "cannot parse as RFC 3339"
  end.

Definition LF : string := String newline "".
Definition CRLF : string := String cr (String newline "").

(** Two lines in the format of the firewall log: an IPv4 ICMP packet that
    was blocked and an IPv6 UDP packet that was passed. *)
Definition line_icmp : string :=
  "<134>1 2025-10-10T00:00:00+02:00 fw filterlog 77 - [meta] "
  ++ "84,,,lbl,em0,match,block,in,4,0x0,,64,1,0,none,1,icmp,84,"
  ++ "10.0.0.1,10.0.0.2,request".

Definition line_udp : string :=
  "<134>1 2025-10-10T00:00:01+02:00 fw filterlog 77 - [meta] "
  ++ "85,,,lbl,em0,match,pass,in,6,0x00,0x0,64,udp,17,76,"
  ++ "fe80::1,ff02::1,63511,53,76".

Definition record_icmp : LogEntry (list Z) :=
  mkLogEntry "block" "in" "em0" "lbl" "match" [2025; 10; 10; 0; 0; 0; 120]
    "10.0.0.2" 4 "icmp" "10.0.0.1" 0 0.

Definition record_udp : LogEntry (list Z) :=
  mkLogEntry "pass" "in" "em0" "lbl" "match" [2025; 10; 10; 0; 0; 1; 120]
    "ff02::1" 6 "udp" "fe80::1" 53 63511.

Fixpoint copies (n : nat) (s : string) : string :=
  match n with
  | O => ""
  | S n' => s ++ copies n' s
  end.

(** A log of three lines, the second of which is no record. *)
Definition mixed_file : string :=
  line_icmp ++ LF ++ "not a log line" ++ LF ++ line_udp ++ LF.

(** A log with no valid line. *)
Definition corrupt_file : string := "not a log line" ++ LF.

(** A log that starts with 141 empty lines, every line ended by carriage
    return and line feed. *)
Definition crlf_file : string :=
  copies 141 CRLF ++ line_icmp ++ CRLF ++ line_udp ++ CRLF.

Definition indexed (file : string) : Stream :=
  match BuildIndex rfc3339 (NewStream file) with
  | Done (s, _) => s
  | Panic => NewStream file
  end.

Example parse_line_icmp :
  parseLine_body rfc3339 line_icmp 0 = Done (inr record_icmp).
Proof. vm_compute. reflexivity. Qed.

Example parse_line_udp :
  parseLine_body rfc3339 line_udp 7 = Done (inr record_udp).
Proof. vm_compute. reflexivity. Qed.

Example parse_garbage :
  parseLine_body rfc3339 "not a log line" 7
  = Done (inl "invalid timestamp on line 7: cannot parse as RFC 3339").
Proof. vm_compute. reflexivity. Qed.

Example mixed_file_index :
  BuildIndex rfc3339 (NewStream mixed_file) = Done (indexed mixed_file, None)
  /\ index (indexed mixed_file) = [mkFileOffset 0 0; mkFileOffset 1 156]
  /\ errors (indexed mixed_file)
     = ["invalid timestamp on line 1: cannot parse as RFC 3339"]
  /\ sequential rfc3339 mixed_file = [record_icmp; record_udp].
Proof. vm_compute. repeat split. Qed.


(** An equation both sides of which evaluate to the same value. *)
Ltac by_vm :=
  match goal with
  | |- ?l = ?r => vm_cast_no_check (@eq_refl _ r)
  end.

Lemma fits_mixed_file : fits_int64 mixed_file.
Proof. unfold fits_int64. vm_compute. reflexivity. Qed.

Lemma indexed_mixed_file :
  BuildIndex rfc3339 (NewStream mixed_file) = Done (indexed mixed_file, None).
Proof. vm_compute. reflexivity. Qed.

(** The hypotheses of [index_offsets_increase] hold for [mixed_file], whose
    index has the offsets 0 and 156. *)
Lemma index_offsets_increase_witness :
  fits_int64 mixed_file
  /\ BuildIndex rfc3339 (NewStream mixed_file)
     = Done (indexed mixed_file, None)
  /\ (forall (i j : nat) (fi fj : fileOffset),
        (i < j)%nat ->
        nth_error (index (indexed mixed_file)) i = Some fi ->
        nth_error (index (indexed mixed_file)) j = Some fj ->
        offset fi < offset fj)
  /\ List.length (index (indexed mixed_file)) = 2%nat.
Proof.
  pose proof (index_offsets_increase _ rfc3339 (NewStream mixed_file)
                (indexed mixed_file) fits_mixed_file indexed_mixed_file)
    as [H1 [_ [_ H2]]].
  split; [exact fits_mixed_file|]. split; [exact indexed_mixed_file|].
  split; [exact H1|]. rewrite H2. vm_compute. reflexivity.
Defined.

(** The hypotheses of [TotalLines_after_BuildIndex] hold for [mixed_file],
    which has two records. *)
Lemma TotalLines_after_BuildIndex_witness :
  fits_int64 mixed_file
  /\ BuildIndex rfc3339 (NewStream mixed_file)
     = Done (indexed mixed_file, None)
  /\ TotalLines (NewStream mixed_file) = -1
  /\ TotalLines (indexed mixed_file) = 2.
Proof.
  pose proof (TotalLines_after_BuildIndex _ rfc3339 mixed_file
                (indexed mixed_file) fits_mixed_file indexed_mixed_file)
    as [H1 [H2 _]].
  split; [exact fits_mixed_file|]. split; [exact indexed_mixed_file|].
  split; [exact H1|]. rewrite H2. vm_compute. reflexivity.
Defined.

(** C2 as the claim states it fails on a file with no valid record:
    [BuildIndex] succeeds, a sequential reading delivers no record, and
    [TotalLines] is -1, not 0. *)
Lemma TotalLines_no_valid_record :
  BuildIndex rfc3339 (NewStream corrupt_file)
  = Done (indexed corrupt_file, None)
  /\ List.length (sequential rfc3339 corrupt_file) = 0%nat
  /\ TotalLines (indexed corrupt_file) = -1
  /\ TotalLines_len (indexed corrupt_file) = -1.
Proof.
  split; [vm_compute; reflexivity|].
  split; [vm_compute; reflexivity|].
  split; vm_compute; reflexivity.
Qed.

(** C1 fails on a file with lines that end in carriage return and line
    feed.  [BuildIndex] adds [len(scanner.Bytes()) + 1] to the offset for
    every line, one byte less than such a line takes in the file, as the
    scanner has dropped the carriage return.  [crlf_file] starts with 141
    empty lines of this kind, so the offset recorded for record 1, the UDP
    packet, is 141 bytes short: it is the start of the line of record 0, the
    ICMP packet, which [SeekToLine 1] followed by [Next] returns. *)
Theorem seek_in_crlf_file_returns_other_record :
  BuildIndex rfc3339 (NewStream crlf_file) = Done (indexed crlf_file, None)
  /\ TotalLines (indexed crlf_file) = 2
  /\ index (indexed crlf_file) = [mkFileOffset 0 141; mkFileOffset 1 282]
  /\ len (copies 141 CRLF) = 282
  /\ seek_then_next rfc3339 (indexed crlf_file) 1
     = Done (None, Some record_icmp)
  /\ nth_error (sequential rfc3339 crlf_file) 1 = Some record_udp.
Proof. repeat (split; [by_vm|]). by_vm. Qed.

(** The examples hold ASCII strings only, for which [strings.ToLower] never
    reaches its Unicode branch. *)
Definition ascii_only (s : string) : string := s.

(** [record_icmp] as the revision that keeps the time as text has it. *)
Definition record_icmp_text : LogEntry string :=
  mkLogEntry "block" "in" "em0" "lbl" "match" "2025-10-10T00:00:00+02:00"
    "10.0.0.2" 4 "icmp" "10.0.0.1" 0 0.

(** The hypotheses of [Compile_spaces_only] hold for three spaces. *)
Lemma Compile_spaces_only_witness :
  "   " <> EmptyString /\ only_spaces "   " = true
  /\ Filter.Str.Compile ascii_only "   " = Some (None, None)
  /\ Filter.Typ.Compile ascii_only "   " = Some (None, None)
  /\ filterApplied "   " = true.
Proof.
  assert ("   " <> EmptyString) as H1 by discriminate.
  assert (only_spaces "   " = true) as H2 by reflexivity.
  destruct (Compile_spaces_only ascii_only "   " H1 H2) as [A [B [_ [_ C]]]].
  repeat split; assumption.
Defined.

(** C4 as the claim states it fails in the revision whose [searchFields]
    holds [entry.Time]: the value [2025] is in none of the seven fields of
    the claim, and the bare filter matches the record through its time. *)
Lemma anyFilter_searches_time :
  Filter.Typ.anyFilter_Matches ascii_only "2025" record_icmp_text = true
  /\ existsb (fun f => Contains (ToLower ascii_only f) "2025")
       [ Action record_icmp_text; Direction record_icmp_text;
         Interface record_icmp_text; Reason record_icmp_text;
         Dst record_icmp_text; ProtoName record_icmp_text;
         Src record_icmp_text ] = false.
Proof. split; vm_compute; reflexivity. Qed.

(** C3 fails in the revision whose [fieldFilter] holds a [fieldTyp]:
    [matchInt] compares the decimal rendering alone, so the filters
    [sport 0], [dport 0] and [port 0] match a record without ports, such as
    an ICMP packet.  The other revision tests [entry.SrcPort > 0] first and
    does not match. *)
Theorem port_zero_matches :
  SrcPort record_icmp_text = 0 /\ DstPort record_icmp_text = 0
  /\ Filter.Typ.Compile ascii_only "sport 0"
     = Some (Some (Filter.fieldFilter Filter.Typ.fieldSrcPort "0"), None)
  /\ Filter.Typ.Matches ascii_only
       (Filter.fieldFilter Filter.Typ.fieldSrcPort "0") record_icmp_text
     = true
  /\ Filter.Typ.Matches ascii_only
       (Filter.fieldFilter Filter.Typ.fieldDstPort "0") record_icmp_text
     = true
  /\ Filter.Typ.Matches ascii_only
       (Filter.fieldFilter Filter.Typ.fieldPort "0") record_icmp_text
     = true
  /\ Filter.Str.Matches ascii_only
       (Filter.fieldFilter "sport" "0") record_icmp_text
     = false.
Proof. repeat split; vm_compute; reflexivity. Qed.

(** C8 fails for a right parenthesis that closes nothing: [parse] returns
    what [parseOr] parsed and does not look at the token it stopped at, so
    the expression compiles, in both revisions, to the filter of the part
    before the parenthesis, with no error. *)
Theorem unmatched_rparen_compiles :
  Filter.Str.Compile ascii_only "src 192.168 )"
  = Some (Some (Filter.fieldFilter "src" "192.168"), None)
  /\ Filter.Typ.Compile ascii_only "src 192.168 )"
     = Some (Some (Filter.fieldFilter Filter.Typ.fieldSource "192.168"), None)
  /\ Filter.Str.Compile ascii_only "(proto tcp))"
     = Some (Some (Filter.fieldFilter "proto" "tcp"), None)
  /\ Filter.Typ.Compile ascii_only "(proto tcp))"
     = Some (Some (Filter.fieldFilter Filter.Typ.fieldProtocol "tcp"), None).
Proof. repeat split; vm_compute; reflexivity. Qed.

End Fixture.

(* ================================================================== *)
(** * Concrete views                                                   *)
(* ================================================================== *)

Module Examples.
Import Go Stream StreamFacts FilterFacts Fixture.
Import SeekFacts TuiFacts ViewFacts KeyFacts CsvFacts ReadFacts LineFacts.
Import LanguageFacts RevisionFacts JsonFacts.

Lemma plain_mixed_file : plain_file mixed_file.
Proof.
  unfold plain_file. split; [vm_compute; reflexivity|].
  split; vm_compute; reflexivity.
Qed.

Lemma indexed_over_mixed_file :
  indexed_over _ rfc3339 mixed_file (indexed mixed_file).
Proof. unfold indexed_over. repeat split; vm_compute; reflexivity. Qed.

Lemma mixed_file_records :
  sequential rfc3339 mixed_file = [record_icmp; record_udp].
Proof. vm_compute. reflexivity. Qed.

(** [sliceString_window] at a window inside the string. *)
Lemma sliceString_window_witness :
  - 2 ^ 63 <= 6 + 3 < 2 ^ 63
  /\ Tui.sliceString "hello world" 6 3 = Done "wor".
Proof.
  assert (- 2 ^ 63 <= 6 + 3 < 2 ^ 63) as H by lia.
  split; [exact H|].
  rewrite (sliceString_window "hello world" 6 3 H). reflexivity.
Defined.

(** [extractCSVField_nth] on the text [a,,c]. *)
Lemma extractCSVField_nth_witness :
  ["a"; ""; "c"] <> []
  /\ Forall (fun f => no_comma f = true) ["a"; ""; "c"]
  /\ extractCSVField "a,,c" 1 = Done ("", true)
  /\ extractCSVField "a,,c" 3 = Done ("", false).
Proof.
  assert (["a"; ""; "c"] <> []) as H1 by discriminate.
  assert (Forall (fun f => no_comma f = true) ["a"; ""; "c"]) as H2
    by (repeat constructor).
  split; [exact H1|]. split; [exact H2|]. split.
  - exact (extractCSVField_nth ["a"; ""; "c"] 1 H1 H2).
  - exact (extractCSVField_nth ["a"; ""; "c"] 3 H1 H2).
Defined.

(** [BuildIndex_rewinds] on [mixed_file]. *)
Lemma BuildIndex_rewinds_witness :
  fits_int64 (data (NewStream mixed_file))
  /\ BuildIndex rfc3339 (NewStream mixed_file)
     = Done (indexed mixed_file, None)
  /\ drain _ rfc3339 4 (indexed mixed_file) = [record_icmp; record_udp].
Proof.
  destruct (BuildIndex_rewinds _ rfc3339 (NewStream mixed_file)
              (indexed mixed_file) fits_mixed_file indexed_mixed_file)
    as [H _].
  split; [exact fits_mixed_file|]. split; [exact indexed_mixed_file|].
  change (S (List.length (tokens (data (NewStream mixed_file))))) with 4%nat
    in H.
  rewrite H. exact mixed_file_records.
Defined.

(** [corrupt_file] after [BuildIndex], and after a call of [Next] then. *)
Definition rewound : Stream :=
  run rfc3339 [opBuildIndex] (NewStream corrupt_file).

Definition at_end : Stream :=
  match Next rfc3339 rewound with
  | Done (_, s) => s
  | Panic => rewound
  end.

(** [Next_at_end] on [corrupt_file], whose one line is no record. *)
Lemma Next_at_end_witness :
  failure (NewScanner corrupt_file) = None
  /\ Next rfc3339 rewound = Done (None, at_end)
  /\ Next rfc3339 at_end = Done (None, at_end).
Proof.
  assert (failure (NewScanner corrupt_file) = None) as F
    by (vm_compute; reflexivity).
  assert (Next rfc3339 rewound = Done (None, at_end)) as H
    by (vm_compute; reflexivity).
  split; [exact F|]. split; [exact H|].
  exact (Next_at_end _ rfc3339 corrupt_file [opBuildIndex] at_end F H).
Defined.

(** [SeekToLine_reads_on] on [mixed_file], from record 1. *)
Lemma SeekToLine_reads_on_witness :
  fits_int64 mixed_file /\ lf_only mixed_file = true
  /\ failure (NewScanner mixed_file) = None
  /\ indexed_over _ rfc3339 mixed_file (indexed mixed_file)
  /\ 0 <= 1 < Z.of_nat (List.length (sequential rfc3339 mixed_file))
  /\ exists s2 : Stream,
       SeekToLine (indexed mixed_file) 1 = Done (s2, None)
       /\ drain _ rfc3339 (S (List.length (pending (scanner s2)))) s2
          = [record_udp].
Proof.
  destruct plain_mixed_file as [_ [L F]].
  assert (0 <= 1 < Z.of_nat (List.length (sequential rfc3339 mixed_file)))
    as Hn by (rewrite mixed_file_records; cbn; lia).
  destruct (SeekToLine_reads_on _ rfc3339 mixed_file (indexed mixed_file) 1
              fits_mixed_file L F indexed_over_mixed_file Hn)
    as [s2 [E D]].
  repeat (split; [assumption || exact fits_mixed_file
                  || exact indexed_over_mixed_file|]).
  exists s2. split; [exact E|]. rewrite D, mixed_file_records. reflexivity.
Defined.

(** [loadEntries_block] on [mixed_file]: a block of two from record 1 on
    holds record 1. *)
Lemma loadEntries_block_witness :
  plain_file mixed_file
  /\ indexed_over _ rfc3339 mixed_file (indexed mixed_file)
  /\ 0 < 2 < 2 ^ 62
  /\ exists s' : Stream,
       Tui.loadEntries rfc3339 (indexed mixed_file) 1 2
       = Done (Tui.entriesMsg [record_udp] 1, s').
Proof.
  assert (0 < 2 < 2 ^ 62) as Hc by lia.
  destruct (loadEntries_block _ rfc3339 mixed_file (indexed mixed_file) 1 2
              plain_mixed_file indexed_over_mixed_file Hc) as [_ H].
  rewrite mixed_file_records in H.
  destruct (H ltac:(cbn; lia)) as [_ [s' [E _]]].
  split; [exact plain_mixed_file|]. split; [exact indexed_over_mixed_file|].
  split; [exact Hc|]. exists s'. exact E.
Defined.

(** A model that has the index of [mixed_file] and the filter [proto udp]. *)
Definition filtering : Tui.model (list Z) string :=
  Tui.mkModel true [] 0 [] 2 [0; 1] true
    (Some (Filter.fieldFilter "proto" "udp")) "" "proto udp" false
    [] false 24 80 false 0 0 "".

(** [scanAndFilter_matches] on [mixed_file] with the filter [proto udp]:
    record 1 matches. *)
Lemma scanAndFilter_matches_witness :
  plain_file mixed_file
  /\ indexed_over _ rfc3339 mixed_file (indexed mixed_file)
  /\ Tui.entriesTotal filtering = TotalLines (indexed mixed_file)
  /\ sequential rfc3339 mixed_file <> []
  /\ exists (l : list Z) (s' : Stream),
       Tui.scanAndFilter rfc3339 (@Filter.Str.Matches ascii_only (list Z)) filtering
         (indexed mixed_file)
       = Done (Tui.filterMsg _ l, s')
       /\ (In 1 l <-> True) /\ (In 0 l <-> False).
Proof.
  assert (Tui.entriesTotal filtering = TotalLines (indexed mixed_file)) as Ht
    by (vm_compute; reflexivity).
  assert (sequential rfc3339 mixed_file <> []) as Hne
    by (rewrite mixed_file_records; discriminate).
  destruct (scanAndFilter_matches _ rfc3339 _ (@Filter.Str.Matches ascii_only (list Z))
              mixed_file (indexed mixed_file) filtering
              plain_mixed_file indexed_over_mixed_file Ht Hne) as [H _].
  destruct (H _ eq_refl) as [l [s' [E [Hin _]]]].
  split; [exact plain_mixed_file|]. split; [exact indexed_over_mixed_file|].
  split; [exact Ht|]. split; [exact Hne|].
  exists l, s'. split; [exact E|]. rewrite !Hin, mixed_file_records. split.
  - split; [auto|]. intros _. split; [lia|]. exists record_udp. split;
      [reflexivity | vm_compute; reflexivity].
  - split; [|contradiction]. intros [_ [e [H1 H2]]].
    cbn in H1. injection H1 as <-. vm_compute in H2. discriminate.
Defined.

(** [loadEntriesFiltered_map] on [mixed_file] for the ordinals 1 and 7. *)
Lemma loadEntriesFiltered_map_witness :
  plain_file mixed_file
  /\ indexed_over _ rfc3339 mixed_file (indexed mixed_file)
  /\ exists (entries : list (Z * LogEntry (list Z))) (s' : Stream),
       Tui.loadEntriesFiltered rfc3339 (indexed mixed_file) [1; 7]
       = Done (Tui.entriesFilteredMsg entries, s')
       /\ Tui.map_lookup entries 1 = Some record_udp
       /\ Tui.map_lookup entries 7 = None
       /\ Tui.map_lookup entries 0 = None.
Proof.
  destruct (loadEntriesFiltered_map _ rfc3339 mixed_file (indexed mixed_file)
              [1; 7] plain_mixed_file indexed_over_mixed_file)
    as [entries [s' [E [_ H]]]].
  split; [exact plain_mixed_file|]. split; [exact indexed_over_mixed_file|].
  exists entries, s'. split; [exact E|].
  rewrite !H, mixed_file_records. repeat split.
Defined.

(** A view of five errors on a terminal of three rows, with a filter that
    has one match. *)
Definition narrow : Tui.model (list Z) string :=
  Tui.mkModel true [] 0 [] 2 [1] true
    (Some (Filter.fieldFilter "proto" "udp")) "" "proto udp" false
    ["e1"; "e2"; "e3"; "e4"; "e5"] false 3 80 false 0 0 "".

Lemma sane_narrow : sane _ _ narrow.
Proof. unfold sane, lenA, lenE. cbn. lia. Qed.

Lemma scroll_bounds_narrow : scroll_bounds _ _ narrow.
Proof. unfold scroll_bounds, lenA, lenE. cbn. lia. Qed.

(** [checkLoadEntriesFiltered_panics] on [narrow], scrolled to its first
    row: the call returns. *)
Lemma checkLoadEntriesFiltered_panics_witness :
  sane _ _ narrow /\ 0 <= Tui.uiScrollV narrow <= 2 ^ 62 + 3
  /\ Tui.checkLoadEntriesFiltered narrow <> Panic.
Proof.
  assert (0 <= Tui.uiScrollV narrow <= 2 ^ 62 + 3) as Hv by (cbn; lia).
  destruct (checkLoadEntriesFiltered_panics _ _ narrow sane_narrow Hv)
    as [[H _] _].
  split; [exact sane_narrow|]. split; [exact Hv|].
  intros E. destruct (H E) as [_ [_ [C | C]]]; cbn in C; lia.
Defined.

(** [handleNormalInput_scroll_bounds] on [narrow] and the key [$]. *)
Lemma handleNormalInput_scroll_bounds_witness :
  sane _ _ narrow /\ scroll_bounds _ _ narrow
  /\ Tui.handleNormalInput narrow "$"
     = Done (Tui.set_uiScrollH narrow 85, Tui.cmdNil)
  /\ scroll_bounds _ _ (Tui.set_uiScrollH narrow 85).
Proof.
  assert (Tui.handleNormalInput narrow "$"
          = Done (Tui.set_uiScrollH narrow 85, Tui.cmdNil)) as E
    by (vm_compute; reflexivity).
  destruct (handleNormalInput_scroll_bounds _ _ narrow _ "$" _
              sane_narrow scroll_bounds_narrow E) as [_ H].
  split; [exact sane_narrow|]. split; [exact scroll_bounds_narrow|].
  split; [exact E | exact H].
Defined.

(** [scrolling_errors_with_filter_panics] on [narrow]: [e], then [j]
    twice. *)
Lemma scrolling_errors_with_filter_panics_witness :
  sane _ _ narrow /\ Tui.indexed narrow = true
  /\ Tui.filterApplied narrow = true /\ Tui.errorsView narrow = false
  /\ Tui.entriesAvailable narrow <> [] /\ 3 <= Tui.uiHeight narrow
  /\ lenA _ _ narrow + (Tui.uiHeight narrow - 3) < lenE _ _ narrow
  /\ press _ _ ["e"; "j"; "j"] narrow = Panic.
Proof.
  assert (Tui.entriesAvailable narrow <> []) as H1 by discriminate.
  assert (3 <= Tui.uiHeight narrow) as H2 by (cbn; lia).
  assert (lenA _ _ narrow + (Tui.uiHeight narrow - 3) < lenE _ _ narrow)
    as H3 by (unfold lenA, lenE; cbn; lia).
  repeat (split; [first [exact sane_narrow | reflexivity | assumption]|]).
  exact (scrolling_errors_with_filter_panics _ _ narrow sane_narrow
           eq_refl eq_refl eq_refl H1 H2 H3).
Defined.

(** [narrow] with its errors on show. *)
Definition narrow_errors : Tui.model (list Z) string :=
  Tui.set_errorsView narrow true.

Lemma sane_narrow_errors : sane _ _ narrow_errors.
Proof. unfold sane, lenA, lenE. cbn. lia. Qed.

(** [closing_errors_at_end_panics] on [narrow_errors]: five errors, one
    match and no row of content. *)
Lemma closing_errors_at_end_panics_witness :
  sane _ _ narrow_errors /\ Tui.indexed narrow_errors = true
  /\ Tui.filterApplied narrow_errors = true
  /\ Tui.errorsView narrow_errors = true
  /\ Tui.entriesAvailable narrow_errors <> []
  /\ 3 <= Tui.uiHeight narrow_errors
  /\ lenA _ _ narrow_errors + (Tui.uiHeight narrow_errors - 3) + 1
     < lenE _ _ narrow_errors
  /\ press _ _ ["G"; "esc"; "k"] narrow_errors = Panic.
Proof.
  assert (Tui.entriesAvailable narrow_errors <> []) as H1 by discriminate.
  assert (3 <= Tui.uiHeight narrow_errors) as H2 by (cbn; lia).
  assert (lenA _ _ narrow_errors + (Tui.uiHeight narrow_errors - 3) + 1
          < lenE _ _ narrow_errors)
    as H3 by (unfold lenA, lenE; cbn; lia).
  repeat (split;
          [first [exact sane_narrow_errors | reflexivity | assumption]|]).
  exact (closing_errors_at_end_panics _ _ narrow_errors sane_narrow_errors
           eq_refl eq_refl eq_refl H1 H2 H3).
Defined.

(** The columns of the first line of [mixed_file]. *)
Definition icmp_fields : list string :=
  [ "84"; ""; ""; "lbl"; "em0"; "match"; "block"; "in"; "4"; "0x0"; "";
    "64"; "1"; "0"; "none"; "1"; "icmp"; "84"; "10.0.0.1"; "10.0.0.2";
    "request" ].

(** [parseLine_columns] on the line of the blocked ICMP packet. *)
Lemma parseLine_columns_witness :
  header "<134>1" "2025-10-10T00:00:00+02:00" "fw filterlog 77 - [meta"
  /\ rfc3339 "2025-10-10T00:00:00+02:00" = inl [2025; 10; 10; 0; 0; 0; 120]
  /\ icmp_fields <> []
  /\ Forall (fun f => no_comma f = true) icmp_fields
  /\ parseLine rfc3339 (NewStream "") line_icmp 7
     = Done (Some record_icmp, NewStream "").
Proof.
  assert (header "<134>1" "2025-10-10T00:00:00+02:00"
            "fw filterlog 77 - [meta") as H1
    by (unfold header; repeat split).
  assert (rfc3339 "2025-10-10T00:00:00+02:00"
          = inl [2025; 10; 10; 0; 0; 0; 120]) as H2 by reflexivity.
  assert (icmp_fields <> []) as H3 by discriminate.
  assert (Forall (fun f => no_comma f = true) icmp_fields) as H4
    by (repeat constructor).
  repeat (split; [assumption|]).
  exact (parseLine_columns _ rfc3339 (NewStream "") _ _ _ _ icmp_fields 7
           H1 H2 H3 H4).
Defined.

(** The stream over [mixed_file] after one call of [Next]. *)
Definition after_first : Stream :=
  match Next rfc3339 (NewStream mixed_file) with
  | Done (_, s) => s
  | Panic => NewStream mixed_file
  end.

(** [Next_well_formed] on the first record of [mixed_file]. *)
Lemma Next_well_formed_witness :
  Next rfc3339 (NewStream mixed_file) = Done (Some record_icmp, after_first)
  /\ well_formed _ record_icmp.
Proof.
  assert (Next rfc3339 (NewStream mixed_file)
          = Done (Some record_icmp, after_first)) as H
    by (vm_compute; reflexivity).
  split; [exact H|].
  exact (Next_well_formed _ rfc3339 (NewStream mixed_file) after_first
           record_icmp H).
Defined.

(** The filter [proto udp and not 10.0.0.1] as a tree. *)
Definition udp_not_host : Filter.FilterNode string :=
  Filter.andFilter (Filter.fieldFilter "proto" "udp")
    (Filter.notFilter (Filter.anyFilter "10.0.0.1")).

(** [Compile_render] on [udp_not_host]. *)
Lemma Compile_render_witness :
  Filter.Str.Compile ascii_only "((proto udp) and (not (10.0.0.1)))"
  = Some (Some udp_not_host, None).
Proof.
  apply (proj1 (Compile_render ascii_only) udp_not_host).
  - repeat constructor.
  - cbn [values udp_not_host app].
    repeat (apply Forall_cons || apply Forall_nil);
      unfold plain; repeat split; try reflexivity; discriminate.
Defined.

(** [Compile_values] on the expression [proto udp]. *)
Lemma Compile_values_witness :
  Filter.Str.Compile ascii_only "proto udp"
  = Some (Some (Filter.fieldFilter "proto" "udp"), None)
  /\ Forall (plain ascii_only listed) ["udp"]
  /\ Forall (fun f => listed f = true) ["proto"].
Proof.
  assert (Filter.Str.Compile ascii_only "proto udp"
          = Some (Some (Filter.fieldFilter "proto" "udp"), None)) as H
    by (vm_compute; reflexivity).
  split; [exact H|].
  exact (proj1 (Compile_values ascii_only) "proto udp" _ None H).
Defined.

(** [revisions_read_alike] on new streams over [mixed_file]. *)
Lemma revisions_read_alike_witness :
  alike (NewStream mixed_file) (Stream2.NewStream mixed_file)
  /\ same_read (list Z) (Next rfc3339 (NewStream mixed_file))
       (Stream2.Next rfc3339 (Stream2.NewStream mixed_file)).
Proof.
  assert (alike (NewStream mixed_file) (Stream2.NewStream mixed_file)) as H
    by (unfold alike; repeat split).
  split; [exact H|].
  exact (proj1 (proj2 (revisions_read_alike _ rfc3339 _ _ H))).
Defined.

(** Stand-ins for [json.Marshal]: a record as its source address, the meta
    data as the number of entries. *)
Definition source_only (e : LogEntry (list Z)) : string + string :=
  inl (Src e).

Definition entries_only (m : Cli.jsonObjMeta) : string + string :=
  inl (FormatInt (Cli.Entries m)).

(** [displayJSON_output] on [mixed_file] with the filter [proto udp]: one
    record is written, and the line that is no record makes the call return
    an error. *)
Lemma displayJSON_output_witness :
  exists (s' : Stream) (err : string),
    Cli.displayJSON rfc3339 (Filter.Str.Compile ascii_only)
      (@Filter.Str.Matches ascii_only (list Z)) source_only entries_only
      (fun _ => inr "") (fun _ => "filter.log")
      (NewStream mixed_file) "proto udp"
    = Some (Done (s',
                  Cli.mkConsole
                    (Cli.open_entries ++ "fe80::1" ++ Cli.open_meta ++ "1}"
                     ++ Cli.LF) err,
                  Some (Cli.ErrParseErrors 1))).
Proof.
  pose proof (displayJSON_output _ rfc3339 _ (Filter.Str.Compile ascii_only)
                (@Filter.Str.Matches ascii_only (list Z)) source_only
                entries_only (fun _ => inr "") (fun _ => "filter.log")
                (NewStream mixed_file) "proto udp"
                (Some (Filter.fieldFilter "proto" "udp")) "1") as H.
  cbv zeta in H. rewrite H.
  - eexists. eexists. vm_compute. reflexivity.
  - vm_compute. reflexivity.
  - vm_compute. reflexivity.
  - vm_compute. reflexivity.
  - vm_compute. reflexivity.
Defined.

(** The expression
    [not 10.0.0.1 and proto udp or (action block or action pass) and dir in]
    as the grammar reads it. *)
Definition sample : disj :=
  either
    (only (also (one (negated (bare "10.0.0.1")))
                (plainly (pair "proto" "udp"))))
    (also (one (plainly
                  (paren (either (only (one (plainly (pair "action" "block"))))
                                 (one (plainly (pair "action" "pass")))))))
          (plainly (pair "dir" "in"))).

(** [grammar_precedence] on [sample]: [not] holds the address alone, the two
    conjunctions are the operands of [or], and the parentheses stand for one
    operand of [and]. *)
Lemma grammar_precedence_witness :
  Filter.Str.Compile ascii_only
    "not 10.0.0.1 and proto udp or (action block or action pass) and dir in"
  = Some (Some (Filter.orFilter
                  (Filter.andFilter
                     (Filter.notFilter (Filter.anyFilter "10.0.0.1"))
                     (Filter.fieldFilter "proto" "udp"))
                  (Filter.andFilter
                     (Filter.orFilter (Filter.fieldFilter "action" "block")
                                      (Filter.fieldFilter "action" "pass"))
                     (Filter.fieldFilter "dir" "in"))),
          None).
Proof.
  apply (proj1 (grammar_precedence ascii_only) sample).
  - cbn [words_disj words_conj words_operand words_prim sample].
    unfold key, plain. repeat split; try reflexivity; discriminate.
  - vm_compute. reflexivity.
Defined.

End Examples.
